(** * m3 dbnode: series buffer, namespace index query and seeker manager

    A shallow embedding of
    - [src/dbnode/storage/series/buffer.go] (module [Buffer]),
    - [src/dbnode/persist/fs/seek_manager.go] (module [SeekMgr]),
    - the namespace index query traversal (module [NsIndex]),
    together with the properties stated about them. *)

From Stdlib Require Import ZArith Lia Bool.
From stdpp Require Import gmap list sorting.

(** ** Time

    A [time.Time] instant is modelled by its number of nanoseconds since the
    Unix epoch, as an unbounded integer (the Go type covers far more than the
    int64 nanosecond range).  A [time.Duration] is an int64 number of
    nanoseconds; arithmetic on durations wraps. *)
Module Clock.
Local Open Scope Z_scope.

Abbreviation Time := Z (only parsing).
Abbreviation Duration := Z (only parsing).

Definition wrap64 (z : Z) : Z := (z + 2 ^ 63) mod 2 ^ 64 - 2 ^ 63.

(** [-d] and [k * d] on [time.Duration] (int64). *)
Definition dneg (d : Duration) : Duration := wrap64 (- d).
Definition dmul (k : Z) (d : Duration) : Duration := wrap64 (k * d).

Definition Add (t : Time) (d : Duration) : Time := t + d.
Definition Before (t u : Time) : bool := t <? u.
Definition After (t u : Time) : bool := u <? t.
Definition Equal (t u : Time) : bool := t =? u.

(** The zero [time.Time] (January 1, year 1, UTC). *)
Definition timeZero : Time := - (62135596800 * 10 ^ 9).

(** [t.Truncate(d)]: round down to a multiple of [d] since the zero time;
    [t] itself when [d <= 0]. *)
Definition Truncate (t : Time) (d : Duration) : Time :=
  if d <=? 0 then t else t - ((t - timeZero) mod d).

(** A duration whose negation does not overflow. *)
Definition negatable (d : Duration) : Prop := - 2 ^ 63 < d < 2 ^ 63.

End Clock.

(** ** The series buffer *)
Module Buffer.
Import Clock.

(** Modelled from the spec: the [WriteType] enumeration is declared outside
    the given sources; the spec lists its variants as Warm, Cold and
    Bootstrap. *)
Inductive WriteType := WarmWrite | ColdWrite | BootstrapWriteType.

#[global] Instance WriteType_eq_dec : EqDecision WriteType.
Proof. solve_decision. Defined.

(** Modelled from the spec: the [FlushOutcome] enumeration is declared
    outside the given sources; the spec lists [FlushedToDisk],
    [BlockDoesNotExist] and [Err]. *)
Inductive FlushOutcome :=
  FlushOutcomeErr | FlushOutcomeBlockDoesNotExist | FlushOutcomeFlushedToDisk.

(** Go [error] values returned by the buffer.  [ExternalError] stands for
    any error produced by a collaborator (encoder, iterator, block, segment
    reader, persist function), identified by a code. *)
Inductive error :=
| InvalidParamsError
| ErrTooPast
| ErrTooFuture
| errIncompleteMerge
| InvariantError (blockStart : Z)
| errFetchBlocksNotOne
| errBucketsDoNotExist
| errWritableBucketDoesNotExist
| ExternalError (code : Z).

Record Datapoint (V : Type) := { Timestamp : Time; DValue : V }.
Arguments Timestamp {V} _.
Arguments DValue {V} _.

Record BlockReaderOf (SR : Type) :=
  { br_reader : option SR; br_start : Time; br_blockSize : Duration }.
Arguments br_reader {SR} _.
Arguments br_start {SR} _.
Arguments br_blockSize {SR} _.

(** The collaborators of the buffer: encoders, bootstrapped blocks, segment
    readers and the multi-reader iterator are consumed through their
    interfaces only.  They are kept abstract; every operation that can fail
    in Go returns an error code here. *)
Class Externals := {
  Value : Type;
  (** [==] on float64 values *)
  value_eq : Value -> Value -> bool;
  (** unit, annotation and schema, handed to the encoder verbatim *)
  Meta : Type;
  Encoder : Type;
  Block : Type;
  SegmentReader : Type;
  Segment : Type;
  (** [EncoderPool().Get()] followed by [Reset(start, ...)] *)
  encoderGet : Time -> Encoder;
  (** [Encode]: the encoder afterwards and the error, if any *)
  Encode : Encoder -> Datapoint Value -> Meta -> Encoder * option Z;
  (** [Stream]: the reader when [ok] *)
  EncStream : Encoder -> option SegmentReader;
  EncLen : Encoder -> Z;
  LastEncoded : Encoder -> Z + Datapoint Value;
  BlockLen : Block -> Z;
  BlockStartTime : Block -> Time;
  BlockStream : Block -> Z + BlockReaderOf SegmentReader;
  IsNotEmpty : BlockReaderOf SegmentReader -> bool;
  (** a block reader used where a segment reader is expected (interface
      embedding) *)
  asSegmentReader : BlockReaderOf SegmentReader -> SegmentReader;
  (** a multi-reader iterator run to exhaustion over the given readers: the
      points it yields in order and its final [Err()] *)
  iterate : list SegmentReader -> Time -> Duration ->
            list (Datapoint Value * Meta) * option Z;
  SegmentOf : SegmentReader -> Z + Segment;
  SegmentLen : Segment -> Z
}.

(** *** [OptimizedTimes]

    A fixed array of [optimizedTimesArraySize] times, filled first, and a
    slice for the times that do not fit.  [ForEach] threads the state of the
    callback through the calls. *)
Module OptimizedTimes.

Definition optimizedTimesArraySize : nat := 8.

Record t := { arrIdx : nat; arr : list Z; slice : list Z }.

(** The zero value of the struct. *)
Definition zero : t :=
  {| arrIdx := 0; arr := replicate optimizedTimesArraySize 0%Z; slice := [] |}.

Definition Add (ts : t) (newTime : Z) : t :=
  if (arrIdx ts <? optimizedTimesArraySize)%nat then
    {| arrIdx := S (arrIdx ts); arr := <[arrIdx ts := newTime]> (arr ts);
       slice := slice ts |}
  else
    {| arrIdx := arrIdx ts; arr := arr ts; slice := slice ts ++ [newTime] |}.

Definition Len (ts : t) : nat := (arrIdx ts + length (slice ts))%nat.

Definition Contains (ts : t) (target : Z) : bool :=
  existsb (fun tt => Equal tt target) (take (arrIdx ts) (arr ts))
  || existsb (fun tt => Equal tt target) (slice ts).

Definition ForEach {S : Type} (ts : t) (fn : Z -> S -> S) (s : S) : S :=
  foldl (fun acc tNano => fn tNano acc)
        (foldl (fun acc tNano => fn tNano acc) s (take (arrIdx ts) (arr ts)))
        (slice ts).

End OptimizedTimes.

Section WithExternals.
Context `{Ext : Externals}.

Definition BlockReader := BlockReaderOf SegmentReader.

(** Resources closed so far, in order. *)
Inductive Closed :=
| ClosedEncoder (e : Encoder)
| ClosedBlock (b : Block).

Definition Log := list Closed.

Definition writableBucketVersion : Z := 0.

Record inOrderEncoder := { encoder : Encoder; lastWriteAt : Time }.

Record BufferBucket := {
  start : Time;
  encoders : list inOrderEncoder;
  bootstrapped : list Block;
  version : Z;
  writeType : WriteType
}.

Definition setEncoders (b : BufferBucket) (es : list inOrderEncoder) : BufferBucket :=
  {| start := start b; encoders := es; bootstrapped := bootstrapped b;
     version := version b; writeType := writeType b |}.

Definition setBootstrapped (b : BufferBucket) (bs : list Block) : BufferBucket :=
  {| start := start b; encoders := encoders b; bootstrapped := bs;
     version := version b; writeType := writeType b |}.

Definition setVersion (b : BufferBucket) (v : Z) : BufferBucket :=
  {| start := start b; encoders := encoders b; bootstrapped := bootstrapped b;
     version := v; writeType := writeType b |}.

(** [resetEncoders]: close every encoder, then empty the slice. *)
Definition resetEncoders (b : BufferBucket) (log : Log) : BufferBucket * Log :=
  (setEncoders b [], log ++ map (fun e => ClosedEncoder (encoder e)) (encoders b)).

(** [resetBootstrapped]: close every block, then drop the slice. *)
Definition resetBootstrapped (b : BufferBucket) (log : Log) : BufferBucket * Log :=
  (setBootstrapped b [], log ++ map ClosedBlock (bootstrapped b)).

(** [BufferBucket.resetTo] on a bucket taken from the pool: whatever the
    pooled bucket held is closed by [reset] and the bucket restarts with one
    fresh encoder, no bootstrapped block and the writable version. *)
Definition newBucket (st : Time) (wt : WriteType) : BufferBucket :=
  {| start := st;
     encoders := [ {| encoder := encoderGet st; lastWriteAt := timeZero |} ];
     bootstrapped := [];
     version := writableBucketVersion;
     writeType := wt |}.

Definition hasJustSingleEncoder (b : BufferBucket) : bool :=
  (length (encoders b) =? 1)%nat && (length (bootstrapped b) =? 0)%nat.

Definition hasJustSingleBootstrappedBlock (b : BufferBucket) : bool :=
  let encodersEmpty :=
    (length (encoders b) =? 0)%nat ||
    ((length (encoders b) =? 1)%nat &&
     match encoders b with
     | e :: _ => (EncLen (encoder e) =? 0)%Z
     | [] => false
     end) in
  encodersEmpty && (length (bootstrapped b) =? 1)%nat.

Definition needsMerge (b : BufferBucket) : bool :=
  negb (hasJustSingleEncoder b || hasJustSingleBootstrappedBlock b).

(** The loop of [mergeStreamsToEncoder] over the points of the iterator. *)
Fixpoint encodeAll (enc : Encoder) (lastW : Time)
    (pts : list (Datapoint Value * Meta)) : (Encoder * Z) + (Encoder * Time) :=
  match pts with
  | [] => inr (enc, lastW)
  | (dp, m) :: rest =>
      match Encode enc dp m with
      | (enc', Some code) => inl (enc', code)
      | (enc', None) => encodeAll enc' (Timestamp dp) rest
      end
  end.

(** [mergeStreamsToEncoder]: on any error the new encoder is closed. *)
Definition mergeStreamsToEncoder (blockStart : Time) (blockSize : Duration)
    (streams : list SegmentReader) (log : Log)
  : (error + (Encoder * Time)) * Log :=
  let encoder0 := encoderGet blockStart in
  let '(pts, iterErr) := iterate streams blockStart blockSize in
  match encodeAll encoder0 timeZero pts with
  | inl (enc', code) => (inl (ExternalError code), log ++ [ClosedEncoder enc'])
  | inr (enc', lastW) =>
      match iterErr with
      | Some code => (inl (ExternalError code), log ++ [ClosedEncoder enc'])
      | None => (inr (enc', lastW), log)
      end
  end.

(** The readers [BufferBucket.merge] collects: bootstrapped blocks first,
    then the encoders that have a stream. *)
Definition mergeReaders (b : BufferBucket) : list SegmentReader :=
  omap (fun bl => match BlockStream bl with
                  | inr br => br_reader br
                  | inl _ => None
                  end) (bootstrapped b)
  ++ omap (fun e => EncStream (encoder e)) (encoders b).

Definition merge (blockSize : Duration) (b : BufferBucket) (log : Log)
  : (error + nat) * BufferBucket * Log :=
  if negb (needsMerge b) then (inr 0%nat, b, log)
  else
    let readers := mergeReaders b in
    match mergeStreamsToEncoder (start b) blockSize readers log with
    | (inl err, log1) => (inl err, b, log1)
    | (inr (enc, lastW), log1) =>
        let '(b1, log2) := resetEncoders b log1 in
        let '(b2, log3) := resetBootstrapped b1 log2 in
        (inr (length readers),
         setEncoders b2 (encoders b2 ++ [ {| encoder := enc; lastWriteAt := lastW |} ]),
         log3)
    end.

(** Result of [mergeToStream]: [(stream, ok, err)]. *)
Inductive StreamResult :=
| StreamErr (e : error)
| StreamNone
| StreamOk (s : SegmentReader).

Definition firstEncoderStream (b : BufferBucket) : StreamResult :=
  match encoders b with
  | e :: _ =>
      match EncStream (encoder e) with
      | Some s => StreamOk s
      | None => StreamNone
      end
  | [] => StreamNone
  end.

Definition mergeToStream (blockSize : Duration) (b : BufferBucket) (log : Log)
  : StreamResult * BufferBucket * Log :=
  if hasJustSingleEncoder b then
    let '(b1, log1) := resetBootstrapped b log in
    (firstEncoderStream b1, b1, log1)
  else if hasJustSingleBootstrappedBlock b then
    let '(b1, log1) := resetEncoders b log in
    match bootstrapped b1 with
    | bl :: _ =>
        match BlockStream bl with
        | inl code => (StreamErr (ExternalError code), b1, log1)
        | inr br => (StreamOk (asSegmentReader br), b1, log1)
        end
    | [] => (StreamNone, b1, log1)
    end
  else
    match merge blockSize b log with
    | (inl err, b1, log1) =>
        let '(b2, log2) := resetEncoders b1 log1 in
        let '(b3, log3) := resetBootstrapped b2 log2 in
        (StreamErr err, b3, log3)
    | (inr _, b1, log1) =>
        if negb (hasJustSingleEncoder b1) then (StreamErr errIncompleteMerge, b1, log1)
        else (firstEncoderStream b1, b1, log1)
    end.

(** Outcome of the encoder search at the head of [BufferBucket.write]. *)
Inductive FindEncoder :=
| FoundErr (code : Z)
| FoundNoop
| FoundIdx (i : nat)
| FoundNone.

Fixpoint findEncoder (timestamp : Time) (value : Value)
    (es : list inOrderEncoder) (i : nat) : FindEncoder :=
  match es with
  | [] => FoundNone
  | e :: rest =>
      if Equal timestamp (lastWriteAt e) then
        match LastEncoded (encoder e) with
        | inl code => FoundErr code
        | inr last =>
            if value_eq (DValue last) value then FoundNoop
            else findEncoder timestamp value rest (S i)
        end
      else if After timestamp (lastWriteAt e) then FoundIdx i
      else findEncoder timestamp value rest (S i)
  end.

(** [writeToEncoderIndex]; [idx] is in range at both call sites. *)
Definition writeToEncoderIndex (b : BufferBucket) (idx : nat)
    (dp : Datapoint Value) (m : Meta) : option error * BufferBucket :=
  match encoders b !! idx with
  | None => (None, b)
  | Some e =>
      match Encode (encoder e) dp m with
      | (enc', Some code) =>
          (Some (ExternalError code),
           setEncoders b (<[idx := {| encoder := enc'; lastWriteAt := lastWriteAt e |}]> (encoders b)))
      | (enc', None) =>
          (None,
           setEncoders b (<[idx := {| encoder := enc'; lastWriteAt := Timestamp dp |}]> (encoders b)))
      end
  end.

(** [BufferBucket.write]: [(written, err)].  The counter of created
    encoders is left out. *)
Definition write (blockSize : Duration) (b : BufferBucket) (timestamp : Time)
    (value : Value) (m : Meta) (log : Log) : (error + bool) * BufferBucket * Log :=
  let datapoint := {| Timestamp := timestamp; DValue := value |} in
  match findEncoder timestamp value (encoders b) 0 with
  | FoundErr code => (inl (ExternalError code), b, log)
  | FoundNoop => (inr false, b, log)
  | FoundIdx idx =>
      match writeToEncoderIndex b idx datapoint m with
      | (Some err, b1) => (inl err, b1, log)
      | (None, b1) => (inr true, b1, log)
      end
  | FoundNone =>
      let enc := encoderGet (Truncate timestamp blockSize) in
      let b1 := setEncoders b (encoders b ++ [ {| encoder := enc; lastWriteAt := timestamp |} ]) in
      let idx := (length (encoders b1) - 1)%nat in
      match writeToEncoderIndex b1 idx datapoint m with
      | (Some err, b2) =>
          (inl err, setEncoders b2 (take idx (encoders b2)),
           log ++ match encoders b2 !! idx with
                  | Some e => [ClosedEncoder (encoder e)]
                  | None => []
                  end)
      | (None, b2) => (inr true, b2, log)
      end
  end.

(** [BufferBucket.streams]. *)
Definition bucketStreams (blockSize : Duration) (b : BufferBucket) : list BlockReader :=
  omap (fun bl =>
          if (BlockLen bl =? 0)%Z then None
          else match BlockStream bl with
               | inr s => if IsNotEmpty s then Some s else None
               | inl _ => None
               end) (bootstrapped b)
  ++ omap (fun e =>
             match EncStream (encoder e) with
             | Some s => Some {| br_reader := Some s; br_start := start b;
                                 br_blockSize := blockSize |}
             | None => None
             end) (encoders b).

(** [BufferBucket.streamsLen]. *)
Definition bucketStreamsLen (b : BufferBucket) : Z :=
  (foldr (fun bl acc => BlockLen bl + acc) 0 (bootstrapped b)
   + foldr (fun e acc => EncLen (encoder e) + acc) 0 (encoders b))%Z.

(** *** Bucket versions

    The buckets of a [BufferBucketVersions] are reachable through it only,
    so they are kept by value in its slice. *)
Record BufferBucketVersions := {
  buckets : list BufferBucket;
  bv_start : Time;
  lastReadUnixNanos : Z
}.

Definition setBuckets (bv : BufferBucketVersions) (bs : list BufferBucket) :=
  {| buckets := bs; bv_start := bv_start bv;
     lastReadUnixNanos := lastReadUnixNanos bv |}.

Record streamsOptions := { filterWriteType : bool; so_writeType : WriteType }.

Definition selected (opts : streamsOptions) (b : BufferBucket) : bool :=
  negb (filterWriteType opts) || bool_decide (writeType b = so_writeType opts).

(** [BufferBucketVersions.resetTo]. *)
Definition bv_resetTo (st : Time) : BufferBucketVersions :=
  {| buckets := []; bv_start := st; lastReadUnixNanos := 0 |}.

(** [BufferBucketVersions.streams]. *)
Definition bv_streams (blockSize : Duration) (opts : streamsOptions)
    (bv : BufferBucketVersions) : list BlockReader :=
  concat (map (fun b => if selected opts b then bucketStreams blockSize b else [])
              (buckets bv)).

(** [BufferBucketVersions.streamsLen]. *)
Definition bv_streamsLen (bv : BufferBucketVersions) : Z :=
  foldr (fun b acc => bucketStreamsLen b + acc)%Z 0%Z (buckets bv).

Definition isWritable (wt : WriteType) (b : BufferBucket) : Prop :=
  version b = writableBucketVersion /\ writeType b = wt.

#[global] Instance isWritable_dec wt b : Decision (isWritable wt b).
Proof. unfold isWritable. apply _. Defined.

(** [writableBucket]: position and value of the first writable bucket of the
    write type. *)
Definition writableBucket (wt : WriteType) (bv : BufferBucketVersions)
  : option (nat * BufferBucket) :=
  list_find (isWritable wt) (buckets bv).

(** [writableBucketCreate]: the position of the writable bucket, appended
    when there is none. *)
Definition writableBucketCreate (wt : WriteType) (bv : BufferBucketVersions)
  : nat * BufferBucketVersions :=
  match writableBucket wt bv with
  | Some (i, _) => (i, bv)
  | None =>
      (length (buckets bv),
       setBuckets bv (buckets bv ++ [newBucket (bv_start bv) wt]))
  end.

(** [BufferBucketVersions.write]. *)
Definition bv_write (blockSize : Duration) (bv : BufferBucketVersions)
    (timestamp : Time) (value : Value) (m : Meta) (wt : WriteType) (log : Log)
  : (error + bool) * BufferBucketVersions * Log :=
  let '(i, bv1) := writableBucketCreate wt bv in
  match buckets bv1 !! i with
  | None => (inr false, bv1, log)
  | Some b =>
      let '(r, b', log') := write blockSize b timestamp value m log in
      (r, setBuckets bv1 (<[i := b']> (buckets bv1)), log')
  end.

(** [BufferBucketVersions.bootstrap]. *)
Definition bv_bootstrap (bv : BufferBucketVersions) (bl : Block) : BufferBucketVersions :=
  let '(i, bv1) := writableBucketCreate BootstrapWriteType bv in
  match buckets bv1 !! i with
  | None => bv1
  | Some b =>
      setBuckets bv1 (<[i := setBootstrapped b (bootstrapped b ++ [bl])]> (buckets bv1))
  end.

(** The loop of [BufferBucketVersions.merge]; a failing bucket leaves the
    loop at once. *)
Fixpoint bv_mergeLoop (blockSize : Duration) (wt : WriteType)
    (bs : list BufferBucket) (res : nat) (log : Log)
  : (error + nat) * list BufferBucket * Log :=
  match bs with
  | [] => (inr res, [], log)
  | b :: rest =>
      if bool_decide (version b = writableBucketVersion) && bool_decide (wt = writeType b)
      then
        match merge blockSize b log with
        | (inl err, b', log') => (inl err, b' :: rest, log')
        | (inr merges, b', log') =>
            let '(r, rest', log'') := bv_mergeLoop blockSize wt rest (res + merges) log' in
            (r, b' :: rest', log'')
        end
      else
        let '(r, rest', log') := bv_mergeLoop blockSize wt rest res log in
        (r, b :: rest', log')
  end.

Definition bv_merge (blockSize : Duration) (wt : WriteType)
    (bv : BufferBucketVersions) (log : Log)
  : (error + nat) * BufferBucketVersions * Log :=
  let '(r, bs, log') := bv_mergeLoop blockSize wt (buckets bv) 0 log in
  (match r with inl e => inl e | inr n => inr n end, setBuckets bv bs, log').

(** [removeBucketsUpToVersion]: evicted buckets go back to the bucket
    pool. *)
Definition removeBucketsUpToVersion (wt : WriteType) (v : Z)
    (bv : BufferBucketVersions) : BufferBucketVersions :=
  setBuckets bv
    (filter (fun b => ~ (writeType b = wt /\ version b <> writableBucketVersion
                         /\ (version b <= v)%Z))
            (buckets bv)).

Definition setLastRead (value : Time) (bv : BufferBucketVersions) : BufferBucketVersions :=
  {| buckets := buckets bv; bv_start := bv_start bv;
     lastReadUnixNanos := wrap64 value |}.

(** The loop of [mergeToStreams]: one stream per selected bucket that has
    one; the first error ends the loop, with the buckets as they are then. *)
Fixpoint mergeToStreamsLoop (blockSize : Duration) (opts : streamsOptions)
    (bs : list BufferBucket) (log : Log)
  : (error + list SegmentReader) * list BufferBucket * Log :=
  match bs with
  | [] => (inr [], [], log)
  | b :: rest =>
      if selected opts b then
        match mergeToStream blockSize b log with
        | (StreamErr e, b', log') => (inl e, b' :: rest, log')
        | (StreamNone, b', log') =>
            let '(r, rest', log'') := mergeToStreamsLoop blockSize opts rest log' in
            (r, b' :: rest', log'')
        | (StreamOk s, b', log') =>
            let '(r, rest', log'') := mergeToStreamsLoop blockSize opts rest log' in
            (match r with inr ss => inr (s :: ss) | inl e => inl e end,
             b' :: rest', log'')
        end
      else
        let '(r, rest', log') := mergeToStreamsLoop blockSize opts rest log in
        (r, b :: rest', log')
  end.

Definition mergeToStreams (blockSize : Duration) (opts : streamsOptions)
    (bv : BufferBucketVersions) (log : Log)
  : (error + list SegmentReader) * BufferBucketVersions * Log :=
  let '(r, bs, log') := mergeToStreamsLoop blockSize opts (buckets bv) log in
  (r, setBuckets bv bs, log').


(** *** The buffer

    [bucketsMap] and [bucketVersionsCache] hold pointers to the same
    [BufferBucketVersions] objects; [objects] is the store they point into.
    [bucketVersionsPool] is the object pool: [Get] hands out a pooled object
    when there is one and a new one otherwise, [Put] takes one back.  The
    keys of [bucketsMap] are the block starts as Unix nanoseconds, which in
    this model of time are the block starts themselves. *)
Definition ptr := nat.

Record Config := {
  blockSize : Duration;
  bufferPast : Duration;
  bufferFuture : Duration;
  coldWritesEnabled : bool;
  retentionPeriod : Duration;
  futureRetentionPeriod : Duration
}.

Definition bucketsCacheSize : nat := 2.

Record dbBuffer := {
  cfg : Config;
  bucketsMap : gmap Z ptr;
  bucketVersionsCache : list (option ptr);
  inOrderBlockStarts : list Time;
  objects : gmap ptr BufferBucketVersions;
  bucketVersionsPool : list ptr;
  nextPtr : ptr;
  (** resources closed so far *)
  closedLog : Log;
  (** errors written to the logger so far *)
  errorLog : list error
}.

Definition newDatabaseBuffer (c : Config) : dbBuffer :=
  {| cfg := c; bucketsMap := ∅;
     bucketVersionsCache := replicate bucketsCacheSize None;
     inOrderBlockStarts := []; objects := ∅; bucketVersionsPool := [];
     nextPtr := 0%nat; closedLog := []; errorLog := [] |}.

(** [Reset]: the options are replaced, nothing else. *)
Definition Reset (b : dbBuffer) (c : Config) : dbBuffer :=
  {| cfg := c; bucketsMap := bucketsMap b;
     bucketVersionsCache := bucketVersionsCache b;
     inOrderBlockStarts := inOrderBlockStarts b; objects := objects b;
     bucketVersionsPool := bucketVersionsPool b; nextPtr := nextPtr b;
     closedLog := closedLog b; errorLog := errorLog b |}.

(** Store [bv] at [p] and record the closes of the operation. *)
Definition setObject (b : dbBuffer) (p : ptr) (bv : BufferBucketVersions)
    (log : Log) : dbBuffer :=
  {| cfg := cfg b; bucketsMap := bucketsMap b;
     bucketVersionsCache := bucketVersionsCache b;
     inOrderBlockStarts := inOrderBlockStarts b;
     objects := <[p := bv]> (objects b);
     bucketVersionsPool := bucketVersionsPool b; nextPtr := nextPtr b;
     closedLog := log; errorLog := errorLog b |}.

Definition setCache (b : dbBuffer) (c : list (option ptr)) : dbBuffer :=
  {| cfg := cfg b; bucketsMap := bucketsMap b;
     bucketVersionsCache := c;
     inOrderBlockStarts := inOrderBlockStarts b; objects := objects b;
     bucketVersionsPool := bucketVersionsPool b; nextPtr := nextPtr b;
     closedLog := closedLog b; errorLog := errorLog b |}.

Definition logError (b : dbBuffer) (e : error) : dbBuffer :=
  {| cfg := cfg b; bucketsMap := bucketsMap b;
     bucketVersionsCache := bucketVersionsCache b;
     inOrderBlockStarts := inOrderBlockStarts b; objects := objects b;
     bucketVersionsPool := bucketVersionsPool b; nextPtr := nextPtr b;
     closedLog := closedLog b; errorLog := errorLog b ++ [e] |}.

(** The cache scan of [bucketVersionsAt]. *)
Fixpoint cacheFind (objs : gmap ptr BufferBucketVersions) (t : Time)
    (c : list (option ptr)) : option ptr :=
  match c with
  | [] => None
  | None :: rest => cacheFind objs t rest
  | Some p :: rest =>
      match objs !! p with
      | Some bv => if Equal (bv_start bv) t then Some p else cacheFind objs t rest
      | None => cacheFind objs t rest
      end
  end.

(** [bucketVersionsAt]: the cache first, then the map. *)
Definition bucketVersionsAt (b : dbBuffer) (t : Time) : option ptr :=
  match cacheFind (objects b) t (bucketVersionsCache b) with
  | Some p => Some p
  | None => bucketsMap b !! t
  end.

(** Index of the first start after [newTime], the length when none is. *)
Fixpoint insertIdx (newTime : Time) (starts : list Time) : nat :=
  match starts with
  | [] => 0%nat
  | t :: rest => if After t newTime then 0%nat else S (insertIdx newTime rest)
  end.

Definition inOrderBlockStartsAdd (newTime : Time) (starts : list Time) : list Time :=
  let idx := insertIdx newTime starts in
  take idx starts ++ newTime :: drop idx starts.

Fixpoint inOrderBlockStartsRemove (removeTime : Time) (starts : list Time) : list Time :=
  match starts with
  | [] => []
  | t :: rest =>
      if Equal t removeTime then rest
      else t :: inOrderBlockStartsRemove removeTime rest
  end.

(** [bucketVersionsPool.Get()]. *)
Definition poolGet (b : dbBuffer) : ptr * list ptr * ptr :=
  match bucketVersionsPool b with
  | p :: rest => (p, rest, nextPtr b)
  | [] => (nextPtr b, [], S (nextPtr b))
  end.

Definition bucketVersionsAtCreate (b : dbBuffer) (t : Time) : ptr * dbBuffer :=
  match bucketVersionsAt b t with
  | Some p => (p, b)
  | None =>
      let '(p, pool', next') := poolGet b in
      (p,
       {| cfg := cfg b;
          bucketsMap := <[t := p]> (bucketsMap b);
          bucketVersionsCache := bucketVersionsCache b;
          inOrderBlockStarts := inOrderBlockStartsAdd t (inOrderBlockStarts b);
          objects := <[p := bv_resetTo t]> (objects b);
          bucketVersionsPool := pool'; nextPtr := next';
          closedLog := closedLog b; errorLog := errorLog b |})
  end.

(** Index of the last entry of the cache that is the pointer [p]. *)
Fixpoint lastIdxOf (p : ptr) (c : list (option ptr)) (i : nat) (acc : option nat)
  : option nat :=
  match c with
  | [] => acc
  | x :: rest =>
      lastIdxOf p rest (S i) (if decide (x = Some p) then Some i else acc)
  end.

Definition putBucketVersionsInCache (c : list (option ptr)) (newBuckets : ptr)
  : list (option ptr) :=
  let replaceIdx := default (bucketsCacheSize - 1)%nat (lastIdxOf newBuckets c 0 None) in
  Some newBuckets :: take replaceIdx c ++ drop (S replaceIdx) c.

Definition removeBucketVersionsInCache (c : list (option ptr)) (oldBuckets : ptr)
  : list (option ptr) :=
  match lastIdxOf oldBuckets c 0 None with
  | None => c
  | Some nilIdx => take nilIdx c ++ drop (S nilIdx) c ++ [None]
  end.

Definition removeBucketVersionsAt (b : dbBuffer) (blockStart : Time) : dbBuffer :=
  match bucketVersionsAt b blockStart with
  | None => b
  | Some p =>
      {| cfg := cfg b;
         bucketsMap := delete blockStart (bucketsMap b);
         bucketVersionsCache := removeBucketVersionsInCache (bucketVersionsCache b) p;
         inOrderBlockStarts := inOrderBlockStartsRemove blockStart (inOrderBlockStarts b);
         objects := <[p := bv_resetTo timeZero]> (objects b);
         bucketVersionsPool := p :: bucketVersionsPool b; nextPtr := nextPtr b;
         closedLog := closedLog b; errorLog := errorLog b |}
  end.

Record WriteOptions := {
  (** [TruncateType == TypeBlock] *)
  truncateBlock : bool;
  (** [ForceValue] when [ForceValueEnabled] *)
  forceValue : option Value
}.

(** The switch at the head of [Write]: the write type, or the error of a
    cold write while cold writes are disabled. *)
Definition writeTypeAt (c : Config) (now timestamp : Time) : error + WriteType :=
  let pastLimit := Add now (dmul (-1) (bufferPast c)) in
  let futureLimit := Add now (bufferFuture c) in
  if negb (Before pastLimit timestamp) then
    if negb (coldWritesEnabled c) then inl InvalidParamsError else inr ColdWrite
  else if negb (After futureLimit timestamp) then
    if negb (coldWritesEnabled c) then inl InvalidParamsError else inr ColdWrite
  else inr WarmWrite.

(** The retention checks applied to a cold write. *)
Definition coldRetentionCheck (c : Config) (now timestamp : Time) : option error :=
  if After (Add now (dneg (retentionPeriod c))) timestamp then Some ErrTooPast
  else if negb (After (Add (Add now (futureRetentionPeriod c)) (blockSize c)) timestamp)
       then Some ErrTooFuture
  else None.

(** [Write] from the truncation of the timestamp on: the dispatch to the
    writable bucket of the write type. *)
Definition writeTo (b : dbBuffer) (timestamp : Time) (value : Value) (m : Meta)
    (wOpts : WriteOptions) (wt : WriteType) : (error + bool) * dbBuffer :=
  let blockStart := Truncate timestamp (blockSize (cfg b)) in
  let '(p, b1) := bucketVersionsAtCreate b blockStart in
  let b2 := setCache b1 (putBucketVersionsInCache (bucketVersionsCache b1) p) in
  let timestamp' := if truncateBlock wOpts then blockStart else timestamp in
  let value' := default value (forceValue wOpts) in
  match objects b2 !! p with
  | None => (inr false, b2)
  | Some bv =>
      let '(r, bv', log') :=
        bv_write (blockSize (cfg b)) bv timestamp' value' m wt (closedLog b2) in
      (r, setObject b2 p bv' log')
  end.

(** [Write], with [now] the value of the injected clock. *)
Definition Write (b : dbBuffer) (now timestamp : Time) (value : Value) (m : Meta)
    (wOpts : WriteOptions) : (error + bool) * dbBuffer :=
  match writeTypeAt (cfg b) now timestamp with
  | inl err => (inl err, b)
  | inr wt =>
      match (if decide (wt = ColdWrite)
             then coldRetentionCheck (cfg b) now timestamp else None) with
      | Some err => (inl err, b)
      | None => writeTo b timestamp value m wOpts wt
      end
  end.

(** [Bootstrap]. *)
Definition Bootstrap (b : dbBuffer) (bl : Block) : dbBuffer :=
  let '(p, b1) := bucketVersionsAtCreate b (BlockStartTime bl) in
  match objects b1 !! p with
  | None => b1
  | Some bv => setObject b1 p (bv_bootstrap bv bl) (closedLog b1)
  end.

Definition IsEmpty (b : dbBuffer) : bool := bool_decide (size (bucketsMap b) = 0%nat).


(** Modelled from the spec: [BlockState] is declared outside the given
    sources; the buffer reads its fields [WarmRetrievable] and
    [ColdVersion]. *)
Record BlockState := { WarmRetrievable : bool; ColdVersion : Z }.

Record bufferTickResult := {
  mergedOutOfOrderBlocks : nat;
  evictedBucketTimes : list Z
}.

(** The body of the loop of [Tick] for the map entry at [tNano]. *)
Definition tickEntry (blockStates : gmap Z BlockState) (st : dbBuffer * bufferTickResult)
    (tNano : Z) : dbBuffer * bufferTickResult :=
  let '(b, res) := st in
  match bucketsMap b !! tNano with
  | None => st
  | Some p =>
      match objects b !! p with
      | None => st
      | Some buckets =>
          let blockState :=
            default {| WarmRetrievable := false; ColdVersion := 0 |} (blockStates !! tNano) in
          let coldVersion := ColdVersion blockState in
          let flushed := WarmRetrievable blockState || (0 <? coldVersion)%Z in
          let buckets1 :=
            if flushed && WarmRetrievable blockState
            then removeBucketsUpToVersion WarmWrite 1 buckets else buckets in
          let buckets2 :=
            if flushed && (0 <? coldVersion)%Z
            then removeBucketsUpToVersion ColdWrite coldVersion buckets1 else buckets1 in
          let b1 := setObject b p buckets2 (closedLog b) in
          if flushed && (bv_streamsLen buckets2 =? 0)%Z then
            (removeBucketVersionsAt b1 tNano,
             {| mergedOutOfOrderBlocks := mergedOutOfOrderBlocks res;
                evictedBucketTimes := evictedBucketTimes res ++ [tNano] |})
          else
            let '(r, buckets3, log') :=
              bv_merge (blockSize (cfg b)) WarmWrite buckets2 (closedLog b1) in
            let b2 := setObject b1 p buckets3 log' in
            match r with
            | inl err => (logError b2 err, res)
            | inr merges =>
                (b2,
                 {| mergedOutOfOrderBlocks :=
                      if (0 <? merges)%nat then S (mergedOutOfOrderBlocks res)
                      else mergedOutOfOrderBlocks res;
                    evictedBucketTimes := evictedBucketTimes res |})
            end
      end
  end.

(** [Tick].  Go ranges over [bucketsMap] in an unspecified order; [order]
    lists the keys in the order of the run.  An entry deleted before the
    iteration reaches it is not produced. *)
Definition Tick (b : dbBuffer) (blockStates : gmap Z BlockState) (order : list Z)
  : dbBuffer * bufferTickResult :=
  foldl (tickEntry blockStates)
        (b, {| mergedOutOfOrderBlocks := 0%nat; evictedBucketTimes := [] |}) order.

(** The tail shared by [Snapshot] and [WarmFlush]: take the segment of the
    stream, skip an empty one, hand any other to [persistFn].  [inr true]
    when persisted, [inr false] when the segment is empty.  [persistFn]
    receives the segment; the id, the tags and the checksum of the segment
    accompany it unchanged. *)
Definition persistSegment (persistFn : Segment -> option Z) (stream : SegmentReader)
  : error + bool :=
  match SegmentOf stream with
  | inl code => inl (ExternalError code)
  | inr segment =>
      if (SegmentLen segment =? 0)%Z then inr false
      else match persistFn segment with
           | Some code => inl (ExternalError code)
           | None => inr true
           end
  end.

Definition noFilter : streamsOptions :=
  {| filterWriteType := false; so_writeType := WarmWrite |}.

Definition onlyType (wt : WriteType) : streamsOptions :=
  {| filterWriteType := true; so_writeType := wt |}.

(** [Snapshot] up to the stream to persist: every bucket is merged to a
    stream; several streams are merged once more, with an encoder that is
    closed on the way out.  [inr None] when there is nothing to write. *)
Definition snapshotStream (bs : Duration) (blockStart : Time)
    (buckets : BufferBucketVersions) (log : Log)
  : (error + option SegmentReader) * BufferBucketVersions * Log :=
  let '(r, buckets', log1) := mergeToStreams bs noFilter buckets log in
  match r with
  | inl err => (inl err, buckets', log1)
  | inr [s] => (inr (Some s), buckets', log1)
  | inr streams =>
      let '(pts, iterErr) := iterate streams blockStart bs in
      match encodeAll (encoderGet blockStart) timeZero pts with
      | inl (enc, code) =>
          (inl (ExternalError code), buckets', log1 ++ [ClosedEncoder enc])
      | inr (enc, _) =>
          match iterErr with
          | Some code =>
              (inl (ExternalError code), buckets', log1 ++ [ClosedEncoder enc])
          | None => (inr (EncStream enc), buckets', log1 ++ [ClosedEncoder enc])
          end
      end
  end.

(** [Snapshot]: the error returned, if any. *)
Definition Snapshot (b : dbBuffer) (blockStart : Time)
    (persistFn : Segment -> option Z) : option error * dbBuffer :=
  match bucketVersionsAt b blockStart with
  | None => (None, b)
  | Some p =>
      match objects b !! p with
      | None => (None, b)
      | Some buckets =>
          let '(r, buckets', log') :=
            snapshotStream (blockSize (cfg b)) blockStart buckets (closedLog b) in
          let b1 := setObject b p buckets' log' in
          match r with
          | inl err => (Some err, b1)
          | inr None => (None, b1)
          | inr (Some mergedStream) =>
              match persistSegment persistFn mergedStream with
              | inl err => (Some err, b1)
              | inr _ => (None, b1)
              end
          end
      end
  end.

(** Set the version of the bucket at position [i]. *)
Definition setVersionAt (bv : BufferBucketVersions) (i : nat) (v : Z)
  : BufferBucketVersions :=
  match buckets bv !! i with
  | Some bucket => setBuckets bv (<[i := setVersion bucket v]> (buckets bv))
  | None => bv
  end.

(** [WarmFlush] up to the stream to persist: the warm buckets are merged
    to a stream each; several streams (left by a flush that failed midway)
    are merged once more.  [inr None] when there is nothing to write. *)
Definition warmFlushStream (bs : Duration) (blockStart : Time)
    (buckets : BufferBucketVersions) (log : Log)
  : (error + option SegmentReader) * BufferBucketVersions * Log :=
  let '(r, buckets', log1) := mergeToStreams bs (onlyType WarmWrite) buckets log in
  match r with
  | inl err => (inl err, buckets', log1)
  | inr [s] => (inr (Some s), buckets', log1)
  | inr streams =>
      match mergeStreamsToEncoder blockStart bs streams log1 with
      | (inl err, log2) => (inl err, buckets', log2)
      | (inr (enc, _), log2) =>
          (inr (EncStream enc), buckets', log2 ++ [ClosedEncoder enc])
      end
  end.

(** [WarmFlush]: [(outcome, err)]. *)
Definition WarmFlush (b : dbBuffer) (blockStart : Time)
    (persistFn : Segment -> option Z) : (FlushOutcome * option error) * dbBuffer :=
  match bucketVersionsAt b blockStart with
  | None => ((FlushOutcomeBlockDoesNotExist, None), b)
  | Some p =>
      match objects b !! p with
      | None => ((FlushOutcomeBlockDoesNotExist, None), b)
      | Some buckets =>
          let '(r, buckets', log') :=
            warmFlushStream (blockSize (cfg b)) blockStart buckets (closedLog b) in
          let b1 := setObject b p buckets' log' in
          match r with
          | inl err => ((FlushOutcomeErr, Some err), b1)
          | inr None => ((FlushOutcomeBlockDoesNotExist, None), b1)
          | inr (Some stream) =>
              match persistSegment persistFn stream with
              | inl err => ((FlushOutcomeErr, Some err), b1)
              | inr false => ((FlushOutcomeBlockDoesNotExist, None), b1)
              | inr true =>
                  match writableBucket WarmWrite buckets' with
                  | Some (i, _) =>
                      ((FlushOutcomeFlushedToDisk, None),
                       setObject b p (setVersionAt buckets' i 1) log')
                  | None => ((FlushOutcomeFlushedToDisk, None), b1)
                  end
              end
          end
      end
  end.

(** [ReadEncoded]'s loop over [inOrderBlockStarts]. *)
Fixpoint readEncodedLoop (b : dbBuffer) (now start end_ : Time)
    (starts : list Time) (res : list (list BlockReader))
  : (error + list (list BlockReader)) * dbBuffer :=
  match starts with
  | [] => (inr res, b)
  | blockStart :: rest =>
      if negb (Before blockStart end_)
         || negb (Before start (Add blockStart (blockSize (cfg b))))
      then readEncodedLoop b now start end_ rest res
      else
        match bucketVersionsAt b blockStart with
        | None => (inl (InvariantError blockStart), b)
        | Some p =>
            match objects b !! p with
            | None => (inl (InvariantError blockStart), b)
            | Some bv =>
                let streams := bv_streams (blockSize (cfg b)) noFilter bv in
                let res' := match streams with [] => res | _ => res ++ [streams] end in
                readEncodedLoop (setObject b p (setLastRead now bv) (closedLog b))
                                now start end_ rest res'
            end
        end
  end.

(** [ReadEncoded], with [now] the value of the injected clock. *)
Definition ReadEncoded (b : dbBuffer) (now start end_ : Time)
  : (error + list (list BlockReader)) * dbBuffer :=
  readEncodedLoop b now start end_ (inOrderBlockStarts b) [].

Record FetchBlockResult := { fb_Start : Time; fb_Blocks : list BlockReader }.

(** Insertion by ascending start, after the results with an equal start. *)
Fixpoint insertByStart (r : FetchBlockResult) (rs : list FetchBlockResult)
  : list FetchBlockResult :=
  match rs with
  | [] => [r]
  | x :: rest =>
      if Before (fb_Start r) (fb_Start x) then r :: x :: rest
      else x :: insertByStart r rest
  end.

(** [fetchBlocks].  The final [sort.Slice] leaves the order of results with
    equal starts unspecified; the insertion sort used here is one such
    order. *)
Definition fetchBlocks (b : dbBuffer) (starts : list Time) (sOpts : streamsOptions)
  : list FetchBlockResult :=
  let res :=
    omap (fun st =>
            match bucketVersionsAt b st with
            | None => None
            | Some p =>
                match objects b !! p with
                | None => None
                | Some buckets =>
                    match bv_streams (blockSize (cfg b)) sOpts buckets with
                    | [] => None
                    | streams => Some {| fb_Start := st; fb_Blocks := streams |}
                    end
                end
            end) starts in
  foldr insertByStart [] res.

Definition FetchBlocks (b : dbBuffer) (starts : list Time) : list FetchBlockResult :=
  fetchBlocks b starts noFilter.

(** [FetchBlocksForColdFlush]: the blocks ([inr []] for a nil slice), or the
    error. *)
Definition FetchBlocksForColdFlush (b : dbBuffer) (st : Time) (v : Z)
  : (error + list BlockReader) * dbBuffer :=
  match fetchBlocks b [st] (onlyType ColdWrite) with
  | [] => (inr [], b)
  | [res0] =>
      match bucketVersionsAt b st with
      | None => (inl errBucketsDoNotExist, b)
      | Some p =>
          match objects b !! p with
          | None => (inl errBucketsDoNotExist, b)
          | Some buckets =>
              match writableBucket ColdWrite buckets with
              | Some (i, _) =>
                  (inr (fb_Blocks res0),
                   setObject b p (setVersionAt buckets i v) (closedLog b))
              | None => (inl errWritableBucketDoesNotExist, b)
              end
          end
      end
  | _ => (inl errFetchBlocksNotOne, b)
  end.

(** The test of [ColdFlushBlockStarts] on one bucket; a block start
    without an entry in [blockStates] reads as the zero [BlockState]. *)
Definition needsColdFlush (blockStates : gmap Z BlockState) (bucket : BufferBucket)
  : bool :=
  bool_decide (writeType bucket = ColdWrite)
  && (bool_decide (version bucket = writableBucketVersion)
      || (ColdVersion (default {| WarmRetrievable := false; ColdVersion := 0 |}
                               (blockStates !! start bucket))
          <? version bucket)%Z).

(** [ColdFlushBlockStarts].  Go ranges over [bucketsMap] in an unspecified
    order; [order] lists the keys in the order of the run. *)
Definition ColdFlushBlockStarts (b : dbBuffer) (blockStates : gmap Z BlockState)
    (order : list Z) : OptimizedTimes.t :=
  foldl (fun times t =>
           match bucketsMap b !! t with
           | None => times
           | Some p =>
               match objects b !! p with
               | None => times
               | Some bucketVersions =>
                   if existsb (needsColdFlush blockStates) (buckets bucketVersions)
                   then OptimizedTimes.Add times t else times
               end
           end)
        OptimizedTimes.zero order.

(** [Stats]: the number of wired blocks. *)
Definition Stats (b : dbBuffer) : nat := size (bucketsMap b).

(** [BufferBucketVersions.lastRead]. *)
Definition lastRead (bv : BufferBucketVersions) : Time := lastReadUnixNanos bv.

(** The options and the results of [FetchBlocksMetadata], as far as the
    buffer uses them: it reads the options [IncludeSizes] and
    [IncludeLastRead] and fills the fields [Start], [Size] and [LastRead] of
    a result. *)
Record FetchBlocksMetadataOptions := { IncludeSizes : bool; IncludeLastRead : bool }.

Record FetchBlockMetadataResult := { md_Start : Time; md_Size : Z; md_LastRead : Time }.

(** The loop of [FetchBlocksMetadata] over [inOrderBlockStarts]. *)
Fixpoint fetchBlocksMetadataLoop (b : dbBuffer) (start end_ : Time)
    (opts : FetchBlocksMetadataOptions) (starts : list Time)
    (res : list FetchBlockMetadataResult) : error + list FetchBlockMetadataResult :=
  match starts with
  | [] => inr res
  | blockStart :: rest =>
      if negb (Before blockStart end_)
         || negb (Before start (Add blockStart (blockSize (cfg b))))
      then fetchBlocksMetadataLoop b start end_ opts rest res
      else
        match bucketVersionsAt b blockStart with
        | None => inl (InvariantError blockStart)
        | Some p =>
            match objects b !! p with
            | None => inl (InvariantError blockStart)
            | Some bv =>
                let size := bv_streamsLen bv in
                if (size =? 0)%Z then fetchBlocksMetadataLoop b start end_ opts rest res
                else
                  let resultSize := if IncludeSizes opts then size else 0%Z in
                  let resultLastRead :=
                    if IncludeLastRead opts then lastRead bv else timeZero in
                  fetchBlocksMetadataLoop b start end_ opts rest
                    (res ++ [ {| md_Start := bv_start bv; md_Size := resultSize;
                                 md_LastRead := resultLastRead |} ])
            end
        end
  end.

(** [FetchBlocksMetadata]: the results in the order they are added. *)
Definition FetchBlocksMetadata (b : dbBuffer) (start end_ : Time)
    (opts : FetchBlocksMetadataOptions) : error + list FetchBlockMetadataResult :=
  fetchBlocksMetadataLoop b start end_ opts (inOrderBlockStarts b) [].

End WithExternals.
End Buffer.

(** ** The seeker manager

    The manager is modelled one operation at a time, each operation running
    alone.  Where an operation would wait for another goroutine (a wait
    group, the channel of the open/close loop) its outcome says so. *)
Module SeekMgr.
Import Clock.

Inductive seekerManagerStatus :=
  seekerManagerNotOpen | seekerManagerOpen | seekerManagerClosed.

#[global] Instance seekerManagerStatus_eq_dec : EqDecision seekerManagerStatus.
Proof. solve_decision. Defined.

Inductive error :=
| errSeekerManagerAlreadyOpenOrClosed
| errSeekerManagerAlreadyClosed
| errNoAvailableSeekers
| errSeekersDontExist
| errCantCloseSeekerManagerWhileSeekersAreBorrowed
| errReturnedUnmanagedSeeker
| errUpdateOpenLeaseSeekerManagerNotOpen
| errConcurrentUpdateOpenLeaseNotAllowed
| errOutOfOrderUpdateOpenLease
| errOpeningLatestLease (code : Z)
| ExternalError (code : Z)
| MultiError (codes : list Z).

(** Modelled from the spec: [block.UpdateOpenLeaseResult] is declared
    outside the given sources; the spec lists [NoOpenLease] and
    [UpdateOpenLease]. *)
Inductive UpdateOpenLeaseResult := NoOpenLease | UpdateOpenLease.

(** A seeker is an interface value compared with [==]: an identity. *)
Definition SeekerId := nat.
(** The backing array of a [[]borrowableSeeker]. *)
Definition loc := nat.
Definition WaitGroup := nat.

Record borrowableSeeker := { seeker : SeekerId; isBorrowed : bool }.

#[global] Instance borrowableSeeker_eq_dec : EqDecision borrowableSeeker.
Proof. solve_decision. Defined.

(** A slice is nil or refers to a backing array; the slices of the manager
    are built once and only indexed afterwards. *)
Record seekersAndBloom := {
  wg : option WaitGroup;
  seekers : option loc;
  bloomFilter : option SeekerId;
  volume : Z
}.

Definition zeroSeekersAndBloom : seekersAndBloom :=
  {| wg := None; seekers := None; bloomFilter := None; volume := 0 |}.

Record rotatableSeekers := { active : seekersAndBloom; inactive : seekersAndBloom }.

Definition zeroRotatableSeekers : rotatableSeekers :=
  {| active := zeroSeekersAndBloom; inactive := zeroSeekersAndBloom |}.

Record seekersByTime := {
  shard : nat;
  accessed : bool;
  sbt_seekers : gmap Z rotatableSeekers
}.

(** What the structures of the manager point into, and what it did to its
    collaborators. *)
Record Heap := {
  arrays : gmap loc (list borrowableSeeker);
  nextLoc : loc;
  nextSeeker : SeekerId;
  nextWg : WaitGroup;
  (** [Close] calls on seekers, in order *)
  closedSeekers : list SeekerId;
  (** [Done] calls on wait groups, in order *)
  doneWgs : list WaitGroup
}.

Record seekerManager := {
  fetchConcurrency : Z;
  status : seekerManagerStatus;
  isUpdatingLease : bool;
  seekersByShardIdx : list seekersByTime;
  namespace : Z;
  heap : Heap
}.

(** The collaborators: the function opening a seeker, the seekers
    themselves and the block lease manager. *)
Class SeekerEnv := {
  (** the error of [newOpenSeekerFn(shard, blockStart, volume)], if any *)
  newOpenSeekerErr : nat -> Time -> Z -> option Z;
  (** the error of the [i]-th [ConcurrentClone] of a seeker, if any *)
  cloneErr : SeekerId -> nat -> option Z;
  (** the error of [Close] on a seeker, if any *)
  closeErr : SeekerId -> option Z;
  (** [OpenLatestLease]: an error or the volume of the lease *)
  openLatestLease : Z -> nat -> Time -> Z + Z
}.

(** What an operation that may wait for another goroutine does when run
    alone. *)
Inductive Outcome (A : Type) :=
| Done (a : A)
| Failed (e : error)
| Blocked.
Arguments Done {A} _.
Arguments Failed {A} _.
Arguments Blocked {A}.

#[global] Instance error_eq_dec : EqDecision error.
Proof. solve_decision. Defined.

Section WithEnv.
Context `{Env : SeekerEnv}.

Definition NewSeekerManager (fc : Z) : seekerManager :=
  {| fetchConcurrency := fc; status := seekerManagerNotOpen;
     isUpdatingLease := false; seekersByShardIdx := []; namespace := 0;
     heap := {| arrays := ∅; nextLoc := 0%nat; nextSeeker := 0%nat;
                nextWg := 0%nat; closedSeekers := []; doneWgs := [] |} |}.

Definition setHeap (m : seekerManager) (h : Heap) : seekerManager :=
  {| fetchConcurrency := fetchConcurrency m; status := status m;
     isUpdatingLease := isUpdatingLease m;
     seekersByShardIdx := seekersByShardIdx m; namespace := namespace m;
     heap := h |}.

Definition setStatus (m : seekerManager) (s : seekerManagerStatus) : seekerManager :=
  {| fetchConcurrency := fetchConcurrency m; status := s;
     isUpdatingLease := isUpdatingLease m;
     seekersByShardIdx := seekersByShardIdx m; namespace := namespace m;
     heap := heap m |}.

Definition setIsUpdatingLease (m : seekerManager) (u : bool) : seekerManager :=
  {| fetchConcurrency := fetchConcurrency m; status := status m;
     isUpdatingLease := u;
     seekersByShardIdx := seekersByShardIdx m; namespace := namespace m;
     heap := heap m |}.

Definition setShards (m : seekerManager) (l : list seekersByTime) : seekerManager :=
  {| fetchConcurrency := fetchConcurrency m; status := status m;
     isUpdatingLease := isUpdatingLease m;
     seekersByShardIdx := l; namespace := namespace m;
     heap := heap m |}.

Definition setArrays (h : Heap) (a : gmap loc (list borrowableSeeker)) : Heap :=
  {| arrays := a; nextLoc := nextLoc h; nextSeeker := nextSeeker h;
     nextWg := nextWg h; closedSeekers := closedSeekers h; doneWgs := doneWgs h |}.

(** The elements of a slice. *)
Definition elems (h : Heap) (s : option loc) : list borrowableSeeker :=
  match s with
  | None => []
  | Some l => default [] (arrays h !! l)
  end.

(** [slice[i] = v] *)
Definition storeAt (h : Heap) (s : option loc) (i : nat) (v : borrowableSeeker) : Heap :=
  match s with
  | None => h
  | Some l => setArrays h (<[l := <[i := v]> (elems h s)]> (arrays h))
  end.

(** Close the seekers of a list in order: the heap afterwards and the
    errors met. *)
Definition closeSeekers (h : Heap) (l : list borrowableSeeker) : Heap * list Z :=
  ({| arrays := arrays h; nextLoc := nextLoc h; nextSeeker := nextSeeker h;
      nextWg := nextWg h;
      closedSeekers := closedSeekers h ++ map seeker l;
      doneWgs := doneWgs h |},
   omap (fun s => closeErr (seeker s)) l).

Definition wgDone (h : Heap) (w : option WaitGroup) : Heap :=
  match w with
  | None => h
  | Some g =>
      {| arrays := arrays h; nextLoc := nextLoc h; nextSeeker := nextSeeker h;
         nextWg := nextWg h; closedSeekers := closedSeekers h;
         doneWgs := doneWgs h ++ [g] |}
  end.

(** [multiErr.FinalError()] *)
Definition finalError (codes : list Z) : option error :=
  match codes with
  | [] => None
  | _ => Some (MultiError codes)
  end.

(** [m.seekersByTime(shard)]: the slice grows to hold the shard. *)
Definition growShards (m : seekerManager) (sh : nat) : seekerManager :=
  if (sh <? length (seekersByShardIdx m))%nat then m
  else
    setShards m
      (seekersByShardIdx m ++
       map (fun i => {| shard := i; accessed := false; sbt_seekers := ∅ |})
           (seq (length (seekersByShardIdx m)) (S sh - length (seekersByShardIdx m)))).

Definition setByTime (m : seekerManager) (sh : nat) (bt : seekersByTime) : seekerManager :=
  setShards m (<[sh := bt]> (seekersByShardIdx m)).

Definition setEntry (bt : seekersByTime) (start : Z) (r : rotatableSeekers) : seekersByTime :=
  {| shard := shard bt; accessed := accessed bt;
     sbt_seekers := <[start := r]> (sbt_seekers bt) |}.

Definition hasSeeker (sk : SeekerId) (b : borrowableSeeker) : Prop := seeker b = sk.

#[global] Instance hasSeeker_dec sk b : Decision (hasSeeker sk b).
Proof. unfold hasSeeker. apply _. Defined.

Definition anyBorrowedIn (l : list borrowableSeeker) : bool :=
  existsb isBorrowed l.

(** [returnSeekerWithLock]: [(returned, err)].  [sks] is the caller's copy
    of the map entry: writes through its slices reach the arrays of the
    map entry, the assignment to its [inactive] field does not. *)
Definition returnSeekerWithLock (h : Heap) (sks : rotatableSeekers) (sk : SeekerId)
  : bool * option error * Heap :=
  match list_find (hasSeeker sk) (elems h (seekers (active sks))) with
  | Some (i, compareSeeker) =>
      (true, None,
       storeAt h (seekers (active sks)) i
               {| seeker := seeker compareSeeker; isBorrowed := false |})
  | None =>
      match list_find (hasSeeker sk) (elems h (seekers (inactive sks))) with
      | Some (i, compareSeeker) =>
          let h1 := storeAt h (seekers (inactive sks)) i
                            {| seeker := seeker compareSeeker; isBorrowed := false |} in
          if anyBorrowedIn (elems h1 (seekers (inactive sks))) then (true, None, h1)
          else
            let '(h2, errs) := closeSeekers h1 (elems h1 (seekers (inactive sks))) in
            (true, finalError errs, wgDone h2 (wg (inactive sks)))
      | None => (false, None, h)
      end
  end.

(** [Return]. *)
Definition Return (m : seekerManager) (sh : nat) (start : Time) (sk : SeekerId)
  : option error * seekerManager :=
  let m1 := growShards m sh in
  match seekersByShardIdx m1 !! sh with
  | None => (None, m1)
  | Some byTime =>
      match sbt_seekers byTime !! start with
      | None => (Some errSeekersDontExist, m1)
      | Some sks =>
          let '(returned, err, h) := returnSeekerWithLock (heap m1) sks sk in
          match err with
          | Some e => (Some e, setHeap m1 h)
          | None =>
              if returned then (None, setHeap m1 h)
              else (Some errReturnedUnmanagedSeeker, setHeap m1 h)
          end
      end
  end.

Definition freshSeeker (h : Heap) : SeekerId * Heap :=
  (nextSeeker h,
   {| arrays := arrays h; nextLoc := nextLoc h; nextSeeker := S (nextSeeker h);
      nextWg := nextWg h; closedSeekers := closedSeekers h; doneWgs := doneWgs h |}).

Definition freshWg (h : Heap) : WaitGroup * Heap :=
  (nextWg h,
   {| arrays := arrays h; nextLoc := nextLoc h; nextSeeker := nextSeeker h;
      nextWg := S (nextWg h); closedSeekers := closedSeekers h; doneWgs := doneWgs h |}).

(** [make] and fill a backing array. *)
Definition allocArray (h : Heap) (l : list borrowableSeeker) : loc * Heap :=
  (nextLoc h,
   {| arrays := <[nextLoc h := l]> (arrays h); nextLoc := S (nextLoc h);
      nextSeeker := nextSeeker h; nextWg := nextWg h;
      closedSeekers := closedSeekers h; doneWgs := doneWgs h |}).

(** The clone loop of [seekersAndBloomFromSeeker]: [n] clones still to
    make, [i] made so far. *)
Fixpoint cloneLoop (h : Heap) (orig : SeekerId) (acc : list borrowableSeeker)
    (i n : nat) : (list Z + list borrowableSeeker) * Heap :=
  match n with
  | O => (inr acc, h)
  | S n' =>
      match cloneErr orig i with
      | Some code =>
          let '(h1, errs) := closeSeekers h acc in
          (inl (code :: errs), h1)
      | None =>
          let '(clone, h1) := freshSeeker h in
          cloneLoop h1 orig (acc ++ [ {| seeker := clone; isBorrowed := false |} ])
                    (S i) n'
      end
  end.

Definition seekersAndBloomFromSeeker (fc : Z) (h : Heap) (sk : SeekerId) (vol : Z)
  : (error + seekersAndBloom) * Heap :=
  match cloneLoop h sk [ {| seeker := sk; isBorrowed := false |} ] 0
                  (Z.to_nat (fc - 1)) with
  | (inl errs, h1) => (inl (MultiError errs), h1)
  | (inr borrowableSeekers, h1) =>
      let '(l, h2) := allocArray h1 borrowableSeekers in
      (inr {| wg := None; seekers := Some l; bloomFilter := Some sk; volume := vol |},
       h2)
  end.

Definition newSeekersAndBloom (fc : Z) (h : Heap) (sh : nat) (blockStart : Time)
    (vol : Z) : (error + seekersAndBloom) * Heap :=
  match newOpenSeekerErr sh blockStart vol with
  | Some code => (inl (ExternalError code), h)
  | None =>
      let '(sk, h1) := freshSeeker h in
      seekersAndBloomFromSeeker fc h1 sk vol
  end.

(** [getOrOpenSeekersWithLock] for the shard [sh], which the callers have
    made sure exists.  The wait group it installs while opening is gone
    again when it returns; it is in [doneWgs]. *)
Definition getOrOpenSeekersWithLock (m : seekerManager) (sh : nat) (start : Z)
  : Outcome seekersAndBloom * seekerManager :=
  match seekersByShardIdx m !! sh with
  | None => (Blocked, m)
  | Some byTime =>
      match sbt_seekers byTime !! start with
      | Some sks =>
          match wg (active sks) with
          | None => (Done (active sks), m)
          | Some _ => (Blocked, m)
          end
      | None =>
          let '(w, h0) := freshWg (heap m) in
          let h1 := wgDone h0 (Some w) in
          match openLatestLease (namespace m) sh start with
          | inl code => (Failed (errOpeningLatestLease code), setHeap m h1)
          | inr vol =>
              match newSeekersAndBloom (fetchConcurrency m) h1 sh start vol with
              | (inl e, h2) => (Failed e, setHeap m h2)
              | (inr activeSeekers, h2) =>
                  (Done activeSeekers,
                   setByTime (setHeap m h2) sh
                     (setEntry byTime start
                        {| active := activeSeekers; inactive := zeroSeekersAndBloom |}))
              end
          end
      end
  end.

Definition notBorrowed (b : borrowableSeeker) : Prop := isBorrowed b = false.

#[global] Instance notBorrowed_dec b : Decision (notBorrowed b).
Proof. unfold notBorrowed. apply _. Defined.

(** [Borrow]. *)
Definition Borrow (m : seekerManager) (sh : nat) (start : Time)
  : Outcome SeekerId * seekerManager :=
  let m0 := growShards m sh in
  match seekersByShardIdx m0 !! sh with
  | None => (Blocked, m0)
  | Some byTime =>
      let m1 := setByTime m0 sh {| shard := shard byTime; accessed := true;
                                   sbt_seekers := sbt_seekers byTime |} in
      match getOrOpenSeekersWithLock m1 sh start with
      | (Failed e, m2) => (Failed e, m2)
      | (Blocked, m2) => (Blocked, m2)
      | (Done sab, m2) =>
          match list_find notBorrowed (elems (heap m2) (seekers sab)) with
          | None => (Failed errNoAvailableSeekers, m2)
          | Some (i, availableSeeker) =>
              (Done (seeker availableSeeker),
               setHeap m2 (storeAt (heap m2) (seekers sab) i
                             {| seeker := seeker availableSeeker; isBorrowed := true |}))
          end
      end
  end.

(** [Open]: the status becomes open and the open/close loop starts. *)
Definition Open (m : seekerManager) (ns : Z) : option error * seekerManager :=
  if decide (status m = seekerManagerNotOpen) then
    (None,
     {| fetchConcurrency := fetchConcurrency m; status := seekerManagerOpen;
        isUpdatingLease := isUpdatingLease m;
        seekersByShardIdx := seekersByShardIdx m; namespace := ns;
        heap := heap m |})
  else (Some errSeekerManagerAlreadyOpenOrClosed, m).

Record LeaseDescriptor := { ld_Namespace : Z; ld_Shard : nat; ld_BlockStart : Time }.
Record LeaseState := { ls_Volume : Z }.

(** [startUpdateOpenLease]: [(noop, err)]. *)
Definition startUpdateOpenLease (m : seekerManager) (descriptor : LeaseDescriptor)
  : (error + bool) * seekerManager :=
  if negb (bool_decide (status m = seekerManagerOpen))
  then (inl errUpdateOpenLeaseSeekerManagerNotOpen, m)
  else if isUpdatingLease m then (inl errConcurrentUpdateOpenLeaseNotAllowed, m)
  else if negb (namespace m =? ld_Namespace descriptor)%Z then (inr true, m)
  else (inr false, setIsUpdatingLease m true).

(** [updateOpenLeaseHotSwapSeekers]: [(wg, result)] or the error. *)
Definition updateOpenLeaseHotSwapSeekers (m : seekerManager)
    (descriptor : LeaseDescriptor) (state : LeaseState)
  : Outcome (option WaitGroup * UpdateOpenLeaseResult) * seekerManager :=
  match newSeekersAndBloom (fetchConcurrency m) (heap m) (ld_Shard descriptor)
                           (ld_BlockStart descriptor) (ls_Volume state) with
  | (inl err, h1) => (Failed err, setHeap m h1)
  | (inr newActiveSeekers, h1) =>
      let m1 := growShards (setHeap m h1) (ld_Shard descriptor) in
      match seekersByShardIdx m1 !! ld_Shard descriptor with
      | None => (Blocked, m1)
      | Some byTime =>
          match sbt_seekers byTime !! ld_BlockStart descriptor with
          | None =>
              (Done (None, NoOpenLease),
               setByTime m1 (ld_Shard descriptor)
                 (setEntry byTime (ld_BlockStart descriptor)
                    {| active := newActiveSeekers; inactive := zeroSeekersAndBloom |}))
          | Some sks =>
              match wg (active sks) with
              | Some _ => (Blocked, m1)
              | None =>
                  if (ls_Volume state <? volume (active sks))%Z then
                    let '(h2, _) :=
                      closeSeekers (heap m1) (elems (heap m1) (seekers newActiveSeekers)) in
                    (Failed errOutOfOrderUpdateOpenLease, setHeap m1 h2)
                  else
                    let anySeekersAreBorrowed :=
                      anyBorrowedIn (elems (heap m1) (seekers (active sks))) in
                    let '(w, h2) :=
                      if anySeekersAreBorrowed
                      then let '(g, h) := freshWg (heap m1) in (Some g, h)
                      else (None, heap m1) in
                    (Done (w, UpdateOpenLease),
                     setByTime (setHeap m1 h2) (ld_Shard descriptor)
                       (setEntry byTime (ld_BlockStart descriptor)
                          {| active := newActiveSeekers;
                             inactive := {| wg := w;
                                            seekers := seekers (active sks);
                                            bloomFilter := bloomFilter (active sks);
                                            volume := volume (active sks) |} |}))
              end
          end
      end
  end.

(** What [UpdateOpenLease] does when run alone: it fails, returns, or has
    rotated and waits on a wait group until the last borrowed inactive
    seeker is returned. *)
Inductive LeaseOutcome :=
| LeaseFailed (e : error)
| LeaseReturned (r : UpdateOpenLeaseResult)
| LeaseWaiting (w : WaitGroup) (r : UpdateOpenLeaseResult)
| LeaseBlocked.

Definition UpdateOpenLeaseFn (m : seekerManager) (descriptor : LeaseDescriptor)
    (state : LeaseState) : LeaseOutcome * seekerManager :=
  match startUpdateOpenLease m descriptor with
  | (inl err, m1) => (LeaseFailed err, m1)
  | (inr true, m1) => (LeaseReturned NoOpenLease, m1)
  | (inr false, m1) =>
      match updateOpenLeaseHotSwapSeekers m1 descriptor state with
      | (Failed err, m2) => (LeaseFailed err, setIsUpdatingLease m2 false)
      | (Done (None, r), m2) => (LeaseReturned r, setIsUpdatingLease m2 false)
      | (Done (Some w, r), m2) => (LeaseWaiting w r, m2)
      | (Blocked, m2) => (LeaseBlocked, m2)
      end
  end.

(** Some seeker of the entry, active or inactive, is borrowed. *)
Definition entryBorrowed (h : Heap) (sks : rotatableSeekers) : bool :=
  anyBorrowedIn (elems h (seekers (active sks)))
  || anyBorrowedIn (elems h (seekers (inactive sks))).

(** The check of [Close] over every shard and every block. *)
Definition anyBorrowed (m : seekerManager) : bool :=
  existsb (fun byTime =>
             existsb (fun kv => entryBorrowed (heap m) kv.2)
                     (map_to_list (sbt_seekers byTime)))
          (seekersByShardIdx m).

(** The exit of [openCloseLoop] for one entry: the active seekers are
    closed, then the inactive ones; close errors are logged only. *)
Definition releaseEntry (h : Heap) (sks : rotatableSeekers) : Heap :=
  let '(h1, _) := closeSeekers h (elems h (seekers (active sks))) in
  let '(h2, _) := closeSeekers h1 (elems h1 (seekers (inactive sks))) in
  h2.

(** The exit of [openCloseLoop]: every entry of every shard is released
    (Go visits the entries of a map in an unspecified order) and the shards
    are dropped. *)
Definition releaseAll (m : seekerManager) : seekerManager :=
  setShards
    (setHeap m
       (foldl (fun h byTime =>
                 foldl (fun h' kv => releaseEntry h' kv.2) h
                       (map_to_list (sbt_seekers byTime)))
              (heap m) (seekersByShardIdx m)))
    [].

Inductive CloseOutcome :=
| CloseFailed (e : error)
| CloseReturned
| CloseBlocked.

(** [Close].  After setting the status it waits for the open/close loop,
    which sees the status, releases everything and signals.  The loop runs
    exactly while the status is open; without it [Close] waits forever. *)
Definition Close (m : seekerManager) : CloseOutcome * seekerManager :=
  if decide (status m = seekerManagerClosed)
  then (CloseFailed errSeekerManagerAlreadyClosed, m)
  else if anyBorrowed m
  then (CloseFailed errCantCloseSeekerManagerWhileSeekersAreBorrowed, m)
  else if decide (status m = seekerManagerOpen)
  then (CloseReturned, releaseAll (setStatus m seekerManagerClosed))
  else (CloseBlocked, setStatus m seekerManagerClosed).

(** [ConcurrentIDBloomFilter]: the bloom filter of the active seekers, read
    under the read lock when they are open, after opening them otherwise.
    A bloom filter is identified by the seeker it comes from. *)
Definition ConcurrentIDBloomFilter (m : seekerManager) (sh : nat) (start : Time)
  : Outcome (option SeekerId) * seekerManager :=
  let m0 := growShards m sh in
  match seekersByShardIdx m0 !! sh with
  | None => (Blocked, m0)
  | Some byTime =>
      let fast :=
        match sbt_seekers byTime !! start with
        | Some sks =>
            match wg (active sks) with
            | None => Some (bloomFilter (active sks))
            | Some _ => None
            end
        | None => None
        end in
      match fast with
      | Some bf => (Done bf, m0)
      | None =>
          match getOrOpenSeekersWithLock m0 sh start with
          | (Done sab, m1) => (Done (bloomFilter sab), m1)
          | (Failed e, m1) => (Failed e, m1)
          | (Blocked, m1) => (Blocked, m1)
          end
      end
  end.

(** The error of [newOpenSeeker] for a file set that does not exist: among
    the errors of [newOpenSeekerFn] it is the one with code 0. *)
Definition errSeekerManagerFileSetNotFound : error := ExternalError 0.

(** [earliestSeekableBlockStart], with [flushTimeStart] the value of
    [retention.FlushTimeStart(ropts, now)]. *)
Definition earliestSeekableBlockStart (flushTimeStart : Time) (blockSize : Duration)
  : Time :=
  Add flushTimeStart (dneg blockSize).

(** [latestSeekableBlockStart], with [now] the value of the clock. *)
Definition latestSeekableBlockStart (now : Time) (blockSize : Duration) : Time :=
  Truncate now blockSize.

(** How often the loop [for t := start; !t.After(end); t = t.Add(blockSize)]
    runs; it does not end when [start] is not after [end] and the block size
    is not positive. *)
Definition seekableRuns (start end_ : Time) (blockSize : Duration) : option nat :=
  if After start end_ then Some 0%nat
  else if (blockSize <=? 0)%Z then None
  else Some (Z.to_nat ((end_ - start) / blockSize + 1)).

(** [n] runs of the loop of [openAnyUnopenSeekers] from [t] on; [errs] are
    the errors gathered so far. *)
Fixpoint openUnopenLoop (n : nat) (m : seekerManager) (sh : nat) (t : Time)
    (blockSize : Duration) (errs : list error)
  : Outcome (list error) * seekerManager :=
  match n with
  | O => (Done errs, m)
  | S n' =>
      match getOrOpenSeekersWithLock m sh t with
      | (Blocked, m1) => (Blocked, m1)
      | (Failed err, m1) =>
          openUnopenLoop n' m1 sh (Add t blockSize) blockSize
            (if decide (err = errSeekerManagerFileSetNotFound) then errs
             else errs ++ [err])
      | (Done _, m1) => openUnopenLoop n' m1 sh (Add t blockSize) blockSize errs
      end
  end.

(** [openAnyUnopenSeekers] for the shard [sh], which the callers have made
    sure exists: the errors gathered in the multi-error (the final error is
    nil when there is none).  [flushTimeStart] and [now] are what the two
    readings of the clock give.  [Blocked] also stands for a loop that does
    not end. *)
Definition openAnyUnopenSeekers (m : seekerManager) (sh : nat)
    (flushTimeStart now : Time) (blockSize : Duration)
  : Outcome (list error) * seekerManager :=
  let start := earliestSeekableBlockStart flushTimeStart blockSize in
  let end_ := latestSeekableBlockStart now blockSize in
  match seekableRuns start end_ blockSize with
  | None => (Blocked, m)
  | Some n => openUnopenLoop n m sh start blockSize []
  end.

(** The entries [openCloseLoop] lists in [shouldClose]: shard by shard, the
    block starts before the earliest seekable one (Go visits the entries of
    a map in an unspecified order). *)
Definition pendingCloses (m : seekerManager) (earliest : Time) : list (nat * Z) :=
  concat
    (imap (fun sh byTime =>
             (fun kv => (sh, kv.1)) <$>
               filter (fun kv => Before kv.1 earliest = true)
                      (map_to_list (sbt_seekers byTime)))
          (seekersByShardIdx m)).

(** [openCloseLoop] on one element of [shouldClose]: when no seeker of the
    entry is borrowed its seekers are queued for closing and the entry is
    deleted.  The shard of an element is an index of [seekersByShardIdx],
    where it was found. *)
Definition closeIfReturned (st : seekerManager * list borrowableSeeker)
    (elem : nat * Z) : seekerManager * list borrowableSeeker :=
  let '(m, closing) := st in
  match seekersByShardIdx m !! elem.1 with
  | None => st
  | Some byTime =>
      let sks := default zeroRotatableSeekers (sbt_seekers byTime !! elem.2) in
      if entryBorrowed (heap m) sks then st
      else
        (setByTime m elem.1
           {| shard := shard byTime; accessed := accessed byTime;
              sbt_seekers := delete elem.2 (sbt_seekers byTime) |},
         closing ++ elems (heap m) (seekers (active sks))
                 ++ elems (heap m) (seekers (inactive sks)))
  end.

(** The closing half of a pass of [openCloseLoop], with [earliest] what
    [earliestSeekableBlockStart] returned at the head of the pass: the
    entries before it whose seekers are all returned are deleted and their
    seekers closed; close errors are logged only. *)
Definition closeExpired (m : seekerManager) (earliest : Time) : seekerManager :=
  let '(m1, closing) := foldl closeIfReturned (m, []) (pendingCloses m earliest) in
  setHeap m1 (closeSeekers (heap m1) closing).1.


End WithEnv.
End SeekMgr.

(** ** The namespace index query *)
Module NsIndex.
Import Clock.

Inductive error := BlockError (code : Z).

(** Modelled from the spec: the block interface is declared outside the
    given sources.  An index block as the index sees it: an identity and
    its time range ([StartTime], [EndTime]). *)
Record Block := { blockId : nat; StartTime : Time; EndTime : Time }.




Section WithBlocks.
Context `{BE : BlockEnv}.







End WithBlocks.
End NsIndex.

(** ** Concrete collaborators, used to run the operations *)
Module Fixtures.
Import Clock.

(** Encoders that hold at most two points; blocks and readers are lists of
    points; the iterator yields the points of its readers one reader after
    the other. *)
#[local] Instance listExternals : Buffer.Externals := {|
  Buffer.Value := Z;
  Buffer.value_eq := Z.eqb;
  Buffer.Meta := unit;
  Buffer.Encoder := list (Buffer.Datapoint Z);
  Buffer.Block := Time * list (Buffer.Datapoint Z);
  Buffer.SegmentReader := list (Buffer.Datapoint Z);
  Buffer.Segment := list (Buffer.Datapoint Z);
  Buffer.encoderGet := fun _ => [];
  Buffer.Encode := fun e dp _ =>
    if (2 <=? length e)%nat then (e, Some 1%Z) else (e ++ [dp], None);
  Buffer.EncStream := fun e => match e with [] => None | _ => Some e end;
  Buffer.EncLen := fun e => Z.of_nat (length e);
  Buffer.LastEncoded := fun e =>
    match last e with Some dp => inr dp | None => inl 2%Z end;
  Buffer.BlockLen := fun bl => Z.of_nat (length bl.2);
  Buffer.BlockStartTime := fun bl => bl.1;
  Buffer.BlockStream := fun bl =>
    inr {| Buffer.br_reader := Some bl.2; Buffer.br_start := bl.1;
           Buffer.br_blockSize := 0%Z |};
  Buffer.IsNotEmpty := fun br =>
    match Buffer.br_reader br with Some _ => true | None => false end;
  Buffer.asSegmentReader := fun br => default [] (Buffer.br_reader br);
  Buffer.iterate := fun streams _ _ => (map (fun dp => (dp, tt)) (concat streams), None);
  Buffer.SegmentOf := fun s => inr s;
  Buffer.SegmentLen := fun s => Z.of_nat (length s)
|}.

(** One hour blocks, ten minute buffers, two days of retention (in
    seconds rather than nanoseconds, to keep the numbers short). *)
Definition hourConfig (cold : bool) : Buffer.Config :=
  {| Buffer.blockSize := 3600%Z; Buffer.bufferPast := 600%Z;
     Buffer.bufferFuture := 600%Z; Buffer.coldWritesEnabled := cold;
     Buffer.retentionPeriod := 172800%Z; Buffer.futureRetentionPeriod := 0%Z |}.

Definition plainWrite : Buffer.WriteOptions :=
  {| Buffer.truncateBlock := false; Buffer.forceValue := None |}.

(** Collaborators of the seeker manager that never fail; every lease is for
    volume 0. *)
#[local] Instance quietEnv : SeekMgr.SeekerEnv := {|
  SeekMgr.newOpenSeekerErr := fun _ _ _ => None;
  SeekMgr.cloneErr := fun _ _ => None;
  SeekMgr.closeErr := fun _ => None;
  SeekMgr.openLatestLease := fun _ _ _ => inr 0%Z
|}.


End Fixtures.

(** * Properties *)

Module ClockFacts.
Import Clock.
Local Open Scope Z_scope.

Lemma wrap64_id z : - 2 ^ 63 <= z < 2 ^ 63 -> wrap64 z = z.
Proof.
  intros Hz. unfold wrap64.
  rewrite Z.mod_small by lia. lia.
Qed.

Lemma dneg_negatable d : negatable d -> dneg d = - d.
Proof. intros Hd. unfold dneg. apply wrap64_id. unfold negatable in Hd. lia. Qed.

Lemma dmul_m1_negatable d : negatable d -> dmul (-1) d = - d.
Proof. intros Hd. unfold dmul. rewrite wrap64_id; unfold negatable in Hd; lia. Qed.

End ClockFacts.

(** ** The buckets of the series buffer *)
Module BucketFacts.
Import Clock Buffer.

Section Facts.
Context `{Ext : Externals}.

Lemma hasJustSingleEncoder_spec b :
  hasJustSingleEncoder b = true <->
  (exists e, encoders b = [e]) /\ bootstrapped b = [].
Proof.
  unfold hasJustSingleEncoder.
  destruct (encoders b) as [|e [|e' es]], (bootstrapped b) as [|bl bs]; simpl;
    split; try discriminate; try (intros [[? ?] ?]; discriminate); eauto.
Qed.

(** What a bucket that needs a merge holds. *)
Definition mergeShape (b : BufferBucket) : Prop :=
  (encoders b = [] /\ length (bootstrapped b) <> 1%nat)
  \/ (exists e, encoders b = [e] /\ bootstrapped b <> []
                /\ ~ (EncLen (encoder e) = 0%Z /\ length (bootstrapped b) = 1%nat))
  \/ (1 < length (encoders b))%nat.

Lemma needsMerge_shape b : needsMerge b = true <-> mergeShape b.
Proof.
  unfold needsMerge, hasJustSingleEncoder, hasJustSingleBootstrappedBlock, mergeShape.
  destruct (encoders b) as [|e [|e' es]], (bootstrapped b) as [|bl [|bl' bs]]; simpl;
    try destruct (Z.eqb_spec (EncLen (encoder e)) 0) as [Hz | Hz]; simpl;
    split; intros H; try discriminate; try reflexivity;
    try (left; split; [reflexivity | simpl; lia]);
    try (right; right; lia);
    try (right; left; exists e; repeat split; [discriminate | simpl; intros [? ?]; lia]);
    try (destruct H as [[H1 H2] | [[e1 (H1 & H2 & H3)] | H1]];
         simpl in *; try discriminate; try lia; try congruence;
         try (inversion H1; subst; exfalso; apply H3; split; [assumption | reflexivity])).
Qed.

Lemma mergeStreamsToEncoder_ok blockStart blockSize streams log enc lw log' :
  mergeStreamsToEncoder blockStart blockSize streams log = (inr (enc, lw), log') ->
  log' = log.
Proof.
  unfold mergeStreamsToEncoder.
  destruct (iterate streams blockStart blockSize) as [pts iterErr].
  destruct (encodeAll _ _ _) as [[e c] | [e t]]; [discriminate |].
  destruct iterErr; [discriminate |]. congruence.
Qed.

(** A merge that fails is an error of a collaborator. *)
Lemma mergeStreamsToEncoder_err blockStart blockSize streams log err log' :
  mergeStreamsToEncoder blockStart blockSize streams log = (inl err, log') ->
  exists code, err = ExternalError code.
Proof.
  unfold mergeStreamsToEncoder.
  destruct (iterate streams blockStart blockSize) as [pts iterErr].
  destruct (encodeAll _ _ _) as [[e c] | [e t]].
  - intros H. inversion H. eauto.
  - destruct iterErr; intros H; inversion H. eauto.
Qed.

Lemma merge_success blockSize b log n b' log' :
  needsMerge b = true ->
  merge blockSize b log = (inr n, b', log') ->
  exists enc lw,
    encoders b' = [ {| encoder := enc; lastWriteAt := lw |} ]
    /\ bootstrapped b' = []
    /\ version b' = version b /\ writeType b' = writeType b /\ start b' = start b
    /\ log' = log ++ map (fun e => ClosedEncoder (encoder e)) (encoders b)
                  ++ map ClosedBlock (bootstrapped b).
Proof.
  intros Hn. unfold merge. rewrite Hn. simpl.
  destruct (mergeStreamsToEncoder _ _ _ _) as [[err | [enc lw]] log1] eqn:Hm;
    [discriminate |].
  apply mergeStreamsToEncoder_ok in Hm. subst log1.
  intros H. inversion H; subst; clear H. simpl.
  exists enc, lw. rewrite <- app_assoc. repeat split; reflexivity.
Qed.

Lemma merge_failure blockSize b log err b' log' :
  merge blockSize b log = (inl err, b', log') ->
  b' = b /\ exists code, err = ExternalError code.
Proof.
  unfold merge. destruct (needsMerge b); simpl; [| discriminate].
  destruct (mergeStreamsToEncoder _ _ _ _) as [[e | [enc lw]] log1] eqn:Hm.
  - intros H. inversion H; subst. split; [reflexivity |].
    eapply mergeStreamsToEncoder_err; eauto.
  - discriminate.
Qed.

Lemma merge_noop blockSize b log :
  needsMerge b = false -> merge blockSize b log = (inr 0%nat, b, log).
Proof. intros H. unfold merge. rewrite H. reflexivity. Qed.

Lemma mergeToStream_never_incomplete blockSize b log :
  (mergeToStream blockSize b log).1.1 <> StreamErr errIncompleteMerge.
Proof.
  unfold mergeToStream.
  destruct (hasJustSingleEncoder b) eqn:H1.
  { simpl. unfold firstEncoderStream. simpl.
    destruct (encoders b) as [|e ?]; simpl; [discriminate |].
    destruct (EncStream (encoder e)); discriminate. }
  destruct (hasJustSingleBootstrappedBlock b) eqn:H2.
  { simpl. destruct (bootstrapped b) as [|bl ?]; simpl; [discriminate |].
    destruct (BlockStream bl); simpl; discriminate. }
  assert (Hn : needsMerge b = true) by (unfold needsMerge; rewrite H1, H2; reflexivity).
  destruct (merge blockSize b log) as [[[err | n] b1] log1] eqn:Hm.
  - apply merge_failure in Hm as [_ [code ->]]. simpl. discriminate.
  - destruct (merge_success _ _ _ _ _ _ Hn Hm) as (enc & lw & He & Hb & _).
    assert (Hs : hasJustSingleEncoder b1 = true).
    { apply hasJustSingleEncoder_spec. rewrite He, Hb. eauto. }
    rewrite Hs. simpl. unfold firstEncoderStream. rewrite He. simpl.
    destruct (EncStream enc); discriminate.
Qed.

(** C9 (as amended).  A bucket needs a merge iff it holds neither exactly
    one encoder and no bootstrapped block, nor exactly one bootstrapped
    block next to no encoder or a single empty encoder.  A successful merge
    of such a bucket leaves exactly one encoder and no bootstrapped block,
    the old encoders and blocks having been closed; so the check for
    [errIncompleteMerge] that follows the merge in [mergeToStream] never
    fails. *)
Theorem merge_single_encoder (blockSize : Duration) (b : BufferBucket) (log : Log) :
  (needsMerge b = true <-> mergeShape b)
  /\ (forall n b' log',
        needsMerge b = true /\ merge blockSize b log = (inr n, b', log') ->
        exists enc lw,
          encoders b' = [ {| encoder := enc; lastWriteAt := lw |} ]
          /\ bootstrapped b' = []
          /\ log' = log ++ map (fun e => ClosedEncoder (encoder e)) (encoders b)
                        ++ map ClosedBlock (bootstrapped b))
  /\ (mergeToStream blockSize b log).1.1 <> StreamErr errIncompleteMerge.
Proof.
  split; [apply needsMerge_shape |]. split; [| apply mergeToStream_never_incomplete].
  intros n b' log' [Hn Hm].
  destruct (merge_success _ _ _ _ _ _ Hn Hm) as (enc & lw & He & Hb & _ & _ & _ & Hl).
  eauto.
Qed.

End Facts.

#[local] Existing Instance Fixtures.listExternals.

(** A warm bucket with a full encoder and a second encoder: its three
    points do not fit the encoder of a merge. *)
Definition overfullBucket : BufferBucket :=
  {| start := 7200%Z;
     encoders := [ {| encoder := [ {| Timestamp := 7210%Z; DValue := 1%Z |};
                                   {| Timestamp := 7220%Z; DValue := 2%Z |} ];
                      lastWriteAt := 7220%Z |};
                   {| encoder := [ {| Timestamp := 7215%Z; DValue := 3%Z |} ];
                      lastWriteAt := 7215%Z |} ];
     bootstrapped := []; version := 0%Z; writeType := WarmWrite |}.

(** C9 as stated fails in both directions: the bucket that [Bootstrap]
    makes in an empty bucket-versions holds one (empty) encoder and one
    bootstrapped block, a mix, and does not need a merge; the bucket that a
    failed [mergeToStream] leaves holds neither encoder nor block, and
    needs a merge. *)
Lemma needsMerge_mix_without_merge :
  let _ := Fixtures.listExternals in
  (exists b : BufferBucket,
      buckets (bv_bootstrap (bv_resetTo 0%Z)
                 (0%Z, [ {| Timestamp := 1%Z; DValue := 5%Z |} ])) = [b]
      /\ (bootstrapped b <> [] /\ encoders b <> [])
      /\ needsMerge b = false)
  /\ (exists b : BufferBucket,
        (mergeToStream 3600%Z overfullBucket []).1.2 = b
        /\ encoders b = [] /\ bootstrapped b = []
        /\ needsMerge b = true).
Proof.
  split.
  - eexists. split; [reflexivity |]. split; [split; discriminate | reflexivity].
  - eexists. split; [reflexivity |]. repeat split; reflexivity.
Qed.

(** A warm bucket with two encoders of one point each, the second written
    out of order. *)
Definition twoEncoders : BufferBucket :=
  {| start := 7200%Z;
     encoders := [ {| encoder := [ {| Timestamp := 7210%Z; DValue := 1%Z |} ];
                      lastWriteAt := 7210%Z |};
                   {| encoder := [ {| Timestamp := 7205%Z; DValue := 2%Z |} ];
                      lastWriteAt := 7205%Z |} ];
     bootstrapped := []; version := 0%Z; writeType := WarmWrite |}.

(** Merging the two encoders leaves one. *)
Lemma merge_single_encoder_witness :
  exists enc lw,
    encoders (merge 3600%Z twoEncoders []).1.2
    = [ {| encoder := enc; lastWriteAt := lw |} ].
Proof.
  assert (H : exists n b' log',
             needsMerge twoEncoders = true
             /\ merge 3600%Z twoEncoders [] = (inr n, b', log')).
  { do 3 eexists. split; reflexivity. }
  destruct H as (n & b' & log' & H).
  destruct (proj1 (proj2 (merge_single_encoder 3600%Z twoEncoders [])) n b' log' H)
    as (enc & lw & He & _).
  exists enc, lw. destruct H as [_ H]. rewrite H. exact He.
Defined.

End BucketFacts.

(** ** Write classification *)
Module WriteFacts.
Import Clock Buffer.
Local Open Scope Z_scope.

(** Durations of a configuration are non-negative int64 values. *)
Definition validConfig (c : Config) : Prop :=
  0 <= blockSize c < 2 ^ 63 /\ 0 <= bufferPast c < 2 ^ 63
  /\ 0 <= bufferFuture c < 2 ^ 63 /\ 0 <= retentionPeriod c < 2 ^ 63
  /\ 0 <= futureRetentionPeriod c < 2 ^ 63.

(** The warm window of the code: both ends are excluded from the cold side
    the same way, so the lower end itself is cold. *)
Definition inWarmWindow (c : Config) (now timestamp : Time) : Prop :=
  now - bufferPast c < timestamp < now + bufferFuture c.

Section Facts.
Context `{Ext : Externals}.

Lemma writeTypeAt_warm c now ts :
  validConfig c -> inWarmWindow c now ts -> writeTypeAt c now ts = inr WarmWrite.
Proof.
  intros (_ & Hp & _) [H1 H2]. unfold writeTypeAt, Add, Before, After.
  rewrite ClockFacts.dmul_m1_negatable by (unfold negatable; lia).
  destruct (Z.ltb_spec (now + - bufferPast c) ts); [| lia].
  destruct (Z.ltb_spec ts (now + bufferFuture c)); [| lia]. reflexivity.
Qed.

Lemma writeTypeAt_cold c now ts :
  validConfig c -> ~ inWarmWindow c now ts ->
  writeTypeAt c now ts =
  if coldWritesEnabled c then inr ColdWrite else inl InvalidParamsError.
Proof.
  intros (_ & Hp & _) Hw. unfold writeTypeAt, Add, Before, After.
  rewrite ClockFacts.dmul_m1_negatable by (unfold negatable; lia).
  unfold inWarmWindow in Hw.
  destruct (Z.ltb_spec (now + - bufferPast c) ts); simpl.
  - destruct (Z.ltb_spec ts (now + bufferFuture c)); [lia |]. simpl.
    destruct (coldWritesEnabled c); reflexivity.
  - destruct (coldWritesEnabled c); reflexivity.
Qed.

Lemma coldRetentionCheck_spec c now ts :
  validConfig c ->
  coldRetentionCheck c now ts =
  if ts <? now - retentionPeriod c then Some ErrTooPast
  else if now + futureRetentionPeriod c + blockSize c <=? ts then Some ErrTooFuture
  else None.
Proof.
  intros (_ & _ & _ & Hr & _). unfold coldRetentionCheck, Add, After.
  rewrite ClockFacts.dneg_negatable by (unfold negatable; lia).
  replace (now + - retentionPeriod c) with (now - retentionPeriod c) by lia.
  destruct (ts <? now - retentionPeriod c); [reflexivity |].
  rewrite Z.leb_antisym. reflexivity.
Qed.

(** C1 (as amended).  With [now] the injected clock value, a write is warm
    when [now - bufferPast < timestamp < now + bufferFuture] (the lower end
    of the window is excluded) and cold otherwise; a cold write fails with
    an invalid-params error when cold writes are disabled, with [ErrTooPast]
    when [timestamp < now - retentionPeriod] and with [ErrTooFuture] when
    [timestamp >= now + futureRetentionPeriod + blockSize]; any other write
    is dispatched to the writable bucket of its write type. *)
Theorem Write_classification (b : dbBuffer) (now timestamp : Time)
    (value : Value) (m : Meta) (wOpts : WriteOptions) :
  validConfig (cfg b) ->
  (inWarmWindow (cfg b) now timestamp ->
   Write b now timestamp value m wOpts = writeTo b timestamp value m wOpts WarmWrite)
  /\ (~ inWarmWindow (cfg b) now timestamp ->
      (coldWritesEnabled (cfg b) = false ->
       Write b now timestamp value m wOpts = (inl InvalidParamsError, b))
      /\ (coldWritesEnabled (cfg b) = true ->
          (timestamp < now - retentionPeriod (cfg b) ->
           Write b now timestamp value m wOpts = (inl ErrTooPast, b))
          /\ (now + futureRetentionPeriod (cfg b) + blockSize (cfg b) <= timestamp ->
              Write b now timestamp value m wOpts = (inl ErrTooFuture, b))
          /\ (now - retentionPeriod (cfg b) <= timestamp
              < now + futureRetentionPeriod (cfg b) + blockSize (cfg b) ->
              Write b now timestamp value m wOpts
              = writeTo b timestamp value m wOpts ColdWrite))).
Proof.
  intros Hc. split.
  - intros Hw. unfold Write. rewrite (writeTypeAt_warm _ _ _ Hc Hw). reflexivity.
  - intros Hw. unfold Write. rewrite (writeTypeAt_cold _ _ _ Hc Hw). split.
    + intros ->. reflexivity.
    + intros ->. simpl. rewrite (coldRetentionCheck_spec _ _ _ Hc).
      destruct Hc as (Hb & _ & _ & Hr & Hf).
      repeat split.
      * intros H. destruct (Z.ltb_spec timestamp (now - retentionPeriod (cfg b)));
          [reflexivity | lia].
      * intros H. destruct (Z.ltb_spec timestamp (now - retentionPeriod (cfg b)));
          [lia |].
        destruct (Z.leb_spec (now + futureRetentionPeriod (cfg b) + blockSize (cfg b))
                             timestamp); [reflexivity | lia].
      * intros [H1 H2].
        destruct (Z.ltb_spec timestamp (now - retentionPeriod (cfg b))); [lia |].
        destruct (Z.leb_spec (now + futureRetentionPeriod (cfg b) + blockSize (cfg b))
                             timestamp); [lia | reflexivity].
Qed.

End Facts.

(** A warm write at 02:03:20 with the clock at 02:00:00. *)
Lemma Write_classification_witness :
  let _ := Fixtures.listExternals in
  let b := newDatabaseBuffer (Fixtures.hourConfig true) in
  Write b 7200 7400 5 tt Fixtures.plainWrite
  = writeTo b 7400 5 tt Fixtures.plainWrite WarmWrite.
Proof.
  intros ext b.
  refine (proj1 (Write_classification b 7200 7400 5 tt Fixtures.plainWrite _) _).
  - unfold validConfig; simpl; lia.
  - unfold inWarmWindow; simpl; lia.
Defined.

(** C1 as stated fails at the lower end of the window: with the clock at
    02:00:00, a ten minute past buffer and cold writes disabled, the write
    at 01:50:00 is refused, while a warm write of it would be accepted. *)
Lemma Write_lower_end_is_cold :
  let _ := Fixtures.listExternals in
  let b := newDatabaseBuffer (Fixtures.hourConfig false) in
  7200 - bufferPast (cfg b) <= 6600 < 7200 + bufferFuture (cfg b)
  /\ (Write b 7200 6600 5 tt Fixtures.plainWrite).1 = inl InvalidParamsError
  /\ (writeTo b 6600 5 tt Fixtures.plainWrite WarmWrite).1 = inr true.
Proof.
  simpl. split; [lia |]. split; vm_compute; reflexivity.
Qed.

End WriteFacts.

(** ** The seeker manager *)
Module SeekFacts.
Import Clock SeekMgr.

Section Facts.
Context `{Env : SeekerEnv}.

(** *** Frame lemmas: which parts of the heap an operation leaves alone *)

Lemma closeSeekers_arrays h l :
  arrays (closeSeekers h l).1 = arrays h
  /\ nextLoc (closeSeekers h l).1 = nextLoc h
  /\ closedSeekers (closeSeekers h l).1 = closedSeekers h ++ map seeker l.
Proof. unfold closeSeekers. simpl. auto. Qed.

Lemma cloneLoop_frame n : forall h orig acc i r h',
  cloneLoop h orig acc i n = (r, h') ->
  arrays h' = arrays h /\ nextLoc h' = nextLoc h.
Proof.
  induction n as [|n IH]; intros h orig acc i r h'; simpl.
  - intros H. inversion H; subst. auto.
  - destruct (cloneErr orig i).
    + intros H. inversion H; subst. simpl. auto.
    + intros H. apply IH in H. simpl in H. exact H.
Qed.

Lemma newSeekersAndBloom_frame fc h sh bs vol new h' :
  newSeekersAndBloom fc h sh bs vol = (inr new, h') ->
  seekers new = Some (nextLoc h) /\ wg new = None /\ volume new = vol
  /\ exists l, arrays h' = <[nextLoc h := l]> (arrays h).
Proof.
  unfold newSeekersAndBloom.
  destruct (newOpenSeekerErr sh bs vol); [discriminate |].
  unfold freshSeeker, seekersAndBloomFromSeeker.
  destruct (cloneLoop _ _ _ _ _) as [[errs | bss] h1] eqn:Hc; [discriminate |].
  apply cloneLoop_frame in Hc as [Ha Hn]. simpl in Ha, Hn.
  unfold allocArray. intros H. inversion H; subst; clear H. simpl.
  rewrite Hn, Ha. eauto.
Qed.

Lemma setHeap_isUpdating m h u :
  isUpdatingLease m = u ->
  setIsUpdatingLease (setHeap (setIsUpdatingLease m true) h) u = setHeap m h.
Proof. intros <-. destruct m; reflexivity. Qed.

Lemma growShards_id m sh byTime :
  seekersByShardIdx m !! sh = Some byTime -> growShards m sh = m.
Proof.
  intros H. unfold growShards.
  apply lookup_lt_Some in H.
  destruct (Nat.ltb_spec sh (length (seekersByShardIdx m))); [reflexivity | lia].
Qed.

Lemma growShards_lookup m sh :
  exists byTime, seekersByShardIdx (growShards m sh) !! sh = Some byTime.
Proof.
  unfold growShards.
  destruct (Nat.ltb_spec sh (length (seekersByShardIdx m))) as [Hlt | Hge].
  - apply lookup_lt_is_Some_2 in Hlt. destruct Hlt as [x Hx]. eauto.
  - simpl. apply lookup_lt_is_Some_2.
    rewrite length_app, length_map, length_seq. lia.
Qed.

Lemma growShards_heap m sh : heap (growShards m sh) = heap m.
Proof. unfold growShards. destruct (_ <? _)%nat; reflexivity. Qed.

(** C2 (as amended).  When [UpdateOpenLease] finds an existing entry whose
    active volume is strictly greater than the incoming volume, it closes
    the seekers it has just opened, fails with
    [errOutOfOrderUpdateOpenLease] and leaves the entry, and every array
    but the one of the new seekers, as they were.  An incoming volume that
    is greater than or equal to the active volume rotates: the new seekers
    become active and the previous active seekers inactive. *)
Theorem UpdateOpenLease_out_of_order (m : seekerManager)
    (descriptor : LeaseDescriptor) (state : LeaseState)
    (byTime : seekersByTime) (sks : rotatableSeekers)
    (newActive : seekersAndBloom) (h1 : Heap) :
  status m = seekerManagerOpen ->
  isUpdatingLease m = false ->
  namespace m = ld_Namespace descriptor ->
  newSeekersAndBloom (fetchConcurrency m) (heap m) (ld_Shard descriptor)
                     (ld_BlockStart descriptor) (ls_Volume state)
  = (inr newActive, h1) ->
  seekersByShardIdx m !! ld_Shard descriptor = Some byTime ->
  sbt_seekers byTime !! ld_BlockStart descriptor = Some sks ->
  wg (active sks) = None ->
  ((ls_Volume state < volume (active sks))%Z ->
   exists m',
     UpdateOpenLeaseFn m descriptor state
     = (LeaseFailed errOutOfOrderUpdateOpenLease, m')
     /\ seekersByShardIdx m' = seekersByShardIdx m
     /\ closedSeekers (heap m')
        = closedSeekers h1 ++ map seeker (elems h1 (seekers newActive))
     /\ (forall l, l <> nextLoc (heap m) ->
                   arrays (heap m') !! l = arrays (heap m) !! l))
  /\ ((volume (active sks) <= ls_Volume state)%Z ->
      exists out m' byTime' w,
        UpdateOpenLeaseFn m descriptor state = (out, m')
        /\ (out = LeaseReturned UpdateOpenLease
            \/ exists g, w = Some g /\ out = LeaseWaiting g UpdateOpenLease)
        /\ seekersByShardIdx m' !! ld_Shard descriptor = Some byTime'
        /\ sbt_seekers byTime' !! ld_BlockStart descriptor
           = Some {| active := newActive;
                     inactive := {| wg := w; seekers := seekers (active sks);
                                    bloomFilter := bloomFilter (active sks);
                                    volume := volume (active sks) |} |}).
Proof.
  intros Hst Hup Hns Hnew Hsh Hent Hwg.
  assert (Hstart : startUpdateOpenLease m descriptor
                   = (inr false, setIsUpdatingLease m true)).
  { unfold startUpdateOpenLease. rewrite Hst, Hup, Hns.
    rewrite bool_decide_eq_true_2 by reflexivity. simpl.
    rewrite Z.eqb_refl. reflexivity. }
  assert (Hgrow : growShards (setHeap (setIsUpdatingLease m true) h1)
                             (ld_Shard descriptor)
                  = setHeap (setIsUpdatingLease m true) h1).
  { eapply growShards_id. simpl. exact Hsh. }
  destruct (newSeekersAndBloom_frame _ _ _ _ _ _ _ Hnew) as (Hs & Hw & Hv & l0 & Harr).
  split.
  - intros Hlt. unfold UpdateOpenLeaseFn. rewrite Hstart.
    unfold updateOpenLeaseHotSwapSeekers. simpl. rewrite Hnew, Hgrow. simpl.
    rewrite Hsh, Hent, Hwg.
    destruct (Z.ltb_spec (ls_Volume state) (volume (active sks))); [| lia].
    simpl. eexists. split; [reflexivity |]. simpl.
    repeat split. intros l Hl. rewrite Harr. apply lookup_insert_ne. congruence.
  - intros Hle. unfold UpdateOpenLeaseFn. rewrite Hstart.
    unfold updateOpenLeaseHotSwapSeekers. simpl. rewrite Hnew, Hgrow. simpl.
    rewrite Hsh, Hent, Hwg.
    destruct (Z.ltb_spec (ls_Volume state) (volume (active sks))); [lia |].
    destruct (anyBorrowedIn (elems h1 (seekers (active sks)))); simpl.
    + do 4 eexists. split; [reflexivity |]. split; [right; eauto |].
      simpl. rewrite list_lookup_insert_eq by (eapply lookup_lt_Some; eauto).
      split; [reflexivity |]. simpl. apply lookup_insert_eq.
    + do 4 eexists. split; [reflexivity |]. split; [left; reflexivity |].
      simpl. rewrite list_lookup_insert_eq by (eapply lookup_lt_Some; eauto).
      split; [reflexivity |]. simpl. apply lookup_insert_eq.
Qed.

(** [i] is the first slot of [l] that holds the seeker [sk]. *)
Definition firstSlot (sk : SeekerId) (l : list borrowableSeeker) (i : nat) : Prop :=
  (exists b, l !! i = Some b /\ seeker b = sk)
  /\ forall j b, l !! j = Some b -> (j < i)%nat -> seeker b <> sk.

Lemma firstSlot_find sk l i :
  firstSlot sk l i -> exists b, list_find (hasSeeker sk) l = Some (i, b) /\ seeker b = sk.
Proof.
  intros [(b & Hb & Hs) Hfirst]. exists b. split; [| exact Hs].
  apply list_find_Some. split; [exact Hb |]. split; [exact Hs |].
  intros j y Hy Hj. unfold hasSeeker. eauto.
Qed.





(** *** Close *)

(** The borrowable seekers of an entry, active then inactive. *)
Definition entrySeekers (h : Heap) (sks : rotatableSeekers) : list borrowableSeeker :=
  elems h (seekers (active sks)) ++ elems h (seekers (inactive sks)).


Lemma anyBorrowedIn_spec l :
  anyBorrowedIn l = true <-> exists b, In b l /\ isBorrowed b = true.
Proof. unfold anyBorrowedIn. apply existsb_exists. Qed.

Lemma entryBorrowed_spec h sks :
  entryBorrowed h sks = true <->
  exists b, In b (entrySeekers h sks) /\ isBorrowed b = true.
Proof.
  unfold entryBorrowed, entrySeekers. rewrite orb_true_iff, !anyBorrowedIn_spec.
  split.
  - intros [(b & Hb & H) | (b & Hb & H)]; exists b; rewrite in_app_iff; auto.
  - intros (b & Hb & H). rewrite in_app_iff in Hb. destruct Hb; eauto.
Qed.








End Facts.

(** A manager for namespace 7 with two seekers per fileset, opened, whose
    shard 0 holds seekers of volume 3 for the block at 01:00:00. *)
Definition leaseAt : LeaseDescriptor :=
  {| ld_Namespace := 7%Z; ld_Shard := 0%nat; ld_BlockStart := 3600%Z |}.

Definition managerAtVolume3 : seekerManager :=
  let _ := Fixtures.quietEnv in
  (UpdateOpenLeaseFn (Open (NewSeekerManager 2%Z) 7%Z).2 leaseAt {| ls_Volume := 3%Z |}).2.

(** A lease update for volume 2 on the manager at volume 3. *)
Lemma UpdateOpenLease_out_of_order_witness :
  let _ := Fixtures.quietEnv in
  exists m',
    UpdateOpenLeaseFn managerAtVolume3 leaseAt {| ls_Volume := 2%Z |}
    = (LeaseFailed errOutOfOrderUpdateOpenLease, m')
    /\ seekersByShardIdx m' = seekersByShardIdx managerAtVolume3.
Proof.
  intros env.
  assert (Hnew : exists na h1,
             newSeekersAndBloom (fetchConcurrency managerAtVolume3)
               (heap managerAtVolume3) (ld_Shard leaseAt) (ld_BlockStart leaseAt) 2%Z
             = (inr na, h1)) by (do 2 eexists; reflexivity).
  destruct Hnew as (na & h1 & Hnew).
  assert (Hsh : exists bt sks,
             seekersByShardIdx managerAtVolume3 !! ld_Shard leaseAt = Some bt
             /\ sbt_seekers bt !! ld_BlockStart leaseAt = Some sks
             /\ wg (active sks) = None /\ (2 < volume (active sks))%Z).
  { do 2 eexists. split; [reflexivity |]. split; [reflexivity |].
    split; [reflexivity |]. simpl. lia. }
  destruct Hsh as (bt & sks & Hsh & Hent & Hwg & Hvol).
  destruct (proj1 (UpdateOpenLease_out_of_order managerAtVolume3 leaseAt
                     {| ls_Volume := 2%Z |} bt sks na h1
                     eq_refl eq_refl eq_refl Hnew Hsh Hent Hwg) Hvol)
    as (m' & Hm & Hs & _).
  exists m'. split; assumption.
Defined.





(** C2 as stated fails when the volumes are equal: a lease update for
    volume 3 on the manager at volume 3 is not refused; it rotates and
    returns [UpdateOpenLease]. *)
Lemma UpdateOpenLease_equal_volume_rotates :
  let _ := Fixtures.quietEnv in
  (exists bt sks,
      seekersByShardIdx managerAtVolume3 !! 0%nat = Some bt
      /\ sbt_seekers bt !! 3600%Z = Some sks
      /\ volume (active sks) = 3%Z /\ seekers (active sks) = Some 0%nat)
  /\ exists m' bt' sks',
      UpdateOpenLeaseFn managerAtVolume3 leaseAt {| ls_Volume := 3%Z |}
      = (LeaseReturned UpdateOpenLease, m')
      /\ seekersByShardIdx m' !! 0%nat = Some bt'
      /\ sbt_seekers bt' !! 3600%Z = Some sks'
      /\ seekers (active sks') = Some 1%nat
      /\ seekers (inactive sks') = Some 0%nat.
Proof.
  intros env. split.
  - do 2 eexists. repeat split; reflexivity.
  - do 3 eexists. repeat split; reflexivity.
Qed.

End SeekFacts.

(** ** The namespace index query *)
Module QueryFacts.
Import Clock NsIndex.
Local Open Scope Z_scope.




Section Facts.
Context `{BE : BlockEnv}.







End Facts.




End QueryFacts.

(** ** Merging the buckets of a block start *)
Module FlushFacts.
Import Clock Buffer.

Section Facts.
Context `{Ext : Externals}.

(** What merging to streams keeps of a bucket: its position, its version,
    its write type and its start; a bucket that is not selected is kept
    whole. *)
Definition keptBy (opts : streamsOptions) (b b' : BufferBucket) : Prop :=
  version b' = version b /\ writeType b' = writeType b /\ start b' = start b
  /\ (selected opts b = false -> b' = b).

Lemma mergeToStream_frame blockSize b log r b' log' :
  mergeToStream blockSize b log = (r, b', log') ->
  version b' = version b /\ writeType b' = writeType b /\ start b' = start b.
Proof.
  unfold mergeToStream.
  destruct (hasJustSingleEncoder b).
  { simpl. intros H. inversion H; subst. auto. }
  destruct (hasJustSingleBootstrappedBlock b).
  { simpl. destruct (bootstrapped b) as [|bl ?]; simpl.
    - intros H. inversion H; subst. auto.
    - destruct (BlockStream bl); intros H; inversion H; subst; auto. }
  destruct (merge blockSize b log) as [[[err | n] b1] log1] eqn:Hm.
  - apply BucketFacts.merge_failure in Hm as [-> _]. simpl.
    intros H. inversion H; subst. auto.
  - unfold merge in Hm. destruct (needsMerge b); simpl in Hm.
    + destruct (mergeStreamsToEncoder _ _ _ _) as [[e | [enc lw]] l1];
        [discriminate |].
      inversion Hm; subst; clear Hm.
      destruct (negb _); intros H; inversion H; subst; auto.
    + inversion Hm; subst; clear Hm.
      destruct (negb _); intros H; inversion H; subst; auto.
Qed.

(** A failing [mergeToStream] is an error of a collaborator; it leaves the
    bucket without encoders, and without bootstrapped blocks when the
    bucket was being merged. *)
Lemma mergeToStream_error blockSize b log e b' log' :
  mergeToStream blockSize b log = (StreamErr e, b', log') ->
  (exists code, e = ExternalError code)
  /\ encoders b' = []
  /\ (needsMerge b = true -> bootstrapped b' = [])
  /\ (needsMerge b = false -> bootstrapped b' = bootstrapped b).
Proof.
  unfold mergeToStream, needsMerge.
  destruct (hasJustSingleEncoder b) eqn:H1.
  { simpl. unfold firstEncoderStream. simpl.
    destruct (encoders b) as [|x ?]; [discriminate |].
    destruct (EncStream (encoder x)); discriminate. }
  destruct (hasJustSingleBootstrappedBlock b) eqn:H2.
  { simpl. destruct (bootstrapped b) as [|bl ?] eqn:Hb; simpl; [discriminate |].
    destruct (BlockStream bl); [| discriminate].
    intros H. inversion H; subst. simpl.
    split; [eauto |]. split; [reflexivity |]. split; [discriminate | auto]. }
  simpl.
  destruct (merge blockSize b log) as [[[err | n] b1] log1] eqn:Hm.
  - destruct (BucketFacts.merge_failure _ _ _ _ _ _ Hm) as [-> Hc]. simpl.
    intros H. inversion H; subst. simpl.
    split; [exact Hc |]. split; [reflexivity |]. split; [reflexivity | discriminate].
  - assert (Hn : needsMerge b = true) by (unfold needsMerge; rewrite H1, H2; reflexivity).
    destruct (BucketFacts.merge_success _ _ _ _ _ _ Hn Hm) as (enc & lw & He & Hb & _).
    assert (Hs : hasJustSingleEncoder b1 = true).
    { apply BucketFacts.hasJustSingleEncoder_spec. rewrite He, Hb. eauto. }
    rewrite Hs. simpl. unfold firstEncoderStream. rewrite He. simpl.
    destruct (EncStream enc); discriminate.
Qed.

Lemma mergeToStreamsLoop_frame blockSize opts bs : forall log r bs' log',
  mergeToStreamsLoop blockSize opts bs log = (r, bs', log') ->
  Forall2 (keptBy opts) bs bs'.
Proof.
  induction bs as [|b bs IH]; intros log r bs' log'; simpl.
  - intros H. inversion H; subst. constructor.
  - assert (Hrefl : Forall2 (keptBy opts) bs bs).
    { apply Forall2_same_length_lookup. split; [reflexivity |].
      intros i x y Hx Hy. rewrite Hx in Hy. inversion Hy; subst.
      unfold keptBy. auto. }
    destruct (selected opts b) eqn:Hsel.
    + destruct (mergeToStream blockSize b log) as [[s b1] log1] eqn:Hm.
      assert (Hk : keptBy opts b b1).
      { destruct (mergeToStream_frame _ _ _ _ _ _ Hm) as (Hv & Hw & Hs).
        unfold keptBy. rewrite Hsel. repeat split; auto. discriminate. }
      destruct s as [e | | s].
      * intros H. inversion H; subst. constructor; assumption.
      * destruct (mergeToStreamsLoop blockSize opts bs log1) as [[r1 bs1] l1] eqn:Hl.
        intros H. inversion H; subst. constructor; [assumption | eauto].
      * destruct (mergeToStreamsLoop blockSize opts bs log1) as [[r1 bs1] l1] eqn:Hl.
        intros H. inversion H; subst. constructor; [assumption | eauto].
    + destruct (mergeToStreamsLoop blockSize opts bs log) as [[r1 bs1] l1] eqn:Hl.
      intros H. inversion H; subst. constructor; [| eauto].
      unfold keptBy. auto.
Qed.

Lemma keptBy_versions opts bs bs' :
  Forall2 (keptBy opts) bs bs' -> map version bs' = map version bs.
Proof.
  induction 1 as [|b b' bs bs' (Hv & _) _ IH]; simpl; [reflexivity |].
  rewrite Hv, IH. reflexivity.
Qed.

Lemma keptBy_writable opts wt bs bs' :
  Forall2 (keptBy opts) bs bs' ->
  fst <$> list_find (isWritable wt) bs' = fst <$> list_find (isWritable wt) bs.
Proof.
  induction 1 as [|b b' bs bs' (Hv & Hw & _) _ IH]; simpl; [reflexivity |].
  assert (Hiff : isWritable wt b' <-> isWritable wt b)
    by (unfold isWritable; rewrite Hv, Hw; tauto).
  destruct (decide (isWritable wt b')), (decide (isWritable wt b));
    simpl; try tauto.
  destruct (list_find (isWritable wt) bs') as [[i x] |],
           (list_find (isWritable wt) bs) as [[j y] |];
    simpl in *; congruence.
Qed.

Lemma mergeToStreams_frame blockSize opts bv log r bv' log' :
  mergeToStreams blockSize opts bv log = (r, bv', log') ->
  bv_start bv' = bv_start bv
  /\ Forall2 (keptBy opts) (buckets bv) (buckets bv').
Proof.
  unfold mergeToStreams.
  destruct (mergeToStreamsLoop _ _ _ _) as [[r1 bs1] l1] eqn:Hl.
  intros H. inversion H; subst. simpl. split; [reflexivity |].
  eapply mergeToStreamsLoop_frame; eauto.
Qed.

Lemma warmFlushStream_frame blockSize blockStart bv log r bv' log' :
  warmFlushStream blockSize blockStart bv log = (r, bv', log') ->
  bv_start bv' = bv_start bv
  /\ Forall2 (keptBy (onlyType WarmWrite)) (buckets bv) (buckets bv').
Proof.
  unfold warmFlushStream.
  destruct (mergeToStreams _ _ _ _) as [[r1 bv1] l1] eqn:Hm.
  apply mergeToStreams_frame in Hm.
  destruct r1 as [e | [|s [|s' ss]]].
  - intros H. inversion H; subst. exact Hm.
  - destruct (mergeStreamsToEncoder _ _ _ _) as [[e | [enc lw]] l2];
      intros H; inversion H; subst; exact Hm.
  - intros H. inversion H; subst. exact Hm.
  - destruct (mergeStreamsToEncoder _ _ _ _) as [[e | [enc lw]] l2];
      intros H; inversion H; subst; exact Hm.
Qed.

Lemma snapshotStream_frame blockSize blockStart bv log r bv' log' :
  snapshotStream blockSize blockStart bv log = (r, bv', log') ->
  bv_start bv' = bv_start bv
  /\ Forall2 (keptBy noFilter) (buckets bv) (buckets bv').
Proof.
  unfold snapshotStream.
  destruct (mergeToStreams _ _ _ _) as [[r1 bv1] l1] eqn:Hm.
  apply mergeToStreams_frame in Hm.
  destruct r1 as [e | [|s [|s' ss]]].
  - intros H. inversion H; subst. exact Hm.
  - destruct (iterate _ _ _) as [pts' iterErr'].
    destruct (encodeAll _ _ _) as [[enc c] | [enc t]];
      [| destruct iterErr']; intros H; inversion H; subst; exact Hm.
  - intros H. inversion H; subst. exact Hm.
  - destruct (iterate _ _ _) as [pts' iterErr'].
    destruct (encodeAll _ _ _) as [[enc c] | [enc t]];
      [| destruct iterErr']; intros H; inversion H; subst; exact Hm.
Qed.

Lemma persistSegment_true persistFn s :
  persistSegment persistFn s = inr true <->
  exists seg, SegmentOf s = inr seg /\ SegmentLen seg <> 0%Z /\ persistFn seg = None.
Proof.
  unfold persistSegment. destruct (SegmentOf s) as [code | seg].
  - split; [discriminate | intros (? & H & _); discriminate].
  - destruct (Z.eqb_spec (SegmentLen seg) 0) as [Hz | Hz].
    + split; [discriminate |]. intros (seg' & H & Hn & _). congruence.
    + destruct (persistFn seg) eqn:Hp.
      * split; [discriminate |]. intros (seg' & H & _ & Hp'). congruence.
      * split; [eauto |]. reflexivity.
Qed.

Lemma persistSegment_false persistFn s :
  persistSegment persistFn s = inr false <->
  exists seg, SegmentOf s = inr seg /\ SegmentLen seg = 0%Z.
Proof.
  unfold persistSegment. destruct (SegmentOf s) as [code | seg].
  - split; [discriminate | intros (? & H & _); discriminate].
  - destruct (Z.eqb_spec (SegmentLen seg) 0) as [Hz | Hz].
    + split; [eauto | reflexivity].
    + split.
      * destruct (persistFn seg); discriminate.
      * intros (seg' & H & Hn). congruence.
Qed.

(** What [WarmFlush] keeps of a bucket: its write type and start, and all
    of it when it is not a warm bucket. *)
Definition warmOnly (b b' : BufferBucket) : Prop :=
  writeType b' = writeType b /\ start b' = start b
  /\ (writeType b <> WarmWrite -> b' = b).

Lemma keptBy_warmOnly bs bs' :
  Forall2 (keptBy (onlyType WarmWrite)) bs bs' -> Forall2 warmOnly bs bs'.
Proof.
  intros HF. eapply Forall2_impl; [exact HF |]. intros b b' (Hv & Hw & Hs & Hsel).
  unfold warmOnly. repeat split; auto. intros Hne. apply Hsel.
  unfold selected. simpl. apply bool_decide_eq_false_2. exact Hne.
Qed.

Lemma warmOnly_promote bs bs' i bk v :
  Forall2 warmOnly bs bs' ->
  list_find (isWritable WarmWrite) bs' = Some (i, bk) ->
  Forall2 warmOnly bs (<[i := setVersion bk v]> bs').
Proof.
  intros HF Hfind. apply list_find_Some in Hfind as (Hi & [_ Hw] & _).
  apply Forall2_same_length_lookup in HF as [Hlen HF].
  apply Forall2_same_length_lookup. split; [rewrite length_insert; exact Hlen |].
  intros j x y Hx Hy. destruct (decide (i = j)) as [<- | Hne].
  - rewrite list_lookup_insert_eq in Hy by (eapply lookup_lt_Some; eauto).
    inversion Hy; subst; clear Hy.
    destruct (HF _ _ _ Hx Hi) as (Hwt & Hst & Hsame).
    unfold warmOnly. simpl. repeat split; auto. intros Hne. congruence.
  - rewrite list_lookup_insert_ne in Hy by exact Hne. eauto.
Qed.

(** The versions of the buckets after a successful warm flush. *)
Definition promoted (bv : BufferBucketVersions) : list Z :=
  match writableBucket WarmWrite bv with
  | Some (i, _) => <[i := 1%Z]> (map version (buckets bv))
  | None => map version (buckets bv)
  end.

(** The stream of a merged bucket: that of its encoder or, without an
    encoder, that of its bootstrapped block. *)
Definition bucketStream (bk : BufferBucket) : option SegmentReader :=
  match encoders bk with
  | e :: _ => EncStream (encoder e)
  | [] =>
      match bootstrapped bk with
      | bl :: _ =>
          match BlockStream bl with
          | inr br => Some (asSegmentReader br)
          | inl _ => None
          end
      | [] => None
      end
  end.

(** What merging a bucket to one stream makes of it: a bucket that needs no
    merge; the bucket itself when it held a single encoder and nothing else;
    the bucket without its (empty) encoder when it held a single
    bootstrapped block; and otherwise a bucket whose only encoder holds the
    points of the bootstrapped blocks and of the encoders of the bucket, as
    the iterator yields them. *)
Definition mergedInto (bs : Duration) (bk bk' : BufferBucket) : Prop :=
  needsMerge bk' = false
  /\ (hasJustSingleEncoder bk = true ->
      encoders bk' = encoders bk /\ bootstrapped bk' = bootstrapped bk)
  /\ (hasJustSingleEncoder bk = false -> hasJustSingleBootstrappedBlock bk = true ->
      encoders bk' = [] /\ bootstrapped bk' = bootstrapped bk)
  /\ (needsMerge bk = true ->
      exists pts enc lw,
        iterate (mergeReaders bk) (start bk) bs = (pts, None)
        /\ encodeAll (encoderGet (start bk)) timeZero pts = inr (enc, lw)
        /\ encoders bk' = [ {| encoder := enc; lastWriteAt := lw |} ]
        /\ bootstrapped bk' = []).

(** Why a bucket cannot be merged to one stream: encoding the points of
    the bucket fails or the iterator over them fails, or the single
    bootstrapped block of the bucket has no stream. *)
Definition cannotMerge (bs : Duration) (bk : BufferBucket) (e : error) : Prop :=
  (needsMerge bk = true
   /\ exists code,
        e = ExternalError code
        /\ ((exists enc,
               encodeAll (encoderGet (start bk)) timeZero
                         (iterate (mergeReaders bk) (start bk) bs).1 = inl (enc, code))
            \/ ((exists r,
                   encodeAll (encoderGet (start bk)) timeZero
                             (iterate (mergeReaders bk) (start bk) bs).1 = inr r)
                /\ (iterate (mergeReaders bk) (start bk) bs).2 = Some code)))
  \/ (hasJustSingleEncoder bk = false /\ hasJustSingleBootstrappedBlock bk = true
      /\ exists bl rest code,
           bootstrapped bk = bl :: rest /\ BlockStream bl = inl code
           /\ e = ExternalError code).

(** The warm streams of the bucket versions, one for each warm bucket that
    has a stream. *)
Definition warmStreams (bv : BufferBucketVersions) : list SegmentReader :=
  omap bucketStream (filter (fun bk => writeType bk = WarmWrite) (buckets bv)).

(** The one stream to persist: the stream itself when there is exactly one;
    otherwise the stream of a new encoder of the block start that has
    encoded the points of all the streams. *)
Definition streamToPersist (bs : Duration) (blockStart : Time)
    (streams : list SegmentReader) : error + option SegmentReader :=
  match streams with
  | [s] => inr (Some s)
  | _ =>
      match encodeAll (encoderGet blockStart) timeZero
                      (iterate streams blockStart bs).1 with
      | inl (_, code) => inl (ExternalError code)
      | inr (enc, _) =>
          match (iterate streams blockStart bs).2 with
          | Some code => inl (ExternalError code)
          | None => inr (EncStream enc)
          end
      end
  end.

Definition streamOf (r : StreamResult) : option SegmentReader :=
  match r with
  | StreamOk s => Some s
  | _ => None
  end.

Lemma mergeToStream_merged blockSize b log r b' log' :
  mergeToStream blockSize b log = (r, b', log') ->
  (forall e, r <> StreamErr e) ->
  mergedInto blockSize b b' /\ bucketStream b' = streamOf r.
Proof.
  unfold mergeToStream, mergedInto, needsMerge.
  destruct (hasJustSingleEncoder b) eqn:H1.
  { simpl. intros H _. inversion H; subst; clear H.
    apply BucketFacts.hasJustSingleEncoder_spec in H1 as [[e He] Hb].
    unfold hasJustSingleEncoder, firstEncoderStream, bucketStream. simpl.
    rewrite He, Hb. simpl.
    split; [| destruct (EncStream (encoder e)); reflexivity].
    split; [reflexivity |]. split; [auto |]. split; discriminate. }
  destruct (hasJustSingleBootstrappedBlock b) eqn:H2.
  { simpl. pose proof H2 as H2'. unfold hasJustSingleBootstrappedBlock in H2'.
    destruct (bootstrapped b) as [|bl [|bl' bls]] eqn:Hb; simpl in H2';
      try (rewrite andb_false_r in H2'; discriminate).
    destruct (BlockStream bl) as [code | br] eqn:Hs.
    - intros H Hne. inversion H; subst. exfalso. eapply Hne. reflexivity.
    - intros H _. inversion H; subst; clear H.
      unfold hasJustSingleEncoder, hasJustSingleBootstrappedBlock, bucketStream.
      simpl. rewrite Hb, Hs. simpl.
      split; [| reflexivity].
      split; [reflexivity |]. split; [discriminate |]. split; [auto | discriminate]. }
  simpl.
  assert (Hn : needsMerge b = true) by (unfold needsMerge; rewrite H1, H2; reflexivity).
  destruct (merge blockSize b log) as [[[err | n] b1] log1] eqn:Hm.
  { simpl. intros H Hne. inversion H; subst. exfalso. eapply Hne. reflexivity. }
  pose proof Hm as Hm'. unfold merge in Hm'. rewrite Hn in Hm'. simpl in Hm'.
  unfold mergeStreamsToEncoder in Hm'.
  destruct (iterate (mergeReaders b) (start b) blockSize) as [pts iterErr] eqn:Hit.
  destruct (encodeAll (encoderGet (start b)) timeZero pts) as [[enc c] | [enc lw]] eqn:Hen;
    [discriminate |].
  destruct iterErr as [c |]; [discriminate |].
  inversion Hm'; subst; clear Hm'.
  unfold hasJustSingleEncoder, firstEncoderStream, hasJustSingleBootstrappedBlock,
    bucketStream. simpl.
  intros H _. inversion H; subst; clear H. simpl.
  split; [| destruct (EncStream enc); reflexivity].
  split; [reflexivity |]. split; [discriminate |]. split; [discriminate |].
  intros _. exists pts, enc, lw. auto.
Qed.

Lemma mergeToStream_cannot blockSize b log e b' log' :
  mergeToStream blockSize b log = (StreamErr e, b', log') ->
  cannotMerge blockSize b e.
Proof.
  unfold mergeToStream, cannotMerge.
  destruct (hasJustSingleEncoder b) eqn:H1.
  { simpl. unfold firstEncoderStream. simpl.
    destruct (encoders b) as [|x ?]; [discriminate |].
    destruct (EncStream (encoder x)); discriminate. }
  destruct (hasJustSingleBootstrappedBlock b) eqn:H2.
  { simpl. destruct (bootstrapped b) as [|bl bls] eqn:Hb; simpl; [discriminate |].
    destruct (BlockStream bl) as [code | br] eqn:Hs; [| discriminate].
    intros H. inversion H; subst. right.
    split; [reflexivity |]. split; [reflexivity |]. eauto 6. }
  simpl.
  assert (Hn : needsMerge b = true) by (unfold needsMerge; rewrite H1, H2; reflexivity).
  unfold merge. rewrite Hn. simpl. unfold mergeStreamsToEncoder.
  destruct (iterate (mergeReaders b) (start b) blockSize) as [pts iterErr] eqn:Hit.
  simpl.
  destruct (encodeAll (encoderGet (start b)) timeZero pts) as [[enc c] | [enc lw]] eqn:Hen.
  - simpl. intros H. inversion H; subst. left. split; [reflexivity |].
    exists c. split; [reflexivity |]. left. eauto.
  - destruct iterErr as [c |].
    + simpl. intros H. inversion H; subst. left. split; [reflexivity |].
      exists c. split; [reflexivity |]. right. split; [eauto | reflexivity].
    + simpl. unfold hasJustSingleEncoder. simpl. unfold firstEncoderStream. simpl.
      destruct (EncStream enc); discriminate.
Qed.

Lemma mergeToStreamsLoop_merged blockSize opts bs : forall log ss bs' log',
  mergeToStreamsLoop blockSize opts bs log = (inr ss, bs', log') ->
  Forall2 (fun bk bk' => selected opts bk = true -> mergedInto blockSize bk bk') bs bs'
  /\ ss = omap (fun bk => if selected opts bk then bucketStream bk else None) bs'.
Proof.
  induction bs as [|b bs IH]; intros log ss bs' log'; simpl.
  { intros H. inversion H; subst. split; [constructor | reflexivity]. }
  destruct (selected opts b) eqn:Hsel.
  - destruct (mergeToStream blockSize b log) as [[s b1] log1] eqn:Hm.
    assert (Hsel1 : selected opts b1 = true).
    { destruct (mergeToStream_frame _ _ _ _ _ _ Hm) as (_ & Hw & _).
      unfold selected in *. rewrite Hw. exact Hsel. }
    destruct s as [e1 | | s]; [discriminate | |].
    + destruct (mergeToStreamsLoop blockSize opts bs log1) as [[r1 bs1] l1] eqn:Hl.
      intros H. inversion H; subst; clear H.
      destruct (IH _ _ _ _ Hl) as [HF Hss].
      destruct (mergeToStream_merged _ _ _ _ _ _ Hm) as [Hmi Hst]; [discriminate |].
      split; [constructor; auto |].
      simpl. rewrite Hsel1, Hst. simpl. exact Hss.
    + destruct (mergeToStreamsLoop blockSize opts bs log1) as [[r1 bs1] l1] eqn:Hl.
      destruct r1 as [e1 | ss1]; intros H; inversion H; subst; clear H.
      destruct (IH _ _ _ _ Hl) as [HF Hss].
      destruct (mergeToStream_merged _ _ _ _ _ _ Hm) as [Hmi Hst]; [discriminate |].
      split; [constructor; auto |].
      simpl. rewrite Hsel1, Hst. simpl. rewrite Hss. reflexivity.
  - destruct (mergeToStreamsLoop blockSize opts bs log) as [[r1 bs1] l1] eqn:Hl.
    intros H. inversion H; subst; clear H.
    destruct (IH _ _ _ _ Hl) as [HF Hss].
    split; [constructor; [congruence | exact HF] |].
    simpl. rewrite Hsel. exact Hss.
Qed.

Lemma mergeToStreamsLoop_cannot blockSize opts bs : forall log e bs' log',
  mergeToStreamsLoop blockSize opts bs log = (inl e, bs', log') ->
  exists i bk, bs !! i = Some bk /\ selected opts bk = true
               /\ cannotMerge blockSize bk e.
Proof.
  induction bs as [|b bs IH]; intros log e bs' log'; simpl; [discriminate |].
  destruct (selected opts b) eqn:Hsel.
  - destruct (mergeToStream blockSize b log) as [[s b1] log1] eqn:Hm.
    destruct s as [e1 | | s].
    + intros H. inversion H; subst. exists 0%nat, b. simpl.
      split; [reflexivity |]. split; [exact Hsel |].
      eapply mergeToStream_cannot; exact Hm.
    + destruct (mergeToStreamsLoop blockSize opts bs log1) as [[r1 bs1] l1] eqn:Hl.
      intros H. inversion H; subst.
      destruct (IH _ _ _ _ Hl) as (i & bk & H1 & H2 & H3).
      exists (S i), bk. auto.
    + destruct (mergeToStreamsLoop blockSize opts bs log1) as [[r1 bs1] l1] eqn:Hl.
      destruct r1 as [e1 | ss]; intros H; inversion H; subst.
      destruct (IH _ _ _ _ Hl) as (i & bk & H1 & H2 & H3).
      exists (S i), bk. auto.
  - destruct (mergeToStreamsLoop blockSize opts bs log) as [[r1 bs1] l1] eqn:Hl.
    intros H. inversion H; subst.
    destruct (IH _ _ _ _ Hl) as (i & bk & H1 & H2 & H3).
    exists (S i), bk. auto.
Qed.

Lemma omap_cons_eq {A B} (g : A -> option B) (x : A) (l : list A) :
  omap g (x :: l) = match g x with Some y => y :: omap g l | None => omap g l end.
Proof. reflexivity. Qed.

Lemma warmStreams_omap bv :
  warmStreams bv
  = omap (fun bk => if selected (onlyType WarmWrite) bk then bucketStream bk else None)
         (buckets bv).
Proof.
  unfold warmStreams. induction (buckets bv) as [|bk l IH]; [reflexivity |].
  rewrite filter_cons, (omap_cons_eq _ bk l).
  assert (Hsel : selected (onlyType WarmWrite) bk = bool_decide (writeType bk = WarmWrite))
    by reflexivity.
  rewrite Hsel.
  destruct (decide (writeType bk = WarmWrite)) as [Hw | Hw].
  - rewrite (bool_decide_eq_true_2 _ Hw), omap_cons_eq, IH. reflexivity.
  - rewrite (bool_decide_eq_false_2 _ Hw). exact IH.
Qed.

Lemma omap_insert_same {A B} (g : A -> option B) (l : list A) i x y :
  l !! i = Some x -> g y = g x -> omap g (<[i := y]> l) = omap g l.
Proof.
  revert i. induction l as [|a l IH]; intros i Hi Hg; [destruct i; discriminate |].
  destruct i as [|i]; simpl in Hi.
  - inversion Hi; subst. change (<[0%nat := y]> (x :: l)) with (y :: l).
    rewrite !omap_cons_eq, Hg. reflexivity.
  - change (<[S i := y]> (a :: l)) with (a :: <[i := y]> l).
    rewrite !omap_cons_eq, (IH i Hi Hg). reflexivity.
Qed.

Lemma warmStreams_setVersionAt bv i v :
  warmStreams (setVersionAt bv i v) = warmStreams bv.
Proof.
  rewrite !warmStreams_omap. unfold setVersionAt.
  destruct (buckets bv !! i) as [bk |] eqn:Hi; [| reflexivity].
  simpl. eapply omap_insert_same; [exact Hi | reflexivity].
Qed.

Lemma mergedInto_setVersion bs bk bk' v :
  mergedInto bs bk bk' -> mergedInto bs bk (setVersion bk' v).
Proof. unfold mergedInto. intros H. exact H. Qed.

(** The stream [WarmFlush] is about to persist. *)
Lemma warmFlushStream_spec bs blockStart bv log r bv' log' :
  warmFlushStream bs blockStart bv log = (r, bv', log') ->
  (exists e i bk,
      r = inl e /\ buckets bv !! i = Some bk /\ writeType bk = WarmWrite
      /\ cannotMerge bs bk e)
  \/ (Forall2 (fun bk bk' => writeType bk = WarmWrite -> mergedInto bs bk bk')
              (buckets bv) (buckets bv')
      /\ r = streamToPersist bs blockStart (warmStreams bv')).
Proof.
  unfold warmFlushStream, mergeToStreams.
  destruct (mergeToStreamsLoop bs (onlyType WarmWrite) (buckets bv) log)
    as [[[e | ss] l1] log1] eqn:Hl.
  - intros H. inversion H; subst. left.
    destruct (mergeToStreamsLoop_cannot _ _ _ _ _ _ _ Hl) as (i & bk & H1 & H2 & H3).
    exists e, i, bk. split; [reflexivity |]. split; [exact H1 |]. split; [| exact H3].
    unfold selected in H2. simpl in H2. apply bool_decide_eq_true in H2. exact H2.
  - destruct (mergeToStreamsLoop_merged _ _ _ _ _ _ _ Hl) as [HF Hss].
    assert (HF' : Forall2 (fun bk bk' => writeType bk = WarmWrite -> mergedInto bs bk bk')
                          (buckets bv) l1).
    { eapply Forall2_impl; [exact HF |]. intros bk bk' Hi Hw. apply Hi.
      unfold selected. simpl. apply bool_decide_eq_true_2. exact Hw. }
    assert (Hws : forall bvx, buckets bvx = l1 -> warmStreams bvx = ss).
    { intros bvx Hb. rewrite warmStreams_omap, Hb. symmetry. exact Hss. }
    intros H. right.
    assert (Hcases : (exists s, ss = [s]) \/ (forall s, ss <> [s])).
    { destruct ss as [|s [|s' ss']]; [right; discriminate | left; eauto | right; discriminate]. }
    destruct Hcases as [[s ->] | Hne].
    + inversion H; subst. simpl. split; [exact HF' |].
      rewrite (Hws (setBuckets bv l1) eq_refl). reflexivity.
    + assert (Hr : (r, bv', log')
                   = match mergeStreamsToEncoder blockStart bs ss log1 with
                     | (inl err, log2) => (inl err, setBuckets bv l1, log2)
                     | (inr (enc, _), log2) =>
                         (inr (EncStream enc), setBuckets bv l1, log2 ++ [ClosedEncoder enc])
                     end).
      { rewrite <- H. destruct ss as [|s [|s' ss']]; try reflexivity.
        exfalso. eapply Hne. reflexivity. }
      clear H. unfold mergeStreamsToEncoder in Hr.
      assert (Hsp : streamToPersist bs blockStart ss
                    = match encodeAll (encoderGet blockStart) timeZero
                                      (iterate ss blockStart bs).1 with
                      | inl (_, code) => inl (ExternalError code)
                      | inr (enc, _) =>
                          match (iterate ss blockStart bs).2 with
                          | Some code => inl (ExternalError code)
                          | None => inr (EncStream enc)
                          end
                      end).
      { destruct ss as [|s [|s' ss']]; try reflexivity.
        exfalso. eapply Hne. reflexivity. }
      destruct (iterate ss blockStart bs) as [pts iterErr]. simpl in Hsp.
      destruct (encodeAll (encoderGet blockStart) timeZero pts) as [[enc c] | [enc lw]].
      * inversion Hr; subst. simpl. split; [exact HF' |].
        rewrite (Hws (setBuckets bv l1) eq_refl). symmetry. exact Hsp.
      * destruct iterErr as [c |]; inversion Hr; subst; simpl;
          (split; [exact HF' |]);
          rewrite (Hws (setBuckets bv l1) eq_refl); symmetry; exact Hsp.
Qed.


Lemma persistSegment_error persistFn s e :
  persistSegment persistFn s = inl e <->
  exists code,
    e = ExternalError code
    /\ (SegmentOf s = inl code
        \/ exists seg, SegmentOf s = inr seg /\ SegmentLen seg <> 0%Z
                       /\ persistFn seg = Some code).
Proof.
  unfold persistSegment. destruct (SegmentOf s) as [code | seg].
  - split.
    + intros H. inversion H; subst. eauto.
    + intros (c & -> & [H | (seg & H & _)]); [inversion H; reflexivity | discriminate].
  - destruct (Z.eqb_spec (SegmentLen seg) 0) as [Hz | Hz].
    + split; [discriminate |].
      intros (c & _ & [H | (seg' & H & Hn & _)]); [discriminate |].
      inversion H; subst. contradiction.
    + destruct (persistFn seg) as [code |] eqn:Hp.
      * split.
        -- intros H. inversion H; subst. exists code. split; [reflexivity |].
           right. exists seg. auto.
        -- intros (c & -> & [H | (seg' & H & _ & Hp')]); [discriminate |].
           inversion H; subst. congruence.
      * split; [discriminate |].
        intros (c & _ & [H | (seg' & H & _ & Hp')]); [discriminate |].
        inversion H; subst. congruence.
Qed.

Lemma mergedInto_promote bs l l' i bk v :
  Forall2 (fun bk bk' => writeType bk = WarmWrite -> mergedInto bs bk bk') l l' ->
  l' !! i = Some bk ->
  Forall2 (fun bk bk' => writeType bk = WarmWrite -> mergedInto bs bk bk')
          l (<[i := setVersion bk v]> l').
Proof.
  intros HF Hi.
  apply Forall2_same_length_lookup in HF as [Hlen HF].
  apply Forall2_same_length_lookup. split; [rewrite length_insert; exact Hlen |].
  intros j x y Hx Hy. destruct (decide (i = j)) as [<- | Hne].
  - rewrite list_lookup_insert_eq in Hy by (eapply lookup_lt_Some; eauto).
    inversion Hy; subst; clear Hy. intros Hw.
    apply mergedInto_setVersion. eapply HF; eauto.
  - rewrite list_lookup_insert_ne in Hy by exact Hne. eauto.
Qed.

(** C4.  [WarmFlush] finds nothing to do without bucket versions at the
    block start.  Otherwise it merges the warm buckets and only those:
    every other bucket is kept as it is, and nothing of the buffer changes
    but the bucket versions object of the block start and the log of closed
    resources.  Either a warm bucket cannot be merged, and the error of
    that merge is returned; or every warm bucket is left merged, holding in
    one encoder the points it held before, and the stream to persist is the
    one stream of the warm buckets or, when they give several streams or
    none, the stream of a new encoder that has encoded the points of them
    all.  It returns [FlushedToDisk] exactly when there is such a stream,
    its segment is not empty and [persistFn] succeeds on it, and then the
    first writable warm bucket, if any, has version 1 and no other version
    has changed; it returns [BlockDoesNotExist] exactly when there is no
    stream or the segment is empty; it returns [Err] exactly when it returns
    an error, which is the error of the merge, of taking the segment or of
    [persistFn]; without [FlushedToDisk] no version changes. *)
Theorem WarmFlush_outcomes (b : dbBuffer) (blockStart : Time)
    (persistFn : Segment -> option Z) :
  (bucketVersionsAt b blockStart = None ->
   WarmFlush b blockStart persistFn = ((FlushOutcomeBlockDoesNotExist, None), b))
  /\ (forall p bv,
        bucketVersionsAt b blockStart = Some p /\ objects b !! p = Some bv ->
        exists outcome err bv' log' final,
          WarmFlush b blockStart persistFn = ((outcome, err), setObject b p bv' log')
          /\ Forall2 warmOnly (buckets bv) (buckets bv')
          /\ ((exists e i bk,
                  final = inl e /\ buckets bv !! i = Some bk
                  /\ writeType bk = WarmWrite
                  /\ cannotMerge (blockSize (cfg b)) bk e)
              \/ (Forall2 (fun bk bk' =>
                             writeType bk = WarmWrite ->
                             mergedInto (blockSize (cfg b)) bk bk')
                          (buckets bv) (buckets bv')
                  /\ final = streamToPersist (blockSize (cfg b)) blockStart
                                             (warmStreams bv')))
          /\ (outcome = FlushOutcomeFlushedToDisk <->
              exists s seg, final = inr (Some s) /\ SegmentOf s = inr seg
                            /\ SegmentLen seg <> 0%Z /\ persistFn seg = None)
          /\ (outcome = FlushOutcomeBlockDoesNotExist <->
              final = inr None
              \/ exists s seg, final = inr (Some s) /\ SegmentOf s = inr seg
                               /\ SegmentLen seg = 0%Z)
          /\ (outcome = FlushOutcomeErr <-> err <> None)
          /\ (forall e,
                err = Some e <->
                final = inl e
                \/ exists s code,
                     final = inr (Some s) /\ e = ExternalError code
                     /\ (SegmentOf s = inl code
                         \/ exists seg, SegmentOf s = inr seg
                                        /\ SegmentLen seg <> 0%Z
                                        /\ persistFn seg = Some code))
          /\ (outcome = FlushOutcomeFlushedToDisk ->
              map version (buckets bv') = promoted bv)
          /\ (outcome <> FlushOutcomeFlushedToDisk ->
              map version (buckets bv') = map version (buckets bv))).
Proof.
  split.
  { intros H. unfold WarmFlush. rewrite H. reflexivity. }
  intros p bv [Hat Hobj]. unfold WarmFlush. rewrite Hat, Hobj.
  destruct (warmFlushStream _ _ _ _) as [[r bvm] logm] eqn:Hws. simpl.
  destruct (warmFlushStream_frame _ _ _ _ _ _ _ Hws) as [_ Hkept].
  pose proof (keptBy_warmOnly _ _ Hkept) as Hwarm.
  pose proof (keptBy_versions _ _ _ Hkept) as Hvers.
  pose proof (warmFlushStream_spec _ _ _ _ _ _ _ Hws) as Hspec.
  assert (Hspec' : forall bvx,
             (bvx = bvm \/ exists i, bvx = setVersionAt bvm i 1) ->
             (exists e i bk,
                 r = inl e /\ buckets bv !! i = Some bk
                 /\ writeType bk = WarmWrite
                 /\ cannotMerge (blockSize (cfg b)) bk e)
             \/ (Forall2 (fun bk bk' =>
                            writeType bk = WarmWrite ->
                            mergedInto (blockSize (cfg b)) bk bk')
                         (buckets bv) (buckets bvx)
                 /\ r = streamToPersist (blockSize (cfg b)) blockStart
                                        (warmStreams bvx))).
  { intros bvx Hx. destruct Hspec as [Hl | [HF Hr]]; [left; exact Hl | right].
    destruct Hx as [-> | [i ->]]; [auto |].
    rewrite warmStreams_setVersionAt. split; [| exact Hr].
    unfold setVersionAt. destruct (buckets bvm !! i) as [bk |] eqn:Hi; [| exact HF].
    simpl. eapply mergedInto_promote; eauto. }
  assert (Herr : forall e s,
             r = inr (Some s) -> persistSegment persistFn s = inl e ->
             forall e',
               Some e = Some e' <->
               r = inl e'
               \/ exists s' code,
                    r = inr (Some s') /\ e' = ExternalError code
                    /\ (SegmentOf s' = inl code
                        \/ exists seg, SegmentOf s' = inr seg
                                       /\ SegmentLen seg <> 0%Z
                                       /\ persistFn seg = Some code)).
  { intros e s Hr Hps e'. split.
    - intros H. inversion H; subst e'. right.
      apply persistSegment_error in Hps as (code & He & Hc). eauto 6.
    - intros [H | (s' & code & H & He & Hc)]; [congruence |].
      rewrite Hr in H. inversion H; subst s'.
      assert (Hps' : persistSegment persistFn s = inl e')
        by (apply persistSegment_error; eauto).
      congruence. }
  assert (Hnoerr : forall s x,
             r = inr (Some s) -> persistSegment persistFn s = inr x ->
             forall e',
               @None error = Some e' <->
               r = inl e'
               \/ exists s' code,
                    r = inr (Some s') /\ e' = ExternalError code
                    /\ (SegmentOf s' = inl code
                        \/ exists seg, SegmentOf s' = inr seg
                                       /\ SegmentLen seg <> 0%Z
                                       /\ persistFn seg = Some code)).
  { intros s x Hr Hps e'. split; [discriminate |].
    intros [H | (s' & code & H & He & Hc)]; [congruence |].
    rewrite Hr in H. inversion H; subst s'.
    assert (Hps' : persistSegment persistFn s = inl e')
      by (apply persistSegment_error; eauto).
    congruence. }
  destruct r as [e | [s |]].
  - exists FlushOutcomeErr, (Some e), bvm, logm, (inl e).
    split; [reflexivity |]. split; [exact Hwarm |].
    split; [apply Hspec'; auto |].
    split; [split; [discriminate | intros (? & ? & ? & _); discriminate] |].
    split; [split; [discriminate |
                    intros [? | (? & ? & ? & _)]; discriminate] |].
    split; [split; [discriminate | reflexivity] |].
    split.
    { intros e'. split; [intros H; inversion H; auto |].
      intros [H | (? & ? & H & _)]; [inversion H; reflexivity | discriminate]. }
    split; [discriminate | intros _; exact Hvers].
  - destruct (persistSegment persistFn s) as [e | [|]] eqn:Hps.
    + exists FlushOutcomeErr, (Some e), bvm, logm, (inr (Some s)).
      split; [reflexivity |]. split; [exact Hwarm |].
      split; [apply Hspec'; auto |].
      split.
      { split; [discriminate |]. intros (s' & seg & Hr & H).
        inversion Hr; subst s'.
        assert (Ht : persistSegment persistFn s = inr true)
          by (apply persistSegment_true; eauto).
        congruence. }
      split.
      { split; [discriminate |]. intros [Hr | (s' & seg & Hr & H)]; [discriminate |].
        inversion Hr; subst s'.
        assert (Ht : persistSegment persistFn s = inr false)
          by (apply persistSegment_false; eauto).
        congruence. }
      split; [split; [discriminate | reflexivity] |].
      split; [apply (Herr e s eq_refl Hps) |].
      split; [discriminate | intros _; exact Hvers].
    + pose proof Hps as Hps0.
      apply persistSegment_true in Hps as (seg & Hseg & Hlen & Hp).
      assert (Hto :
                 (FlushOutcomeFlushedToDisk = FlushOutcomeFlushedToDisk <->
                  exists s0 seg0, @inr error _ (Some s) = inr (Some s0)
                                  /\ SegmentOf s0 = inr seg0
                                  /\ SegmentLen seg0 <> 0%Z /\ persistFn seg0 = None)
                 /\ (FlushOutcomeFlushedToDisk = FlushOutcomeBlockDoesNotExist <->
                     @inr error _ (Some s) = inr None
                     \/ exists s0 seg0, @inr error _ (Some s) = inr (Some s0)
                                        /\ SegmentOf s0 = inr seg0
                                        /\ SegmentLen seg0 = 0%Z)
                 /\ (FlushOutcomeFlushedToDisk = FlushOutcomeErr <-> @None error <> None)).
      { split; [split; [eauto 6 | reflexivity] |].
        split.
        - split; [discriminate |].
          intros [Hr | (s' & seg' & Hr & Hs' & Hz)]; [discriminate |].
          inversion Hr; subst s'. congruence.
        - split; [discriminate | intros H; exfalso; apply H; reflexivity]. }
      unfold promoted, writableBucket.
      pose proof (keptBy_writable _ WarmWrite _ _ Hkept) as Hidx.
      destruct (list_find (isWritable WarmWrite) (buckets bvm)) as [[i bk] |] eqn:Hfm.
      * exists FlushOutcomeFlushedToDisk, None, (setVersionAt bvm i 1), logm,
          (inr (Some s)).
        split; [reflexivity |].
        pose proof Hfm as Hfm'. apply list_find_Some in Hfm' as (Hi & _).
        split.
        { unfold setVersionAt. rewrite Hi. simpl. eapply warmOnly_promote; eauto. }
        split; [apply Hspec'; eauto |].
        destruct Hto as (H1 & H2 & H3).
        split; [exact H1 |]. split; [exact H2 |]. split; [exact H3 |].
        split; [apply (Hnoerr s true eq_refl Hps0) |].
        split; [| intros H; exfalso; apply H; reflexivity].
        intros _. unfold setVersionAt. rewrite Hi. simpl.
        rewrite list_fmap_insert. simpl.
        destruct (list_find (isWritable WarmWrite) (buckets bv)) as [[j bk'] |];
          simpl in Hidx; [| discriminate].
        inversion Hidx; subst. rewrite <- Hvers. reflexivity.
      * exists FlushOutcomeFlushedToDisk, None, bvm, logm, (inr (Some s)).
        split; [reflexivity |]. split; [exact Hwarm |].
        split; [apply Hspec'; auto |].
        destruct Hto as (H1 & H2 & H3).
        split; [exact H1 |]. split; [exact H2 |]. split; [exact H3 |].
        split; [apply (Hnoerr s true eq_refl Hps0) |].
        split; [| intros H; exfalso; apply H; reflexivity].
        intros _.
        destruct (list_find (isWritable WarmWrite) (buckets bv)) as [[j bk'] |];
          simpl in Hidx; [discriminate | exact Hvers].
    + pose proof Hps as Hps0.
      apply persistSegment_false in Hps as (seg & Hseg & Hlen).
      exists FlushOutcomeBlockDoesNotExist, None, bvm, logm, (inr (Some s)).
      split; [reflexivity |]. split; [exact Hwarm |].
      split; [apply Hspec'; auto |].
      split.
      { split; [discriminate |]. intros (s' & seg' & Hr & Hs' & Hz & _).
        inversion Hr; subst s'. congruence. }
      split; [split; [eauto 6 | reflexivity] |].
      split; [split; [discriminate | intros H; exfalso; apply H; reflexivity] |].
      split; [apply (Hnoerr s false eq_refl Hps0) |].
      split; [discriminate | intros _; exact Hvers].
  - exists FlushOutcomeBlockDoesNotExist, None, bvm, logm, (inr None).
    split; [reflexivity |]. split; [exact Hwarm |].
    split; [apply Hspec'; auto |].
    split; [split; [discriminate | intros (? & ? & ? & _); discriminate] |].
    split; [split; [auto | reflexivity] |].
    split; [split; [discriminate | intros H; exfalso; apply H; reflexivity] |].
    split.
    { intros e'. split; [discriminate |].
      intros [H | (? & ? & H & _)]; discriminate. }
    split; [discriminate | intros _; exact Hvers].
Qed.


(** The closes of a bucket that [mergeToStream] gives up on. *)
Lemma mergeToStream_error_log blockSize b log e b' log' :
  mergeToStream blockSize b log = (StreamErr e, b', log') ->
  (needsMerge b = true ->
   exists enc,
     log' = log ++ [ClosedEncoder enc]
                ++ map (fun x => ClosedEncoder (encoder x)) (encoders b)
                ++ map ClosedBlock (bootstrapped b))
  /\ (needsMerge b = false ->
      log' = log ++ map (fun x => ClosedEncoder (encoder x)) (encoders b)).
Proof.
  unfold mergeToStream, needsMerge.
  destruct (hasJustSingleEncoder b) eqn:H1.
  { simpl. unfold firstEncoderStream. simpl.
    destruct (encoders b) as [|x ?]; [discriminate |].
    destruct (EncStream (encoder x)); discriminate. }
  destruct (hasJustSingleBootstrappedBlock b) eqn:H2.
  { simpl. destruct (bootstrapped b) as [|bl ?] eqn:Hb; simpl; [discriminate |].
    destruct (BlockStream bl); [| discriminate].
    intros H. inversion H; subst. split; [discriminate | reflexivity]. }
  simpl. split; [| discriminate]. intros _. revert H.
  unfold merge, needsMerge. rewrite H1, H2. simpl.
  unfold mergeStreamsToEncoder.
  destruct (iterate _ _ _) as [pts iterErr].
  destruct (encodeAll _ _ _) as [[enc c] | [enc t]].
  - intros H. inversion H; subst. exists enc. rewrite <- !app_assoc. reflexivity.
  - destruct iterErr as [c |].
    + intros H. inversion H; subst. exists enc. rewrite <- !app_assoc. reflexivity.
    + simpl. unfold hasJustSingleEncoder. simpl. unfold firstEncoderStream. simpl.
      destruct (EncStream enc); discriminate.
Qed.


(** A bucket that [mergeToStream] has given up on: it has lost its
    encoders and, when it was being merged, its bootstrapped blocks; its
    version, write type and start are as before. *)
Definition emptied (b b' : BufferBucket) : Prop :=
  version b' = version b /\ writeType b' = writeType b /\ start b' = start b
  /\ encoders b' = []
  /\ (needsMerge b = true -> bootstrapped b' = [])
  /\ (needsMerge b = false -> bootstrapped b' = bootstrapped b).

Lemma mergeToStream_emptied blockSize b log e b' log' :
  mergeToStream blockSize b log = (StreamErr e, b', log') -> emptied b b'.
Proof.
  intros H.
  destruct (mergeToStream_frame _ _ _ _ _ _ H) as (Hv & Hw & Hs).
  destruct (mergeToStream_error _ _ _ _ _ _ H) as (_ & He & Hb & Hb').
  unfold emptied. auto 10.
Qed.

(** The bucket at which [mergeToStreams] fails is a selected one; it is
    emptied by the [mergeToStream] that fails, whose log is the log of the
    whole, and the buckets after it are not reached. *)
Lemma mergeToStreamsLoop_error blockSize opts bs : forall log e bs' log',
  mergeToStreamsLoop blockSize opts bs log = (inl e, bs', log') ->
  exists i bk bk' logi,
    bs !! i = Some bk /\ bs' !! i = Some bk'
    /\ selected opts bk = true
    /\ mergeToStream blockSize bk logi = (StreamErr e, bk', log')
    /\ drop (S i) bs' = drop (S i) bs.
Proof.
  induction bs as [|b bs IH]; intros log e bs' log'; simpl; [discriminate |].
  destruct (selected opts b) eqn:Hsel.
  - destruct (mergeToStream blockSize b log) as [[s b1] log1] eqn:Hm.
    destruct s as [e1 | | s].
    + intros H. inversion H; subst. exists 0%nat, b, b1, log. simpl.
      split; [reflexivity |]. split; [reflexivity |]. split; [exact Hsel |].
      split; [exact Hm | reflexivity].
    + destruct (mergeToStreamsLoop blockSize opts bs log1) as [[r1 bs1] l1] eqn:Hl.
      intros H. inversion H; subst.
      destruct (IH _ _ _ _ Hl) as (i & bk & bk' & logi & H1 & H2 & H3 & H4 & H5).
      exists (S i), bk, bk', logi. simpl. auto.
    + destruct (mergeToStreamsLoop blockSize opts bs log1) as [[r1 bs1] l1] eqn:Hl.
      destruct r1 as [e1 | ss]; intros H; inversion H; subst.
      destruct (IH _ _ _ _ Hl) as (i & bk & bk' & logi & H1 & H2 & H3 & H4 & H5).
      exists (S i), bk, bk', logi. simpl. auto.
  - destruct (mergeToStreamsLoop blockSize opts bs log) as [[r1 bs1] l1] eqn:Hl.
    intros H. inversion H; subst.
    destruct (IH _ _ _ _ Hl) as (i & bk & bk' & logi & H1 & H2 & H3 & H4 & H5).
    exists (S i), bk, bk', logi. simpl. auto.
Qed.

Lemma mergeToStreams_error blockSize opts bv log e bv' log' :
  mergeToStreams blockSize opts bv log = (inl e, bv', log') ->
  exists i bk bk' logi,
    buckets bv !! i = Some bk /\ buckets bv' !! i = Some bk'
    /\ selected opts bk = true
    /\ mergeToStream blockSize bk logi = (StreamErr e, bk', log')
    /\ drop (S i) (buckets bv') = drop (S i) (buckets bv).
Proof.
  unfold mergeToStreams.
  destruct (mergeToStreamsLoop _ _ _ _) as [[r1 bs1] l1] eqn:Hl.
  intros H. inversion H; subst. simpl.
  eapply mergeToStreamsLoop_error; exact Hl.
Qed.

Lemma mergeToStreamsLoop_external blockSize opts bs : forall log e bs' log',
  mergeToStreamsLoop blockSize opts bs log = (inl e, bs', log') ->
  exists code, e = ExternalError code.
Proof.
  induction bs as [|b bs IH]; intros log e bs' log'; simpl; [discriminate |].
  destruct (selected opts b) eqn:Hsel.
  - destruct (mergeToStream blockSize b log) as [[s b1] log1] eqn:Hm.
    destruct s as [e1 | | s].
    + intros H. inversion H; subst.
      apply mergeToStream_error in Hm as [Hc _]. exact Hc.
    + destruct (mergeToStreamsLoop blockSize opts bs log1) as [[r1 bs1] l1] eqn:Hl.
      intros H. inversion H; subst. eauto.
    + destruct (mergeToStreamsLoop blockSize opts bs log1) as [[r1 bs1] l1] eqn:Hl.
      destruct r1 as [e1 | ss]; intros H; inversion H; subst. eauto.
  - destruct (mergeToStreamsLoop blockSize opts bs log) as [[r1 bs1] l1] eqn:Hl.
    intros H. inversion H; subst. eauto.
Qed.

(** The bucket at which [BufferBucketVersions.merge] fails is a writable
    bucket of the write type that needs a merge; it and the buckets after it
    are as before, and no version has changed. *)
Lemma bv_mergeLoop_error blockSize wt bs : forall res log e bs' log',
  bv_mergeLoop blockSize wt bs res log = (inl e, bs', log') ->
  (exists code, e = ExternalError code)
  /\ map version bs' = map version bs
  /\ exists i bk,
       bs !! i = Some bk /\ isWritable wt bk /\ needsMerge bk = true
       /\ drop i bs' = drop i bs.
Proof.
  induction bs as [|b bs IH]; intros res log e bs' log'; simpl; [discriminate |].
  destruct (bool_decide (version b = writableBucketVersion)) eqn:Hv;
    destruct (bool_decide (wt = writeType b)) eqn:Hw; simpl.
  - destruct (merge blockSize b log) as [[[e1 | k] b1] log1] eqn:Hm.
    + intros H. inversion H; subst.
      assert (Hn : needsMerge b = true).
      { destruct (needsMerge b) eqn:Hn; [reflexivity |].
        rewrite (BucketFacts.merge_noop _ _ _ Hn) in Hm. discriminate. }
      apply BucketFacts.merge_failure in Hm as [-> Hc].
      split; [exact Hc |]. split; [reflexivity |].
      exists 0%nat, b. simpl. split; [reflexivity |].
      apply bool_decide_eq_true in Hv, Hw.
      split; [split; congruence |]. split; [exact Hn | reflexivity].
    + destruct (bv_mergeLoop blockSize wt bs (res + k) log1) as [[r2 l2] log2] eqn:Hl.
      intros H. inversion H; subst.
      destruct (IH _ _ _ _ _ Hl) as (Hc & Hvs & i & bk & H1 & H2 & H3 & H4).
      split; [exact Hc |]. split.
      * simpl. rewrite Hvs. f_equal.
        destruct (needsMerge b) eqn:Hn.
        -- destruct (BucketFacts.merge_success _ _ _ _ _ _ Hn Hm)
             as (? & ? & _ & _ & Hver & _). exact Hver.
        -- rewrite (BucketFacts.merge_noop _ _ _ Hn) in Hm.
           inversion Hm; subst. reflexivity.
      * exists (S i), bk. simpl. auto.
  - destruct (bv_mergeLoop blockSize wt bs res log) as [[r2 l2] log2] eqn:Hl.
    intros H. inversion H; subst.
    destruct (IH _ _ _ _ _ Hl) as (Hc & Hvs & i & bk & H1 & H2 & H3 & H4).
    split; [exact Hc |]. split; [simpl; rewrite Hvs; reflexivity |].
    exists (S i), bk. simpl. auto.
  - destruct (bv_mergeLoop blockSize wt bs res log) as [[r2 l2] log2] eqn:Hl.
    intros H. inversion H; subst.
    destruct (IH _ _ _ _ _ Hl) as (Hc & Hvs & i & bk & H1 & H2 & H3 & H4).
    split; [exact Hc |]. split; [simpl; rewrite Hvs; reflexivity |].
    exists (S i), bk. simpl. auto.
  - destruct (bv_mergeLoop blockSize wt bs res log) as [[r2 l2] log2] eqn:Hl.
    intros H. inversion H; subst.
    destruct (IH _ _ _ _ _ Hl) as (Hc & Hvs & i & bk & H1 & H2 & H3 & H4).
    split; [exact Hc |]. split; [simpl; rewrite Hvs; reflexivity |].
    exists (S i), bk. simpl. auto.
Qed.

(** What [Tick] reads of the block states for a block start: whether the
    block was flushed (warm retrievable, or a cold version above zero), and
    the bucket versions that are left once the flushed buckets are
    removed. *)
Definition tickFlushed (blockStates : gmap Z BlockState) (t : Z) : bool :=
  let blockState :=
    default {| WarmRetrievable := false; ColdVersion := 0 |} (blockStates !! t) in
  WarmRetrievable blockState || (0 <? ColdVersion blockState)%Z.

Definition tickKept (blockStates : gmap Z BlockState) (t : Z)
    (bv : BufferBucketVersions) : BufferBucketVersions :=
  let blockState :=
    default {| WarmRetrievable := false; ColdVersion := 0 |} (blockStates !! t) in
  let bv1 :=
    if tickFlushed blockStates t && WarmRetrievable blockState
    then removeBucketsUpToVersion WarmWrite 1 bv else bv in
  if tickFlushed blockStates t && (0 <? ColdVersion blockState)%Z
  then removeBucketsUpToVersion ColdWrite (ColdVersion blockState) bv1 else bv1.

Lemma tickEntry_merge_failure blockStates b res t p bv e bv' log' :
  bucketsMap b !! t = Some p -> objects b !! p = Some bv ->
  tickFlushed blockStates t && (bv_streamsLen (tickKept blockStates t bv) =? 0)%Z = false ->
  bv_merge (blockSize (cfg b)) WarmWrite (tickKept blockStates t bv) (closedLog b)
  = (inl e, bv', log') ->
  tickEntry blockStates (b, res) t
  = (logError (setObject (setObject b p (tickKept blockStates t bv) (closedLog b))
                         p bv' log') e, res).
Proof.
  intros Hmap Hobj Hev Hm. unfold tickEntry. rewrite Hmap, Hobj.
  unfold tickKept, tickFlushed in Hev, Hm. cbv zeta in Hev, Hm.
  cbv zeta. rewrite Hev. simpl closedLog. rewrite Hm. reflexivity.
Qed.

(** A warm flush that returns an error has changed no version. *)
Lemma WarmFlush_failed_versions b blockStart persistFn p bv e :
  bucketVersionsAt b blockStart = Some p -> objects b !! p = Some bv ->
  (WarmFlush b blockStart persistFn).1 = (FlushOutcomeErr, Some e) ->
  exists bv' log',
    (WarmFlush b blockStart persistFn).2 = setObject b p bv' log'
    /\ map version (buckets bv') = map version (buckets bv).
Proof.
  intros Hat Hobj. unfold WarmFlush. rewrite Hat, Hobj.
  destruct (warmFlushStream _ _ _ _) as [[r bvm] logm] eqn:Hws.
  destruct (warmFlushStream_frame _ _ _ _ _ _ _ Hws) as [_ Hkept].
  pose proof (keptBy_versions _ _ _ Hkept) as Hvers.
  destruct r as [e1 | [s |]]; simpl.
  - intros _. eauto.
  - destruct (persistSegment persistFn s) as [e1 | [|]]; simpl.
    + intros _. eauto.
    + destruct (writableBucket WarmWrite bvm) as [[i bk] |]; simpl; discriminate.
    + discriminate.
  - discriminate.
Qed.

(** C3 (as amended).  When a bucket merge fails, the error comes from a
    collaborator and no version changes.  [mergeToStream], which [Snapshot]
    and [WarmFlush] go through, then empties the failing bucket: it closes
    and drops the encoders of the bucket and, when the bucket was being
    merged, its bootstrapped blocks, after the encoder of the merge has
    been closed; [Snapshot] and [WarmFlush] return the error of that
    [mergeToStream] and leave the emptied bucket and the log of its closes
    behind.  [BufferBucket.merge] itself, which [Tick] goes
    through, leaves the bucket as it was; [Tick], whatever the block states
    say of the block, writes the error to the log and goes on: the failing
    bucket and the buckets after it are as they were once the flushed
    buckets had been removed, and the tick result is as before the
    entry.  A warm flush that returns an error, of a merge or of
    [persistFn], has changed no version. *)
Theorem failed_merge_effects :
  (forall bs b log e b' log',
      mergeToStream bs b log = (StreamErr e, b', log') ->
      (exists code, e = ExternalError code)
      /\ emptied b b'
      /\ (needsMerge b = true ->
          exists enc,
            log' = log ++ [ClosedEncoder enc]
                       ++ map (fun x => ClosedEncoder (encoder x)) (encoders b)
                       ++ map ClosedBlock (bootstrapped b))
      /\ (needsMerge b = false ->
          log' = log ++ map (fun x => ClosedEncoder (encoder x)) (encoders b)))
  /\ (forall bs b log e b' log',
        merge bs b log = (inl e, b', log') -> b' = b)
  /\ (forall b blockStart persistFn p bv e bv' log',
        bucketVersionsAt b blockStart = Some p /\ objects b !! p = Some bv
        /\ mergeToStreams (blockSize (cfg b)) noFilter bv (closedLog b)
           = (inl e, bv', log') ->
        Snapshot b blockStart persistFn = (Some e, setObject b p bv' log')
        /\ map version (buckets bv') = map version (buckets bv)
        /\ exists i bk bk' logi,
             buckets bv !! i = Some bk /\ buckets bv' !! i = Some bk'
             /\ mergeToStream (blockSize (cfg b)) bk logi = (StreamErr e, bk', log')
             /\ emptied bk bk'
             /\ drop (S i) (buckets bv') = drop (S i) (buckets bv))
  /\ (forall b blockStart persistFn p bv e bv' log',
        bucketVersionsAt b blockStart = Some p /\ objects b !! p = Some bv
        /\ mergeToStreams (blockSize (cfg b)) (onlyType WarmWrite) bv (closedLog b)
           = (inl e, bv', log') ->
        WarmFlush b blockStart persistFn
        = ((FlushOutcomeErr, Some e), setObject b p bv' log')
        /\ map version (buckets bv') = map version (buckets bv)
        /\ exists i bk bk' logi,
             buckets bv !! i = Some bk /\ buckets bv' !! i = Some bk'
             /\ writeType bk = WarmWrite
             /\ mergeToStream (blockSize (cfg b)) bk logi = (StreamErr e, bk', log')
             /\ emptied bk bk'
             /\ drop (S i) (buckets bv') = drop (S i) (buckets bv))
  /\ (forall b blockStates res t p bv e bv' log',
        let kept := tickKept blockStates t bv in
        bucketsMap b !! t = Some p /\ objects b !! p = Some bv
        /\ tickFlushed blockStates t && (bv_streamsLen kept =? 0)%Z = false
        /\ bv_merge (blockSize (cfg b)) WarmWrite kept (closedLog b)
           = (inl e, bv', log') ->
        tickEntry blockStates (b, res) t
        = (logError (setObject (setObject b p kept (closedLog b)) p bv' log') e, res)
        /\ (exists code, e = ExternalError code)
        /\ map version (buckets bv') = map version (buckets kept)
        /\ exists i bk,
             buckets kept !! i = Some bk /\ isWritable WarmWrite bk
             /\ needsMerge bk = true
             /\ drop i (buckets bv') = drop i (buckets kept))
  /\ (forall b blockStart persistFn p bv e,
        bucketVersionsAt b blockStart = Some p /\ objects b !! p = Some bv
        /\ (WarmFlush b blockStart persistFn).1 = (FlushOutcomeErr, Some e) ->
        exists bv' log',
          (WarmFlush b blockStart persistFn).2 = setObject b p bv' log'
          /\ map version (buckets bv') = map version (buckets bv)).
Proof.
  split; [| split; [| split; [| split; [| split]]]].
  - intros bs b log e b' log' H.
    destruct (mergeToStream_error _ _ _ _ _ _ H) as (Hc & _).
    destruct (mergeToStream_error_log _ _ _ _ _ _ H) as [Hl1 Hl2].
    split; [exact Hc |]. split; [eapply mergeToStream_emptied; exact H |].
    split; assumption.
  - intros bs b log e b' log' H.
    apply BucketFacts.merge_failure in H. tauto.
  - intros b blockStart persistFn p bv e bv' log' (Hat & Hobj & Hm).
    unfold Snapshot. rewrite Hat, Hobj. unfold snapshotStream. rewrite Hm.
    split; [reflexivity |].
    destruct (mergeToStreams_error _ _ _ _ _ _ _ Hm)
      as (i & bk & bk' & logi & H1 & H2 & _ & H4 & H5).
    apply mergeToStreams_frame in Hm as [_ Hk].
    split; [eapply keptBy_versions; eauto |].
    exists i, bk, bk', logi. split; [exact H1 |]. split; [exact H2 |].
    split; [exact H4 |]. split; [eapply mergeToStream_emptied; exact H4 | exact H5].
  - intros b blockStart persistFn p bv e bv' log' (Hat & Hobj & Hm).
    unfold WarmFlush. rewrite Hat, Hobj. unfold warmFlushStream. rewrite Hm.
    split; [reflexivity |].
    destruct (mergeToStreams_error _ _ _ _ _ _ _ Hm)
      as (i & bk & bk' & logi & H1 & H2 & H3 & H4 & H5).
    apply mergeToStreams_frame in Hm as [_ Hk].
    split; [eapply keptBy_versions; eauto |].
    exists i, bk, bk', logi. split; [exact H1 |]. split; [exact H2 |].
    split.
    { unfold selected in H3. simpl in H3. apply bool_decide_eq_true in H3. exact H3. }
    split; [exact H4 |]. split; [eapply mergeToStream_emptied; exact H4 | exact H5].
  - intros b blockStates res t p bv e bv' log' kept (Hmap & Hobj & Hev & Hm).
    split; [apply tickEntry_merge_failure; assumption |].
    unfold bv_merge in Hm.
    destruct (bv_mergeLoop _ _ _ _ _) as [[r l'] logl] eqn:Hl.
    destruct r as [e1 | n]; inversion Hm; subst; clear Hm. simpl.
    eapply bv_mergeLoop_error; exact Hl.
  - intros b blockStart persistFn p bv e (Hat & Hobj & Hf).
    eapply WarmFlush_failed_versions; eauto.
Qed.

End Facts.

Local Open Scope Z_scope.

(** A buffer with the clock at 02:00:00 after three warm writes into the
    block at 02:00:00, the third one out of order: the warm bucket holds two
    encoders, the first of them full. *)
Definition threeWrites : dbBuffer :=
  let _ := Fixtures.listExternals in
  let b0 := newDatabaseBuffer (Fixtures.hourConfig true) in
  let b1 := (Write b0 7200 7210 1 tt Fixtures.plainWrite).2 in
  let b2 := (Write b1 7200 7220 2 tt Fixtures.plainWrite).2 in
  (Write b2 7200 7215 3 tt Fixtures.plainWrite).2.

Definition encoderCounts `{Ext : Externals} (b : dbBuffer) (p : ptr)
  : option (list nat) :=
  (fun bv => map (fun bk => length (encoders bk)) (buckets bv)) <$> objects b !! p.

(** C3 as stated fails: the merge of the two encoders for a warm flush
    fails in the encoder (the three points do not fit the new encoder), the
    flush returns the error, and the bucket has lost its encoders; the same
    merge failing in a tick ends up in the log, the tick result carrying no
    error. *)
Lemma WarmFlush_failed_merge_empties_bucket :
  let _ := Fixtures.listExternals in
  encoderCounts threeWrites 0%nat = Some [2%nat]
  /\ (WarmFlush threeWrites 7200 (fun _ => None)).1
     = (FlushOutcomeErr, Some (ExternalError 1))
  /\ encoderCounts (WarmFlush threeWrites 7200 (fun _ => None)).2 0%nat
     = Some [0%nat]
  /\ (Tick threeWrites ∅ [7200]).2
     = {| mergedOutOfOrderBlocks := 0; evictedBucketTimes := [] |}
  /\ errorLog (Tick threeWrites ∅ [7200]).1 = [ExternalError 1].
Proof. repeat split; vm_compute; reflexivity. Qed.






(** A buffer with the clock at 02:00:00 after two warm writes into the
    block at 02:00:00, the second one out of order. *)
Definition twoWrites : dbBuffer :=
  let _ := Fixtures.listExternals in
  let b0 := newDatabaseBuffer (Fixtures.hourConfig true) in
  let b1 := (Write b0 7200 7210 1 tt Fixtures.plainWrite).2 in
  (Write b1 7200 7205 2 tt Fixtures.plainWrite).2.

Definition twoWritesVersions : @BufferBucketVersions Fixtures.listExternals :=
  Eval vm_compute in default (bv_resetTo 0) (objects twoWrites !! 0%nat).

(** The warm flush of the block at 02:00:00 with a [persistFn] that
    succeeds. *)
Lemma WarmFlush_outcomes_witness :
  let _ := Fixtures.listExternals in
  exists err bv' log',
    WarmFlush twoWrites 7200 (fun _ => None)
    = ((FlushOutcomeFlushedToDisk, err), setObject twoWrites 0%nat bv' log')
    /\ map version (buckets bv') = [1].
Proof.
  intros ext.
  assert (Hat : bucketVersionsAt twoWrites 7200 = Some 0%nat
                /\ objects twoWrites !! 0%nat = Some twoWritesVersions)
    by (split; vm_compute; reflexivity).
  destruct (proj2 (WarmFlush_outcomes twoWrites 7200 (fun _ => None))
              0%nat twoWritesVersions Hat)
    as (outcome & err & bv' & log' & final & Hw & _ & _ & _ & _ & _ & _ & Hv & _).
  assert (Ho : outcome = FlushOutcomeFlushedToDisk).
  { assert (Hf : (WarmFlush twoWrites 7200 (fun _ => None)).1.1
                 = FlushOutcomeFlushedToDisk) by (vm_compute; reflexivity).
    rewrite Hw in Hf. exact Hf. }
  subst outcome. exists err, bv', log'. split; [exact Hw |].
  rewrite (Hv eq_refl). vm_compute. reflexivity.
Defined.

Definition threeWritesVersions : @BufferBucketVersions Fixtures.listExternals :=
  Eval vm_compute in default (bv_resetTo 0) (objects threeWrites !! 0%nat).

(** The bucket versions and the log after the failed merge. *)
Definition threeWritesFailed
  : @BufferBucketVersions Fixtures.listExternals * @Log Fixtures.listExternals :=
  Eval vm_compute in
    let r := mergeToStreams (blockSize (cfg threeWrites)) (onlyType WarmWrite)
                            threeWritesVersions (closedLog threeWrites) in
    (r.1.2, r.2).

(** The block at 02:00:00 recorded as warm retrievable, with no cold
    version. *)
Definition warmRetrievableAt : gmap Z BlockState :=
  {[ 7200 := {| WarmRetrievable := true; ColdVersion := 0 |} ]}.

(** The bucket versions and the log after the merge of a tick has failed:
    the bucket is as it was. *)
Definition threeWritesTicked
  : @BufferBucketVersions Fixtures.listExternals * @Log Fixtures.listExternals :=
  Eval vm_compute in
    let r := bv_merge (blockSize (cfg threeWrites)) WarmWrite
                      (tickKept warmRetrievableAt 7200 threeWritesVersions)
                      (closedLog threeWrites) in
    (r.1.2, r.2).

(** The failing warm flush of the three writes returns the error of the
    merge and leaves the version of the bucket at 0; a tick over the block,
    recorded as warm retrievable, keeps the writable bucket, fails to merge
    it, and writes the error to the log, the tick result staying as it
    was. *)
Lemma failed_merge_effects_witness :
  let _ := Fixtures.listExternals in
  (WarmFlush threeWrites 7200 (fun _ => None)
   = ((FlushOutcomeErr, Some (ExternalError 1)),
      setObject threeWrites 0%nat threeWritesFailed.1 threeWritesFailed.2)
   /\ map version (buckets threeWritesFailed.1) = map version (buckets threeWritesVersions))
  /\ (forall res,
        tickEntry warmRetrievableAt (threeWrites, res) 7200
        = (logError
             (setObject
                (setObject threeWrites 0%nat
                           (tickKept warmRetrievableAt 7200 threeWritesVersions)
                           (closedLog threeWrites))
                0%nat threeWritesTicked.1 threeWritesTicked.2)
             (ExternalError 1), res)
        /\ buckets threeWritesTicked.1 = buckets threeWritesVersions).
Proof.
  intros ext. split.
  - assert (H : bucketVersionsAt threeWrites 7200 = Some 0%nat
                 /\ objects threeWrites !! 0%nat = Some threeWritesVersions
                 /\ mergeToStreams (blockSize (cfg threeWrites)) (onlyType WarmWrite)
                                   threeWritesVersions (closedLog threeWrites)
                    = (inl (ExternalError 1), threeWritesFailed.1, threeWritesFailed.2)).
    { split; [vm_compute; reflexivity |]. split; vm_compute; reflexivity. }
    destruct (proj1 (proj2 (proj2 (proj2 failed_merge_effects)))
                threeWrites 7200 (fun _ => None) 0%nat threeWritesVersions
                (ExternalError 1) threeWritesFailed.1 threeWritesFailed.2 H)
      as (Hflush & Hvers & _).
    split; [exact Hflush | exact Hvers].
  - intros res.
    assert (H : bucketsMap threeWrites !! 7200 = Some 0%nat
                 /\ objects threeWrites !! 0%nat = Some threeWritesVersions
                 /\ tickFlushed warmRetrievableAt 7200
                    && (bv_streamsLen (tickKept warmRetrievableAt 7200 threeWritesVersions)
                        =? 0)%Z = false
                 /\ bv_merge (blockSize (cfg threeWrites)) WarmWrite
                             (tickKept warmRetrievableAt 7200 threeWritesVersions)
                             (closedLog threeWrites)
                    = (inl (ExternalError 1), threeWritesTicked.1, threeWritesTicked.2)).
    { split; [vm_compute; reflexivity |]. split; [vm_compute; reflexivity |].
      split; vm_compute; reflexivity. }
    destruct (proj1 (proj2 (proj2 (proj2 (proj2 failed_merge_effects))))
                threeWrites warmRetrievableAt res 7200 0%nat threeWritesVersions
                (ExternalError 1) threeWritesTicked.1 threeWritesTicked.2 H)
      as (Htick & _).
    split; [exact Htick |]. vm_compute. reflexivity.
Defined.

End FlushFacts.

(** ** Coherence of the map, the sorted list and the cache of the buffer *)
Module CoherenceFacts.
Import Clock Buffer.
Local Open Scope Z_scope.

Section Facts.
Context `{Ext : Externals}.

(** The buffer is coherent when the keys of [bucketsMap] are the entries of
    [inOrderBlockStarts], which is in ascending order; every pointer of the
    map leads to the bucket versions of its key; every pointer of the cache
    is a pointer of the map (the cache holds two of them at most); and the
    pooled objects are not in use. *)
Record coherent (b : dbBuffer) : Prop := {
  coh_keys : forall t, is_Some (bucketsMap b !! t) <-> t ∈ inOrderBlockStarts b;
  coh_sorted : StronglySorted Z.lt (inOrderBlockStarts b);
  coh_objects : forall t p,
      bucketsMap b !! t = Some p ->
      exists bv, objects b !! p = Some bv /\ bv_start bv = t;
  coh_cache : forall p,
      Some p ∈ bucketVersionsCache b ->
      exists bv, objects b !! p = Some bv /\ bucketsMap b !! bv_start bv = Some p;
  coh_cache_shape : exists x y,
      bucketVersionsCache b = [x; y] /\ (forall p, x = Some p -> y <> Some p);
  coh_pool : forall p t, p ∈ bucketVersionsPool b -> bucketsMap b !! t <> Some p;
  coh_pool_nodup : NoDup (bucketVersionsPool b);
  coh_next_map : forall t p, bucketsMap b !! t = Some p -> (p < nextPtr b)%nat;
  coh_next_pool : forall p, p ∈ bucketVersionsPool b -> (p < nextPtr b)%nat
}.

(** Every pointer of the map or of the cache points to an object. *)
Definition allocated (b : dbBuffer) : Prop :=
  (forall t p, bucketsMap b !! t = Some p -> is_Some (objects b !! p))
  /\ (forall p, Some p ∈ bucketVersionsCache b -> is_Some (objects b !! p)).

Lemma coherent_allocated b : coherent b -> allocated b.
Proof.
  intros Hc. split.
  - intros t p H. destruct (coh_objects b Hc t p H) as (bv & Hbv & _). eauto.
  - intros p H. destruct (coh_cache b Hc p H) as (bv & Hbv & _). eauto.
Qed.

Lemma coherent_injective b t1 t2 p :
  coherent b -> bucketsMap b !! t1 = Some p -> bucketsMap b !! t2 = Some p -> t1 = t2.
Proof.
  intros Hc H1 H2.
  destruct (coh_objects b Hc _ _ H1) as (bv1 & Ho1 & Hs1).
  destruct (coh_objects b Hc _ _ H2) as (bv2 & Ho2 & Hs2).
  congruence.
Qed.

(** *** The sorted list *)

Lemma inOrderBlockStartsAdd_cons x t r :
  inOrderBlockStartsAdd x (t :: r)
  = if After t x then x :: t :: r else t :: inOrderBlockStartsAdd x r.
Proof.
  unfold inOrderBlockStartsAdd. simpl. destruct (After t x); reflexivity.
Qed.

Lemma elem_of_inOrderBlockStartsAdd x l t :
  t ∈ inOrderBlockStartsAdd x l <-> t = x \/ t ∈ l.
Proof.
  induction l as [|a r IH].
  - unfold inOrderBlockStartsAdd. simpl. rewrite list_elem_of_singleton.
    rewrite elem_of_nil. tauto.
  - rewrite inOrderBlockStartsAdd_cons. destruct (After a x).
    + rewrite !elem_of_cons. tauto.
    + rewrite !elem_of_cons, IH. tauto.
Qed.

Lemma inOrderBlockStartsAdd_sorted x l :
  StronglySorted Z.lt l -> x ∉ l -> StronglySorted Z.lt (inOrderBlockStartsAdd x l).
Proof.
  induction l as [|a r IH]; intros Hs Hx.
  - unfold inOrderBlockStartsAdd. simpl. repeat constructor.
  - rewrite inOrderBlockStartsAdd_cons. unfold After.
    apply StronglySorted_cons in Hs as [Hall Hs].
    rewrite not_elem_of_cons in Hx. destruct Hx as [Hne Hx].
    destruct (Z.ltb_spec x a) as [Hlt | Hge].
    + apply StronglySorted_cons. split.
      * constructor; [exact Hlt |].
        eapply Forall_impl; [exact Hall |]. simpl. intros y Hy. lia.
      * apply StronglySorted_cons. auto.
    + apply StronglySorted_cons. split; [| auto].
      apply Forall_forall. intros y Hy.
      apply elem_of_inOrderBlockStartsAdd in Hy as [-> | Hy]; [lia |].
      rewrite Forall_forall in Hall. auto.
Qed.

Lemma elem_of_inOrderBlockStartsRemove x l t :
  StronglySorted Z.lt l ->
  t ∈ inOrderBlockStartsRemove x l <-> t ∈ l /\ t <> x.
Proof.
  induction l as [|a r IH]; intros Hs; simpl.
  - rewrite !elem_of_nil. tauto.
  - apply StronglySorted_cons in Hs as [Hall Hs]. unfold Equal.
    rewrite Forall_forall in Hall.
    destruct (Z.eqb_spec a x) as [-> | Hne].
    + rewrite elem_of_cons. split.
      * intros Ht. split; [auto |]. specialize (Hall _ Ht). lia.
      * intros [[-> | Ht] Hn]; [contradiction | exact Ht].
    + rewrite !elem_of_cons, (IH Hs). split.
      * intros [-> | [Ht Hn]]; auto.
      * intros [[-> | Ht] Hn]; auto.
Qed.

Lemma inOrderBlockStartsRemove_sorted x l :
  StronglySorted Z.lt l -> StronglySorted Z.lt (inOrderBlockStartsRemove x l).
Proof.
  induction l as [|a r IH]; intros Hs; simpl; [constructor |].
  pose proof Hs as Hs0. apply StronglySorted_cons in Hs as [Hall Hs].
  destruct (Equal a x); [exact Hs |].
  apply StronglySorted_cons. split; [| auto].
  apply Forall_forall. intros y Hy.
  apply (elem_of_inOrderBlockStartsRemove x r y Hs) in Hy as [Hy _].
  rewrite Forall_forall in Hall. auto.
Qed.

(** *** Lookups *)

Lemma cacheFind_Some objs t c p :
  cacheFind objs t c = Some p ->
  Some p ∈ c /\ exists bv, objs !! p = Some bv /\ bv_start bv = t.
Proof.
  induction c as [|[q |] c IH]; simpl; [discriminate | |].
  - destruct (objs !! q) as [bv |] eqn:Hq.
    + unfold Equal. destruct (Z.eqb_spec (bv_start bv) t) as [Heq | Hne].
      * intros H. inversion H; subst. split; [left | eauto].
      * intros H. apply IH in H as [Hin Hbv]. split; [right; exact Hin | exact Hbv].
    + intros H. apply IH in H as [Hin Hbv]. split; [right; exact Hin | exact Hbv].
  - intros H. apply IH in H as [Hin Hbv]. split; [right; exact Hin | exact Hbv].
Qed.

Lemma bucketVersionsAt_map b t :
  coherent b -> bucketVersionsAt b t = bucketsMap b !! t.
Proof.
  intros Hc. unfold bucketVersionsAt.
  destruct (cacheFind _ _ _) as [p |] eqn:Hf; [| reflexivity].
  apply cacheFind_Some in Hf as [Hin (bv & Hbv & Hs)].
  destruct (coh_cache b Hc p Hin) as (bv' & Hbv' & Hm).
  rewrite Hbv in Hbv'. inversion Hbv'; subst. symmetry. exact Hm.
Qed.

Lemma bucketVersionsAt_allocated b t p :
  allocated b -> bucketVersionsAt b t = Some p -> is_Some (objects b !! p).
Proof.
  intros [Hm Hc]. unfold bucketVersionsAt.
  destruct (cacheFind _ _ _) as [q |] eqn:Hf.
  - intros H. inversion H; subst. apply cacheFind_Some in Hf as [Hin _]. auto.
  - apply Hm.
Qed.

Lemma cacheFind_update objs t c p bv bv' :
  objs !! p = Some bv -> bv_start bv' = bv_start bv ->
  cacheFind (<[p := bv']> objs) t c = cacheFind objs t c.
Proof.
  intros Hp Hs. induction c as [|[q |] c IH]; simpl; [reflexivity | | exact IH].
  destruct (decide (p = q)) as [<- | Hne].
  - rewrite lookup_insert_eq, Hp, Hs, IH. reflexivity.
  - rewrite lookup_insert_ne by exact Hne. rewrite IH. reflexivity.
Qed.

Lemma bucketVersionsAt_setObject b p bv bv' log t :
  objects b !! p = Some bv -> bv_start bv' = bv_start bv ->
  bucketVersionsAt (setObject b p bv' log) t = bucketVersionsAt b t.
Proof.
  intros Hp Hs. unfold bucketVersionsAt. simpl.
  rewrite (cacheFind_update _ _ _ _ _ _ Hp Hs). reflexivity.
Qed.

(** *** The steps that change the map, the list or the cache *)

Lemma coherent_new c : coherent (newDatabaseBuffer c).
Proof.
  constructor; simpl.
  - intros t. rewrite lookup_empty, elem_of_nil. split; [intros [? H]; discriminate | tauto].
  - constructor.
  - intros t p H. rewrite lookup_empty in H. discriminate.
  - intros p H. rewrite !elem_of_cons, elem_of_nil in H.
    destruct H as [H | [H | []]]; discriminate.
  - exists None, None. split; [reflexivity | discriminate].
  - intros p t H. rewrite elem_of_nil in H. contradiction.
  - constructor.
  - intros t p H. rewrite lookup_empty in H. discriminate.
  - intros p H. rewrite elem_of_nil in H. contradiction.
Qed.

Lemma coherent_setObject b p bv bv' log :
  coherent b -> objects b !! p = Some bv -> bv_start bv' = bv_start bv ->
  coherent (setObject b p bv' log).
Proof.
  intros Hc Hp Hs. constructor; simpl; try apply Hc.
  - intros t q H. destruct (coh_objects b Hc t q H) as (bvq & Hq & Hsq).
    destruct (decide (p = q)) as [<- | Hne].
    + rewrite lookup_insert_eq. exists bv'. split; [reflexivity | congruence].
    + rewrite lookup_insert_ne by exact Hne. eauto.
  - intros q H. destruct (coh_cache b Hc q H) as (bvq & Hq & Hm).
    destruct (decide (p = q)) as [<- | Hne].
    + rewrite lookup_insert_eq. exists bv'. split; [reflexivity |].
      rewrite Hs. congruence.
    + rewrite lookup_insert_ne by exact Hne. eauto.
Qed.

Lemma coherent_logError b e : coherent b -> coherent (logError b e).
Proof. intros Hc. constructor; simpl; apply Hc. Qed.

Lemma coherent_Reset b c : coherent b -> coherent (Reset b c).
Proof. intros Hc. constructor; simpl; apply Hc. Qed.

Lemma putBucketVersionsInCache_two x y p :
  (forall q, x = Some q -> y <> Some q) ->
  exists z, putBucketVersionsInCache [x; y] p = [Some p; z]
            /\ z <> Some p /\ (z = x \/ z = y).
Proof.
  intros Hxy. unfold putBucketVersionsInCache. simpl.
  destruct (decide (y = Some p)) as [Hy | Hy]; simpl.
  - exists x. split; [reflexivity |]. split; [| auto].
    intros Hx. exact (Hxy p Hx Hy).
  - destruct (decide (x = Some p)) as [Hx | Hx]; simpl.
    + exists y. auto.
    + exists x. auto.
Qed.

Lemma coherent_put b p t :
  coherent b -> bucketsMap b !! t = Some p ->
  coherent (setCache b (putBucketVersionsInCache (bucketVersionsCache b) p)).
Proof.
  intros Hc Hm.
  destruct (coh_cache_shape b Hc) as (x & y & Hxy & Hne).
  destruct (putBucketVersionsInCache_two x y p Hne) as (z & Hput & Hz & Hzin).
  constructor; simpl; try apply Hc; rewrite Hxy, Hput.
  - intros q Hq. rewrite !elem_of_cons, elem_of_nil in Hq.
    destruct Hq as [Hq | [Hq | []]].
    + inversion Hq; subst q.
      destruct (coh_objects b Hc t p Hm) as (bv & Hbv & Hs).
      exists bv. split; [exact Hbv | rewrite Hs; exact Hm].
    + apply (coh_cache b Hc). rewrite Hxy, !elem_of_cons.
      destruct Hzin; subst; auto.
  - exists (Some p), z. split; [reflexivity |].
    intros q Hq. inversion Hq; subst. exact Hz.
Qed.

Lemma coherent_create b t p b' :
  coherent b -> bucketVersionsAtCreate b t = (p, b') ->
  coherent b' /\ bucketsMap b' !! t = Some p.
Proof.
  intros Hc. unfold bucketVersionsAtCreate.
  rewrite (bucketVersionsAt_map b t Hc).
  destruct (bucketsMap b !! t) as [q |] eqn:Hq.
  { intros H. inversion H; subst. auto. }
  assert (Hfresh : forall p0 pool' next',
             poolGet b = (p0, pool', next') ->
             (forall t', bucketsMap b !! t' <> Some p0)
             /\ NoDup pool' /\ (forall q, q ∈ pool' -> q ∈ bucketVersionsPool b /\ q <> p0)
             /\ (p0 < next')%nat /\ (nextPtr b <= next')%nat).
  { intros p0 pool' next'. unfold poolGet.
    destruct (bucketVersionsPool b) as [|h tl] eqn:Hpool.
    - intros H. inversion H; subst. split.
      + intros t' Ht'. apply (coh_next_map b Hc) in Ht'. lia.
      + split; [constructor |]. split; [| lia].
        intros q0 Hq0. rewrite elem_of_nil in Hq0. contradiction.
    - intros H. inversion H; subst.
      pose proof (coh_pool_nodup b Hc) as Hnd. rewrite Hpool in Hnd.
      apply NoDup_cons in Hnd as [Hnin Hnd]. split.
      + intros t'. apply (coh_pool b Hc). rewrite Hpool. left.
      + split; [exact Hnd |]. split.
        * intros q0 Hq0. split; [right; exact Hq0 |]. intros ->. contradiction.
        * split; [| lia]. apply (coh_next_pool b Hc). rewrite Hpool. left. }
  destruct (poolGet b) as [[p0 pool'] next'] eqn:Hget.
  destruct (Hfresh _ _ _ eq_refl) as (Hnotin & Hnd & Hpool' & Hlt & Hle).
  intros H. inversion H; subst; clear H. split; [| simpl; apply lookup_insert_eq].
  constructor; simpl.
  - intros t'. rewrite elem_of_inOrderBlockStartsAdd, <- (coh_keys b Hc).
    rewrite lookup_insert_is_Some. destruct (decide (t = t')); intuition congruence.
  - apply inOrderBlockStartsAdd_sorted; [apply Hc |].
    intros Hin. apply (coh_keys b Hc) in Hin as [x Hx]. congruence.
  - intros t' q Hq'. apply lookup_insert_Some in Hq' as [[<- <-] | [Hne Hq']].
    + rewrite lookup_insert_eq. eexists. split; reflexivity.
    + rewrite lookup_insert_ne by (intros ->; exact (Hnotin _ Hq')).
      apply (coh_objects b Hc). exact Hq'.
  - intros q Hin. destruct (coh_cache b Hc q Hin) as (bv & Hbv & Hm).
    rewrite lookup_insert_ne by (intros ->; exact (Hnotin _ Hm)).
    exists bv. split; [exact Hbv |].
    rewrite lookup_insert_ne by (intros ->; congruence). exact Hm.
  - apply Hc.
  - intros q t' Hin Hm. destruct (Hpool' q Hin) as [Hin' Hne].
    apply lookup_insert_Some in Hm as [[_ Heq] | [_ Hm]]; [congruence |].
    exact (coh_pool b Hc q t' Hin' Hm).
  - exact Hnd.
  - intros t' q Hm. apply lookup_insert_Some in Hm as [[_ <-] | [_ Hm]]; [exact Hlt |].
    apply (coh_next_map b Hc) in Hm. lia.
  - intros q Hin. destruct (Hpool' q Hin) as [Hin' _].
    apply (coh_next_pool b Hc) in Hin'. lia.
Qed.

Lemma removeBucketVersionsInCache_two x y p :
  (forall q, x = Some q -> y <> Some q) ->
  exists x' y',
    removeBucketVersionsInCache [x; y] p = [x'; y']
    /\ (forall q, x' = Some q -> y' <> Some q)
    /\ (forall q, Some q ∈ [x'; y'] -> q <> p /\ Some q ∈ [x; y]).
Proof.
  intros Hxy. unfold removeBucketVersionsInCache. simpl.
  destruct (decide (y = Some p)) as [Hy | Hy]; simpl.
  - exists x, None. split; [reflexivity |]. split; [discriminate |].
    intros q Hq. rewrite !elem_of_cons, elem_of_nil in Hq.
    destruct Hq as [Hq | [Hq | []]]; [| discriminate].
    split; [| rewrite elem_of_cons; auto].
    intros ->. exact (Hxy p (eq_sym Hq) Hy).
  - destruct (decide (x = Some p)) as [Hx | Hx]; simpl.
    + exists y, None. split; [reflexivity |]. split; [discriminate |].
      intros q Hq. rewrite !elem_of_cons, elem_of_nil in Hq.
      destruct Hq as [Hq | [Hq | []]]; [| discriminate].
      split; [congruence | rewrite !elem_of_cons; auto].
    + exists x, y. split; [reflexivity |]. split; [exact Hxy |].
      intros q Hq. split; [| exact Hq].
      rewrite !elem_of_cons, elem_of_nil in Hq.
      destruct Hq as [Hq | [Hq | []]]; congruence.
Qed.

Lemma coherent_remove b t : coherent b -> coherent (removeBucketVersionsAt b t).
Proof.
  intros Hc. unfold removeBucketVersionsAt.
  rewrite (bucketVersionsAt_map b t Hc).
  destruct (bucketsMap b !! t) as [p |] eqn:Hp; [| exact Hc].
  destruct (coh_cache_shape b Hc) as (x & y & Hxy & Hne).
  destruct (removeBucketVersionsInCache_two x y p Hne) as (x' & y' & Hrem & Hne' & Hsub).
  assert (Hother : forall t' q, t' <> t -> bucketsMap b !! t' = Some q -> q <> p).
  { intros t' q Hn Hq ->. apply Hn. eapply coherent_injective; eauto. }
  constructor; simpl.
  - intros t'. rewrite (elem_of_inOrderBlockStartsRemove _ _ _ (coh_sorted b Hc)).
    rewrite <- (coh_keys b Hc). rewrite lookup_delete_is_Some.
    split; intros [H1 H2]; split; auto.
  - apply inOrderBlockStartsRemove_sorted. apply Hc.
  - intros t' q Hq. apply lookup_delete_Some in Hq as [Hn Hq].
    rewrite lookup_insert_ne by (intros ->; eapply Hother; eauto).
    apply (coh_objects b Hc). exact Hq.
  - intros q Hin. rewrite Hxy, Hrem in Hin.
    destruct (Hsub q Hin) as [Hqp Hin'].
    rewrite <- Hxy in Hin'.
    destruct (coh_cache b Hc q Hin') as (bv & Hbv & Hm).
    rewrite lookup_insert_ne by congruence.
    exists bv. split; [exact Hbv |].
    rewrite lookup_delete_ne; [exact Hm |].
    intros Heq. rewrite <- Heq in Hm. congruence.
  - rewrite Hxy, Hrem. eauto.
  - intros q t' Hin Hm. apply lookup_delete_Some in Hm as [Hn Hm].
    apply elem_of_cons in Hin as [-> | Hin].
    + eapply Hother; eauto.
    + exact (coh_pool b Hc q t' Hin Hm).
  - apply NoDup_cons. split; [| apply Hc].
    intros Hin. exact (coh_pool b Hc p t Hin Hp).
  - intros t' q Hm. apply lookup_delete_Some in Hm as [_ Hm].
    apply (coh_next_map b Hc) in Hm. exact Hm.
  - intros q Hin. apply elem_of_cons in Hin as [-> | Hin].
    + apply (coh_next_map b Hc) in Hp. exact Hp.
    + apply (coh_next_pool b Hc). exact Hin.
Qed.

(** *** The operations on bucket versions keep the start *)

Lemma writableBucketCreate_start wt bv i bv' :
  writableBucketCreate wt bv = (i, bv') -> bv_start bv' = bv_start bv.
Proof.
  unfold writableBucketCreate.
  destruct (writableBucket wt bv) as [[j x] |]; intros H; inversion H; reflexivity.
Qed.

Lemma bv_write_start bs bv ts v m wt log r bv' log' :
  bv_write bs bv ts v m wt log = (r, bv', log') -> bv_start bv' = bv_start bv.
Proof.
  unfold bv_write.
  destruct (writableBucketCreate wt bv) as [i bv1] eqn:Hw.
  apply writableBucketCreate_start in Hw.
  destruct (buckets bv1 !! i) as [bk |].
  - destruct (write bs bk ts v m log) as [[r1 b1] l1].
    intros H. inversion H; subst. simpl. exact Hw.
  - intros H. inversion H; subst. exact Hw.
Qed.

Lemma bv_bootstrap_start bv bl : bv_start (bv_bootstrap bv bl) = bv_start bv.
Proof.
  unfold bv_bootstrap.
  destruct (writableBucketCreate BootstrapWriteType bv) as [i bv1] eqn:Hw.
  apply writableBucketCreate_start in Hw.
  destruct (buckets bv1 !! i); simpl; exact Hw.
Qed.

Lemma bv_merge_start bs wt bv log r bv' log' :
  bv_merge bs wt bv log = (r, bv', log') -> bv_start bv' = bv_start bv.
Proof.
  unfold bv_merge. destruct (bv_mergeLoop _ _ _ _ _) as [[r1 bs1] l1].
  intros H. inversion H; subst. reflexivity.
Qed.

Lemma setVersionAt_start bv i v : bv_start (setVersionAt bv i v) = bv_start bv.
Proof. unfold setVersionAt. destruct (buckets bv !! i); reflexivity. Qed.

(** *** The operations of the buffer *)

Lemma coherent_writeTo b ts v m wOpts wt :
  coherent b -> coherent (writeTo b ts v m wOpts wt).2.
Proof.
  intros Hc. unfold writeTo.
  destruct (bucketVersionsAtCreate b _) as [p b1] eqn:Hcr.
  destruct (coherent_create _ _ _ _ Hc Hcr) as [Hc1 Hm1].
  pose proof (coherent_put b1 p _ Hc1 Hm1) as Hc2.
  destruct (coh_objects _ Hc1 _ _ Hm1) as (bv & Hbv & Hs).
  simpl. rewrite Hbv.
  destruct (bv_write _ _ _ _ _ _ _) as [[r bv'] log'] eqn:Hw. simpl.
  apply bv_write_start in Hw.
  eapply coherent_setObject; [exact Hc2 | simpl; exact Hbv | exact Hw].
Qed.

Lemma coherent_Write b now ts v m wOpts :
  coherent b -> coherent (Write b now ts v m wOpts).2.
Proof.
  intros Hc. unfold Write.
  destruct (writeTypeAt (cfg b) now ts) as [e | wt]; [exact Hc |].
  destruct (if decide (wt = ColdWrite) then _ else _); [exact Hc |].
  apply coherent_writeTo. exact Hc.
Qed.

Lemma coherent_Bootstrap b bl : coherent b -> coherent (Bootstrap b bl).
Proof.
  intros Hc. unfold Bootstrap.
  destruct (bucketVersionsAtCreate b _) as [p b1] eqn:Hcr.
  destruct (coherent_create _ _ _ _ Hc Hcr) as [Hc1 Hm1].
  destruct (coh_objects _ Hc1 _ _ Hm1) as (bv & Hbv & Hs).
  rewrite Hbv.
  eapply coherent_setObject; [exact Hc1 | exact Hbv | apply bv_bootstrap_start].
Qed.

Lemma coherent_tickEntry blockStates st t :
  coherent st.1 -> coherent (tickEntry blockStates st t).1.
Proof.
  destruct st as [b res]. simpl. intros Hc.
  destruct (bucketsMap b !! t) as [p |] eqn:Hp; [| exact Hc].
  destruct (objects b !! p) as [bv |] eqn:Hbv; [| exact Hc].
  set (blockState := default _ (blockStates !! t)).
  set (flushed := WarmRetrievable blockState || (0 <? ColdVersion blockState)).
  set (bv1 := if flushed && WarmRetrievable blockState
              then removeBucketsUpToVersion WarmWrite 1 bv else bv).
  set (bv2 := if flushed && (0 <? ColdVersion blockState)
              then removeBucketsUpToVersion ColdWrite (ColdVersion blockState) bv1
              else bv1).
  assert (Hs2 : bv_start bv2 = bv_start bv).
  { unfold bv2, bv1. destruct (flushed && (0 <? _)), (flushed && WarmRetrievable _);
      reflexivity. }
  assert (Hc1 : coherent (setObject b p bv2 (closedLog b))).
  { eapply coherent_setObject; eauto. }
  destruct (flushed && (bv_streamsLen bv2 =? 0)).
  - simpl. apply coherent_remove. exact Hc1.
  - destruct (bv_merge _ _ _ _) as [[r bv3] log'] eqn:Hm.
    apply bv_merge_start in Hm.
    assert (Hc2 : coherent (setObject (setObject b p bv2 (closedLog b)) p bv3 log')).
    { eapply coherent_setObject; [exact Hc1 | simpl; apply lookup_insert_eq | exact Hm]. }
    destruct r; simpl; [apply coherent_logError |]; exact Hc2.
Qed.

Lemma coherent_Tick b blockStates order :
  coherent b -> coherent (Tick b blockStates order).1.
Proof.
  intros Hc. unfold Tick.
  set (st := (b, _)). assert (Hst : coherent st.1) by exact Hc.
  clearbody st. revert st Hst.
  induction order as [|t order IH]; intros st Hst; simpl; [exact Hst |].
  apply IH. apply coherent_tickEntry. exact Hst.
Qed.

Lemma coherent_Snapshot b blockStart persistFn :
  coherent b -> coherent (Snapshot b blockStart persistFn).2.
Proof.
  intros Hc. unfold Snapshot.
  destruct (bucketVersionsAt b blockStart) as [p |]; [| exact Hc].
  destruct (objects b !! p) as [bv |] eqn:Hbv; [| exact Hc].
  destruct (snapshotStream _ _ _ _) as [[r bv'] log'] eqn:Hs.
  apply FlushFacts.snapshotStream_frame in Hs as [Hs _].
  assert (Hc1 : coherent (setObject b p bv' log'))
    by (eapply coherent_setObject; eauto).
  destruct r as [e | [s |]]; simpl; try exact Hc1.
  destruct (persistSegment persistFn s); exact Hc1.
Qed.

Lemma coherent_WarmFlush b blockStart persistFn :
  coherent b -> coherent (WarmFlush b blockStart persistFn).2.
Proof.
  intros Hc. unfold WarmFlush.
  destruct (bucketVersionsAt b blockStart) as [p |]; [| exact Hc].
  destruct (objects b !! p) as [bv |] eqn:Hbv; [| exact Hc].
  destruct (warmFlushStream _ _ _ _) as [[r bv'] log'] eqn:Hs.
  apply FlushFacts.warmFlushStream_frame in Hs as [Hs _].
  assert (Hc1 : coherent (setObject b p bv' log'))
    by (eapply coherent_setObject; eauto).
  destruct r as [e | [s |]]; simpl; try exact Hc1.
  destruct (persistSegment persistFn s) as [e | [|]]; try exact Hc1.
  destruct (writableBucket WarmWrite bv') as [[i bk] |]; simpl; [| exact Hc1].
  eapply coherent_setObject; [exact Hc | exact Hbv |].
  rewrite setVersionAt_start. exact Hs.
Qed.

Lemma coherent_FetchBlocksForColdFlush b st v :
  coherent b -> coherent (FetchBlocksForColdFlush b st v).2.
Proof.
  intros Hc. unfold FetchBlocksForColdFlush.
  destruct (fetchBlocks b [st] (onlyType ColdWrite)) as [|r0 [|r1 rs]]; try exact Hc.
  destruct (bucketVersionsAt b st) as [p |]; [| exact Hc].
  destruct (objects b !! p) as [bv |] eqn:Hbv; [| exact Hc].
  destruct (writableBucket ColdWrite bv) as [[i bk] |]; simpl; [| exact Hc].
  eapply coherent_setObject; [exact Hc | exact Hbv | apply setVersionAt_start].
Qed.

(** The queried range overlaps the block at [blockStart]. *)
Definition overlaps (b : dbBuffer) (start end_ blockStart : Time) : Prop :=
  blockStart < end_ /\ start < blockStart + blockSize (cfg b).

Lemma readEncodedLoop_cfg starts : forall b now start end_ res,
  cfg (readEncodedLoop b now start end_ starts res).2 = cfg b
  /\ inOrderBlockStarts (readEncodedLoop b now start end_ starts res).2
     = inOrderBlockStarts b.
Proof.
  induction starts as [|t starts IH]; intros b now start end_ res; simpl; [auto |].
  destruct (negb _ || negb _); [apply IH |].
  destruct (bucketVersionsAt b t) as [p |]; [| auto].
  destruct (objects b !! p) as [bv |]; [| auto].
  match goal with |- context [readEncodedLoop ?b' _ _ _ _ ?r] =>
    destruct (IH b' now start end_ r) as [H1 H2] end.
  rewrite H1, H2. auto.
Qed.

Lemma coherent_readEncodedLoop starts : forall b now start end_ res,
  coherent b -> (forall t, t ∈ starts -> t ∈ inOrderBlockStarts b) ->
  coherent (readEncodedLoop b now start end_ starts res).2
  /\ exists out, (readEncodedLoop b now start end_ starts res).1 = inr out.
Proof.
  induction starts as [|t starts IH]; intros b now start end_ res Hc Hin; simpl.
  - split; [exact Hc | eauto].
  - assert (Hrest : forall t', t' ∈ starts -> t' ∈ inOrderBlockStarts b)
      by (intros t' Ht'; apply Hin; right; exact Ht').
    destruct (negb _ || negb _); [apply IH; assumption |].
    rewrite (bucketVersionsAt_map b t Hc).
    assert (Ht : is_Some (bucketsMap b !! t))
      by (apply (coh_keys b Hc), Hin; left).
    destruct Ht as [p Hp]. rewrite Hp.
    destruct (coh_objects b Hc t p Hp) as (bv & Hbv & Hs). rewrite Hbv.
    apply IH.
    + eapply coherent_setObject; [exact Hc | exact Hbv | reflexivity].
    + exact Hrest.
Qed.

Lemma allocated_setObject b p bv log : allocated b -> allocated (setObject b p bv log).
Proof.
  intros [Hm Hc]. split; simpl.
  - intros t q H. apply lookup_insert_is_Some'. right. eauto.
  - intros q H. apply lookup_insert_is_Some'. right. eauto.
Qed.

Lemma readEncodedLoop_error starts : forall b now start end_ res err,
  allocated b ->
  (readEncodedLoop b now start end_ starts res).1 = inl err ->
  exists t, err = InvariantError t /\ t ∈ starts /\ overlaps b start end_ t
            /\ bucketVersionsAt b t = None.
Proof.
  induction starts as [|t starts IH]; intros b now start end_ res err Ha; simpl;
    [discriminate |].
  destruct (negb (Before t end_) || negb (Before start (Add t (blockSize (cfg b)))))
    eqn:Hskip.
  { intros H. apply IH in H as (t' & He & Hin & Ho & Hn); [| exact Ha].
    exists t'. split; [exact He |]. split; [right; exact Hin | auto]. }
  apply orb_false_iff in Hskip as [H1 H2].
  apply negb_false_iff in H1, H2. unfold Before, Add in H1, H2.
  apply Z.ltb_lt in H1, H2.
  destruct (bucketVersionsAt b t) as [p |] eqn:Hat.
  - destruct (bucketVersionsAt_allocated b t p Ha Hat) as [bv Hbv]. rewrite Hbv.
    intros H. apply IH in H as (t' & He & Hin & Ho & Hn);
      [| apply allocated_setObject; exact Ha].
    exists t'. split; [exact He |]. split; [right; exact Hin |].
    split; [exact Ho |].
    rewrite <- Hn. symmetry.
    eapply bucketVersionsAt_setObject; [exact Hbv | reflexivity].
  - simpl. intros H. inversion H; subst.
    exists t. split; [reflexivity |]. split; [left |]. split; [split; assumption |].
    exact Hat.
Qed.

(** A block start of the list that overlaps the range and is not found
    makes the loop fail, at that block start or at an earlier one. *)
Lemma readEncodedLoop_raises starts : forall b now start end_ res t,
  allocated b ->
  t ∈ starts -> overlaps b start end_ t -> bucketVersionsAt b t = None ->
  exists t', (readEncodedLoop b now start end_ starts res).1 = inl (InvariantError t').
Proof.
  induction starts as [|t0 starts IH]; intros b now start end_ res t Ha Hin Ho Hn.
  { inversion Hin. }
  cbn [readEncodedLoop].
  destruct (negb (Before t0 end_) || negb (Before start (Add t0 (blockSize (cfg b)))))
    eqn:Hskip.
  { apply elem_of_cons in Hin as [-> | Hin]; [| eapply IH; eauto].
    exfalso. destruct Ho as [H1 H2]. unfold Before, Add in Hskip.
    apply orb_true_iff in Hskip as [H | H]; apply negb_true_iff, Z.ltb_ge in H; lia. }
  destruct (bucketVersionsAt b t0) as [p |] eqn:Hat; [| simpl; eauto].
  destruct (bucketVersionsAt_allocated b t0 p Ha Hat) as [bv Hbv]. rewrite Hbv.
  apply elem_of_cons in Hin as [-> | Hin]; [congruence |].
  apply (IH _ now start end_ _ t).
  - apply allocated_setObject. exact Ha.
  - exact Hin.
  - exact Ho.
  - rewrite <- Hn. eapply bucketVersionsAt_setObject; [exact Hbv | reflexivity].
Qed.

Lemma coherent_ReadEncoded b now start end_ :
  coherent b ->
  coherent (ReadEncoded b now start end_).2
  /\ exists out, (ReadEncoded b now start end_).1 = inr out.
Proof.
  intros Hc. unfold ReadEncoded. apply coherent_readEncodedLoop; auto.
Qed.

(** C6 (as amended).  A new buffer is coherent, and every operation of the
    buffer keeps it coherent: the keys of [bucketsMap] are exactly the
    entries of [inOrderBlockStarts], which is in ascending order, and every
    entry of the cache is an object of the map (the cache holds at most two
    of them, so it does not cover the map).  On a coherent buffer
    [ReadEncoded] never fails.  On any buffer whose pointers are valid,
    [ReadEncoded] fails exactly when a block start of the sorted list
    overlaps the queried range and [bucketVersionsAt] finds it neither in
    the cache nor in [bucketsMap]; the error is then the invariant error for
    such a block start, and [ReadEncoded] has no other error. *)
Theorem buffer_coherence :
  (forall c, coherent (newDatabaseBuffer c))
  /\ (forall b,
        coherent b ->
        (forall t, t ∈ dom (bucketsMap b) <-> t ∈ inOrderBlockStarts b)
        /\ StronglySorted Z.lt (inOrderBlockStarts b)
        /\ (forall p, Some p ∈ bucketVersionsCache b ->
                      exists t, t ∈ inOrderBlockStarts b
                                /\ bucketsMap b !! t = Some p)
        /\ (forall now ts v m wOpts, coherent (Write b now ts v m wOpts).2)
        /\ (forall bl, coherent (Bootstrap b bl))
        /\ (forall blockStates order, coherent (Tick b blockStates order).1)
        /\ (forall t persistFn, coherent (Snapshot b t persistFn).2)
        /\ (forall t persistFn, coherent (WarmFlush b t persistFn).2)
        /\ (forall t v, coherent (FetchBlocksForColdFlush b t v).2)
        /\ (forall c, coherent (Reset b c))
        /\ (forall now start end_,
              coherent (ReadEncoded b now start end_).2
              /\ exists out, (ReadEncoded b now start end_).1 = inr out))
  /\ (forall b now start end_,
        allocated b ->
        ((exists err, (ReadEncoded b now start end_).1 = inl err)
         <-> exists t, t ∈ inOrderBlockStarts b /\ overlaps b start end_ t
                       /\ cacheFind (objects b) t (bucketVersionsCache b) = None
                       /\ bucketsMap b !! t = None)
        /\ (forall err,
              (ReadEncoded b now start end_).1 = inl err ->
              exists t, err = InvariantError t /\ t ∈ inOrderBlockStarts b
                        /\ overlaps b start end_ t
                        /\ bucketVersionsAt b t = None)).
Proof.
  split; [exact coherent_new |]. split.
  - intros b Hc.
    split; [intros t; rewrite elem_of_dom; apply (coh_keys b Hc) |].
    split; [apply Hc |].
    split.
    { intros p Hp. destruct (coh_cache b Hc p Hp) as (bv & _ & Hm).
      exists (bv_start bv). split; [| exact Hm].
      apply (coh_keys b Hc). eauto. }
    split; [intros; apply coherent_Write; exact Hc |].
    split; [intros; apply coherent_Bootstrap; exact Hc |].
    split; [intros; apply coherent_Tick; exact Hc |].
    split; [intros; apply coherent_Snapshot; exact Hc |].
    split; [intros; apply coherent_WarmFlush; exact Hc |].
    split; [intros; apply coherent_FetchBlocksForColdFlush; exact Hc |].
    split; [intros; apply coherent_Reset; exact Hc |].
    intros. apply coherent_ReadEncoded. exact Hc.
  - intros b now start end_ Ha.
    assert (Hnone : forall t, bucketVersionsAt b t = None <->
                              cacheFind (objects b) t (bucketVersionsCache b) = None
                              /\ bucketsMap b !! t = None).
    { intros t. unfold bucketVersionsAt.
      destruct (cacheFind _ _ _) as [p |]; split;
        try discriminate; try (intros [? ?]; discriminate); tauto. }
    split; [split |].
    + intros [err H]. unfold ReadEncoded in H.
      apply readEncodedLoop_error in H as (t & _ & Hin & Ho & Hn); [| exact Ha].
      exists t. apply Hnone in Hn. tauto.
    + intros (t & Hin & Ho & Hn). unfold ReadEncoded.
      destruct (readEncodedLoop_raises _ b now start end_ [] t Ha Hin Ho
                  (proj2 (Hnone t) Hn)) as [t' Ht'].
      eauto.
    + intros err H. unfold ReadEncoded in H.
      apply readEncodedLoop_error in H; [| exact Ha]. exact H.
Qed.

End Facts.

(** A buffer with the clock at 02:00:00 after writes into three blocks: a
    warm one at 02:00:10 and cold ones at 01:01:40 and 00:01:40. *)
Definition threeBlocksWritten : dbBuffer :=
  let _ := Fixtures.listExternals in
  let b0 := newDatabaseBuffer (Fixtures.hourConfig true) in
  let b1 := (Write b0 7200 7210 1 tt Fixtures.plainWrite).2 in
  let b2 := (Write b1 7200 3700 2 tt Fixtures.plainWrite).2 in
  (Write b2 7200 100 3 tt Fixtures.plainWrite).2.

(** C6 as stated fails for the cache: after writes into three blocks the
    map and the sorted list hold three block starts and the cache two
    objects; the block at 02:00:00 is a key of the map and an entry of the
    sorted list, and its object is not in the cache. *)
Lemma cache_does_not_cover_map :
  inOrderBlockStarts threeBlocksWritten = [0; 3600; 7200]
  /\ bucketsMap threeBlocksWritten !! 0 = Some 2%nat
  /\ bucketsMap threeBlocksWritten !! 3600 = Some 1%nat
  /\ bucketsMap threeBlocksWritten !! 7200 = Some 0%nat
  /\ bucketVersionsCache threeBlocksWritten = [Some 2%nat; Some 1%nat]
  /\ Some 0%nat ∉ bucketVersionsCache threeBlocksWritten.
Proof.
  assert (Hc : bucketVersionsCache threeBlocksWritten = [Some 2%nat; Some 1%nat])
    by (vm_compute; reflexivity).
  split; [vm_compute; reflexivity |]. split; [vm_compute; reflexivity |].
  split; [vm_compute; reflexivity |]. split; [vm_compute; reflexivity |].
  split; [exact Hc |]. rewrite Hc. intros H.
  apply elem_of_cons in H as [H | H]; [discriminate |].
  apply elem_of_cons in H as [H | H]; [discriminate | inversion H].
Qed.

(** The buffer written into three blocks is coherent. *)
Lemma buffer_coherence_witness : coherent threeBlocksWritten.
Proof.
  pose proof (proj1 (@buffer_coherence Fixtures.listExternals)) as Hnew.
  pose proof (fun b Hc => proj1 (proj2 (proj2 (proj2
                 (proj1 (proj2 (@buffer_coherence Fixtures.listExternals)) b Hc)))))
    as Hwrite.
  unfold threeBlocksWritten.
  apply Hwrite, Hwrite, Hwrite, Hnew.
Defined.

End CoherenceFacts.

(** ** Runs of the operations on the concrete collaborators *)
Module Scenarios.
Import Clock.
Local Open Scope Z_scope.

Module OfBuffer.
Import Buffer.
#[local] Existing Instance Fixtures.listExternals.

(** Cold writes disabled, the clock at 12:00:00, a ten minute past buffer:
    the write at 11:40:00 is refused. *)
Example cold_write_rejected :
  (Write (newDatabaseBuffer (Fixtures.hourConfig false)) 43200 42000 1 tt
         Fixtures.plainWrite).1
  = inl InvalidParamsError.
Proof. vm_compute. reflexivity. Qed.

(** Writing the same value at the same timestamp again writes nothing. *)
Example same_point_not_written :
  let b1 := (Write (newDatabaseBuffer (Fixtures.hourConfig true)) 7200 7210 1 tt
                   Fixtures.plainWrite).2 in
  (Write b1 7200 7210 1 tt Fixtures.plainWrite).1 = inr false.
Proof. vm_compute. reflexivity. Qed.

(** A tick merges the two encoders of the warm bucket into one. *)
Example tick_merges :
  let r := Tick FlushFacts.twoWrites ∅ [7200] in
  mergedOutOfOrderBlocks r.2 = 1%nat
  /\ FlushFacts.encoderCounts r.1 0%nat = Some [1%nat].
Proof. split; vm_compute; reflexivity. Qed.

(** A tick whose merge fails writes the error to the log and leaves the
    bucket with its two encoders. *)
Example tick_logs_failed_merge :
  let r := Tick FlushFacts.threeWrites ∅ [7200] in
  mergedOutOfOrderBlocks r.2 = 0%nat
  /\ FlushFacts.encoderCounts r.1 0%nat = Some [2%nat]
  /\ errorLog r.1 = [ExternalError 1].
Proof. repeat split; vm_compute; reflexivity. Qed.

(** After a warm flush, a tick that finds the block warm-retrievable evicts
    its bucket versions and the buffer is empty. *)
Example flush_then_tick_evicts :
  let flushed := (WarmFlush FlushFacts.twoWrites 7200 (fun _ => None)).2 in
  let r := Tick flushed {[ 7200 := {| WarmRetrievable := true; ColdVersion := 0 |} ]}
                [7200] in
  IsEmpty flushed = false
  /\ evictedBucketTimes r.2 = [7200]
  /\ IsEmpty r.1 = true.
Proof. repeat split; vm_compute; reflexivity. Qed.

End OfBuffer.

Module OfSeekers.
Import SeekMgr.
#[local] Existing Instance Fixtures.quietEnv.

Definition lease0 : LeaseDescriptor :=
  {| ld_Namespace := 7; ld_Shard := 0%nat; ld_BlockStart := 3600 |}.

(** Both seekers of volume 0 are borrowed, then a lease for volume 1
    arrives. *)
Definition swapping : LeaseOutcome * seekerManager :=
  let m0 := (Open (NewSeekerManager 2) 7).2 in
  let m1 := (Borrow m0 0%nat 3600).2 in
  let m2 := (Borrow m1 0%nat 3600).2 in
  UpdateOpenLeaseFn m2 lease0 {| ls_Volume := 1 |}.

(** The update waits; a borrow now gets a seeker of volume 1; returning the
    two seekers of volume 0 closes them and signals the wait group; the
    manager closes once the seeker of volume 1 is back. *)
Example hot_swap_under_load :
  let m3 := swapping.2 in
  let b := Borrow m3 0%nat 3600 in
  let r1 := Return b.2 0%nat 3600 0%nat in
  let r2 := Return r1.2 0%nat 3600 1%nat in
  let r3 := Return r2.2 0%nat 3600 2%nat in
  swapping.1 = LeaseWaiting 1%nat UpdateOpenLease
  /\ b.1 = Done 2%nat
  /\ (r1.1 = None /\ closedSeekers (heap r1.2) = [])
  /\ (r2.1 = None /\ closedSeekers (heap r2.2) = [0%nat; 1%nat]
      /\ doneWgs (heap r2.2) = [0%nat; 1%nat])
  /\ (Close r2.2).1 = CloseFailed errCantCloseSeekerManagerWhileSeekersAreBorrowed
  /\ (Close r3.2).1 = CloseReturned.
Proof. repeat split; vm_compute; reflexivity. Qed.

(** With every seeker of the fileset out, a further borrow fails. *)
Example no_available_seekers :
  let m0 := (Open (NewSeekerManager 2) 7).2 in
  let m1 := (Borrow m0 0%nat 3600).2 in
  let m2 := (Borrow m1 0%nat 3600).2 in
  (Borrow m2 0%nat 3600).1 = Failed errNoAvailableSeekers.
Proof. vm_compute. reflexivity. Qed.

End OfSeekers.
End Scenarios.

(** ** Times without allocation *)
Module TimesFacts.
Import Clock Buffer.
Import OptimizedTimes.

(** The times held: the filled part of the array, then the slice. *)
Definition held (ts : OptimizedTimes.t) : list Z :=
  take (arrIdx ts) (arr ts) ++ slice ts.

(** The array has its size, and the slice is used only once the array is
    full. *)
Definition filledInOrder (ts : OptimizedTimes.t) : Prop :=
  length (arr ts) = optimizedTimesArraySize
  /\ (arrIdx ts <= optimizedTimesArraySize)%nat
  /\ ((arrIdx ts < optimizedTimesArraySize)%nat -> slice ts = []).

Lemma filledInOrder_zero : filledInOrder zero /\ held zero = [].
Proof.
  split; [| reflexivity].
  split; [reflexivity |]. split; [simpl; lia | reflexivity].
Qed.

Lemma held_Add ts x :
  filledInOrder ts -> filledInOrder (Add ts x) /\ held (Add ts x) = held ts ++ [x].
Proof.
  intros (Hlen & Hle & Hsl). unfold Add, held.
  destruct (Nat.ltb_spec (arrIdx ts) optimizedTimesArraySize) as [Hlt | Hge];
    cbn [arr arrIdx slice].
  - split.
    + unfold filledInOrder; cbn [arr arrIdx slice].
      split; [rewrite length_insert; exact Hlen |]. split; [lia |].
      intros _. apply Hsl. exact Hlt.
    + rewrite (Hsl Hlt), !app_nil_r.
      assert (Hi : (arrIdx ts < length (arr ts))%nat) by lia.
      rewrite (take_S_r _ _ x) by (apply list_lookup_insert_eq; exact Hi).
      rewrite take_insert_ge by lia. reflexivity.
  - split; [unfold filledInOrder; cbn [arr arrIdx slice];
            split; [exact Hlen |]; split; [exact Hle | lia] |].
    rewrite app_assoc. reflexivity.
Qed.

Lemma held_foldl l :
  filledInOrder (foldl Add zero l) /\ held (foldl Add zero l) = l.
Proof.
  induction l as [|x l IH] using rev_ind; [apply filledInOrder_zero |].
  rewrite foldl_app. simpl. destruct IH as [Hf Hh].
  destruct (held_Add _ x Hf) as [Hf' Hh']. split; [exact Hf' |].
  rewrite Hh', Hh. reflexivity.
Qed.

Lemma ForEach_held {S : Type} ts (fn : Z -> S -> S) s :
  ForEach ts fn s = foldl (fun acc x => fn x acc) s (held ts).
Proof. unfold ForEach, held. rewrite foldl_app. reflexivity. Qed.

Lemma Len_held ts : filledInOrder ts -> Len ts = length (held ts).
Proof.
  intros (Hlen & Hle & _). unfold Len, held.
  rewrite length_app, length_take. lia.
Qed.

Lemma Contains_held ts x : Contains ts x = true <-> x ∈ held ts.
Proof.
  unfold Contains, held. rewrite orb_true_iff, elem_of_app, !existsb_exists.
  assert (H : forall l : list Z,
             (exists y, In y l /\ Equal y x = true) <-> x ∈ l).
  { intros l. split.
    - intros (y & Hy & He). apply Z.eqb_eq in He. subst y.
      apply list_elem_of_In. exact Hy.
    - intros Hx. exists x. split; [apply list_elem_of_In; exact Hx | apply Z.eqb_refl]. }
  rewrite !H. reflexivity.
Qed.

(** X1.  [ForEach] runs the callback on the times in the order in which
    [Add] received them, whether they sit in the array or, past its eight
    places, in the slice; [Len] is their number. *)
Theorem ForEach_in_order_of_Add :
  forall (S : Type) (fn : Z -> S -> S) (s : S) (l : list Z),
    ForEach (foldl Add zero l) fn s = foldl (fun acc x => fn x acc) s l
    /\ Len (foldl Add zero l) = length l.
Proof.
  intros S fn s l. destruct (held_foldl l) as [Hf Hh].
  rewrite ForEach_held, (Len_held _ Hf), Hh. auto.
Qed.

(** X2.  [Contains] finds exactly the times that were added. *)
Theorem Contains_iff_added :
  forall (l : list Z) (x : Z),
    Contains (foldl Add zero l) x = true <-> x ∈ l.
Proof.
  intros l x. rewrite Contains_held, (proj2 (held_foldl l)). reflexivity.
Qed.

End TimesFacts.

(** ** Writes into a bucket *)
Module EncoderFacts.
Import Clock Buffer.
Local Open Scope Z_scope.

Section Facts.
Context `{Ext : Externals}.

Lemma findEncoder_idx ts v es : forall k i,
  findEncoder ts v es k = FoundIdx i ->
  (k <= i)%nat /\ exists e, es !! (i - k)%nat = Some e /\ lastWriteAt e < ts.
Proof.
  induction es as [|a es IH]; intros k i; simpl; [discriminate |].
  assert (Hrec : findEncoder ts v es (S k) = FoundIdx i ->
                 (k <= i)%nat
                 /\ exists e, (a :: es) !! (i - k)%nat = Some e /\ lastWriteAt e < ts).
  { intros H. apply IH in H as (Hle & e & Hl & Hlt). split; [lia |].
    exists e. split; [| exact Hlt].
    replace (i - k)%nat with (S (i - S k)) by lia. exact Hl. }
  destruct (Equal ts (lastWriteAt a)).
  - destruct (LastEncoded (encoder a)) as [c | last]; [discriminate |].
    destruct (value_eq (DValue last) v); [discriminate | exact Hrec].
  - destruct (After ts (lastWriteAt a)) eqn:Ha; [| exact Hrec].
    intros H. inversion H; subst. split; [lia |].
    exists a. rewrite Nat.sub_diag. split; [reflexivity |].
    unfold After in Ha. apply Z.ltb_lt in Ha. exact Ha.
Qed.

Lemma findEncoder_none ts v es : forall k,
  findEncoder ts v es k = FoundNone -> Forall (fun e => ts <= lastWriteAt e) es.
Proof.
  induction es as [|a es IH]; intros k; simpl; [constructor |].
  destruct (Equal ts (lastWriteAt a)) eqn:He.
  - apply Z.eqb_eq in He.
    destruct (LastEncoded (encoder a)) as [c | last]; [discriminate |].
    destruct (value_eq (DValue last) v); [discriminate |].
    intros H. constructor; [lia | eapply IH; exact H].
  - destruct (After ts (lastWriteAt a)) eqn:Ha; [discriminate |].
    unfold After in Ha. apply Z.ltb_ge in Ha.
    intros H. constructor; [exact Ha | eapply IH; exact H].
Qed.

Lemma findEncoder_noop ts v es : forall k,
  findEncoder ts v es k = FoundNoop ->
  exists e last, e ∈ es /\ lastWriteAt e = ts
                 /\ LastEncoded (encoder e) = inr last
                 /\ value_eq (DValue last) v = true.
Proof.
  induction es as [|a es IH]; intros k; simpl; [discriminate |].
  assert (Hrec : findEncoder ts v es (S k) = FoundNoop ->
                 exists e last, e ∈ a :: es /\ lastWriteAt e = ts
                                /\ LastEncoded (encoder e) = inr last
                                /\ value_eq (DValue last) v = true).
  { intros H. apply IH in H as (e & last & Hin & H).
    exists e, last. split; [right; exact Hin | exact H]. }
  destruct (Equal ts (lastWriteAt a)) eqn:He.
  - apply Z.eqb_eq in He.
    destruct (LastEncoded (encoder a)) as [c | last] eqn:Hl; [discriminate |].
    destruct (value_eq (DValue last) v) eqn:Hv; [| exact Hrec].
    intros _. exists a, last. split; [left |]. auto.
  - destruct (After ts (lastWriteAt a)); [discriminate | exact Hrec].
Qed.

Lemma findEncoder_later ts v es : forall k,
  Forall (fun e => ts < lastWriteAt e) es -> findEncoder ts v es k = FoundNone.
Proof.
  induction es as [|a es IH]; intros k HF; simpl; [reflexivity |].
  inversion HF as [| ? ? Ha Hes]; subst.
  assert (He : Equal ts (lastWriteAt a) = false) by (apply Z.eqb_neq; lia).
  assert (Hf : After ts (lastWriteAt a) = false) by (apply Z.ltb_ge; lia).
  rewrite He, Hf. apply IH. exact Hes.
Qed.

Lemma setEncoders_same (b : BufferBucket) : setEncoders b (encoders b) = b.
Proof. destruct b; reflexivity. Qed.

(** What a write keeps of a bucket. *)
Lemma write_kind bs b ts v m log r b' log' :
  write bs b ts v m log = (r, b', log') ->
  version b' = version b /\ writeType b' = writeType b /\ start b' = start b
  /\ bootstrapped b' = bootstrapped b.
Proof.
  unfold write, writeToEncoderIndex.
  destruct (findEncoder ts v (encoders b) 0) as [c | | i |].
  - intros H; inversion H; subst; auto.
  - intros H; inversion H; subst; auto.
  - destruct (encoders b !! i) as [e |]; [| intros H; inversion H; subst; auto].
    destruct (Encode _ _ _) as [enc' [c |]]; intros H; inversion H; subst; auto.
  - simpl encoders.
    destruct ((encoders b ++ _) !! _) as [e |]; [| intros H; inversion H; subst; auto].
    destruct (Encode _ _ _) as [enc' [c |]]; intros H; inversion H; subst; auto.
Qed.

(** X3.  A write is encoded in time order: it goes into an encoder of the
    bucket whose last write is strictly before the timestamp, which then
    carries the timestamp as its last write, or, when no encoder is before
    the timestamp, into a fresh encoder appended to the bucket.  It is
    skipped, leaving the bucket as it is, only when an encoder was last
    written at this timestamp with this value.  Nothing is closed. *)
Theorem write_in_time_order :
  forall (bs : Duration) (b : BufferBucket) (ts : Time) (v : Value) (m : Meta)
         (log : Log),
    let dp := {| Timestamp := ts; DValue := v |} in
    match write bs b ts v m log with
    | (inr false, b', log') =>
        b' = b /\ log' = log
        /\ exists e last, e ∈ encoders b /\ lastWriteAt e = ts
                          /\ LastEncoded (encoder e) = inr last
                          /\ value_eq (DValue last) v = true
    | (inr true, b', log') =>
        log' = log
        /\ ((exists i e enc',
               encoders b !! i = Some e /\ lastWriteAt e < ts
               /\ Encode (encoder e) dp m = (enc', None)
               /\ b' = setEncoders b
                         (<[i := {| encoder := enc'; lastWriteAt := ts |}]> (encoders b)))
            \/ (Forall (fun e => ts <= lastWriteAt e) (encoders b)
                /\ exists enc',
                     Encode (encoderGet (Truncate ts bs)) dp m = (enc', None)
                     /\ b' = setEncoders b
                               (encoders b ++ [ {| encoder := enc'; lastWriteAt := ts |} ])))
    | (inl _, _, _) => True
    end.
Proof.
  intros bs b ts v m log dp. unfold write. fold dp.
  destruct (findEncoder ts v (encoders b) 0) as [c | | i |] eqn:Hf.
  - exact I.
  - split; [reflexivity |]. split; [reflexivity |].
    eapply findEncoder_noop; exact Hf.
  - apply findEncoder_idx in Hf as (_ & e & He & Hlt).
    rewrite Nat.sub_0_r in He. unfold writeToEncoderIndex. rewrite He.
    destruct (Encode (encoder e) dp m) as [enc' [c |]] eqn:Henc; [exact I |].
    split; [reflexivity |]. left. exists i, e, enc'. auto.
  - apply findEncoder_none in Hf. unfold writeToEncoderIndex. simpl encoders.
    rewrite length_app. simpl length.
    replace (length (encoders b) + 1 - 1)%nat with (length (encoders b) + 0)%nat by lia.
    rewrite lookup_app_r by lia.
    replace (length (encoders b) + 0 - length (encoders b))%nat with 0%nat by lia.
    simpl.
    destruct (Encode (encoderGet (Truncate ts bs)) dp m) as [enc' [c |]] eqn:Henc;
      [exact I |].
    split; [reflexivity |]. right. split; [exact Hf |].
    exists enc'. split; [reflexivity |].
    unfold setEncoders. simpl. f_equal.
    rewrite insert_app_r_alt by lia.
    replace (length (encoders b) + 0 - length (encoders b))%nat with 0%nat by lia.
    reflexivity.
Qed.

(** A write into an encoder of its own. *)
Lemma write_fresh_encoder bs b ts v m log :
  findEncoder ts v (encoders b) 0 = FoundNone ->
  write bs b ts v m log =
  match Encode (encoderGet (Truncate ts bs)) {| Timestamp := ts; DValue := v |} m with
  | (enc, Some code) => (inl (ExternalError code), b, log ++ [ClosedEncoder enc])
  | (enc, None) =>
      (inr true,
       setEncoders b (encoders b ++ [ {| encoder := enc; lastWriteAt := ts |} ]), log)
  end.
Proof.
  intros Hf. unfold write, writeToEncoderIndex. rewrite Hf.
  simpl encoders. rewrite length_app. simpl length.
  replace (length (encoders b) + 1 - 1)%nat with (length (encoders b) + 0)%nat by lia.
  rewrite lookup_app_r by lia.
  replace (length (encoders b) + 0 - length (encoders b))%nat with 0%nat by lia.
  simpl.
  destruct (Encode (encoderGet (Truncate ts bs)) {| Timestamp := ts; DValue := v |} m)
    as [enc [c |]]; simpl.
  - rewrite insert_app_r_alt by lia.
    replace (length (encoders b) + 0 - length (encoders b))%nat with 0%nat by lia.
    simpl. rewrite lookup_app_r by lia.
    replace (length (encoders b) + 0 - length (encoders b))%nat with 0%nat by lia.
    simpl. rewrite take_app_length' by lia.
    f_equal. f_equal. destruct b; reflexivity.
  - rewrite insert_app_r_alt by lia.
    replace (length (encoders b) + 0 - length (encoders b))%nat with 0%nat by lia.
    reflexivity.
Qed.

(** X4.  A write that fails adds no encoder and moves no last-write time.
    When every encoder of the bucket was last written after the timestamp,
    the write needs an encoder of its own; if encoding into it fails, that
    encoder is closed and the bucket is exactly as before. *)
Theorem write_failure_keeps_bucket
    (bs : Duration) (b : BufferBucket) (ts : Time) (v : Value) (m : Meta)
    (log : Log) (err : error) (b' : BufferBucket) (log' : Log)
    (Hw : write bs b ts v m log = (inl err, b', log')) :
  lastWriteAt <$> encoders b' = lastWriteAt <$> encoders b
  /\ bootstrapped b' = bootstrapped b /\ version b' = version b
  /\ writeType b' = writeType b /\ start b' = start b
  /\ (Forall (fun e => ts < lastWriteAt e) (encoders b) ->
      b' = b
      /\ exists enc' code,
           Encode (encoderGet (Truncate ts bs))
                  {| Timestamp := ts; DValue := v |} m = (enc', Some code)
           /\ err = ExternalError code
           /\ log' = log ++ [ClosedEncoder enc']).
Proof.
  destruct (write_kind _ _ _ _ _ _ _ _ _ Hw) as (Hv & Hwt & Hst & Hbo).
  split.
  { destruct (findEncoder ts v (encoders b) 0) as [c | | i |] eqn:Hf.
    - revert Hw. unfold write. rewrite Hf.
      intros H; inversion H; subst; reflexivity.
    - revert Hw. unfold write. rewrite Hf. intros H; inversion H.
    - revert Hw. unfold write, writeToEncoderIndex. rewrite Hf.
      destruct (encoders b !! i) as [e |] eqn:He; [| intros H; inversion H].
      destruct (Encode (encoder e) _ m) as [enc' [c |]]; [| intros H; inversion H].
      intros H; inversion H; subst. simpl.
      rewrite list_fmap_insert. apply list_insert_id.
      rewrite list_lookup_fmap, He. reflexivity.
    - rewrite (write_fresh_encoder _ _ _ _ _ _ Hf) in Hw.
      destruct (Encode _ _ _) as [enc [c |]]; inversion Hw; subst. reflexivity. }
  split; [exact Hbo |]. split; [exact Hv |]. split; [exact Hwt |].
  split; [exact Hst |].
  intros HF. pose proof (findEncoder_later ts v _ 0%nat HF) as Hf.
  rewrite (write_fresh_encoder _ _ _ _ _ _ Hf) in Hw.
  destruct (Encode _ _ _) as [enc [c |]]; inversion Hw; subst.
  split; [reflexivity |]. exists enc, c. auto.
Qed.

End Facts.

(** Encoders that take no datapoint. *)
#[local] Instance fullEncoders : Externals := {|
  Value := Z;
  value_eq := Z.eqb;
  Meta := unit;
  Encoder := nat;
  Block := unit;
  SegmentReader := unit;
  Segment := unit;
  encoderGet := fun _ => 0%nat;
  Encode := fun e _ _ => (S e, Some 1);
  EncStream := fun _ => None;
  EncLen := fun _ => 0;
  LastEncoded := fun _ => inl 2;
  BlockLen := fun _ => 0;
  BlockStartTime := fun _ => 0;
  BlockStream := fun _ => inl 3;
  IsNotEmpty := fun _ => false;
  asSegmentReader := fun _ => tt;
  iterate := fun _ _ _ => ([], None);
  SegmentOf := fun _ => inl 4;
  SegmentLen := fun _ => 0
|}.

(** A cold bucket whose only encoder was last written at 00:00:20. *)
Definition writtenLater : BufferBucket :=
  {| start := 0; encoders := [ {| encoder := 5%nat; lastWriteAt := 20 |} ];
     bootstrapped := []; version := 0; writeType := ColdWrite |}.

(** A write at 00:00:10 needs an encoder of its own, which refuses the
    datapoint: the bucket stays as it is and the encoder is closed. *)
Lemma write_failure_keeps_bucket_witness :
  write 3600 writtenLater 10 7 tt []
  = (inl (ExternalError 1), writtenLater, [ClosedEncoder 1%nat])
  /\ lastWriteAt <$> encoders writtenLater = [20].
Proof.
  assert (Hw : write 3600 writtenLater 10 7 tt []
               = (inl (ExternalError 1), writtenLater, [ClosedEncoder 1%nat]))
    by (vm_compute; reflexivity).
  split; [exact Hw |].
  exact (proj1 (write_failure_keeps_bucket 3600 writtenLater 10 7 tt []
                  (ExternalError 1) writtenLater [ClosedEncoder 1%nat] Hw)).
Defined.

End EncoderFacts.

(** ** One writable bucket for each write type *)
Module VersionFacts.
Import Clock Buffer.
Local Open Scope Z_scope.

Section Facts.
Context `{Ext : Externals}.

Definition writableCount (wt : WriteType) (bs : list BufferBucket) : nat :=
  length (filter (isWritable wt) bs).

(** Among the buckets there is at most one writable bucket of each write
    type. *)
Definition oneWritable (bs : list BufferBucket) : Prop :=
  forall wt, (writableCount wt bs <= 1)%nat.

(** Every bucket versions object of the buffer, in use or pooled, has at
    most one writable bucket of each write type. *)
Definition writableOnce (b : dbBuffer) : Prop :=
  forall p bv, objects b !! p = Some bv -> oneWritable (buckets bv).

Definition sameKind (b b' : BufferBucket) : Prop :=
  version b' = version b /\ writeType b' = writeType b.

Lemma sameKind_count wt bs bs' :
  Forall2 sameKind bs bs' -> writableCount wt bs' = writableCount wt bs.
Proof.
  unfold writableCount.
  induction 1 as [|b b' bs bs' [Hv Hw] _ IH]; [reflexivity |].
  rewrite !filter_cons.
  assert (Hiff : isWritable wt b' <-> isWritable wt b)
    by (unfold isWritable; rewrite Hv, Hw; tauto).
  destruct (decide (isWritable wt b')), (decide (isWritable wt b));
    simpl; try tauto; lia.
Qed.

Lemma oneWritable_sameKind bs bs' :
  Forall2 sameKind bs bs' -> oneWritable bs -> oneWritable bs'.
Proof. intros HF H wt. rewrite (sameKind_count wt _ _ HF). apply H. Qed.

Lemma sameKind_refl bs : Forall2 sameKind bs bs.
Proof. apply Forall2_same_length_lookup. split; [reflexivity |].
  intros i x y Hx Hy. replace y with x by congruence. split; reflexivity. Qed.

Lemma sameKind_insert bs i b b' :
  bs !! i = Some b -> sameKind b b' -> Forall2 sameKind bs (<[i := b']> bs).
Proof.
  intros Hi Hk. apply Forall2_same_length_lookup.
  split; [rewrite length_insert; reflexivity |].
  intros j x y Hx Hy. destruct (decide (i = j)) as [<- | Hne].
  - rewrite list_lookup_insert_eq in Hy by (eapply lookup_lt_Some; eauto).
    replace y with b' by congruence. replace x with b by congruence. exact Hk.
  - rewrite list_lookup_insert_ne in Hy by exact Hne.
    replace y with x by congruence. split; reflexivity.
Qed.

Lemma count_filter wt (P : BufferBucket -> Prop) `{!forall x, Decision (P x)} bs :
  (writableCount wt (filter P bs) <= writableCount wt bs)%nat.
Proof.
  unfold writableCount. induction bs as [|b bs IH]; [reflexivity |].
  rewrite !filter_cons.
  destruct (decide (P b)); [rewrite filter_cons |];
    destruct (decide (isWritable wt b)); simpl; lia.
Qed.

Lemma count_insert_le wt bs : forall i b b',
  bs !! i = Some b -> (isWritable wt b' -> isWritable wt b) ->
  (writableCount wt (<[i := b']> bs) <= writableCount wt bs)%nat.
Proof.
  unfold writableCount.
  induction bs as [|x bs IH]; intros i b b' Hi Himp; [discriminate |].
  destruct i as [|i]; simpl in *.
  - inversion Hi; subst. rewrite !filter_cons.
    destruct (decide (isWritable wt b')), (decide (isWritable wt b));
      simpl; try tauto; lia.
  - rewrite !filter_cons. specialize (IH _ _ _ Hi Himp).
    destruct (decide (isWritable wt x)); simpl; lia.
Qed.

Lemma count_none wt bs :
  list_find (isWritable wt) bs = None -> writableCount wt bs = 0%nat.
Proof.
  intros H. apply list_find_None in H. unfold writableCount.
  induction H as [|b bs Hb _ IH]; [reflexivity |].
  rewrite filter_cons. destruct (decide (isWritable wt b)); [tauto | exact IH].
Qed.

Lemma count_app wt bs bs' :
  writableCount wt (bs ++ bs') = (writableCount wt bs + writableCount wt bs')%nat.
Proof. unfold writableCount. rewrite filter_app, length_app. reflexivity. Qed.

Lemma oneWritable_nil : oneWritable [].
Proof. intros wt. unfold writableCount. simpl. lia. Qed.

(** [writableBucketCreate] returns the position of a writable bucket of
    the write type and adds at most that bucket. *)
Lemma oneWritable_create wt bv i bv' :
  writableBucketCreate wt bv = (i, bv') ->
  oneWritable (buckets bv) ->
  oneWritable (buckets bv')
  /\ exists b, buckets bv' !! i = Some b /\ isWritable wt b.
Proof.
  unfold writableBucketCreate, writableBucket.
  destruct (list_find (isWritable wt) (buckets bv)) as [[j bk] |] eqn:Hf.
  - intros H Ho. inversion H; subst. split; [exact Ho |].
    apply list_find_Some in Hf as (Hj & Hw & _). eauto.
  - intros H Ho. inversion H; subst. simpl. split.
    + intros wt'. rewrite count_app.
      destruct (decide (wt' = wt)) as [-> | Hne].
      * rewrite (count_none _ _ Hf). unfold writableCount. simpl.
        rewrite filter_cons. destruct (decide _); simpl; lia.
      * specialize (Ho wt'). unfold writableCount at 2. rewrite filter_cons.
        destruct (decide (isWritable wt' (newBucket (bv_start bv) wt))) as [[_ Hw] | _];
          [simpl in Hw; congruence |].
        simpl. lia.
    + exists (newBucket (bv_start bv) wt).
      split; [| split; reflexivity].
      rewrite lookup_app_r by lia. rewrite Nat.sub_diag. reflexivity.
Qed.

Lemma oneWritable_write bs bv ts v m wt log r bv' log' :
  bv_write bs bv ts v m wt log = (r, bv', log') ->
  oneWritable (buckets bv) ->
  oneWritable (buckets bv')
  /\ exists i b, buckets bv' !! i = Some b /\ isWritable wt b.
Proof.
  unfold bv_write.
  destruct (writableBucketCreate wt bv) as [i bv1] eqn:Hc.
  intros H Ho.
  destruct (oneWritable_create _ _ _ _ Hc Ho) as (Ho1 & bk & Hi & Hw).
  rewrite Hi in H.
  destruct (write bs bk ts v m log) as [[r0 b'] log0] eqn:Hwr.
  inversion H; subst; clear H. simpl.
  apply EncoderFacts.write_kind in Hwr.
  split.
  - eapply oneWritable_sameKind; [| exact Ho1].
    eapply sameKind_insert; [exact Hi |]. split; tauto.
  - exists i, b'. split.
    + apply list_lookup_insert_eq. eapply lookup_lt_Some; exact Hi.
    + destruct Hw as [Hv Ht]. destruct Hwr as (Hv' & Ht' & _).
      split; congruence.
Qed.

Lemma oneWritable_bootstrap bv bl :
  oneWritable (buckets bv) -> oneWritable (buckets (bv_bootstrap bv bl)).
Proof.
  unfold bv_bootstrap.
  destruct (writableBucketCreate BootstrapWriteType bv) as [i bv1] eqn:Hc.
  intros Ho. destruct (oneWritable_create _ _ _ _ Hc Ho) as (Ho1 & bk & Hi & Hw).
  rewrite Hi. simpl.
  eapply oneWritable_sameKind; [| exact Ho1].
  eapply sameKind_insert; [exact Hi |]. split; reflexivity.
Qed.

Lemma merge_kind bs b log r b' log' :
  merge bs b log = (r, b', log') -> sameKind b b'.
Proof.
  unfold merge. destruct (negb (needsMerge b)).
  { intros H; inversion H; subst. split; reflexivity. }
  destruct (mergeStreamsToEncoder _ _ _ _) as [[e | [enc lw]] log1];
    intros H; inversion H; subst; split; reflexivity.
Qed.

Lemma bv_mergeLoop_kind bs wt l : forall res log r l' log',
  bv_mergeLoop bs wt l res log = (r, l', log') -> Forall2 sameKind l l'.
Proof.
  induction l as [|b l IH]; intros res log r l' log'; simpl.
  { intros H; inversion H; subst. constructor. }
  destruct (bool_decide _ && bool_decide _).
  - destruct (merge bs b log) as [[[e | n] b1] log1] eqn:Hm;
      apply merge_kind in Hm.
    + intros H; inversion H; subst. constructor; [exact Hm | apply sameKind_refl].
    + destruct (bv_mergeLoop bs wt l (res + n) log1) as [[r2 l2] log2] eqn:Hl.
      intros H; inversion H; subst. constructor; [exact Hm | eapply IH; exact Hl].
  - destruct (bv_mergeLoop bs wt l res log) as [[r2 l2] log2] eqn:Hl.
    intros H; inversion H; subst.
    constructor; [split; reflexivity | eapply IH; exact Hl].
Qed.

Lemma oneWritable_merge bs wt bv log r bv' log' :
  bv_merge bs wt bv log = (r, bv', log') ->
  oneWritable (buckets bv) -> oneWritable (buckets bv').
Proof.
  unfold bv_merge.
  destruct (bv_mergeLoop bs wt (buckets bv) 0 log) as [[r1 l1] log1] eqn:Hl.
  intros H Ho. inversion H; subst. simpl.
  eapply oneWritable_sameKind; [eapply bv_mergeLoop_kind; exact Hl | exact Ho].
Qed.

Lemma oneWritable_remove wt v bv :
  oneWritable (buckets bv) -> oneWritable (buckets (removeBucketsUpToVersion wt v bv)).
Proof.
  intros Ho wt'. unfold removeBucketsUpToVersion. simpl.
  etransitivity; [apply count_filter | apply Ho].
Qed.

Lemma keptBy_sameKind opts bs bs' :
  Forall2 (FlushFacts.keptBy opts) bs bs' -> Forall2 sameKind bs bs'.
Proof.
  intros HF. eapply Forall2_impl; [exact HF |].
  intros b b' (Hv & Hw & _). split; assumption.
Qed.

Lemma oneWritable_setVersionAt wt bv i bk v :
  writableBucket wt bv = Some (i, bk) ->
  oneWritable (buckets bv) -> oneWritable (buckets (setVersionAt bv i v)).
Proof.
  unfold writableBucket. intros Hf Ho.
  apply list_find_Some in Hf as (Hi & Hw & _).
  unfold setVersionAt. rewrite Hi. simpl. intros wt'.
  etransitivity; [| apply (Ho wt')].
  eapply count_insert_le; [exact Hi |].
  intros [_ Ht]. simpl in Ht. destruct Hw as [Hv Hwt]. split; congruence.
Qed.

(** *** The buffer *)

Lemma writableOnce_setObject b p bv log :
  writableOnce b -> oneWritable (buckets bv) -> writableOnce (setObject b p bv log).
Proof.
  intros Hb Ho q bv'. simpl. destruct (decide (p = q)) as [-> | Hne].
  - rewrite lookup_insert_eq. intros H; inversion H; subst. exact Ho.
  - rewrite lookup_insert_ne by exact Hne. apply Hb.
Qed.

Lemma writableOnce_create b t p b1 :
  bucketVersionsAtCreate b t = (p, b1) -> writableOnce b -> writableOnce b1.
Proof.
  unfold bucketVersionsAtCreate.
  destruct (bucketVersionsAt b t) as [q |].
  { intros H; inversion H; subst. auto. }
  destruct (poolGet b) as [[q pool'] next'].
  intros H Hb; inversion H; subst. intros r bv. simpl.
  destruct (decide (p = r)) as [-> | Hne].
  - rewrite lookup_insert_eq. intros H'; inversion H'; subst. apply oneWritable_nil.
  - rewrite lookup_insert_ne by exact Hne. apply Hb.
Qed.

Lemma writableOnce_removeAt b t :
  writableOnce b -> writableOnce (removeBucketVersionsAt b t).
Proof.
  intros Hb. unfold removeBucketVersionsAt.
  destruct (bucketVersionsAt b t) as [p |]; [| exact Hb].
  intros r bv. simpl. destruct (decide (p = r)) as [-> | Hne].
  - rewrite lookup_insert_eq. intros H'; inversion H'; subst. apply oneWritable_nil.
  - rewrite lookup_insert_ne by exact Hne. apply Hb.
Qed.

Lemma writableOnce_Write b now ts v m wOpts :
  writableOnce b -> writableOnce (Write b now ts v m wOpts).2.
Proof.
  intros Hb. unfold Write.
  destruct (writeTypeAt (cfg b) now ts) as [e | wt]; [exact Hb |].
  destruct (if decide (wt = ColdWrite) then _ else _); [exact Hb |].
  unfold writeTo.
  destruct (bucketVersionsAtCreate b _) as [p b1] eqn:Hcr.
  pose proof (writableOnce_create _ _ _ _ Hcr Hb) as Hb1.
  simpl. destruct (objects b1 !! p) as [bv |] eqn:Hbv; [| exact Hb1].
  destruct (bv_write _ _ _ _ _ _ _) as [[r bv'] log'] eqn:Hw. simpl.
  apply writableOnce_setObject; [exact Hb1 |].
  eapply oneWritable_write; [exact Hw | eapply Hb1; exact Hbv].
Qed.

Lemma writableOnce_Bootstrap b bl : writableOnce b -> writableOnce (Bootstrap b bl).
Proof.
  intros Hb. unfold Bootstrap.
  destruct (bucketVersionsAtCreate b _) as [p b1] eqn:Hcr.
  pose proof (writableOnce_create _ _ _ _ Hcr Hb) as Hb1.
  destruct (objects b1 !! p) as [bv |] eqn:Hbv; [| exact Hb1].
  apply writableOnce_setObject; [exact Hb1 |].
  apply oneWritable_bootstrap. eapply Hb1; exact Hbv.
Qed.

Lemma writableOnce_tickEntry blockStates st t :
  writableOnce st.1 -> writableOnce (tickEntry blockStates st t).1.
Proof.
  destruct st as [b res]. simpl. intros Hb.
  destruct (bucketsMap b !! t) as [p |] eqn:Hp; [| exact Hb].
  destruct (objects b !! p) as [bv |] eqn:Hbv; [| exact Hb].
  set (blockState := default _ (blockStates !! t)).
  set (flushed := WarmRetrievable blockState || (0 <? ColdVersion blockState)).
  set (bv1 := if flushed && WarmRetrievable blockState
              then removeBucketsUpToVersion WarmWrite 1 bv else bv).
  set (bv2 := if flushed && (0 <? ColdVersion blockState)
              then removeBucketsUpToVersion ColdWrite (ColdVersion blockState) bv1
              else bv1).
  assert (Ho1 : oneWritable (buckets bv1)).
  { unfold bv1. destruct (flushed && WarmRetrievable _);
      [apply oneWritable_remove |]; eapply Hb; exact Hbv. }
  assert (Ho2 : oneWritable (buckets bv2)).
  { unfold bv2. destruct (flushed && (0 <? _)); [apply oneWritable_remove |]; exact Ho1. }
  assert (Hb1 : writableOnce (setObject b p bv2 (closedLog b)))
    by (apply writableOnce_setObject; assumption).
  destruct (flushed && (bv_streamsLen bv2 =? 0)).
  - simpl. apply writableOnce_removeAt. exact Hb1.
  - destruct (bv_merge _ _ _ _) as [[r bv3] log'] eqn:Hm.
    apply oneWritable_merge in Hm; [| exact Ho2].
    assert (Hb2 : writableOnce (setObject (setObject b p bv2 (closedLog b)) p bv3 log'))
      by (apply writableOnce_setObject; assumption).
    destruct r; simpl; exact Hb2.
Qed.

Lemma writableOnce_Tick b blockStates order :
  writableOnce b -> writableOnce (Tick b blockStates order).1.
Proof.
  intros Hb. unfold Tick.
  set (st := (b, _)). assert (Hst : writableOnce st.1) by exact Hb.
  clearbody st. revert st Hst.
  induction order as [|t order IH]; intros st Hst; simpl; [exact Hst |].
  apply IH. apply writableOnce_tickEntry. exact Hst.
Qed.

Lemma writableOnce_Snapshot b blockStart persistFn :
  writableOnce b -> writableOnce (Snapshot b blockStart persistFn).2.
Proof.
  intros Hb. unfold Snapshot.
  destruct (bucketVersionsAt b blockStart) as [p |]; [| exact Hb].
  destruct (objects b !! p) as [bv |] eqn:Hbv; [| exact Hb].
  destruct (snapshotStream _ _ _ _) as [[r bv'] log'] eqn:Hs.
  apply FlushFacts.snapshotStream_frame in Hs as [_ Hs].
  assert (Hb1 : writableOnce (setObject b p bv' log')).
  { apply writableOnce_setObject; [exact Hb |].
    eapply oneWritable_sameKind; [eapply keptBy_sameKind; exact Hs |].
    eapply Hb; exact Hbv. }
  destruct r as [e | [s |]]; simpl; try exact Hb1.
  destruct (persistSegment persistFn s); exact Hb1.
Qed.

Lemma writableOnce_WarmFlush b blockStart persistFn :
  writableOnce b -> writableOnce (WarmFlush b blockStart persistFn).2.
Proof.
  intros Hb. unfold WarmFlush.
  destruct (bucketVersionsAt b blockStart) as [p |]; [| exact Hb].
  destruct (objects b !! p) as [bv |] eqn:Hbv; [| exact Hb].
  destruct (warmFlushStream _ _ _ _) as [[r bv'] log'] eqn:Hs.
  apply FlushFacts.warmFlushStream_frame in Hs as [_ Hs].
  assert (Ho : oneWritable (buckets bv')).
  { eapply oneWritable_sameKind; [eapply keptBy_sameKind; exact Hs |].
    eapply Hb; exact Hbv. }
  assert (Hb1 : writableOnce (setObject b p bv' log'))
    by (apply writableOnce_setObject; assumption).
  destruct r as [e | [s |]]; simpl; try exact Hb1.
  destruct (persistSegment persistFn s) as [e | [|]]; try exact Hb1.
  destruct (writableBucket WarmWrite bv') as [[i bk] |] eqn:Hwb; simpl; [| exact Hb1].
  apply writableOnce_setObject; [exact Hb |].
  eapply oneWritable_setVersionAt; [exact Hwb | exact Ho].
Qed.

Lemma writableOnce_FetchBlocksForColdFlush b st v :
  writableOnce b -> writableOnce (FetchBlocksForColdFlush b st v).2.
Proof.
  intros Hb. unfold FetchBlocksForColdFlush.
  destruct (fetchBlocks b [st] (onlyType ColdWrite)) as [|res0 [|res1 rest]];
    [exact Hb | | exact Hb].
  destruct (bucketVersionsAt b st) as [p |]; [| exact Hb].
  destruct (objects b !! p) as [bv |] eqn:Hbv; [| exact Hb].
  destruct (writableBucket ColdWrite bv) as [[i bk] |] eqn:Hwb; simpl; [| exact Hb].
  apply writableOnce_setObject; [exact Hb |].
  eapply oneWritable_setVersionAt; [exact Hwb | eapply Hb; exact Hbv].
Qed.

Lemma writableOnce_readEncodedLoop starts : forall b now start end_ res,
  writableOnce b -> writableOnce (readEncodedLoop b now start end_ starts res).2.
Proof.
  induction starts as [|t starts IH]; intros b now start end_ res Hb; simpl;
    [exact Hb |].
  destruct (negb _ || negb _); [apply IH; exact Hb |].
  destruct (bucketVersionsAt b t) as [p |]; [| exact Hb].
  destruct (objects b !! p) as [bv |] eqn:Hbv; [| exact Hb].
  apply IH. apply writableOnce_setObject; [exact Hb |].
  simpl. eapply Hb; exact Hbv.
Qed.

(** X5.  A block never has two writable buckets of the same write type:
    this holds for a new buffer and every operation of the buffer keeps it,
    for each of its bucket versions.  On such a buffer the writable bucket
    that [writableBucket] finds for a write type is the only writable one of
    that type. *)
Theorem one_writable_bucket_per_write_type :
  (forall c, writableOnce (newDatabaseBuffer c))
  /\ (forall b,
        writableOnce b ->
        (forall now ts v m wOpts, writableOnce (Write b now ts v m wOpts).2)
        /\ (forall bl, writableOnce (Bootstrap b bl))
        /\ (forall blockStates order, writableOnce (Tick b blockStates order).1)
        /\ (forall t persistFn, writableOnce (Snapshot b t persistFn).2)
        /\ (forall t persistFn, writableOnce (WarmFlush b t persistFn).2)
        /\ (forall t v, writableOnce (FetchBlocksForColdFlush b t v).2)
        /\ (forall now start end_, writableOnce (ReadEncoded b now start end_).2)
        /\ (forall c, writableOnce (Reset b c))
        /\ (forall p bv wt i j bi bj,
              objects b !! p = Some bv ->
              buckets bv !! i = Some bi -> buckets bv !! j = Some bj ->
              isWritable wt bi -> isWritable wt bj -> i = j)).
Proof.
  split.
  { intros c p bv. simpl. rewrite lookup_empty. discriminate. }
  intros b Hb.
  split; [intros; apply writableOnce_Write; exact Hb |].
  split; [intros; apply writableOnce_Bootstrap; exact Hb |].
  split; [intros; apply writableOnce_Tick; exact Hb |].
  split; [intros; apply writableOnce_Snapshot; exact Hb |].
  split; [intros; apply writableOnce_WarmFlush; exact Hb |].
  split; [intros; apply writableOnce_FetchBlocksForColdFlush; exact Hb |].
  split; [intros; apply writableOnce_readEncodedLoop; exact Hb |].
  split; [intros c; exact Hb |].
  intros p bv wt i j bi bj Hbv Hi Hj Hwi Hwj.
  specialize (Hb p bv Hbv wt). unfold writableCount in Hb.
  destruct (decide (i = j)) as [| Hne]; [assumption | exfalso].
  assert (Hgen : forall (l : list BufferBucket) i j bi bj,
             (i < j)%nat -> l !! i = Some bi -> l !! j = Some bj ->
             isWritable wt bi -> isWritable wt bj ->
             (2 <= length (filter (isWritable wt) l))%nat).
  { clear. intros l i j bi bj Hlt Hi Hj Hwi Hwj.
    rewrite <- (take_drop (S i) l), filter_app, length_app.
    assert (H1 : bi ∈ filter (isWritable wt) (take (S i) l)).
    { apply list_elem_of_filter. split; [exact Hwi |].
      apply list_elem_of_lookup. exists i.
      rewrite lookup_take_lt by lia. exact Hi. }
    assert (H2 : bj ∈ filter (isWritable wt) (drop (S i) l)).
    { apply list_elem_of_filter. split; [exact Hwj |].
      apply list_elem_of_lookup. exists (j - S i)%nat.
      rewrite lookup_drop. replace (S i + (j - S i))%nat with j by lia. exact Hj. }
    destruct (filter (isWritable wt) (take (S i) l)); [inversion H1 |].
    destruct (filter (isWritable wt) (drop (S i) l)); [inversion H2 |].
    simpl. lia. }
  destruct (Nat.lt_total i j) as [Hlt | [Heq | Hgt]]; [| tauto |].
  - pose proof (Hgen _ _ _ _ _ Hlt Hi Hj Hwi Hwj). lia.
  - pose proof (Hgen _ _ _ _ _ Hgt Hj Hi Hwj Hwi). lia.
Qed.

End Facts.
End VersionFacts.

(** ** Ticks, reads and block metadata *)
Module BufferFacts.
Import Clock Buffer.
Local Open Scope Z_scope.

Section Facts.
Context `{Ext : Externals}.

(** The block state of [t] says that the block was flushed: it is warm
    retrievable or has a cold version. *)
Definition flushedAt (blockStates : gmap Z BlockState) (t : Z) : Prop :=
  let blockState :=
    default {| WarmRetrievable := false; ColdVersion := 0 |} (blockStates !! t) in
  WarmRetrievable blockState = true \/ 0 < ColdVersion blockState.

Lemma removeBucketVersionsAt_map b t p :
  bucketsMap b !! t = Some p ->
  bucketsMap (removeBucketVersionsAt b t) = delete t (bucketsMap b).
Proof.
  intros Hp. unfold removeBucketVersionsAt, bucketVersionsAt.
  destruct (cacheFind _ _ _); [reflexivity |]. rewrite Hp. reflexivity.
Qed.

Lemma tickEntry_map blockStates b res t b' res' :
  tickEntry blockStates (b, res) t = (b', res') ->
  (bucketsMap b' = bucketsMap b /\ evictedBucketTimes res' = evictedBucketTimes res)
  \/ (is_Some (bucketsMap b !! t) /\ flushedAt blockStates t
      /\ bucketsMap b' = delete t (bucketsMap b)
      /\ evictedBucketTimes res' = evictedBucketTimes res ++ [t]).
Proof.
  unfold tickEntry.
  destruct (bucketsMap b !! t) as [p |] eqn:Hp;
    [| intros H; inversion H; subst; auto].
  destruct (objects b !! p) as [bv |] eqn:Hbv;
    [| intros H; inversion H; subst; auto].
  set (blockState := default _ (blockStates !! t)).
  set (flushed := WarmRetrievable blockState || (0 <? ColdVersion blockState)).
  set (bv1 := if flushed && WarmRetrievable blockState
              then removeBucketsUpToVersion WarmWrite 1 bv else bv).
  set (bv2 := if flushed && (0 <? ColdVersion blockState)
              then removeBucketsUpToVersion ColdWrite (ColdVersion blockState) bv1
              else bv1).
  destruct flushed eqn:Hfl; simpl andb.
  - destruct (bv_streamsLen bv2 =? 0).
    + intros H; inversion H; subst; clear H. right.
      split; [eauto |]. split.
      { unfold flushedAt. fold blockState. unfold flushed in Hfl.
        apply orb_true_iff in Hfl as [Hw | Hc]; [left; exact Hw |].
        right. apply Z.ltb_lt. exact Hc. }
      split; [| reflexivity].
      rewrite (removeBucketVersionsAt_map _ _ p) by (simpl; exact Hp). reflexivity.
    + destruct (bv_merge _ _ _ _) as [[r bv3] log'].
      destruct r; intros H; inversion H; subst; left; auto.
  - destruct (bv_merge _ _ _ _) as [[r bv3] log'].
    destruct r; intros H; inversion H; subst; left; auto.
Qed.

(** What the evicted block starts say about the map, along a run of the
    loop of [Tick] that started from the map [m0]. *)
Definition evictedFrom (blockStates : gmap Z BlockState) (m0 : gmap Z ptr)
    (st : dbBuffer * bufferTickResult) : Prop :=
  NoDup (evictedBucketTimes st.2)
  /\ (forall t, t ∈ evictedBucketTimes st.2 ->
                is_Some (m0 !! t) /\ flushedAt blockStates t)
  /\ (forall t, bucketsMap st.1 !! t
                = if decide (t ∈ evictedBucketTimes st.2) then None else m0 !! t).

Lemma evictedFrom_tickEntry blockStates m0 st t :
  evictedFrom blockStates m0 st ->
  evictedFrom blockStates m0 (tickEntry blockStates st t).
Proof.
  destruct st as [b res]. intros (Hnd & Hin & Hmap).
  destruct (tickEntry blockStates (b, res) t) as [b' res'] eqn:He.
  apply tickEntry_map in He as [[Hm Hr] | (Hsome & Hfl & Hm & Hr)];
    unfold evictedFrom; simpl in *.
  - rewrite Hm, Hr. auto.
  - rewrite Hm, Hr.
    assert (Hnot : t ∉ evictedBucketTimes res).
    { intros Ht. specialize (Hmap t). destruct (decide _); [| tauto].
      rewrite Hmap in Hsome. destruct Hsome; discriminate. }
    assert (H0 : is_Some (m0 !! t)).
    { specialize (Hmap t). destruct (decide _); [tauto |]. rewrite <- Hmap. exact Hsome. }
    split.
    { apply NoDup_app. split; [exact Hnd |]. split; [| apply NoDup_singleton].
      intros x Hx Hx'. apply list_elem_of_singleton in Hx'. subst. tauto. }
    split.
    { intros x Hx. apply elem_of_app in Hx as [Hx | Hx]; [auto |].
      apply list_elem_of_singleton in Hx. subst. auto. }
    intros x. destruct (decide (x = t)) as [-> | Hne].
    + rewrite lookup_delete_eq. destruct (decide _) as [| Hn]; [reflexivity |].
      exfalso. apply Hn. apply elem_of_app. right. apply list_elem_of_singleton. reflexivity.
    + rewrite lookup_delete_ne by congruence. rewrite Hmap.
      destruct (decide (x ∈ evictedBucketTimes res)) as [Hx | Hx];
        destruct (decide (x ∈ evictedBucketTimes res ++ [t])) as [Hy | Hy];
        try reflexivity.
      * exfalso. apply Hy. apply elem_of_app. auto.
      * exfalso. apply elem_of_app in Hy as [Hy | Hy]; [tauto |].
        apply list_elem_of_singleton in Hy. congruence.
Qed.

(** X6.  The block starts [Tick] reports as evicted are exactly the keys
    it has removed from [bucketsMap]; each is reported once, was a key of the
    map, and belongs to a block whose state says it was flushed (warm
    retrievable, or a cold version above zero).  Every other key keeps its
    bucket versions object. *)
Theorem Tick_evicts_flushed_blocks :
  forall (b : dbBuffer) (blockStates : gmap Z BlockState) (order : list Z),
    let res := (Tick b blockStates order).2 in
    let b' := (Tick b blockStates order).1 in
    NoDup (evictedBucketTimes res)
    /\ (forall t, t ∈ evictedBucketTimes res ->
                  is_Some (bucketsMap b !! t) /\ flushedAt blockStates t)
    /\ (forall t, bucketsMap b' !! t
                  = if decide (t ∈ evictedBucketTimes res) then None
                    else bucketsMap b !! t).
Proof.
  intros b blockStates order. unfold Tick.
  set (st := (b, _)).
  assert (Hst : evictedFrom blockStates (bucketsMap b) st).
  { unfold evictedFrom, st. simpl. split; [constructor |].
    split; [intros t Ht; inversion Ht |].
    intros t. destruct (decide (t ∈ [])) as [Ht |]; [inversion Ht | reflexivity]. }
  clearbody st. revert st Hst.
  induction order as [|t order IH]; intros st Hst; simpl; [exact Hst |].
  apply IH. apply evictedFrom_tickEntry. exact Hst.
Qed.

(** *** Reads *)

(** The block at [blockStart] overlaps the range from [start] to [end_]. *)
Definition overlapping (b : dbBuffer) (start end_ blockStart : Time) : bool :=
  Before blockStart end_ && Before start (Add blockStart (blockSize (cfg b))).

(** The streams of all buckets of the block at [t], when there are any. *)
Definition streamsAt (b : dbBuffer) (t : Time) : option (list BlockReader) :=
  match bucketVersionsAt b t with
  | None => None
  | Some p =>
      match objects b !! p with
      | None => None
      | Some bv =>
          match bv_streams (blockSize (cfg b)) noFilter bv with
          | [] => None
          | streams => Some streams
          end
      end
  end.

(** Two bucket versions objects that differ in the last-read time at
    most. *)
Definition sameBuckets (bv bv' : BufferBucketVersions) : Prop :=
  buckets bv' = buckets bv /\ bv_start bv' = bv_start bv.

(** [b'] is [b] up to the last-read times of its bucket versions. *)
Definition sameButLastRead (b b' : dbBuffer) : Prop :=
  cfg b' = cfg b /\ bucketsMap b' = bucketsMap b
  /\ bucketVersionsCache b' = bucketVersionsCache b
  /\ inOrderBlockStarts b' = inOrderBlockStarts b
  /\ bucketVersionsPool b' = bucketVersionsPool b /\ nextPtr b' = nextPtr b
  /\ closedLog b' = closedLog b /\ errorLog b' = errorLog b
  /\ forall p, option_Forall2 sameBuckets (objects b !! p) (objects b' !! p).

Lemma sameButLastRead_refl b : sameButLastRead b b.
Proof.
  repeat (split; [reflexivity |]). intros p.
  destruct (objects b !! p); constructor. split; reflexivity.
Qed.

Lemma sameButLastRead_trans b1 b2 b3 :
  sameButLastRead b1 b2 -> sameButLastRead b2 b3 -> sameButLastRead b1 b3.
Proof.
  intros (H1 & H2 & H3 & H4 & H5 & H6 & H7 & H8 & H9)
         (G1 & G2 & G3 & G4 & G5 & G6 & G7 & G8 & G9).
  repeat (split; [congruence |]). intros p.
  specialize (H9 p). specialize (G9 p).
  destruct H9 as [x y [Ha Hb] |]; inversion G9 as [y' z [Hc Hd] |]; subst;
    constructor. split; congruence.
Qed.

Lemma sameButLastRead_setLastRead b p bv now :
  objects b !! p = Some bv ->
  sameButLastRead b (setObject b p (setLastRead now bv) (closedLog b)).
Proof.
  intros Hbv. repeat (split; [reflexivity |]). intros q. simpl.
  destruct (decide (p = q)) as [<- | Hne].
  - rewrite lookup_insert_eq, Hbv. constructor. split; reflexivity.
  - rewrite lookup_insert_ne by exact Hne.
    destruct (objects b !! q); constructor. split; reflexivity.
Qed.

Lemma cacheFind_sameBuckets objs objs' t c :
  (forall p, option_Forall2 sameBuckets (objs !! p) (objs' !! p)) ->
  cacheFind objs' t c = cacheFind objs t c.
Proof.
  intros H. induction c as [|[p |] c IH]; simpl; [reflexivity | | exact IH].
  specialize (H p). destruct H as [bv bv' [_ Hs] |]; [| exact IH].
  rewrite Hs, IH. reflexivity.
Qed.

Lemma bucketVersionsAt_sameButLastRead b b' t :
  sameButLastRead b b' -> bucketVersionsAt b' t = bucketVersionsAt b t.
Proof.
  intros (_ & Hm & Hc & _ & _ & _ & _ & _ & Ho). unfold bucketVersionsAt.
  rewrite Hm, Hc, (cacheFind_sameBuckets (objects b) (objects b')); auto.
Qed.

Lemma streamsAt_sameButLastRead b b' t :
  sameButLastRead b b' -> streamsAt b' t = streamsAt b t.
Proof.
  intros H. unfold streamsAt. rewrite (bucketVersionsAt_sameButLastRead _ _ _ H).
  destruct H as (Hcfg & _ & _ & _ & _ & _ & _ & _ & Ho).
  destruct (bucketVersionsAt b t) as [p |]; [| reflexivity].
  specialize (Ho p). destruct Ho as [bv bv' [Hb _] |]; [| reflexivity].
  unfold bv_streams. rewrite Hb, Hcfg. reflexivity.
Qed.

Lemma overlapping_sameButLastRead b b' start end_ t :
  sameButLastRead b b' -> overlapping b' start end_ t = overlapping b start end_ t.
Proof. intros (Hcfg & _). unfold overlapping. rewrite Hcfg. reflexivity. Qed.

Lemma readEncodedLoop_reads starts : forall b now start end_ res,
  sameButLastRead b (readEncodedLoop b now start end_ starts res).2
  /\ forall out,
       (readEncodedLoop b now start end_ starts res).1 = inr out ->
       out = res ++ omap (streamsAt b)
                         (filter (fun t => overlapping b start end_ t = true) starts).
Proof.
  induction starts as [|t starts IH]; intros b now start end_ res.
  { simpl. split; [apply sameButLastRead_refl |].
    intros out H. inversion H. rewrite app_nil_r. reflexivity. }
  assert (Hcond : negb (Before t end_)
                  || negb (Before start (Add t (blockSize (cfg b))))
                  = negb (overlapping b start end_ t))
    by (unfold overlapping; rewrite negb_andb; reflexivity).
  cbn [readEncodedLoop]. rewrite Hcond.
  destruct (overlapping b start end_ t) eqn:Hov; cbn [negb].
  2: { rewrite filter_cons_False by (rewrite Hov; discriminate). apply IH. }
  rewrite filter_cons_True by exact Hov.
  assert (Hom : forall l,
             omap (streamsAt b) (t :: l)
             = match streamsAt b t with
               | Some y => y :: omap (streamsAt b) l
               | None => omap (streamsAt b) l
               end) by reflexivity.
  rewrite Hom. clear Hom.
  destruct (bucketVersionsAt b t) as [p |] eqn:Hat.
  2: { split; [apply sameButLastRead_refl | intros out H; inversion H]. }
  destruct (objects b !! p) as [bv |] eqn:Hbv.
  2: { split; [apply sameButLastRead_refl | intros out H; inversion H]. }
  assert (Hst : streamsAt b t
                = match bv_streams (blockSize (cfg b)) noFilter bv with
                  | [] => None
                  | streams => Some streams
                  end)
    by (unfold streamsAt; rewrite Hat, Hbv; reflexivity).
  rewrite Hst. clear Hst.
  pose proof (sameButLastRead_setLastRead b p bv now Hbv) as Hsame.
  match goal with |- context [readEncodedLoop ?b1 _ _ _ _ ?r] =>
    destruct (IH b1 now start end_ r) as [Hs Hout] end.
  split; [eapply sameButLastRead_trans; [exact Hsame | exact Hs] |].
  intros out H. rewrite (Hout out H).
  rewrite (list_filter_iff _ (fun t => overlapping b start end_ t = true)).
  2: { intros x. rewrite (overlapping_sameButLastRead _ _ _ _ _ Hsame). reflexivity. }
  rewrite (list_omap_ext _ (streamsAt b) _
             (filter (fun t => overlapping b start end_ t = true) starts)).
  2: { apply Forall2_same_length_lookup. split; [reflexivity |].
       intros i x y Hx Hy. replace y with x by congruence.
       apply streamsAt_sameButLastRead. exact Hsame. }
  destruct (bv_streams (blockSize (cfg b)) noFilter bv) as [|s ss];
    [reflexivity |].
  rewrite <- app_assoc. reflexivity.
Qed.

(** X7.  [ReadEncoded] changes nothing of the buffer but last-read times:
    the map, the cache, the sorted list, the pool, the logs and the buckets
    of every bucket versions object are as before.  When it succeeds its
    result lists, for the block starts of the sorted list that overlap the
    range, in the order of that list, the streams of all buckets of the
    block as they were before the call, leaving out blocks without
    streams. *)
Theorem ReadEncoded_only_marks_reads :
  forall (b : dbBuffer) (now start end_ : Time),
    sameButLastRead b (ReadEncoded b now start end_).2
    /\ forall out,
         (ReadEncoded b now start end_).1 = inr out ->
         out = omap (streamsAt b)
                    (filter (fun t => overlapping b start end_ t = true)
                            (inOrderBlockStarts b)).
Proof.
  intros b now start end_. unfold ReadEncoded.
  destruct (readEncodedLoop_reads (inOrderBlockStarts b) b now start end_ [])
    as [Hs Hout].
  split; [exact Hs |]. intros out H. apply Hout in H. exact H.
Qed.

(** *** Block metadata *)

(** The metadata [FetchBlocksMetadata] reports for the bucket versions
    [bv]. *)
Definition metadataOf (opts : FetchBlocksMetadataOptions) (bv : BufferBucketVersions)
  : FetchBlockMetadataResult :=
  {| md_Start := bv_start bv;
     md_Size := if IncludeSizes opts then bv_streamsLen bv else 0;
     md_LastRead := if IncludeLastRead opts then lastRead bv else timeZero |}.

Definition metadataAt (b : dbBuffer) (opts : FetchBlocksMetadataOptions) (t : Time)
  : option FetchBlockMetadataResult :=
  match bucketsMap b !! t with
  | None => None
  | Some p =>
      match objects b !! p with
      | None => None
      | Some bv => if bv_streamsLen bv =? 0 then None else Some (metadataOf opts bv)
      end
  end.

Lemma fetchBlocksMetadataLoop_coherent b start end_ opts starts : forall res,
  CoherenceFacts.coherent b ->
  (forall t, t ∈ starts -> t ∈ inOrderBlockStarts b) ->
  fetchBlocksMetadataLoop b start end_ opts starts res
  = inr (res ++ omap (metadataAt b opts)
                     (filter (fun t => overlapping b start end_ t = true) starts)).
Proof.
  induction starts as [|t starts IH]; intros res Hc Hin.
  { simpl. rewrite app_nil_r. reflexivity. }
  assert (Hcond : negb (Before t end_)
                  || negb (Before start (Add t (blockSize (cfg b))))
                  = negb (overlapping b start end_ t))
    by (unfold overlapping; rewrite negb_andb; reflexivity).
  assert (Hin' : forall x, x ∈ starts -> x ∈ inOrderBlockStarts b)
    by (intros x Hx; apply Hin; right; exact Hx).
  cbn [fetchBlocksMetadataLoop]. rewrite Hcond.
  destruct (overlapping b start end_ t) eqn:Hov; cbn [negb].
  2: { rewrite filter_cons_False by (rewrite Hov; discriminate). apply IH; assumption. }
  rewrite filter_cons_True by exact Hov.
  assert (Hom : forall l,
             omap (metadataAt b opts) (t :: l)
             = match metadataAt b opts t with
               | Some y => y :: omap (metadataAt b opts) l
               | None => omap (metadataAt b opts) l
               end) by reflexivity.
  rewrite Hom. clear Hom.
  rewrite (CoherenceFacts.bucketVersionsAt_map _ _ Hc).
  assert (Ht : is_Some (bucketsMap b !! t)).
  { apply (CoherenceFacts.coh_keys _ Hc). apply Hin. left. }
  destruct Ht as [p Hp].
  destruct (CoherenceFacts.coh_objects _ Hc _ _ Hp) as (bv & Hbv & Hst).
  unfold metadataAt. rewrite Hp, Hbv.
  destruct (bv_streamsLen bv =? 0); [apply IH; assumption |].
  rewrite IH by assumption. rewrite <- app_assoc. reflexivity.
Qed.

Lemma sorted_filter (P : Z -> Prop) `{!forall x, Decision (P x)} (l : list Z) :
  StronglySorted Z.lt l -> StronglySorted Z.lt (filter P l).
Proof.
  induction l as [|x l IH]; intros Hs; [constructor |].
  apply StronglySorted_cons in Hs as [Hall Hs].
  rewrite filter_cons. destruct (decide (P x)); [| auto].
  apply StronglySorted_cons. split; [| auto].
  apply Forall_forall. intros y Hy. apply list_elem_of_filter in Hy as [_ Hy].
  rewrite Forall_forall in Hall. auto.
Qed.

Lemma sorted_omap {A} (f : Z -> option A) (g : A -> Z) (l : list Z) :
  (forall t r, f t = Some r -> g r = t) ->
  StronglySorted Z.lt l -> StronglySorted Z.lt (g <$> omap f l).
Proof.
  intros Hfg. induction l as [|x l IH]; intros Hs; [constructor |].
  apply StronglySorted_cons in Hs as [Hall Hs].
  assert (Hom : omap f (x :: l)
                = match f x with Some y => y :: omap f l | None => omap f l end)
    by reflexivity.
  rewrite Hom. destruct (f x) as [y |] eqn:Hy; [| auto].
  rewrite fmap_cons. apply StronglySorted_cons. split; [| auto].
  apply Forall_forall. intros z Hz.
  apply list_elem_of_fmap in Hz as (r & -> & Hr).
  apply list_elem_of_omap in Hr as (t & Ht & Hft).
  rewrite (Hfg _ _ Hy), (Hfg _ _ Hft).
  rewrite Forall_forall in Hall. auto.
Qed.

(** X8.  On a coherent buffer [FetchBlocksMetadata] does not fail; it
    reports the blocks in ascending order of their starts, and it reports
    exactly the blocks of the buffer that overlap the range and hold data,
    each with its size (zero unless sizes are asked for) and its last-read
    time (the zero time unless it is asked for). *)
Theorem FetchBlocksMetadata_in_block_order
    (b : dbBuffer) (start end_ : Time) (opts : FetchBlocksMetadataOptions)
    (Hc : CoherenceFacts.coherent b) :
  exists res,
    FetchBlocksMetadata b start end_ opts = inr res
    /\ StronglySorted Z.lt (md_Start <$> res)
    /\ forall r,
         r ∈ res <->
         exists p bv,
           bucketsMap b !! md_Start r = Some p /\ objects b !! p = Some bv
           /\ overlapping b start end_ (md_Start r) = true
           /\ bv_streamsLen bv <> 0
           /\ md_Size r = (if IncludeSizes opts then bv_streamsLen bv else 0)
           /\ md_LastRead r
              = (if IncludeLastRead opts then lastReadUnixNanos bv else timeZero).
Proof.
  unfold FetchBlocksMetadata.
  rewrite (fetchBlocksMetadataLoop_coherent _ _ _ _ _ [] Hc) by auto.
  eexists. split; [reflexivity |]. simpl.
  assert (Hat : forall t r,
             metadataAt b opts t = Some r ->
             md_Start r = t
             /\ exists p bv,
                  bucketsMap b !! t = Some p /\ objects b !! p = Some bv
                  /\ bv_streamsLen bv <> 0 /\ r = metadataOf opts bv).
  { intros t r. unfold metadataAt.
    destruct (bucketsMap b !! t) as [p |] eqn:Hp; [| discriminate].
    destruct (CoherenceFacts.coh_objects _ Hc _ _ Hp) as (bv & Hbv & Hst).
    rewrite Hbv. destruct (Z.eqb_spec (bv_streamsLen bv) 0) as [| Hne]; [discriminate |].
    intros H. inversion H; subst. split; [reflexivity |]. eauto 10. }
  split.
  { apply sorted_omap; [intros t r H; apply Hat; exact H |].
    apply sorted_filter. apply Hc. }
  intros r. rewrite list_elem_of_omap. split.
  - intros (t & Ht & Hm). apply list_elem_of_filter in Ht as [Hov Ht].
    destruct (Hat _ _ Hm) as (Hst & p & bv & Hp & Hbv & Hne & ->).
    exists p, bv. simpl in *. rewrite Hst. auto 10.
  - intros (p & bv & Hp & Hbv & Hov & Hne & Hsz & Hlr).
    exists (md_Start r). split.
    + apply list_elem_of_filter. split; [exact Hov |].
      apply (CoherenceFacts.coh_keys _ Hc). eauto.
    + unfold metadataAt. rewrite Hp, Hbv.
      destruct (Z.eqb_spec (bv_streamsLen bv) 0) as [| _]; [tauto |].
      f_equal. destruct (CoherenceFacts.coh_objects _ Hc _ _ Hp) as (bv' & Hbv' & Hst).
      replace bv' with bv in Hst by congruence.
      destruct r as [rs rz rl]. unfold metadataOf. simpl in *. subst. reflexivity.
Qed.

Lemma readEncodedLoop_keeps_mark starts : forall b now start end_ res p bv,
  objects b !! p = Some bv -> lastReadUnixNanos bv = wrap64 now ->
  exists bv', objects (readEncodedLoop b now start end_ starts res).2 !! p = Some bv'
              /\ lastReadUnixNanos bv' = wrap64 now.
Proof.
  induction starts as [|t starts IH]; intros b now start end_ res p bv Hbv Hl;
    cbn [readEncodedLoop]; [eauto |].
  destruct (negb _ || negb _); [eapply IH; eauto |].
  destruct (bucketVersionsAt b t) as [q |]; [| eauto].
  destruct (objects b !! q) as [bvq |] eqn:Hq; [| eauto].
  destruct (decide (q = p)) as [-> | Hne].
  - eapply IH; [simpl; apply lookup_insert_eq | reflexivity].
  - eapply IH; [simpl; rewrite lookup_insert_ne by exact Hne; exact Hbv | exact Hl].
Qed.

Lemma readEncodedLoop_marks starts : forall b now start end_ res out,
  (readEncodedLoop b now start end_ starts res).1 = inr out ->
  forall t, t ∈ starts -> overlapping b start end_ t = true ->
  exists p bv',
    bucketVersionsAt b t = Some p
    /\ objects (readEncodedLoop b now start end_ starts res).2 !! p = Some bv'
    /\ lastReadUnixNanos bv' = wrap64 now.
Proof.
  induction starts as [|t0 starts IH]; intros b now start end_ res out Hr t Ht Hov;
    [inversion Ht |].
  assert (Hcond : negb (Before t0 end_)
                  || negb (Before start (Add t0 (blockSize (cfg b))))
                  = negb (overlapping b start end_ t0))
    by (unfold overlapping; rewrite negb_andb; reflexivity).
  revert Hr. cbn [readEncodedLoop]. rewrite Hcond.
  destruct (overlapping b start end_ t0) eqn:Hov0; cbn [negb].
  2: { intros Hr. apply elem_of_cons in Ht as [-> | Ht]; [congruence |].
       eapply IH; eauto. }
  destruct (bucketVersionsAt b t0) as [p0 |] eqn:Hat; [| intros H; inversion H].
  destruct (objects b !! p0) as [bv0 |] eqn:Hbv0; [| intros H; inversion H].
  pose proof (sameButLastRead_setLastRead b p0 bv0 now Hbv0) as Hsame.
  intros Hr. apply elem_of_cons in Ht as [-> | Ht].
  - exists p0.
    match goal with |- context [readEncodedLoop ?b1 _ _ _ _ ?r] =>
      destruct (readEncodedLoop_keeps_mark starts b1 now start end_ r p0
                  (setLastRead now bv0)) as (bv' & Hbv' & Hl) end;
      [simpl; apply lookup_insert_eq | reflexivity |].
    exists bv'. auto.
  - rewrite <- (overlapping_sameButLastRead _ _ _ _ _ Hsame) in Hov.
    destruct (IH _ _ _ _ _ _ Hr t Ht Hov) as (p & bv' & Hp & Hbv' & Hl).
    rewrite (bucketVersionsAt_sameButLastRead _ _ _ Hsame) in Hp.
    exists p, bv'. auto.
Qed.

Lemma fetchBlocksMetadataLoop_lastRead b start end_ opts x starts : forall res out,
  IncludeLastRead opts = true ->
  (forall t p bv, t ∈ starts -> overlapping b start end_ t = true ->
                  bucketVersionsAt b t = Some p -> objects b !! p = Some bv ->
                  lastReadUnixNanos bv = x) ->
  Forall (fun r => md_LastRead r = x) res ->
  fetchBlocksMetadataLoop b start end_ opts starts res = inr out ->
  Forall (fun r => md_LastRead r = x) out.
Proof.
  induction starts as [|t starts IH]; intros res out Hopt Hall Hres;
    cbn [fetchBlocksMetadataLoop].
  { intros H; inversion H; subst. exact Hres. }
  assert (Hcond : negb (Before t end_)
                  || negb (Before start (Add t (blockSize (cfg b))))
                  = negb (overlapping b start end_ t))
    by (unfold overlapping; rewrite negb_andb; reflexivity).
  assert (Hall' : forall t' p bv, t' ∈ starts -> overlapping b start end_ t' = true ->
                    bucketVersionsAt b t' = Some p -> objects b !! p = Some bv ->
                    lastReadUnixNanos bv = x)
    by (intros t' p bv Ht'; apply Hall; right; exact Ht').
  rewrite Hcond.
  destruct (overlapping b start end_ t) eqn:Hov; cbn [negb]; [| apply IH; assumption].
  destruct (bucketVersionsAt b t) as [p |] eqn:Hat; [| intros H; inversion H].
  destruct (objects b !! p) as [bv |] eqn:Hbv; [| intros H; inversion H].
  destruct (bv_streamsLen bv =? 0); [apply IH; assumption |].
  apply IH; [assumption | assumption |].
  apply Forall_app. split; [exact Hres |]. constructor; [| constructor].
  simpl. rewrite Hopt. unfold lastRead. eapply Hall; eauto. left.
Qed.

(** X9.  After a successful [ReadEncoded] at time [now], the metadata of
    the same range, asked with last-read times, reports for every block the
    time of that read (as the int64 number of nanoseconds it is stored
    in). *)
Theorem ReadEncoded_sets_last_read
    (b : dbBuffer) (now start end_ : Time) (opts : FetchBlocksMetadataOptions)
    (out : list (list BlockReader)) (b' : dbBuffer)
    (res : list FetchBlockMetadataResult)
    (Hread : ReadEncoded b now start end_ = (inr out, b'))
    (Hopt : IncludeLastRead opts = true)
    (Hmeta : FetchBlocksMetadata b' start end_ opts = inr res) :
  Forall (fun r => md_LastRead r = wrap64 now) res.
Proof.
  unfold ReadEncoded in Hread. unfold FetchBlocksMetadata in Hmeta.
  pose proof (readEncodedLoop_reads (inOrderBlockStarts b) b now start end_ [])
    as [Hsame _].
  pose proof (readEncodedLoop_marks (inOrderBlockStarts b) b now start end_ [] out)
    as Hmarks.
  rewrite Hread in Hsame, Hmarks. simpl in Hsame, Hmarks.
  specialize (Hmarks eq_refl).
  assert (Hstarts : inOrderBlockStarts b' = inOrderBlockStarts b) by apply Hsame.
  rewrite Hstarts in Hmeta.
  eapply fetchBlocksMetadataLoop_lastRead; [exact Hopt | | constructor | exact Hmeta].
  intros t p bv Ht Hov Hat Hbv.
  rewrite (overlapping_sameButLastRead _ _ _ _ _ Hsame) in Hov.
  rewrite (bucketVersionsAt_sameButLastRead _ _ _ Hsame) in Hat.
  destruct (Hmarks t Ht Hov) as (q & bv' & Hq & Hbv' & Hl).
  congruence.
Qed.

(** *** Fetching blocks *)

Definition startsAscend (x y : FetchBlockResult) : Prop := fb_Start x <= fb_Start y.

Lemma insertByStart_elem r rs x : x ∈ insertByStart r rs <-> x = r \/ x ∈ rs.
Proof.
  induction rs as [|y rs IH]; simpl.
  - rewrite list_elem_of_singleton, elem_of_nil. tauto.
  - destruct (Before (fb_Start r) (fb_Start y)).
    + rewrite !elem_of_cons. tauto.
    + rewrite !elem_of_cons, IH. tauto.
Qed.

Lemma insertByStart_sorted r rs :
  StronglySorted startsAscend rs -> StronglySorted startsAscend (insertByStart r rs).
Proof.
  induction rs as [|y rs IH]; intros Hs; simpl.
  { repeat constructor. }
  apply StronglySorted_cons in Hs as [Hall Hs].
  destruct (Before (fb_Start r) (fb_Start y)) eqn:Hb; unfold Before in Hb.
  - apply Z.ltb_lt in Hb. apply StronglySorted_cons. split.
    + constructor; [unfold startsAscend; lia |].
      eapply Forall_impl; [exact Hall |]. unfold startsAscend. intros z Hz. lia.
    + apply StronglySorted_cons. auto.
  - apply Z.ltb_ge in Hb. apply StronglySorted_cons. split; [| auto].
    apply Forall_forall. intros z Hz. apply insertByStart_elem in Hz as [-> | Hz].
    + exact Hb.
    + rewrite Forall_forall in Hall. auto.
Qed.

Lemma insertByStart_length r rs : length (insertByStart r rs) = S (length rs).
Proof.
  induction rs as [|y rs IH]; simpl; [reflexivity |].
  destruct (Before _ _); simpl; [reflexivity | rewrite IH; reflexivity].
Qed.

(** X10.  [fetchBlocks] returns its results in ascending order of their
    starts, one for each requested start at which the selected buckets have
    streams, holding those streams; a requested start without bucket
    versions or without streams has no result. *)
Theorem fetchBlocks_sorted_by_start :
  forall (b : dbBuffer) (starts : list Time) (sOpts : streamsOptions),
    StronglySorted startsAscend (fetchBlocks b starts sOpts)
    /\ (length (fetchBlocks b starts sOpts) <= length starts)%nat
    /\ forall r,
         r ∈ fetchBlocks b starts sOpts <->
         fb_Start r ∈ starts /\ fb_Blocks r <> []
         /\ exists p bv,
              bucketVersionsAt b (fb_Start r) = Some p /\ objects b !! p = Some bv
              /\ fb_Blocks r = bv_streams (blockSize (cfg b)) sOpts bv.
Proof.
  intros b starts sOpts. unfold fetchBlocks.
  match goal with |- context [omap ?f starts] => set (blocksAt := f) end.
  assert (Hsort : forall l, StronglySorted startsAscend (foldr insertByStart [] l)).
  { induction l as [|x l IH]; simpl; [constructor | apply insertByStart_sorted, IH]. }
  assert (Helem : forall l r, r ∈ foldr insertByStart [] l <-> r ∈ l).
  { induction l as [|x l IH]; intros r; simpl; [reflexivity |].
    rewrite insertByStart_elem, elem_of_cons, IH. reflexivity. }
  assert (Hlen : forall l, length (foldr insertByStart [] l) = length l).
  { induction l as [|x l IH]; simpl; [reflexivity |].
    rewrite insertByStart_length, IH. reflexivity. }
  split; [apply Hsort |].
  split.
  { rewrite Hlen. clear. induction starts as [|x l IH]; [reflexivity |].
    assert (Hom : omap blocksAt (x :: l)
                  = match blocksAt x with
                    | Some y => y :: omap blocksAt l
                    | None => omap blocksAt l
                    end) by reflexivity.
    rewrite Hom. destruct (blocksAt x); simpl; lia. }
  intros r. rewrite Helem, list_elem_of_omap. unfold blocksAt. split.
  - intros (st & Hst & H).
    destruct (bucketVersionsAt b st) as [p |] eqn:Hat; [| discriminate].
    destruct (objects b !! p) as [bv |] eqn:Hbv; [| discriminate].
    destruct (bv_streams (blockSize (cfg b)) sOpts bv) as [|x xs] eqn:Hs;
      [discriminate |].
    inversion H; subst; clear H. simpl.
    split; [exact Hst |]. split; [discriminate |].
    exists p, bv. auto.
  - intros (Hst & Hne & p & bv & Hat & Hbv & Hs).
    exists (fb_Start r). split; [exact Hst |]. rewrite Hat, Hbv, <- Hs.
    destruct r as [rs [|x xs]]; simpl in *; [congruence | reflexivity].
Qed.

(** *** Cold flushes *)

(** The block at [t] holds a cold bucket that is due for a cold flush. *)
Definition coldFlushDue (b : dbBuffer) (blockStates : gmap Z BlockState) (t : Z)
  : Prop :=
  exists p bv bucket,
    bucketsMap b !! t = Some p /\ objects b !! p = Some bv
    /\ bucket ∈ buckets bv /\ writeType bucket = ColdWrite
    /\ (version bucket = writableBucketVersion
        \/ ColdVersion (default {| WarmRetrievable := false; ColdVersion := 0 |}
                                (blockStates !! start bucket))
           < version bucket).

Lemma needsColdFlush_spec blockStates bucket :
  needsColdFlush blockStates bucket = true <->
  writeType bucket = ColdWrite
  /\ (version bucket = writableBucketVersion
      \/ ColdVersion (default {| WarmRetrievable := false; ColdVersion := 0 |}
                              (blockStates !! start bucket))
         < version bucket).
Proof.
  unfold needsColdFlush.
  rewrite andb_true_iff, orb_true_iff, !bool_decide_eq_true, Z.ltb_lt. reflexivity.
Qed.

(** The test of [ColdFlushBlockStarts] on the block at [t]. *)
Definition coldDueAt (b : dbBuffer) (blockStates : gmap Z BlockState) (t : Z) : bool :=
  match bucketsMap b !! t with
  | None => false
  | Some p =>
      match objects b !! p with
      | None => false
      | Some bv => existsb (needsColdFlush blockStates) (buckets bv)
      end
  end.

Lemma coldDueAt_spec b blockStates t :
  coldDueAt b blockStates t = true <-> coldFlushDue b blockStates t.
Proof.
  unfold coldDueAt, coldFlushDue. split.
  - destruct (bucketsMap b !! t) as [p |]; [| discriminate].
    destruct (objects b !! p) as [bv |] eqn:Hbv; [| discriminate].
    intros H. apply existsb_exists in H as (bucket & Hin & Hn).
    apply needsColdFlush_spec in Hn. apply list_elem_of_In in Hin.
    exists p, bv, bucket. split; [reflexivity |]. split; [exact Hbv |]. tauto.
  - intros (p & bv & bucket & -> & -> & Hin & Hn).
    apply existsb_exists. exists bucket. split; [apply list_elem_of_In; exact Hin |].
    apply needsColdFlush_spec. exact Hn.
Qed.

Lemma ColdFlushBlockStarts_filter b blockStates order :
  ColdFlushBlockStarts b blockStates order
  = foldl OptimizedTimes.Add OptimizedTimes.zero
          (filter (fun t => coldDueAt b blockStates t = true) order).
Proof.
  unfold ColdFlushBlockStarts. generalize OptimizedTimes.zero.
  induction order as [|t order IH]; intros z; [reflexivity |].
  cbn [foldl]. rewrite IH.
  destruct (coldDueAt b blockStates t) eqn:Hd.
  - rewrite filter_cons_True by exact Hd. unfold coldDueAt in Hd.
    destruct (bucketsMap b !! t) as [p |]; [| discriminate].
    destruct (objects b !! p) as [bv |]; [| discriminate].
    rewrite Hd. reflexivity.
  - rewrite filter_cons_False by (rewrite Hd; discriminate). unfold coldDueAt in Hd.
    destruct (bucketsMap b !! t) as [p |]; [| reflexivity].
    destruct (objects b !! p) as [bv |]; [| reflexivity].
    rewrite Hd. reflexivity.
Qed.

Lemma ColdFlushBlockStarts_Contains b blockStates order t :
  OptimizedTimes.Contains (ColdFlushBlockStarts b blockStates order) t = true
  <-> t ∈ order /\ coldFlushDue b blockStates t.
Proof.
  rewrite ColdFlushBlockStarts_filter.
  pose proof (TimesFacts.held_foldl
                (filter (fun t => coldDueAt b blockStates t = true) order))
    as [_ Hheld].
  rewrite TimesFacts.Contains_held, Hheld, list_elem_of_filter.
  rewrite coldDueAt_spec. tauto.
Qed.

(** X11.  [ColdFlushBlockStarts] holds exactly the visited keys of
    [bucketsMap] whose block has a cold bucket that is writable or whose
    version is above the cold version recorded for the start of the bucket;
    it holds no more times than keys were visited. *)
Theorem ColdFlushBlockStarts_holds_due_blocks :
  forall (b : dbBuffer) (blockStates : gmap Z BlockState) (order : list Z),
    (forall t,
        OptimizedTimes.Contains (ColdFlushBlockStarts b blockStates order) t = true
        <-> t ∈ order /\ coldFlushDue b blockStates t)
    /\ (OptimizedTimes.Len (ColdFlushBlockStarts b blockStates order)
        <= length order)%nat.
Proof.
  intros b blockStates order.
  split; [intros t; apply ColdFlushBlockStarts_Contains |].
  rewrite ColdFlushBlockStarts_filter.
  pose proof (TimesFacts.held_foldl
                (filter (fun t => coldDueAt b blockStates t = true) order))
    as [Hfill Hheld].
  rewrite (TimesFacts.Len_held _ Hfill), Hheld. apply length_filter.
Qed.

Lemma writableBucketCreate_writable wt bv i bv' :
  writableBucketCreate wt bv = (i, bv') ->
  exists bk, buckets bv' !! i = Some bk /\ isWritable wt bk.
Proof.
  unfold writableBucketCreate, writableBucket.
  destruct (list_find (isWritable wt) (buckets bv)) as [[j bk] |] eqn:Hf;
    intros H; inversion H; subst.
  - apply list_find_Some in Hf as (Hj & Hw & _). eauto.
  - exists (newBucket (bv_start bv) wt). simpl.
    split; [| split; reflexivity].
    rewrite lookup_app_r by lia. rewrite Nat.sub_diag. reflexivity.
Qed.

Lemma bv_write_writable bs bv ts v m wt log r bv' log' :
  bv_write bs bv ts v m wt log = (r, bv', log') ->
  exists bk, bk ∈ buckets bv' /\ isWritable wt bk.
Proof.
  unfold bv_write.
  destruct (writableBucketCreate wt bv) as [i bv1] eqn:Hc.
  destruct (writableBucketCreate_writable _ _ _ _ Hc) as (bk & Hi & Hv & Ht).
  rewrite Hi.
  destruct (write bs bk ts v m log) as [[r0 bk'] log0] eqn:Hw.
  intros H. inversion H; subst; clear H. simpl.
  apply EncoderFacts.write_kind in Hw as (Hv' & Ht' & _).
  exists bk'. split.
  - apply list_elem_of_lookup. exists i.
    apply list_lookup_insert_eq. eapply lookup_lt_Some; exact Hi.
  - split; congruence.
Qed.

(** X12.  A cold write that passes the retention checks leaves its block
    due for a cold flush: whatever the block states, the block start of the
    timestamp is among the cold flush block starts afterwards. *)
Theorem cold_write_is_due_for_cold_flush
    (b : dbBuffer) (now ts : Time) (v : Value) (m : Meta) (wOpts : WriteOptions)
    (w : bool) (b' : dbBuffer) (blockStates : gmap Z BlockState) (order : list Z)
    (Hc : CoherenceFacts.coherent b)
    (Hcold : writeTypeAt (cfg b) now ts = inr ColdWrite)
    (Hw : Write b now ts v m wOpts = (inr w, b'))
    (Hin : Truncate ts (blockSize (cfg b)) ∈ order) :
  OptimizedTimes.Contains (ColdFlushBlockStarts b' blockStates order)
                          (Truncate ts (blockSize (cfg b))) = true.
Proof.
  apply ColdFlushBlockStarts_Contains. split; [exact Hin |].
  revert Hw. unfold Write. rewrite Hcold.
  destruct (decide (ColdWrite = ColdWrite)) as [_ |]; [| congruence].
  destruct (coldRetentionCheck (cfg b) now ts); [intros H; inversion H |].
  unfold writeTo.
  destruct (bucketVersionsAtCreate b _) as [p b1] eqn:Hcr.
  destruct (CoherenceFacts.coherent_create _ _ _ _ Hc Hcr) as [Hc1 Hm1].
  destruct (CoherenceFacts.coh_objects _ Hc1 _ _ Hm1) as (bv & Hbv & Hs).
  simpl. rewrite Hbv.
  destruct (bv_write _ _ _ _ _ _ _) as [[r bv'] log'] eqn:Hbw.
  intros H. inversion H; subst; clear H.
  destruct (bv_write_writable _ _ _ _ _ _ _ _ _ _ Hbw) as (bk & Hbk & Hv & Ht).
  exists p, bv', bk. simpl.
  split; [exact Hm1 |]. split; [apply lookup_insert_eq |].
  split; [exact Hbk |]. split; [exact Ht |]. left. exact Hv.
Qed.

(** *** Snapshots *)

(** Two buckets with the same version, write type and start. *)
Definition sameVersion (bk bk' : BufferBucket) : Prop :=
  version bk' = version bk /\ writeType bk' = writeType bk /\ start bk' = start bk.

(** X13.  [Snapshot] changes no version: in every bucket versions object
    the buckets are as many as before, each with the version, the write type
    and the start it had, whatever becomes of the merge and of [persistFn];
    the map, the cache and the sorted list are as before.  Without bucket
    versions at the block start it does nothing and returns no error. *)
Theorem Snapshot_keeps_versions :
  forall (b : dbBuffer) (blockStart : Time) (persistFn : Segment -> option Z),
    let b' := (Snapshot b blockStart persistFn).2 in
    bucketsMap b' = bucketsMap b
    /\ bucketVersionsCache b' = bucketVersionsCache b
    /\ inOrderBlockStarts b' = inOrderBlockStarts b
    /\ (forall p,
           option_Forall2
             (fun bv bv' => bv_start bv' = bv_start bv
                            /\ Forall2 sameVersion (buckets bv) (buckets bv'))
             (objects b !! p) (objects b' !! p))
    /\ (bucketVersionsAt b blockStart = None ->
        Snapshot b blockStart persistFn = (None, b)).
Proof.
  intros b blockStart persistFn.
  assert (Hrefl : forall p,
             option_Forall2
               (fun bv bv' => bv_start bv' = bv_start bv
                              /\ Forall2 sameVersion (buckets bv) (buckets bv'))
               (objects b !! p) (objects b !! p)).
  { intros p. destruct (objects b !! p) as [bv |]; constructor.
    split; [reflexivity |]. apply Forall2_same_length_lookup.
    split; [reflexivity |]. intros i x y Hx Hy. replace y with x by congruence.
    repeat split. }
  unfold Snapshot.
  destruct (bucketVersionsAt b blockStart) as [p |]; [| simpl; auto 10].
  destruct (objects b !! p) as [bv |] eqn:Hbv;
    [| simpl; repeat (split; [reflexivity || exact Hrefl |]); discriminate].
  destruct (snapshotStream _ _ _ _) as [[r bv'] log'] eqn:Hs.
  apply FlushFacts.snapshotStream_frame in Hs as [Hst Hk].
  assert (Hobj : forall q,
             option_Forall2
               (fun bv bv' => bv_start bv' = bv_start bv
                              /\ Forall2 sameVersion (buckets bv) (buckets bv'))
               (objects b !! q) (objects (setObject b p bv' log') !! q)).
  { intros q. simpl. destruct (decide (p = q)) as [<- | Hne].
    - rewrite lookup_insert_eq, Hbv. constructor. split; [exact Hst |].
      eapply Forall2_impl; [exact Hk |]. intros x y (Hv & Hw & Hs' & _).
      repeat split; assumption.
    - rewrite lookup_insert_ne by exact Hne. apply Hrefl. }
  assert (Hgoal : forall e : option error,
             let b' := (e, setObject b p bv' log').2 in
             bucketsMap b' = bucketsMap b
             /\ bucketVersionsCache b' = bucketVersionsCache b
             /\ inOrderBlockStarts b' = inOrderBlockStarts b
             /\ (forall q,
                    option_Forall2
                      (fun bv bv' => bv_start bv' = bv_start bv
                                     /\ Forall2 sameVersion (buckets bv) (buckets bv'))
                      (objects b !! q) (objects b' !! q))
             /\ (Some p = None -> (e, setObject b p bv' log') = (None, b))).
  { intros e. simpl. repeat (split; [reflexivity || exact Hobj |]). discriminate. }
  destruct r as [e | [s |]]; [apply Hgoal | | apply Hgoal].
  destruct (persistSegment persistFn s); apply Hgoal.
Qed.

(** *** Creating and removing bucket versions *)

Lemma inOrderBlockStarts_add_remove t l :
  t ∉ l -> inOrderBlockStartsRemove t (inOrderBlockStartsAdd t l) = l.
Proof.
  induction l as [|y l IH]; intros Hnin.
  { unfold inOrderBlockStartsAdd. simpl. unfold Equal. rewrite Z.eqb_refl. reflexivity. }
  rewrite CoherenceFacts.inOrderBlockStartsAdd_cons.
  apply not_elem_of_cons in Hnin as [Hne Hnin].
  destruct (After y t); simpl.
  - unfold Equal. rewrite Z.eqb_refl. reflexivity.
  - assert (He : Equal y t = false) by (apply Z.eqb_neq; congruence).
    rewrite He, IH by exact Hnin. reflexivity.
Qed.

Lemma lastIdxOf_notin p c : forall i acc,
  Some p ∉ c -> lastIdxOf p c i acc = acc.
Proof.
  induction c as [|x c IH]; intros i acc Hnin; simpl; [reflexivity |].
  apply not_elem_of_cons in Hnin as [Hne Hnin].
  rewrite IH by exact Hnin. destruct (decide (x = Some p)); congruence.
Qed.

(** X14.  Creating the bucket versions of a block start that the buffer
    does not hold and removing them again restores the map, the sorted list
    and the cache of a coherent buffer; the object that was handed out is
    back in the pool and the block start is not found any more. *)
Theorem create_then_remove_restores
    (b : dbBuffer) (t : Time)
    (Hc : CoherenceFacts.coherent b) (Hnew : bucketsMap b !! t = None) :
  let p := (bucketVersionsAtCreate b t).1 in
  let b2 := removeBucketVersionsAt (bucketVersionsAtCreate b t).2 t in
  bucketsMap b2 = bucketsMap b
  /\ inOrderBlockStarts b2 = inOrderBlockStarts b
  /\ bucketVersionsCache b2 = bucketVersionsCache b
  /\ p ∈ bucketVersionsPool b2
  /\ bucketVersionsAt b2 t = None.
Proof.
  destruct (bucketVersionsAtCreate b t) as [p b1] eqn:Hcr. simpl.
  destruct (CoherenceFacts.coherent_create _ _ _ _ Hc Hcr) as [Hc1 Hm1].
  pose proof (CoherenceFacts.coherent_remove b1 t Hc1) as Hc2.
  revert Hcr. unfold bucketVersionsAtCreate.
  rewrite (CoherenceFacts.bucketVersionsAt_map b t Hc), Hnew.
  destruct (poolGet b) as [[q pool'] next'].
  intros H. inversion H; subst q; clear H.
  match goal with Heq : _ = b1 |- _ => rewrite Heq in * end.
  assert (Hcache : bucketVersionsCache b1 = bucketVersionsCache b)
    by (subst b1; reflexivity).
  assert (Hmap : bucketsMap b1 = <[t := p]> (bucketsMap b))
    by (subst b1; reflexivity).
  assert (Hlist : inOrderBlockStarts b1 = inOrderBlockStartsAdd t (inOrderBlockStarts b))
    by (subst b1; reflexivity).
  assert (Hnotin : Some p ∉ bucketVersionsCache b).
  { intros Hin. destruct (CoherenceFacts.coh_cache _ Hc p Hin) as (bv & _ & Hm).
    assert (Hne : bv_start bv <> t) by (intros Heq; rewrite Heq in Hm; congruence).
    assert (Hm' : bucketsMap b1 !! bv_start bv = Some p)
      by (rewrite Hmap, lookup_insert_ne by congruence; exact Hm).
    apply Hne. exact (CoherenceFacts.coherent_injective b1 _ _ p Hc1 Hm' Hm1). }
  unfold removeBucketVersionsAt in *.
  rewrite (CoherenceFacts.bucketVersionsAt_map b1 t Hc1), Hm1 in *. simpl.
  split; [rewrite Hmap; apply delete_insert_id; exact Hnew |].
  split.
  { rewrite Hlist. apply inOrderBlockStarts_add_remove.
    intros Hin. apply (CoherenceFacts.coh_keys _ Hc) in Hin as [x Hx]. congruence. }
  split.
  { rewrite Hcache. unfold removeBucketVersionsInCache.
    rewrite lastIdxOf_notin by exact Hnotin. reflexivity. }
  split; [left |].
  rewrite (CoherenceFacts.bucketVersionsAt_map _ t Hc2). simpl.
  apply lookup_delete_eq.
Qed.

(** *** Bootstrapped blocks *)

Lemma bv_bootstrap_holds bv bl :
  exists bk, bk ∈ buckets (bv_bootstrap bv bl) /\ bl ∈ bootstrapped bk.
Proof.
  unfold bv_bootstrap.
  destruct (writableBucketCreate BootstrapWriteType bv) as [i bv1] eqn:Hc.
  destruct (writableBucketCreate_writable _ _ _ _ Hc) as (bk & Hi & _).
  rewrite Hi. simpl.
  exists (setBootstrapped bk (bootstrapped bk ++ [bl])). split.
  - apply list_elem_of_lookup. exists i.
    apply list_lookup_insert_eq. eapply lookup_lt_Some; exact Hi.
  - simpl. apply elem_of_app. right. left.
Qed.

(** X15.  A bootstrapped block can be fetched: after [Bootstrap] of a
    block that holds data and whose stream is not empty, [FetchBlocks] for
    the start time of the block returns one result, for that start, and the
    stream of the block is among its block readers. *)
Theorem bootstrapped_block_is_fetched
    (b : dbBuffer) (bl : Block) (s : BlockReader)
    (Hc : CoherenceFacts.coherent b)
    (Hlen : BlockLen bl <> 0)
    (Hstream : BlockStream bl = inr s)
    (Hne : IsNotEmpty s = true) :
  exists blocks,
    FetchBlocks (Bootstrap b bl) [BlockStartTime bl]
    = [ {| fb_Start := BlockStartTime bl; fb_Blocks := blocks |} ]
    /\ s ∈ blocks.
Proof.
  pose proof (CoherenceFacts.coherent_Bootstrap b bl Hc) as Hc'.
  unfold FetchBlocks, fetchBlocks. cbn [omap list_omap].
  rewrite (CoherenceFacts.bucketVersionsAt_map _ _ Hc').
  revert Hc'. unfold Bootstrap.
  destruct (bucketVersionsAtCreate b (BlockStartTime bl)) as [p b1] eqn:Hcr.
  destruct (CoherenceFacts.coherent_create _ _ _ _ Hc Hcr) as [Hc1 Hm1].
  destruct (CoherenceFacts.coh_objects _ Hc1 _ _ Hm1) as (bv & Hbv & Hst).
  rewrite Hbv. intros Hc'. cbn [bucketsMap setObject objects cfg].
  rewrite Hm1, lookup_insert_eq.
  destruct (bv_bootstrap_holds bv bl) as (bk & Hbk & Hbl).
  assert (Hin : s ∈ bv_streams (blockSize (cfg b1)) noFilter (bv_bootstrap bv bl)).
  { unfold bv_streams. apply list_elem_of_In, in_concat.
    exists (bucketStreams (blockSize (cfg b1)) bk). split.
    - apply in_map_iff. exists bk. split; [reflexivity |].
      apply list_elem_of_In. exact Hbk.
    - apply list_elem_of_In. unfold bucketStreams. apply elem_of_app. left.
      apply list_elem_of_omap. exists bl. split; [exact Hbl |].
      destruct (Z.eqb_spec (BlockLen bl) 0) as [| _]; [tauto |].
      rewrite Hstream, Hne. reflexivity. }
  destruct (bv_streams (blockSize (cfg b1)) noFilter (bv_bootstrap bv bl))
    as [|x xs] eqn:Hs; [inversion Hin |].
  exists (x :: xs). split; [reflexivity | exact Hin].
Qed.

End Facts.

#[local] Existing Instance Fixtures.listExternals.

(** The clock at 02:00:00: a warm write at 02:00:10 and a cold write at
    01:01:40, into the blocks at 02:00:00 and 01:00:00. *)
Definition twoBlocks : dbBuffer :=
  let b0 := newDatabaseBuffer (Fixtures.hourConfig true) in
  let b1 := (Write b0 7200 7210 1 tt Fixtures.plainWrite).2 in
  (Write b1 7200 3700 2 tt Fixtures.plainWrite).2.

Lemma twoBlocks_coherent : CoherenceFacts.coherent twoBlocks.
Proof.
  unfold twoBlocks.
  apply CoherenceFacts.coherent_Write, CoherenceFacts.coherent_Write,
        CoherenceFacts.coherent_new.
Qed.

Definition withSizesAndReads : FetchBlocksMetadataOptions :=
  {| IncludeSizes := true; IncludeLastRead := true |}.

(** The metadata of both blocks, the earlier block first. *)
Lemma FetchBlocksMetadata_in_block_order_witness :
  exists res,
    FetchBlocksMetadata twoBlocks 0 10800 withSizesAndReads = inr res
    /\ md_Start <$> res = [3600; 7200].
Proof.
  destruct (FetchBlocksMetadata_in_block_order twoBlocks 0 10800 withSizesAndReads
              twoBlocks_coherent) as (res & Hres & _).
  exists res. split; [exact Hres |].
  assert (H : FetchBlocksMetadata twoBlocks 0 10800 withSizesAndReads
              = inr [ {| md_Start := 3600; md_Size := 1; md_LastRead := 0 |};
                      {| md_Start := 7200; md_Size := 1; md_LastRead := 0 |} ])
    by (vm_compute; reflexivity).
  rewrite H in Hres. inversion Hres. reflexivity.
Defined.

(** A read of both blocks at 02:01:40. *)
Definition readOut : list (list BlockReader) :=
  Eval vm_compute in
    match (ReadEncoded twoBlocks 7300 0 10800).1 with inr out => out | inl _ => [] end.

Definition readBuffer : dbBuffer :=
  Eval vm_compute in (ReadEncoded twoBlocks 7300 0 10800).2.

Definition metadataAfterRead : list FetchBlockMetadataResult :=
  Eval vm_compute in
    match FetchBlocksMetadata readBuffer 0 10800 withSizesAndReads with
    | inr res => res
    | inl _ => []
    end.

Lemma ReadEncoded_sets_last_read_witness :
  length metadataAfterRead = 2%nat
  /\ Forall (fun r => md_LastRead r = wrap64 7300) metadataAfterRead.
Proof.
  split; [reflexivity |].
  apply (ReadEncoded_sets_last_read twoBlocks 7300 0 10800 withSizesAndReads
           readOut readBuffer metadataAfterRead);
    vm_compute; reflexivity.
Defined.

(** The buffer after the cold write at 01:01:40 alone. *)
Definition coldWritten : dbBuffer :=
  Eval vm_compute in
    (Write (newDatabaseBuffer (Fixtures.hourConfig true)) 7200 3700 2 tt
           Fixtures.plainWrite).2.

Lemma cold_write_is_due_for_cold_flush_witness :
  OptimizedTimes.Contains (ColdFlushBlockStarts coldWritten ∅ [3600]) 3600 = true.
Proof.
  apply (@cold_write_is_due_for_cold_flush Fixtures.listExternals
           (newDatabaseBuffer (Fixtures.hourConfig true)) 7200 3700 2 tt
           Fixtures.plainWrite true coldWritten ∅ [3600]).
  - apply CoherenceFacts.coherent_new.
  - vm_compute; reflexivity.
  - vm_compute; reflexivity.
  - left.
Defined.

(** The block at 00:00:00 is created and removed again. *)
Lemma create_then_remove_restores_witness :
  bucketsMap twoBlocks !! 0 = None
  /\ bucketsMap (removeBucketVersionsAt (bucketVersionsAtCreate twoBlocks 0).2 0)
     = bucketsMap twoBlocks
  /\ inOrderBlockStarts (removeBucketVersionsAt (bucketVersionsAtCreate twoBlocks 0).2 0)
     = inOrderBlockStarts twoBlocks.
Proof.
  assert (Hnew : bucketsMap twoBlocks !! 0 = None) by (vm_compute; reflexivity).
  split; [exact Hnew |].
  destruct (create_then_remove_restores twoBlocks 0 twoBlocks_coherent Hnew)
    as (Hm & Hl & _).
  split; [exact Hm | exact Hl].
Defined.

(** A block for 00:00:00 with one point. *)
Definition oldBlock : Time * list (Datapoint Z) :=
  (0, [ {| Timestamp := 5; DValue := 9 |} ]).

Lemma bootstrapped_block_is_fetched_witness :
  exists blocks,
    FetchBlocks (Bootstrap twoBlocks oldBlock) [0]
    = [ {| fb_Start := 0; fb_Blocks := blocks |} ]
    /\ {| br_reader := Some [ {| Timestamp := 5; DValue := 9 |} ];
          br_start := 0; br_blockSize := 0 |} ∈ blocks.
Proof.
  apply (bootstrapped_block_is_fetched twoBlocks oldBlock _ twoBlocks_coherent).
  - vm_compute. discriminate.
  - reflexivity.
  - reflexivity.
Defined.

End BufferFacts.

(** ** Opening, borrowing and returning seekers *)
Module BorrowFacts.
Import Clock SeekMgr.

Section Facts.
Context `{Env : SeekerEnv}.

Definition unborrowed (sk : SeekerId) : borrowableSeeker :=
  {| seeker := sk; isBorrowed := false |}.

(** The clone loop makes its clones with the next identities, in order; when
    a clone fails, the seekers gathered so far are closed. *)
Lemma cloneLoop_spec n : forall h orig acc i,
  match cloneLoop h orig acc i n with
  | (inr bss, h') =>
      bss = acc ++ map unborrowed (seq (nextSeeker h) n)
      /\ nextSeeker h' = (nextSeeker h + n)%nat
      /\ closedSeekers h' = closedSeekers h
      /\ arrays h' = arrays h /\ nextLoc h' = nextLoc h
      /\ doneWgs h' = doneWgs h /\ nextWg h' = nextWg h
  | (inl errs, h') =>
      exists k,
        (k < n)%nat
        /\ nextSeeker h' = (nextSeeker h + k)%nat
        /\ closedSeekers h'
           = closedSeekers h ++ map seeker acc ++ seq (nextSeeker h) k
        /\ arrays h' = arrays h /\ nextLoc h' = nextLoc h
        /\ doneWgs h' = doneWgs h /\ nextWg h' = nextWg h
  end.
Proof.
  induction n as [|n IH]; intros h orig acc i; simpl.
  { rewrite app_nil_r, Nat.add_0_r. auto 10. }
  destruct (cloneErr orig i) as [code |].
  - simpl. exists 0%nat. rewrite Nat.add_0_r, app_nil_r.
    split; [lia |]. auto 10.
  - specialize (IH {| arrays := arrays h; nextLoc := nextLoc h;
                      nextSeeker := S (nextSeeker h); nextWg := nextWg h;
                      closedSeekers := closedSeekers h; doneWgs := doneWgs h |}
                   orig (acc ++ [ {| seeker := nextSeeker h; isBorrowed := false |} ])
                   (S i)).
    destruct (cloneLoop _ orig _ (S i) n) as [[errs | bss] h'].
    + destruct IH as (k & Hk & Hn & Hc & Ha & Hl & Hd & Hw). simpl in *.
      exists (S k). split; [lia |]. split; [lia |].
      split; [| auto].
      rewrite Hc, map_app, <- !app_assoc. reflexivity.
    + destruct IH as (Hb & Hn & Hc & Ha & Hl & Hd & Hw). simpl in *.
      split; [rewrite Hb, <- app_assoc; reflexivity |].
      split; [lia |]. auto.
Qed.

(** The heap after [n] seekers were made from [h] and nothing else
    happened. *)
Definition seekersMade (h h' : Heap) (n : nat) : Prop :=
  nextSeeker h' = (nextSeeker h + n)%nat
  /\ doneWgs h' = doneWgs h /\ nextWg h' = nextWg h.

Lemma newSeekersAndBloom_shape :
  forall (fc : Z) (h : Heap) (sh : nat) (blockStart : Time) (vol : Z),
    match newSeekersAndBloom fc h sh blockStart vol with
    | (inr sab, h') =>
        let n := S (Z.to_nat (fc - 1)) in
        seekers sab = Some (nextLoc h)
        /\ arrays h' = <[nextLoc h := map unborrowed (seq (nextSeeker h) n)]> (arrays h)
        /\ bloomFilter sab = Some (nextSeeker h)
        /\ volume sab = vol /\ wg sab = None
        /\ closedSeekers h' = closedSeekers h
        /\ seekersMade h h' n
    | (inl _, h') =>
        exists n,
          seekersMade h h' n
          /\ closedSeekers h' = closedSeekers h ++ seq (nextSeeker h) n
          /\ arrays h' = arrays h /\ nextLoc h' = nextLoc h
    end.
Proof.
  intros fc h sh blockStart vol. unfold newSeekersAndBloom.
  destruct (newOpenSeekerErr sh blockStart vol) as [code |].
  { exists 0%nat. unfold seekersMade. rewrite Nat.add_0_r, app_nil_r. auto 10. }
  unfold freshSeeker, seekersAndBloomFromSeeker.
  match goal with |- context [cloneLoop ?h1 ?o ?a ?i ?n] =>
    pose proof (cloneLoop_spec n h1 o a i) as Hc;
    destruct (cloneLoop h1 o a i n) as [[errs | bss] h'] end.
  - destruct Hc as (k & Hk & Hn & Hc & Ha & Hl & Hd & Hw). simpl in *.
    exists (S k). unfold seekersMade.
    split; [split; [lia | auto] |]. auto.
  - destruct Hc as (Hb & Hn & Hc & Ha & Hl & Hd & Hw). simpl in *.
    unfold seekersMade. simpl. rewrite Hl, Ha, Hb.
    split; [reflexivity |]. split; [reflexivity |].
    split; [reflexivity |]. split; [reflexivity |]. split; [reflexivity |].
    split; [exact Hc |]. split; [lia | auto].
Qed.

(** X16.  Opening the seekers of a block either succeeds, and then a new
    array holds the seeker that was opened followed by its clones, one
    seeker for each unit of the fetch concurrency (one at least), none of
    them borrowed and none closed; or it fails, and then every seeker that
    was opened on the way, the original and its clones, is closed again and
    no array is made. *)
Theorem newSeekersAndBloom_all_or_nothing :
  forall (fc : Z) (h : Heap) (sh : nat) (blockStart : Time) (vol : Z),
    match newSeekersAndBloom fc h sh blockStart vol with
    | (inr sab, h') =>
        let n := S (Z.to_nat (fc - 1)) in
        seekers sab = Some (nextLoc h)
        /\ arrays h' = <[nextLoc h := map unborrowed (seq (nextSeeker h) n)]> (arrays h)
        /\ bloomFilter sab = Some (nextSeeker h)
        /\ volume sab = vol /\ wg sab = None
        /\ closedSeekers h' = closedSeekers h
        /\ seekersMade h h' n
    | (inl _, h') =>
        exists n,
          seekersMade h h' n
          /\ closedSeekers h' = closedSeekers h ++ seq (nextSeeker h) n
          /\ arrays h' = arrays h /\ nextLoc h' = nextLoc h
    end.
Proof. exact newSeekersAndBloom_shape. Qed.

(** *** Borrowing *)

(** The shard [sh] of [m] holds, for the block at [start], open seekers
    whose active array is [arr], stored at [l]. *)
Definition openEntry (m : seekerManager) (sh : nat) (start : Z)
    (sks : rotatableSeekers) (l : loc) (arr : list borrowableSeeker) : Prop :=
  (exists byTime,
      seekersByShardIdx m !! sh = Some byTime
      /\ sbt_seekers byTime !! start = Some sks)
  /\ wg (active sks) = None
  /\ seekers (active sks) = Some l
  /\ arrays (heap m) !! l = Some arr.

Definition markAccessed (m : seekerManager) (sh : nat) : seekerManager :=
  match seekersByShardIdx m !! sh with
  | Some byTime =>
      setByTime m sh {| shard := shard byTime; accessed := true;
                        sbt_seekers := sbt_seekers byTime |}
  | None => m
  end.

Lemma openEntry_markAccessed m sh start sks l arr :
  openEntry m sh start sks l arr -> openEntry (markAccessed m sh) sh start sks l arr.
Proof.
  intros ((byTime & Hsh & Hst) & Hw & Hs & Ha). unfold markAccessed. rewrite Hsh.
  split; [| auto]. eexists. simpl. split.
  - apply list_lookup_insert_eq. eapply lookup_lt_Some; exact Hsh.
  - exact Hst.
Qed.

Lemma openEntry_setArrays m sh start sks l arr arr' :
  openEntry m sh start sks l arr ->
  openEntry (setHeap m (setArrays (heap m) (<[l := arr']> (arrays (heap m)))))
            sh start sks l arr'.
Proof.
  intros (He & Hw & Hs & Ha). split; [exact He |]. split; [exact Hw |].
  split; [exact Hs |]. simpl. apply lookup_insert_eq.
Qed.

(** [Borrow] on open seekers. *)
Lemma Borrow_open m sh start sks l arr :
  openEntry m sh start sks l arr ->
  Borrow m sh start =
  match list_find notBorrowed arr with
  | None => (Failed errNoAvailableSeekers, markAccessed m sh)
  | Some (i, b) =>
      (Done (seeker b),
       setHeap (markAccessed m sh)
         (setArrays (heap m)
            (<[l := <[i := {| seeker := seeker b; isBorrowed := true |}]> arr]>
               (arrays (heap m)))))
  end.
Proof.
  intros Ho. pose proof (openEntry_markAccessed _ _ _ _ _ _ Ho) as Ho'.
  destruct Ho as ((byTime & Hsh & Hst) & Hw & Hs & Ha).
  destruct Ho' as ((byTime' & Hsh' & Hst') & _).
  unfold Borrow. rewrite (SeekFacts.growShards_id _ _ _ Hsh), Hsh.
  unfold markAccessed in *. rewrite Hsh in *.
  unfold getOrOpenSeekersWithLock. rewrite Hsh', Hst', Hw, Hs.
  unfold elems, storeAt, elems. simpl. rewrite Ha. simpl.
  destruct (list_find notBorrowed arr) as [[i b] |]; reflexivity.
Qed.

Lemma filter_after_borrow (arr : list borrowableSeeker) : forall i b,
  list_find notBorrowed arr = Some (i, b) ->
  filter notBorrowed arr
  = b :: filter notBorrowed (<[i := {| seeker := seeker b; isBorrowed := true |}]> arr).
Proof.
  induction arr as [|x arr IH]; intros i b; simpl; [discriminate |].
  rewrite filter_cons. destruct (decide (notBorrowed x)) as [Hx | Hx].
  - intros H. inversion H; subst. simpl. rewrite filter_cons.
    destruct (decide (notBorrowed _)) as [Hb |]; [discriminate Hb | reflexivity].
  - destruct (list_find notBorrowed arr) as [[j c] |] eqn:Hf; [| discriminate].
    simpl. intros H. inversion H; subst. simpl. rewrite filter_cons.
    destruct (decide (notBorrowed x)); [tauto |]. apply IH. reflexivity.
Qed.

(** [n] calls of [Borrow] in a row: their outcomes and the manager
    afterwards. *)
Fixpoint borrowMany (n : nat) (m : seekerManager) (sh : nat) (start : Time)
  : list (Outcome SeekerId) * seekerManager :=
  match n with
  | O => ([], m)
  | S n' =>
      let '(r, m1) := Borrow m sh start in
      let '(rs, m2) := borrowMany n' m1 sh start in
      (r :: rs, m2)
  end.

Lemma borrowMany_S n m sh start :
  borrowMany (S n) m sh start
  = let '(r, m1) := Borrow m sh start in
    let '(rs, m2) := borrowMany n m1 sh start in
    (r :: rs, m2).
Proof. reflexivity. Qed.

Lemma borrowMany_open n : forall m sh start sks l arr,
  openEntry m sh start sks l arr ->
  n = length (filter notBorrowed arr) ->
  (borrowMany (S n) m sh start).1
  = map (fun b => Done (seeker b)) (filter notBorrowed arr)
    ++ [Failed errNoAvailableSeekers].
Proof.
  induction n as [|n IH]; intros m sh start sks l arr Ho Hn.
  - simpl. rewrite (Borrow_open _ _ _ _ _ _ Ho).
    destruct (filter notBorrowed arr) as [|x xs] eqn:Hf; [| discriminate].
    destruct (list_find notBorrowed arr) as [[i b] |] eqn:Hfind.
    + apply filter_after_borrow in Hfind. congruence.
    + reflexivity.
  - rewrite borrowMany_S, (Borrow_open _ _ _ _ _ _ Ho).
    destruct (list_find notBorrowed arr) as [[i b] |] eqn:Hfind.
    + pose proof (filter_after_borrow _ _ _ Hfind) as Hf.
      set (arr' := <[i := {| seeker := seeker b; isBorrowed := true |}]> arr) in *.
      pose proof (openEntry_setArrays _ _ _ _ _ _ arr'
                    (openEntry_markAccessed _ _ _ _ _ _ Ho)) as Ho'.
      assert (Hheap : heap (markAccessed m sh) = heap m).
      { unfold markAccessed. destruct (seekersByShardIdx m !! sh); reflexivity. }
      rewrite Hheap in Ho'.
      assert (Hn' : n = length (filter notBorrowed arr')).
      { rewrite Hf in Hn. simpl in Hn. lia. }
      specialize (IH _ _ _ _ _ _ Ho' Hn').
      destruct (borrowMany (S n) _ sh start) as [rs m2]. simpl in IH. simpl.
      rewrite IH, Hf. reflexivity.
    + apply list_find_None in Hfind.
      destruct (filter notBorrowed arr) as [|x xs] eqn:Hf; [discriminate |].
      assert (Hx : x ∈ filter notBorrowed arr) by (rewrite Hf; left).
      apply list_elem_of_filter in Hx as [Hx Hin].
      rewrite Forall_forall in Hfind. exfalso. exact (Hfind _ Hin Hx).
Qed.

(** X17.  The seekers of a block are handed out one borrower at a time:
    calling [Borrow] again and again on open seekers, without returning
    any, hands out the seekers that are not borrowed, each once, in the
    order of the array, and after the last of them fails with
    [errNoAvailableSeekers]. *)
Theorem Borrow_hands_out_each_seeker_once
    (m : seekerManager) (sh : nat) (start : Time) (sks : rotatableSeekers)
    (l : loc) (arr : list borrowableSeeker)
    (Ho : openEntry m sh start sks l arr) :
  (borrowMany (S (length (filter notBorrowed arr))) m sh start).1
  = map (fun b => Done (seeker b)) (filter notBorrowed arr)
    ++ [Failed errNoAvailableSeekers].
Proof. eapply borrowMany_open; [exact Ho | reflexivity]. Qed.

(** X18.  Borrowing a seeker and returning it gives the seekers of the
    block back as they were: when the seekers of the active array are
    distinct, a successful [Borrow] followed by [Return] of the seeker it
    handed out succeeds and leaves every array of the manager as it was
    before the [Borrow]; nothing is closed and no wait group is
    signalled. *)
Theorem Borrow_then_Return_restores
    (m : seekerManager) (sh : nat) (start : Time) (sks : rotatableSeekers)
    (l : loc) (arr : list borrowableSeeker) (sk : SeekerId) (m1 : seekerManager)
    (Ho : openEntry m sh start sks l arr)
    (Hnd : NoDup (seeker <$> arr))
    (Hb : Borrow m sh start = (Done sk, m1)) :
  exists m2,
    Return m1 sh start sk = (None, m2)
    /\ arrays (heap m2) = arrays (heap m)
    /\ closedSeekers (heap m2) = closedSeekers (heap m)
    /\ doneWgs (heap m2) = doneWgs (heap m)
    /\ seekersByShardIdx m2 = seekersByShardIdx m1.
Proof.
  rewrite (Borrow_open _ _ _ _ _ _ Ho) in Hb.
  destruct (list_find notBorrowed arr) as [[i b] |] eqn:Hfind; [| discriminate].
  inversion Hb; subst sk m1; clear Hb.
  apply list_find_Some in Hfind as (Hi & Hnb & _).
  set (arr' := <[i := {| seeker := seeker b; isBorrowed := true |}]> arr).
  pose proof (openEntry_setArrays _ _ _ _ _ _ arr'
                (openEntry_markAccessed _ _ _ _ _ _ Ho)) as Ho'.
  assert (Hheap : heap (markAccessed m sh) = heap m).
  { unfold markAccessed. destruct (seekersByShardIdx m !! sh); reflexivity. }
  rewrite Hheap in Ho'. fold arr'.
  destruct Ho' as ((byTime' & Hsh' & Hst') & Hw & Hs & Ha').
  assert (Hfirst : SeekFacts.firstSlot (seeker b) arr' i).
  { split.
    - eexists. split; [apply list_lookup_insert_eq; eapply lookup_lt_Some; exact Hi |].
      reflexivity.
    - intros j c Hj Hlt Hc.
      unfold arr' in Hj. rewrite list_lookup_insert_ne in Hj by lia.
      assert (H1 : (seeker <$> arr) !! j = Some (seeker b))
        by (rewrite list_lookup_fmap, Hj; simpl; congruence).
      assert (H2 : (seeker <$> arr) !! i = Some (seeker b))
        by (rewrite list_lookup_fmap, Hi; reflexivity).
      pose proof (NoDup_lookup _ _ _ _ Hnd H1 H2). lia. }
  apply SeekFacts.firstSlot_find in Hfirst as (c & Hfind & Hc).
  unfold Return. rewrite (SeekFacts.growShards_id _ _ _ Hsh'), Hsh', Hst'.
  unfold returnSeekerWithLock. rewrite Hs. unfold elems at 1.
  rewrite Ha'. simpl default. rewrite Hfind.
  eexists. split; [reflexivity |]. simpl.
  unfold elems. simpl. rewrite lookup_insert_eq. simpl.
  rewrite insert_insert_eq. unfold arr'. rewrite list_insert_insert_eq.
  destruct Ho as (_ & _ & _ & Ha).
  rewrite Hc.
  assert (Hid : <[i := {| seeker := seeker b; isBorrowed := false |}]> arr = arr).
  { apply list_insert_id. rewrite Hi. f_equal. destruct b as [sb bb].
    unfold notBorrowed in Hnb. simpl in *. subst. reflexivity. }
  rewrite Hid, (insert_id _ _ _ Ha). auto.
Qed.

(** *** Returning the last inactive seeker *)


(** *** Rotating to a new volume *)

(** X20.  A lease update for a volume that is not older than the active
    one swaps the seekers at once: it closes no seeker; it returns when no
    seeker of the previous volume is borrowed and otherwise waits on a new
    wait group, the manager staying marked as updating until then; and from
    then on [Borrow] hands out the seeker opened for the new volume and
    [ConcurrentIDBloomFilter] serves its bloom filter. *)
Theorem UpdateOpenLease_serves_new_volume
    (m : seekerManager) (descriptor : LeaseDescriptor) (state : LeaseState)
    (byTime : seekersByTime) (sks : rotatableSeekers)
    (newActive : seekersAndBloom) (h1 : Heap)
    (Hopen : status m = seekerManagerOpen)
    (Hupd : isUpdatingLease m = false)
    (Hns : namespace m = ld_Namespace descriptor)
    (Hnew : newSeekersAndBloom (fetchConcurrency m) (heap m) (ld_Shard descriptor)
                               (ld_BlockStart descriptor) (ls_Volume state)
            = (inr newActive, h1))
    (Hsh : seekersByShardIdx m !! ld_Shard descriptor = Some byTime)
    (Hst : sbt_seekers byTime !! ld_BlockStart descriptor = Some sks)
    (Hwg : wg (active sks) = None)
    (Hvol : (volume (active sks) <= ls_Volume state)%Z) :
  let waits := anyBorrowedIn (elems h1 (seekers (active sks))) in
  exists m',
    UpdateOpenLeaseFn m descriptor state
    = (if waits then LeaseWaiting (nextWg (heap m)) UpdateOpenLease
       else LeaseReturned UpdateOpenLease, m')
    /\ closedSeekers (heap m') = closedSeekers (heap m)
    /\ isUpdatingLease m' = waits
    /\ (Borrow m' (ld_Shard descriptor) (ld_BlockStart descriptor)).1
       = Done (nextSeeker (heap m))
    /\ (ConcurrentIDBloomFilter m' (ld_Shard descriptor) (ld_BlockStart descriptor)).1
       = Done (Some (nextSeeker (heap m))).
Proof.
  intros waits.
  pose proof (newSeekersAndBloom_shape (fetchConcurrency m) (heap m)
                (ld_Shard descriptor) (ld_BlockStart descriptor) (ls_Volume state))
    as Hshape.
  rewrite Hnew in Hshape.
  destruct Hshape as (Hs & Ha & Hbf & Hv & Hw & Hcl & (Hns' & Hdw & Hnw)).
  set (arrNew := map unborrowed
                     (seq (nextSeeker (heap m))
                          (S (Z.to_nat (fetchConcurrency m - 1))))) in *.
  set (entry := {| active := newActive;
                   inactive := {| wg := if waits then Some (nextWg (heap m)) else None;
                                  seekers := seekers (active sks);
                                  bloomFilter := bloomFilter (active sks);
                                  volume := volume (active sks) |} |}).
  (* what is needed of the manager afterwards *)
  assert (Hafter : forall m',
             (exists byTime',
                 seekersByShardIdx m' !! ld_Shard descriptor = Some byTime'
                 /\ sbt_seekers byTime' !! ld_BlockStart descriptor = Some entry) ->
             arrays (heap m') = arrays h1 ->
             (Borrow m' (ld_Shard descriptor) (ld_BlockStart descriptor)).1
             = Done (nextSeeker (heap m))
             /\ (ConcurrentIDBloomFilter m' (ld_Shard descriptor)
                                         (ld_BlockStart descriptor)).1
                = Done (Some (nextSeeker (heap m)))).
  { intros m' He Harr. split.
    - assert (Ho : openEntry m' (ld_Shard descriptor) (ld_BlockStart descriptor)
                             entry (nextLoc (heap m)) arrNew).
      { split; [exact He |]. split; [exact Hw |]. split; [exact Hs |].
        rewrite Harr, Ha. apply lookup_insert_eq. }
      rewrite (Borrow_open _ _ _ _ _ _ Ho). reflexivity.
    - destruct He as (byTime' & Hsh' & Hst').
      unfold ConcurrentIDBloomFilter.
      rewrite (SeekFacts.growShards_id _ _ _ Hsh'), Hsh', Hst'. simpl.
      rewrite Hw, Hbf. reflexivity. }
  unfold UpdateOpenLeaseFn, startUpdateOpenLease.
  rewrite Hopen, Hupd, Hns, Z.eqb_refl. simpl negb. cbn iota.
  unfold updateOpenLeaseHotSwapSeekers. simpl fetchConcurrency. simpl heap.
  rewrite Hnew.
  assert (Hsh1 : seekersByShardIdx (setHeap (setIsUpdatingLease m true) h1)
                   !! ld_Shard descriptor = Some byTime) by exact Hsh.
  rewrite (SeekFacts.growShards_id _ _ _ Hsh1), Hsh1, Hst, Hwg.
  destruct (Z.ltb_spec (ls_Volume state) (volume (active sks))) as [| _]; [lia |].
  simpl heap. fold waits.
  assert (Hlen : (ld_Shard descriptor < length (seekersByShardIdx m))%nat)
    by (eapply lookup_lt_Some; exact Hsh).
  destruct waits eqn:Hwaits.
  - unfold freshWg. rewrite Hnw. eexists. split; [reflexivity |]. simpl.
    split; [exact Hcl |]. split; [reflexivity |].
    apply Hafter; [| reflexivity].
    eexists. simpl. split; [apply list_lookup_insert_eq; exact Hlen |].
    simpl. rewrite lookup_insert_eq. reflexivity.
  - eexists. split; [reflexivity |]. simpl.
    split; [exact Hcl |]. split; [reflexivity |].
    apply Hafter; [| reflexivity].
    eexists. simpl. split; [apply list_lookup_insert_eq; exact Hlen |].
    simpl. rewrite lookup_insert_eq. reflexivity.
Qed.

End Facts.

#[local] Existing Instance Fixtures.quietEnv.

Definition shardAt (m : seekerManager) (sh : nat) : seekersByTime :=
  default {| shard := 0; accessed := false; sbt_seekers := ∅ |}
          (seekersByShardIdx m !! sh).

Definition entryAt (m : seekerManager) (sh : nat) (t : Z) : rotatableSeekers :=
  default zeroRotatableSeekers (sbt_seekers (shardAt m sh) !! t).

(** An open manager for namespace 7 with two seekers for each block; the
    seekers of the block at 01:00:00 of shard 0 are open and the first of
    them, seeker 0, is borrowed. *)
Definition oneBorrowed : seekerManager :=
  Eval vm_compute in (Borrow (Open (NewSeekerManager 2) 7).2 0 3600%Z).2.

Definition oneBorrowedArray : list borrowableSeeker :=
  [ {| seeker := 0; isBorrowed := true |}; {| seeker := 1; isBorrowed := false |} ].

Lemma oneBorrowed_open :
  openEntry oneBorrowed 0 3600%Z (entryAt oneBorrowed 0 3600%Z) 0 oneBorrowedArray.
Proof.
  split; [exists (shardAt oneBorrowed 0); split; vm_compute; reflexivity |].
  split; [vm_compute; reflexivity |]. split; vm_compute; reflexivity.
Qed.

(** The second seeker is handed out, then there is none left. *)
Lemma Borrow_hands_out_each_seeker_once_witness :
  (borrowMany 2 oneBorrowed 0 3600%Z).1 = [Done 1%nat; Failed errNoAvailableSeekers].
Proof.
  exact (Borrow_hands_out_each_seeker_once oneBorrowed 0 3600%Z
           (entryAt oneBorrowed 0 3600%Z) 0%nat oneBorrowedArray oneBorrowed_open).
Defined.

Definition twoBorrowed : seekerManager :=
  Eval vm_compute in (Borrow oneBorrowed 0 3600%Z).2.

(** Seeker 1 is borrowed and returned. *)
Lemma Borrow_then_Return_restores_witness :
  Borrow oneBorrowed 0 3600%Z = (Done 1%nat, twoBorrowed)
  /\ exists m2,
       Return twoBorrowed 0 3600%Z 1%nat = (None, m2)
       /\ arrays (heap m2) = arrays (heap oneBorrowed).
Proof.
  assert (Hb : Borrow oneBorrowed 0 3600%Z = (Done 1%nat, twoBorrowed))
    by (vm_compute; reflexivity).
  assert (Hnd : NoDup (seeker <$> oneBorrowedArray)).
  { apply NoDup_cons. split; [| apply NoDup_singleton].
    intros H. apply list_elem_of_singleton in H. discriminate. }
  split; [exact Hb |].
  destruct (Borrow_then_Return_restores oneBorrowed 0 3600%Z
              (entryAt oneBorrowed 0 3600%Z) 0%nat oneBorrowedArray 1%nat twoBorrowed
              oneBorrowed_open Hnd Hb) as (m2 & Hr & Ha & _).
  exists m2. split; [exact Hr | exact Ha].
Defined.

(** The lease of the block at 01:00:00 moves to volume 1 while seeker 0 is
    borrowed. *)
Definition leaseOfBlock : LeaseDescriptor :=
  {| ld_Namespace := 7; ld_Shard := 0; ld_BlockStart := 3600 |}.

Definition volumeOne : LeaseState := {| ls_Volume := 1 |}.

Definition newVolume : seekersAndBloom :=
  Eval vm_compute in
    match (newSeekersAndBloom 2 (heap oneBorrowed) 0 3600%Z 1).1 with
    | inr sab => sab
    | inl _ => zeroSeekersAndBloom
    end.

Definition newVolumeHeap : Heap :=
  Eval vm_compute in (newSeekersAndBloom 2 (heap oneBorrowed) 0 3600%Z 1).2.

Lemma UpdateOpenLease_serves_new_volume_witness :
  exists m',
    UpdateOpenLeaseFn oneBorrowed leaseOfBlock volumeOne
    = (LeaseWaiting 1%nat UpdateOpenLease, m')
    /\ (Borrow m' 0 3600%Z).1 = Done 2%nat.
Proof.
  destruct (UpdateOpenLease_serves_new_volume oneBorrowed leaseOfBlock volumeOne
              (shardAt oneBorrowed 0) (entryAt oneBorrowed 0 3600%Z)
              newVolume newVolumeHeap)
    as (m' & Hu & _ & _ & Hb & _);
    try (vm_compute; reflexivity).
  { vm_compute. discriminate. }
  exists m'. split; [exact Hu | exact Hb].
Defined.



End BorrowFacts.

(** ** The open/close loop *)
Module LoopFacts.
Import Clock SeekMgr.

Section Facts.
Context `{Env : SeekerEnv}.

Lemma pendingCloses_elem m earliest sh t :
  (sh, t) ∈ pendingCloses m earliest <->
  exists byTime,
    seekersByShardIdx m !! sh = Some byTime
    /\ is_Some (sbt_seekers byTime !! t) /\ Before t earliest = true.
Proof.
  unfold pendingCloses. rewrite list_elem_of_In, in_concat. split.
  - intros (l & Hl & Hin). apply list_elem_of_In in Hl, Hin.
    apply elem_of_lookup_imap in Hl as (i & byTime & -> & Hi).
    apply list_elem_of_fmap in Hin as ([t' sks] & Heq & Hin). simpl in Heq.
    inversion Heq; subst. apply list_elem_of_filter in Hin as [Hb Hin].
    apply elem_of_map_to_list in Hin. simpl in Hb. eauto.
  - intros (byTime & Hsh & [sks Hst] & Hb).
    eexists. split.
    + apply list_elem_of_In. eapply elem_of_lookup_imap_2. exact Hsh.
    + apply list_elem_of_In. apply list_elem_of_fmap. exists (t, sks).
      split; [reflexivity |]. apply list_elem_of_filter. split; [exact Hb |].
      apply elem_of_map_to_list. exact Hst.
Qed.

Lemma entryBorrowed_zero h : entryBorrowed h zeroRotatableSeekers = false.
Proof. reflexivity. Qed.

(** The entry at [(sh, t)] was listed and none of its seekers is
    borrowed. *)
Definition released (m : seekerManager) (pend : list (nat * Z)) (sh : nat) (t : Z)
  : Prop :=
  (sh, t) ∈ pend
  /\ forall byTime sks,
       seekersByShardIdx m !! sh = Some byTime ->
       sbt_seekers byTime !! t = Some sks ->
       entryBorrowed (heap m) sks = false.

Lemma released_dec m pend sh t : released m pend sh t \/ ~ released m pend sh t.
Proof.
  unfold released.
  destruct (decide ((sh, t) ∈ pend)) as [Hin | Hin]; [| right; tauto].
  destruct (seekersByShardIdx m !! sh) as [byTime |]; [| left; split; [exact Hin |]; discriminate].
  destruct (sbt_seekers byTime !! t) as [sks |] eqn:Hst.
  2: { left. split; [exact Hin |]. intros bt sks H. inversion H; subst. congruence. }
  destruct (entryBorrowed (heap m) sks) eqn:Hb.
  - right. intros [_ H]. specialize (H _ _ eq_refl Hst). congruence.
  - left. split; [exact Hin |]. intros bt sks' H Hs. inversion H; subst. congruence.
Qed.

Lemma released_snoc m pend sh t sh0 t0 :
  released m (pend ++ [(sh0, t0)]) sh t <->
  released m pend sh t
  \/ ((sh, t) = (sh0, t0)
      /\ forall byTime sks,
           seekersByShardIdx m !! sh = Some byTime ->
           sbt_seekers byTime !! t = Some sks ->
           entryBorrowed (heap m) sks = false).
Proof.
  unfold released. rewrite elem_of_app, list_elem_of_singleton. tauto.
Qed.

(** The seekers queued for closing after the elements [pend]. *)
Definition queued (m : seekerManager) (pend : list (nat * Z)) (b : borrowableSeeker)
  : Prop :=
  exists sh byTime t sks,
    (sh, t) ∈ pend
    /\ seekersByShardIdx m !! sh = Some byTime
    /\ sbt_seekers byTime !! t = Some sks
    /\ entryBorrowed (heap m) sks = false
    /\ In b (SeekFacts.entrySeekers (heap m) sks).

(** The state of the closing pass after the elements [pend]. *)
Definition passedOver (m : seekerManager) (pend : list (nat * Z))
    (st : seekerManager * list borrowableSeeker) : Prop :=
  heap st.1 = heap m
  /\ length (seekersByShardIdx st.1) = length (seekersByShardIdx m)
  /\ (forall sh byTime byTime',
         seekersByShardIdx m !! sh = Some byTime ->
         seekersByShardIdx st.1 !! sh = Some byTime' ->
         shard byTime' = shard byTime /\ accessed byTime' = accessed byTime
         /\ forall t, (released m pend sh t -> sbt_seekers byTime' !! t = None)
                      /\ (~ released m pend sh t ->
                          sbt_seekers byTime' !! t = sbt_seekers byTime !! t))
  /\ (forall b, b ∈ st.2 <-> queued m pend b).

Lemma passedOver_nil m : passedOver m [] (m, []).
Proof.
  split; [reflexivity |]. split; [reflexivity |]. split.
  - intros sh byTime byTime' H1 H2. simpl in H2.
    replace byTime' with byTime by congruence.
    split; [reflexivity |]. split; [reflexivity |].
    intros t. split; [intros [Hin _]; inversion Hin | reflexivity].
  - intros b. simpl. split; [intros H; inversion H |].
    intros (sh & byTime & t & sks & Hin & _). inversion Hin.
Qed.

Lemma queued_snoc_keep m pend sh0 t0 b :
  (forall byTime sks,
      seekersByShardIdx m !! sh0 = Some byTime ->
      sbt_seekers byTime !! t0 = Some sks ->
      entryBorrowed (heap m) sks = true) ->
  queued m (pend ++ [(sh0, t0)]) b <-> queued m pend b.
Proof.
  intros Hno. unfold queued. split.
  - intros (sh & bt & t & sks & Hin & Hsh & Hst & Hnb & Hb).
    apply elem_of_app in Hin as [Hin | Hin]; [eauto 10 |].
    apply list_elem_of_singleton in Hin. inversion Hin; subst.
    specialize (Hno _ _ Hsh Hst). congruence.
  - intros (sh & bt & t & sks & Hin & H). exists sh, bt, t, sks.
    split; [apply elem_of_app; left; exact Hin | exact H].
Qed.

Lemma passedOver_step m pend st sh0 t0 :
  passedOver m pend st ->
  passedOver m (pend ++ [(sh0, t0)]) (closeIfReturned st (sh0, t0)).
Proof.
  destruct st as [mX cX]. intros (Hheap & Hlen & Hshards & Hclosing). simpl in *.
  unfold closeIfReturned. simpl fst. simpl snd.
  destruct (seekersByShardIdx mX !! sh0) as [byTime' |] eqn:HX.
  2: { (* no such shard: nothing happens, and nothing was to be done *)
    assert (Hnone : seekersByShardIdx m !! sh0 = None).
    { apply lookup_ge_None. apply lookup_ge_None in HX. lia. }
    split; [exact Hheap |]. split; [exact Hlen |]. split.
    - intros sh bt bt' H1 H2. destruct (Hshards _ _ _ H1 H2) as (Hs & Ha & Ht).
      split; [exact Hs |]. split; [exact Ha |]. intros t.
      rewrite released_snoc. destruct (Ht t) as [Hr Hn]. split.
      + intros [Hrel | [Heq _]]; [auto |]. inversion Heq; subst. congruence.
      + intros Hnot. apply Hn. tauto.
    - intros b. simpl. rewrite Hclosing. symmetry. apply queued_snoc_keep.
      intros bt sks H. congruence. }
  assert (Hm0 : exists byTime, seekersByShardIdx m !! sh0 = Some byTime).
  { apply lookup_lt_is_Some_2. apply lookup_lt_Some in HX. lia. }
  destruct Hm0 as [byTime Hm0].
  destruct (Hshards _ _ _ Hm0 HX) as (Hs & Ha & Ht).
  destruct (Ht t0) as [Hrel0 Hnrel0].
  set (cur := default zeroRotatableSeekers (sbt_seekers byTime' !! t0)).
  rewrite Hheap.
  destruct (entryBorrowed (heap m) cur) eqn:Hborrowed.
  - (* a borrowed seeker: the entry stays *)
    assert (Hcur : exists sks, sbt_seekers byTime !! t0 = Some sks
                               /\ entryBorrowed (heap m) sks = true).
    { unfold cur in Hborrowed.
      destruct (sbt_seekers byTime' !! t0) as [sks |] eqn:Hcur;
        [| simpl in Hborrowed; discriminate].
      simpl in Hborrowed.
      destruct (released_dec m pend sh0 t0) as [Hr | Hr].
      - specialize (Hrel0 Hr). discriminate.
      - specialize (Hnrel0 Hr). eauto. }
    destruct Hcur as (sks & Hsks & Hb).
    split; [exact Hheap |]. split; [exact Hlen |]. split.
    + intros sh bt bt' H1 H2. destruct (Hshards _ _ _ H1 H2) as (Hs' & Ha' & Ht').
      split; [exact Hs' |]. split; [exact Ha' |]. intros t.
      rewrite released_snoc. destruct (Ht' t) as [Hr Hn]. split.
      * intros [Hrel | [Heq Hall]]; [auto |]. inversion Heq; subst.
        specialize (Hall _ _ Hm0 Hsks). congruence.
      * intros Hnot. apply Hn. tauto.
    + intros b. simpl. rewrite Hclosing. symmetry. apply queued_snoc_keep.
      intros bt sks' H1 H2. congruence.
  - (* all returned: the entry goes and its seekers are queued *)
    assert (HlenX : (sh0 < length (seekersByShardIdx mX))%nat)
      by (eapply lookup_lt_Some; exact HX).
    assert (Horig : forall sks, sbt_seekers byTime !! t0 = Some sks ->
                                entryBorrowed (heap m) sks = false).
    { intros sks Hsks.
      destruct (released_dec m pend sh0 t0) as [Hr | Hr].
      - destruct Hr as [_ Hr]. eapply Hr; eauto.
      - unfold cur in Hborrowed. rewrite (Hnrel0 Hr), Hsks in Hborrowed. exact Hborrowed. }
    split; [exact Hheap |].
    split; [simpl; rewrite length_insert; exact Hlen |]. split.
    + intros sh bt bt' H1. simpl. destruct (decide (sh = sh0)) as [-> | Hne].
      * rewrite list_lookup_insert_eq by exact HlenX. intros H2.
        inversion H2; subst bt'; clear H2. simpl.
        replace bt with byTime by congruence.
        split; [exact Hs |]. split; [exact Ha |]. intros t.
        rewrite released_snoc. destruct (Ht t) as [Hr Hn].
        destruct (decide (t = t0)) as [-> | Hnet].
        -- rewrite lookup_delete_eq. split; [reflexivity |].
           intros Hnot. exfalso. apply Hnot. right. split; [reflexivity |].
           intros bt2 sks Hbt Hsks. rewrite Hm0 in Hbt. inversion Hbt; subst.
           apply Horig. exact Hsks.
        -- rewrite lookup_delete_ne by congruence. split.
           ++ intros [Hrel | [Heq _]]; [auto | inversion Heq; congruence].
           ++ intros Hnot. apply Hn. tauto.
      * rewrite list_lookup_insert_ne by congruence. intros H2.
        destruct (Hshards _ _ _ H1 H2) as (Hs' & Ha' & Ht').
        split; [exact Hs' |]. split; [exact Ha' |]. intros t.
        rewrite released_snoc. destruct (Ht' t) as [Hr Hn]. split.
        -- intros [Hrel | [Heq _]]; [auto | inversion Heq; congruence].
        -- intros Hnot. apply Hn. tauto.
    + intros b. simpl. rewrite !elem_of_app, Hclosing. split.
      * intros [(sh & bt & t & sks' & Hin & H) | Hb].
        { exists sh, bt, t, sks'.
          split; [apply elem_of_app; left; exact Hin | exact H]. }
        assert (Hcur : exists sks, sbt_seekers byTime' !! t0 = Some sks
                                   /\ cur = sks).
        { unfold cur in *. destruct (sbt_seekers byTime' !! t0) as [sks |]; [eauto |].
          simpl in Hb. destruct Hb as [Hb | Hb]; inversion Hb. }
        destruct Hcur as (sks & Hcur & Heq). rewrite Heq in *.
        assert (Hsks : sbt_seekers byTime !! t0 = Some sks).
        { destruct (released_dec m pend sh0 t0) as [Hr | Hr].
          - rewrite (Hrel0 Hr) in Hcur. discriminate.
          - rewrite <- (Hnrel0 Hr). exact Hcur. }
        exists sh0, byTime, t0, sks.
        split; [apply elem_of_app; right; left |].
        split; [exact Hm0 |]. split; [exact Hsks |].
        split; [exact Hborrowed |].
        unfold SeekFacts.entrySeekers. apply in_or_app.
        destruct Hb as [Hb | Hb]; apply list_elem_of_In in Hb; tauto.
      * intros (sh & bt & t & sks' & Hin & Hsh & Hst & Hnb & Hb').
        apply elem_of_app in Hin as [Hin | Hin]; [left; exists sh, bt, t, sks'; auto |].
        apply list_elem_of_singleton in Hin. inversion Hin; subst.
        rewrite Hm0 in Hsh. inversion Hsh; subst.
        destruct (released_dec m pend sh0 t0) as [Hr | Hr].
        -- left. destruct Hr as [Hr _]. exists sh0, bt, t0, sks'. auto.
        -- right. unfold cur. rewrite (Hnrel0 Hr), Hst. simpl.
           unfold SeekFacts.entrySeekers in Hb'. apply in_app_or in Hb'.
           rewrite !list_elem_of_In. exact Hb'.
Qed.

Lemma passedOver_foldl m pend :
  passedOver m pend (foldl closeIfReturned (m, []) pend).
Proof.
  induction pend as [|e pend IH] using rev_ind; [apply passedOver_nil |].
  rewrite foldl_app. simpl. destruct e as [sh0 t0].
  apply passedOver_step. exact IH.
Qed.

(** X21.  The closing half of a pass of the open/close loop never closes a
    borrowed seeker.  It deletes exactly the entries for block starts before
    the earliest seekable one none of whose seekers, active or inactive, is
    borrowed, and closes the seekers of these entries and no others; every
    other entry, every array and the order of the shards stay as they
    are. *)
Theorem closeExpired_spares_borrowed_seekers :
  forall (m : seekerManager) (earliest : Time),
    let m' := closeExpired m earliest in
    arrays (heap m') = arrays (heap m)
    /\ length (seekersByShardIdx m') = length (seekersByShardIdx m)
    /\ (forall sh byTime byTime',
          seekersByShardIdx m !! sh = Some byTime ->
          seekersByShardIdx m' !! sh = Some byTime' ->
          forall t,
            sbt_seekers byTime' !! t
            = match sbt_seekers byTime !! t with
              | Some sks =>
                  if Before t earliest && negb (entryBorrowed (heap m) sks)
                  then None else Some sks
              | None => None
              end)
    /\ exists closing,
         closedSeekers (heap m') = closedSeekers (heap m) ++ map seeker closing
         /\ Forall (fun b => isBorrowed b = false) closing
         /\ forall b,
              b ∈ closing <->
              exists sh byTime t sks,
                seekersByShardIdx m !! sh = Some byTime
                /\ sbt_seekers byTime !! t = Some sks
                /\ Before t earliest = true
                /\ entryBorrowed (heap m) sks = false
                /\ In b (SeekFacts.entrySeekers (heap m) sks).
Proof.
  intros m earliest. unfold closeExpired.
  pose proof (passedOver_foldl m (pendingCloses m earliest)) as Hp.
  destruct (foldl closeIfReturned (m, []) (pendingCloses m earliest)) as [m1 closing].
  destruct Hp as (Hheap & Hlen & Hshards & Hclosing). simpl in *.
  split; [rewrite Hheap; reflexivity |].
  split; [exact Hlen |]. split.
  - intros sh byTime byTime' H1 H2 t.
    destruct (Hshards _ _ _ H1 H2) as (_ & _ & Ht). destruct (Ht t) as [Hr Hn].
    destruct (sbt_seekers byTime !! t) as [sks |] eqn:Hst.
    + destruct (Before t earliest) eqn:Hb; simpl.
      * destruct (entryBorrowed (heap m) sks) eqn:He; simpl.
        -- apply Hn. intros [_ Hall]. specialize (Hall _ _ H1 Hst). congruence.
        -- apply Hr. split.
           ++ apply pendingCloses_elem. exists byTime. rewrite Hst. eauto.
           ++ intros bt sks' Hbt Hs'. congruence.
      * apply Hn. intros [Hin _]. apply pendingCloses_elem in Hin as (bt & _ & _ & Hb').
        congruence.
    + destruct (released_dec m (pendingCloses m earliest) sh t) as [Hrel | Hrel]; auto.
  - exists closing. split; [rewrite Hheap; reflexivity |].
    assert (Hiff : forall b,
               b ∈ closing <->
               exists sh byTime t sks,
                 seekersByShardIdx m !! sh = Some byTime
                 /\ sbt_seekers byTime !! t = Some sks
                 /\ Before t earliest = true
                 /\ entryBorrowed (heap m) sks = false
                 /\ In b (SeekFacts.entrySeekers (heap m) sks)).
    { intros b. rewrite Hclosing. unfold queued. split.
      - intros (sh & bt & t & sks & Hin & Hsh & Hst & He & Hb).
        apply pendingCloses_elem in Hin as (bt' & _ & _ & Hbef).
        exists sh, bt, t, sks. auto.
      - intros (sh & bt & t & sks & Hsh & Hst & Hbef & He & Hb).
        exists sh, bt, t, sks. split; [| auto].
        apply pendingCloses_elem. exists bt. rewrite Hst. eauto. }
    split; [| exact Hiff].
    apply Forall_forall. intros b Hb. apply Hiff in Hb as (sh & bt & t & sks & _ & _ & _ & He & Hb).
    destruct (isBorrowed b) eqn:Hbor; [| reflexivity].
    assert (Ht : entryBorrowed (heap m) sks = true)
      by (apply SeekFacts.entryBorrowed_spec; eauto).
    congruence.
Qed.

(** *** Opening the seekable blocks *)

Local Open Scope Z_scope.

(** The shard [sh] holds open seekers for the block at [t]. *)
Definition opened (m : seekerManager) (sh : nat) (t : Z) : Prop :=
  exists byTime sks,
    seekersByShardIdx m !! sh = Some byTime
    /\ sbt_seekers byTime !! t = Some sks /\ wg (active sks) = None.

(** The latest lease of the block at [t] names a volume whose file set does
    not exist. *)
Definition fileSetMissing (ns : Z) (sh : nat) (t : Z) : Prop :=
  exists vol, openLatestLease ns sh t = inr vol /\ newOpenSeekerErr sh t vol = Some 0.

Lemma newSeekersAndBloom_notFound fc h sh t vol h' :
  newSeekersAndBloom fc h sh t vol = (inl errSeekerManagerFileSetNotFound, h') ->
  newOpenSeekerErr sh t vol = Some 0.
Proof.
  unfold newSeekersAndBloom, errSeekerManagerFileSetNotFound.
  destruct (newOpenSeekerErr sh t vol) as [code |].
  - intros H. inversion H. reflexivity.
  - unfold freshSeeker, seekersAndBloomFromSeeker.
    destruct (cloneLoop _ _ _ _ _) as [[errs | bss] h1]; intros H; inversion H.
Qed.

Lemma getOrOpenSeekersWithLock_opened m sh t r m1 :
  getOrOpenSeekersWithLock m sh t = (r, m1) ->
  namespace m1 = namespace m
  /\ (forall t', opened m sh t' -> opened m1 sh t')
  /\ match r with
     | Done _ => opened m1 sh t
     | Failed e => e = errSeekerManagerFileSetNotFound -> fileSetMissing (namespace m) sh t
     | Blocked => True
     end.
Proof.
  unfold getOrOpenSeekersWithLock.
  destruct (seekersByShardIdx m !! sh) as [byTime |] eqn:Hsh;
    [| intros H; inversion H; subst; auto].
  destruct (sbt_seekers byTime !! t) as [sks |] eqn:Hst.
  { destruct (wg (active sks)) eqn:Hw; intros H; inversion H; subst; [auto |].
    split; [reflexivity |]. split; [auto |]. exists byTime, sks. auto. }
  unfold freshWg. cbn beta iota zeta.
  destruct (openLatestLease (namespace m) sh t) as [code | vol] eqn:Hlease.
  { intros H; inversion H; subst. split; [reflexivity |]. split.
    - intros t' (bt & sks & H1 & H2). exists bt, sks. auto.
    - discriminate. }
  destruct (newSeekersAndBloom _ _ _ _ _) as [[e | sab] h2] eqn:Hnew.
  - intros H; inversion H; subst. split; [reflexivity |]. split.
    + intros t' (bt & sks & H1 & H2). exists bt, sks. auto.
    + intros ->. apply newSeekersAndBloom_notFound in Hnew. exists vol. auto.
  - match type of Hnew with newSeekersAndBloom ?fc ?h _ _ _ = _ =>
      pose proof (BorrowFacts.newSeekersAndBloom_shape fc h sh t vol) as Hshape end.
    rewrite Hnew in Hshape.
    destruct Hshape as (_ & _ & _ & _ & Hw & _).
    assert (Hlen : (sh < length (seekersByShardIdx m))%nat)
      by (eapply lookup_lt_Some; exact Hsh).
    intros H; inversion H; subst. split; [reflexivity |]. split.
    + intros t' (bt & sks & H1 & H2 & H3).
      rewrite Hsh in H1. inversion H1; subst bt.
      eexists _, sks. simpl. split; [apply list_lookup_insert_eq; exact Hlen |].
      simpl. split; [| exact H3].
      rewrite lookup_insert_ne by (intros ->; congruence). exact H2.
    + eexists _, _. simpl. split; [apply list_lookup_insert_eq; exact Hlen |].
      simpl. split; [apply lookup_insert_eq | exact Hw].
Qed.

Lemma openUnopenLoop_opened sh blockSize n : forall m t errs errs' m',
  openUnopenLoop n m sh t blockSize errs = (Done errs', m') ->
  namespace m' = namespace m
  /\ (forall t', opened m sh t' -> opened m' sh t')
  /\ exists more,
       errs' = errs ++ more
       /\ (more = [] ->
           forall k, (k < n)%nat ->
                     opened m' sh (t + Z.of_nat k * blockSize)
                     \/ fileSetMissing (namespace m) sh (t + Z.of_nat k * blockSize)).
Proof.
  induction n as [|n IH]; intros m t errs errs' m'; simpl.
  { intros H; inversion H; subst. split; [reflexivity |]. split; [auto |].
    exists []. rewrite app_nil_r. split; [reflexivity |]. intros _ k Hk. lia. }
  destruct (getOrOpenSeekersWithLock m sh t) as [[sab | e |] m1] eqn:Hget;
    [| | intros H; inversion H].
  - destruct (getOrOpenSeekersWithLock_opened _ _ _ _ _ Hget) as (Hns & Hkeep & Hop).
    intros H. apply IH in H as (Hns' & Hkeep' & more & Herrs & Hall).
    split; [congruence |]. split; [auto |].
    exists more. split; [exact Herrs |]. intros Hmore [|k] Hk.
    + left. apply Hkeep'. replace (t + Z.of_nat 0 * blockSize) with t by lia. exact Hop.
    + replace (t + Z.of_nat (S k) * blockSize)
        with (Add t blockSize + Z.of_nat k * blockSize) by (unfold Add; lia).
      rewrite <- Hns. apply Hall; [exact Hmore | lia].
  - destruct (getOrOpenSeekersWithLock_opened _ _ _ _ _ Hget) as (Hns & Hkeep & Hop).
    intros H. apply IH in H as (Hns' & Hkeep' & more & Herrs & Hall).
    split; [congruence |]. split; [auto |].
    destruct (decide (e = errSeekerManagerFileSetNotFound)) as [He | He].
    + exists more. split; [exact Herrs |]. intros Hmore [|k] Hk.
      * right. replace (t + Z.of_nat 0 * blockSize) with t by lia. auto.
      * replace (t + Z.of_nat (S k) * blockSize)
          with (Add t blockSize + Z.of_nat k * blockSize) by (unfold Add; lia).
        rewrite <- Hns. apply Hall; [exact Hmore | lia].
    + exists (e :: more). split; [rewrite Herrs, <- app_assoc; reflexivity |].
      discriminate.
Qed.

(** X22.  When [openAnyUnopenSeekers], for a positive block size, returns
    without an error, every block start from the earliest to the latest
    seekable one, in steps of the block size, has open seekers in the shard,
    except the blocks whose file set does not exist; seekers that were open
    before are still open. *)
Theorem openAnyUnopenSeekers_opens_seekable_blocks
    (m : seekerManager) (sh : nat) (flushTimeStart now : Time) (blockSize : Duration)
    (m' : seekerManager)
    (Hsize : 0 < blockSize)
    (Hrun : openAnyUnopenSeekers m sh flushTimeStart now blockSize = (Done [], m')) :
  let earliest := earliestSeekableBlockStart flushTimeStart blockSize in
  let latest := latestSeekableBlockStart now blockSize in
  (forall t, opened m sh t -> opened m' sh t)
  /\ forall t,
       earliest <= t <= latest -> (blockSize | t - earliest) ->
       opened m' sh t \/ fileSetMissing (namespace m) sh t.
Proof.
  intros earliest latest. revert Hrun. unfold openAnyUnopenSeekers, seekableRuns.
  fold earliest latest. unfold After.
  destruct (Z.ltb_spec latest earliest) as [Hlt | Hle].
  { simpl. intros H; inversion H; subst. split; [auto |]. intros t Ht. lia. }
  destruct (Z.leb_spec blockSize 0) as [| _]; [lia |].
  intros H. apply openUnopenLoop_opened in H as (_ & Hkeep & more & Herrs & Hall).
  split; [exact Hkeep |].
  assert (Hmore : more = []) by (destruct more; [reflexivity | discriminate]).
  intros t [Ht1 Ht2] [q Hq].
  assert (Hq0 : 0 <= q) by nia.
  assert (Hqn : (Z.to_nat q < Z.to_nat ((latest - earliest) / blockSize + 1))%nat).
  { assert (q <= (latest - earliest) / blockSize)
      by (apply Z.div_le_lower_bound; [lia | nia]).
    lia. }
  specialize (Hall Hmore _ Hqn).
  replace (earliest + Z.of_nat (Z.to_nat q) * blockSize) with t in Hall
    by (rewrite Z2Nat.id by lia; lia).
  exact Hall.
Qed.

End Facts.

#[local] Existing Instance Fixtures.quietEnv.
Local Open Scope Z_scope.

(** The flush time starts at 02:00:00 and the clock is at 02:01:40: the
    seekable blocks are those at 01:00:00 and 02:00:00.  The block at
    01:00:00 of shard 0 is open already. *)
Definition pastTwoBlocks : seekerManager :=
  Eval vm_compute in
    (openAnyUnopenSeekers BorrowFacts.oneBorrowed 0 7200 7300 3600).2.

Lemma openAnyUnopenSeekers_opens_seekable_blocks_witness :
  openAnyUnopenSeekers BorrowFacts.oneBorrowed 0 7200 7300 3600
  = (Done [], pastTwoBlocks)
  /\ (opened pastTwoBlocks 0 7200 \/ fileSetMissing 7 0 7200).
Proof.
  assert (Hrun : openAnyUnopenSeekers BorrowFacts.oneBorrowed 0 7200 7300 3600
                 = (Done [], pastTwoBlocks)) by (vm_compute; reflexivity).
  split; [exact Hrun |].
  apply (proj2 (openAnyUnopenSeekers_opens_seekable_blocks
                  BorrowFacts.oneBorrowed 0 7200 7300 3600 pastTwoBlocks
                  ltac:(lia) Hrun) 7200).
  - vm_compute. split; discriminate.
  - exists 1. vm_compute. reflexivity.
Defined.

End LoopFacts.

(** ** Merges, wired blocks and evictions *)
Module EvictionFacts.
Import Clock Buffer.
Local Open Scope Z_scope.

Section Facts.
Context `{Ext : Externals}.


Lemma merge_settles bs bk log n bk' log' :
  merge bs bk log = (inr n, bk', log') -> needsMerge bk' = false.
Proof.
  destruct (needsMerge bk) eqn:Hn.
  - intros H. destruct (BucketFacts.merge_success _ _ _ _ _ _ Hn H)
      as (enc & lw & He & Hb & _).
    unfold needsMerge, hasJustSingleEncoder. rewrite He, Hb. reflexivity.
  - rewrite (BucketFacts.merge_noop _ _ _ Hn). intros H. inversion H; subst. exact Hn.
Qed.

Lemma merge_start bs bk log r bk' log' :
  merge bs bk log = (r, bk', log') -> start bk' = start bk.
Proof.
  destruct (needsMerge bk) eqn:Hn.
  - destruct r as [e | n]; intros H.
    + apply BucketFacts.merge_failure in H as [-> _]. reflexivity.
    + destruct (BucketFacts.merge_success _ _ _ _ _ _ Hn H)
        as (enc & lw & _ & _ & _ & _ & Hs & _). exact Hs.
  - rewrite (BucketFacts.merge_noop _ _ _ Hn). intros H. inversion H; subst.
    reflexivity.
Qed.

Lemma bv_mergeLoop_settles bs wt l : forall res log n l' log',
  bv_mergeLoop bs wt l res log = (inr n, l', log') ->
  Forall (fun bk => isWritable wt bk -> needsMerge bk = false) l'
  /\ Forall2 (fun bk bk' => start bk' = start bk
                            /\ (~ isWritable wt bk -> bk' = bk)) l l'.
Proof.
  induction l as [|b l IH]; intros res log n l' log'; simpl.
  { intros H; inversion H; subst. split; constructor. }
  destruct (bool_decide (version b = writableBucketVersion)) eqn:Hv;
    destruct (bool_decide (wt = writeType b)) eqn:Hw; simpl.
  - destruct (merge bs b log) as [[[e | k] b1] log1] eqn:Hm; [intros H; inversion H |].
    destruct (bv_mergeLoop bs wt l (res + k) log1) as [[r2 l2] log2] eqn:Hl.
    intros H; inversion H; subst. destruct (IH _ _ _ _ _ Hl) as [H1 H2].
    split; constructor; auto.
    + intros _. eapply merge_settles; exact Hm.
    + split; [eapply merge_start; exact Hm |].
      intros Hnot. exfalso. apply Hnot.
      apply bool_decide_eq_true in Hv, Hw. split; congruence.
  - destruct (bv_mergeLoop bs wt l res log) as [[r2 l2] log2] eqn:Hl.
    intros H; inversion H; subst. destruct (IH _ _ _ _ _ Hl) as [H1 H2].
    split; constructor; auto.
    intros [_ Ht]. apply bool_decide_eq_false in Hw. congruence.
  - destruct (bv_mergeLoop bs wt l res log) as [[r2 l2] log2] eqn:Hl.
    intros H; inversion H; subst. destruct (IH _ _ _ _ _ Hl) as [H1 H2].
    split; constructor; auto.
    intros [Hv' _]. apply bool_decide_eq_false in Hv. congruence.
  - destruct (bv_mergeLoop bs wt l res log) as [[r2 l2] log2] eqn:Hl.
    intros H; inversion H; subst. destruct (IH _ _ _ _ _ Hl) as [H1 H2].
    split; constructor; auto.
    intros [Hv' _]. apply bool_decide_eq_false in Hv. congruence.
Qed.

(** X23.  A successful merge of the bucket versions leaves every writable
    bucket of the write type merged: each has a single encoder and no
    bootstrapped block, or a single bootstrapped block and no data in
    encoders; the other buckets, and the version, write type and start of
    every bucket, are untouched. *)
Theorem bv_merge_settles_writable_buckets :
  forall (bs : Duration) (wt : WriteType) (bv : BufferBucketVersions) (log : Log),
    match bv_merge bs wt bv log with
    | (inr _, bv', _) =>
        Forall (fun bk => isWritable wt bk -> needsMerge bk = false) (buckets bv')
        /\ Forall2 (fun bk bk' =>
                      version bk' = version bk /\ writeType bk' = writeType bk
                      /\ start bk' = start bk
                      /\ (~ isWritable wt bk -> bk' = bk))
                   (buckets bv) (buckets bv')
        /\ bv_start bv' = bv_start bv
    | (inl _, _, _) => True
    end.
Proof.
  intros bs wt bv log. unfold bv_merge.
  destruct (bv_mergeLoop bs wt (buckets bv) 0 log) as [[[e | n] l'] log'] eqn:Hl;
    [exact I |].
  destruct (bv_mergeLoop_settles _ _ _ _ _ _ _ _ Hl) as [H1 H2].
  pose proof (VersionFacts.bv_mergeLoop_kind _ _ _ _ _ _ _ _ Hl) as H3.
  simpl. split; [exact H1 |]. split; [| reflexivity].
  apply Forall2_same_length_lookup. apply Forall2_same_length_lookup in H2 as [Hlen H2].
  apply Forall2_same_length_lookup in H3 as [_ H3].
  split; [exact Hlen |]. intros i x y Hx Hy.
  destruct (H3 _ _ _ Hx Hy) as [Hv Hw].
  destruct (H2 _ _ _ Hx Hy) as [Hs Hsame].
  split; [exact Hv |]. split; [exact Hw |]. split; [exact Hs | exact Hsame].
Qed.

(** X24.  On a coherent buffer [Stats] reports as many wired blocks as the
    sorted list has block starts, and [IsEmpty] holds exactly when there is
    none. *)
Theorem Stats_counts_block_starts
    (b : dbBuffer) (Hc : CoherenceFacts.coherent b) :
  Stats b = length (inOrderBlockStarts b)
  /\ (IsEmpty b = true <-> inOrderBlockStarts b = []).
Proof.
  assert (Hlen : Stats b = length (inOrderBlockStarts b)).
  { unfold Stats. rewrite <- length_map_to_list.
    rewrite <- (length_fmap fst (map_to_list (bucketsMap b))).
    apply Permutation_length. apply NoDup_Permutation.
    - apply NoDup_fst_map_to_list.
    - assert (Hs : StronglySorted Z.lt (inOrderBlockStarts b)) by apply Hc.
      clear -Hs. induction Hs as [|x l Hs IH Hall]; [constructor |].
      apply NoDup_cons. split; [| exact IH].
      intros Hin. rewrite Forall_forall in Hall. specialize (Hall x Hin). lia.
    - intros t. rewrite <- (CoherenceFacts.coh_keys _ Hc).
      rewrite list_elem_of_fmap. split.
      + intros ([t' p] & -> & Hin). apply elem_of_map_to_list in Hin. eauto.
      + intros [p Hp]. exists (t, p). split; [reflexivity |].
        apply elem_of_map_to_list. exact Hp. }
  split; [exact Hlen |].
  unfold IsEmpty. rewrite bool_decide_eq_true. unfold Stats in Hlen. rewrite Hlen.
  split; [apply length_zero_iff_nil | intros ->; reflexivity].
Qed.






End Facts.

#[local] Existing Instance Fixtures.listExternals.

(** The clock at 02:00:00 and a warm write at 02:00:10. *)
Definition warmWritten : dbBuffer :=
  (Write (newDatabaseBuffer (Fixtures.hourConfig false)) 7200 7210 1 tt
         Fixtures.plainWrite).2.




Lemma Stats_counts_block_starts_witness :
  Stats warmWritten = 1%nat /\ IsEmpty warmWritten = false.
Proof.
  assert (Hc : CoherenceFacts.coherent warmWritten)
    by (unfold warmWritten;
        apply CoherenceFacts.coherent_Write, CoherenceFacts.coherent_new).
  destruct (Stats_counts_block_starts warmWritten Hc) as [Hs _].
  split; [rewrite Hs; reflexivity | reflexivity].
Defined.


End EvictionFacts.

(** ** The cache of bucket versions *)
Module CacheFacts.
Import Clock Buffer.
Local Open Scope Z_scope.

Section Facts.
Context `{Ext : Externals}.

Lemma putBucketVersionsInCache_recent x y p :
  (forall q, x = Some q -> y <> Some q) ->
  putBucketVersionsInCache [x; y] p
  = [Some p; if decide (x = Some p) then y else x].
Proof.
  intros Hxy. unfold putBucketVersionsInCache. simpl.
  destruct (decide (x = Some p)) as [Hx | Hx];
    destruct (decide (y = Some p)) as [Hy | Hy]; simpl.
  - exfalso. exact (Hxy p Hx Hy).
  - reflexivity.
  - reflexivity.
  - reflexivity.
Qed.

Lemma bucketVersionsAtCreate_cache b t :
  bucketVersionsCache (bucketVersionsAtCreate b t).2 = bucketVersionsCache b.
Proof.
  unfold bucketVersionsAtCreate.
  destruct (bucketVersionsAt b t); [reflexivity |].
  destruct (poolGet b) as [[p pool'] next']. reflexivity.
Qed.

(** X26.  The cache holds the bucket versions of the two blocks written
    to most recently: after a write that is not refused, the bucket versions
    of the block of the timestamp are first in the cache, and second is what
    was first before, unless that was the same object, in which case the
    second stays. *)
Theorem Write_keeps_two_most_recent_blocks
    (b : dbBuffer) (now ts : Time) (v : Value) (m : Meta) (wOpts : WriteOptions)
    (w : bool) (b' : dbBuffer) (x y : option ptr)
    (Hc : CoherenceFacts.coherent b)
    (Hcache : bucketVersionsCache b = [x; y])
    (Hw : Write b now ts v m wOpts = (inr w, b')) :
  exists p,
    bucketsMap b' !! Truncate ts (blockSize (cfg b)) = Some p
    /\ bucketVersionsCache b' = [Some p; if decide (x = Some p) then y else x].
Proof.
  assert (Hxy : forall q, x = Some q -> y <> Some q).
  { destruct (CoherenceFacts.coh_cache_shape _ Hc) as (x' & y' & Heq & Hne).
    rewrite Hcache in Heq. inversion Heq; subst. exact Hne. }
  revert Hw. unfold Write.
  destruct (writeTypeAt (cfg b) now ts) as [e | wt]; [intros H; inversion H |].
  destruct (if decide (wt = ColdWrite) then _ else _); [intros H; inversion H |].
  unfold writeTo.
  pose proof (bucketVersionsAtCreate_cache b (Truncate ts (blockSize (cfg b))))
    as Hcc.
  destruct (bucketVersionsAtCreate b _) as [p b1] eqn:Hcr. simpl in Hcc.
  destruct (CoherenceFacts.coherent_create _ _ _ _ Hc Hcr) as [Hc1 Hm1].
  destruct (CoherenceFacts.coh_objects _ Hc1 _ _ Hm1) as (bv & Hbv & Hs).
  simpl. rewrite Hbv.
  destruct (bv_write _ _ _ _ _ _ _) as [[r bv'] log'].
  intros H. inversion H; subst; clear H. simpl.
  exists p. split; [exact Hm1 |].
  rewrite Hcc, Hcache. apply putBucketVersionsInCache_recent. exact Hxy.
Qed.

End Facts.

#[local] Existing Instance Fixtures.listExternals.

(** The buffer after writes into the blocks at 02:00:00 and 01:00:00, and
    a third write into the block at 00:00:00. *)
Definition thirdBlockWritten : dbBuffer :=
  Eval vm_compute in (Write BufferFacts.twoBlocks 7200 100 3 tt Fixtures.plainWrite).2.

Lemma Write_keeps_two_most_recent_blocks_witness :
  bucketVersionsCache BufferFacts.twoBlocks = [Some 1%nat; Some 0%nat]
  /\ bucketVersionsCache thirdBlockWritten = [Some 2%nat; Some 1%nat].
Proof.
  assert (Hcache : bucketVersionsCache BufferFacts.twoBlocks = [Some 1%nat; Some 0%nat])
    by (vm_compute; reflexivity).
  split; [exact Hcache |].
  destruct (@Write_keeps_two_most_recent_blocks Fixtures.listExternals
              BufferFacts.twoBlocks 7200 100 3 tt Fixtures.plainWrite true
              thirdBlockWritten (Some 1%nat) (Some 0%nat)
              BufferFacts.twoBlocks_coherent Hcache)
    as (p & Hp & Hc).
  { vm_compute. reflexivity. }
  assert (Hp2 : bucketsMap thirdBlockWritten !! 0 = Some 2%nat) by (vm_compute; reflexivity).
  assert (Heq : p = 2%nat).
  { assert (Ht : Truncate 100 (blockSize (cfg BufferFacts.twoBlocks)) = 0)
      by (vm_compute; reflexivity).
    rewrite Ht in Hp. pose proof (eq_trans (eq_sym Hp) Hp2) as H.
    inversion H. reflexivity. }
  rewrite Hc, Heq. reflexivity.
Defined.

End CacheFacts.

(** ** Opening that fails *)
Module FailureFacts.
Import Clock SeekMgr.

Section Facts.
Context `{Env : SeekerEnv}.

(** Nothing is left of the seekers made from [h] to [h']: they are all
    closed again and no array was made. *)
Definition nothingLeft (h h' : Heap) : Prop :=
  arrays h' = arrays h
  /\ exists n,
       nextSeeker h' = (nextSeeker h + n)%nat
       /\ closedSeekers h' = closedSeekers h ++ seq (nextSeeker h) n.

Lemma nothingLeft_failed fc h sh t vol e h' :
  newSeekersAndBloom fc h sh t vol = (inl e, h') -> nothingLeft h h'.
Proof.
  intros H. pose proof (BorrowFacts.newSeekersAndBloom_shape fc h sh t vol) as Hs.
  rewrite H in Hs. destruct Hs as (n & (Hn & _) & Hc & Ha & _).
  split; [exact Ha |]. exists n. auto.
Qed.

Lemma Borrow_new_array_available fc h sh t vol sab h' :
  newSeekersAndBloom fc h sh t vol = (inr sab, h') ->
  exists i b, list_find notBorrowed (elems h' (seekers sab)) = Some (i, b).
Proof.
  intros H. pose proof (BorrowFacts.newSeekersAndBloom_shape fc h sh t vol) as Hs.
  rewrite H in Hs. destruct Hs as (Hse & Ha & _).
  unfold elems. rewrite Hse, Ha, lookup_insert_eq. simpl. eauto.
Qed.

(** X27.  An open that fails leaks nothing: when [Borrow] fails for
    another reason than seekers being all borrowed, the manager has no new
    entry and no new array, and every seeker that was opened on the way is
    closed again; the block can be opened afresh by the next caller. *)
Theorem Borrow_failed_open_leaks_nothing
    (m : seekerManager) (sh : nat) (start : Time) (e : error) (m' : seekerManager)
    (Hb : Borrow m sh start = (Failed e, m'))
    (He : e <> errNoAvailableSeekers) :
  sbt_seekers <$> seekersByShardIdx m' = sbt_seekers <$> seekersByShardIdx (growShards m sh)
  /\ nothingLeft (heap m) (heap m').
Proof.
  revert Hb. unfold Borrow.
  destruct (SeekFacts.growShards_lookup m sh) as [byTime Hsh]. rewrite Hsh.
  pose proof (SeekFacts.growShards_heap m sh) as Hheap.
  set (m0 := growShards m sh) in *.
  assert (Hlen : (sh < length (seekersByShardIdx m0))%nat)
    by (eapply lookup_lt_Some; exact Hsh).
  assert (Hshards : sbt_seekers <$>
                      <[sh := {| shard := shard byTime; accessed := true;
                                 sbt_seekers := sbt_seekers byTime |}]>
                        (seekersByShardIdx m0)
                    = sbt_seekers <$> seekersByShardIdx m0).
  { rewrite list_fmap_insert. apply list_insert_id.
    rewrite list_lookup_fmap, Hsh. reflexivity. }
  unfold getOrOpenSeekersWithLock. simpl seekersByShardIdx.
  rewrite list_lookup_insert_eq by exact Hlen. simpl sbt_seekers.
  destruct (sbt_seekers byTime !! start) as [sks |] eqn:Hst.
  { destruct (wg (active sks)); [intros H; inversion H |].
    destruct (list_find notBorrowed _) as [[i b] |]; intros H; inversion H.
    congruence. }
  unfold freshWg. cbn beta iota zeta. simpl namespace. simpl heap. simpl fetchConcurrency.
  destruct (openLatestLease (namespace m0) sh start) as [code | vol].
  { intros H; inversion H; subst. simpl. split; [exact Hshards |].
    rewrite Hheap. split; [reflexivity |]. exists 0%nat.
    rewrite Nat.add_0_r, app_nil_r. auto. }
  destruct (newSeekersAndBloom _ _ _ _ _) as [[e' | sab] h2] eqn:Hnew.
  - intros H; inversion H; subst. simpl. split; [exact Hshards |].
    apply nothingLeft_failed in Hnew. rewrite Hheap in Hnew. exact Hnew.
  - destruct (Borrow_new_array_available _ _ _ _ _ _ _ Hnew) as (i & b & Hf).
    simpl heap. rewrite Hf. intros H; inversion H.
Qed.

(** X28.  A lease update that cannot open the seekers of the new volume
    fails with the error of the open and changes nothing of the manager but
    the heap, where every seeker opened on the way is closed again: the
    seekers of the block stay as they were and the manager is not left
    marked as updating. *)
Theorem UpdateOpenLease_failed_open_keeps_seekers
    (m : seekerManager) (descriptor : LeaseDescriptor) (state : LeaseState)
    (e : error) (h1 : Heap)
    (Hopen : status m = seekerManagerOpen)
    (Hupd : isUpdatingLease m = false)
    (Hns : namespace m = ld_Namespace descriptor)
    (Hnew : newSeekersAndBloom (fetchConcurrency m) (heap m) (ld_Shard descriptor)
                               (ld_BlockStart descriptor) (ls_Volume state)
            = (inl e, h1)) :
  UpdateOpenLeaseFn m descriptor state = (LeaseFailed e, setHeap m h1)
  /\ nothingLeft (heap m) h1.
Proof.
  split; [| eapply nothingLeft_failed; exact Hnew].
  unfold UpdateOpenLeaseFn, startUpdateOpenLease.
  rewrite Hopen, Hupd, Hns, Z.eqb_refl. simpl negb. cbn iota.
  unfold updateOpenLeaseHotSwapSeekers. simpl fetchConcurrency. simpl heap.
  rewrite Hnew. rewrite (SeekFacts.setHeap_isUpdating _ _ _ Hupd). reflexivity.
Qed.

End Facts.

(** Collaborators whose second clone of a seeker fails. *)
#[local] Instance cloneFails : SeekerEnv := {|
  newOpenSeekerErr := fun _ _ _ => None;
  cloneErr := fun _ i => if (i =? 1)%nat then Some 9%Z else None;
  closeErr := fun _ => None;
  openLatestLease := fun _ _ _ => inr 0%Z
|}.

(** With three seekers for each block the seeker and its first clone are
    opened and closed again. *)
Lemma Borrow_failed_open_leaks_nothing_witness :
  exists m',
    Borrow (Open (NewSeekerManager 3) 7).2 0 3600%Z = (Failed (MultiError [9%Z]), m')
    /\ closedSeekers (heap m') = [0%nat; 1%nat]
    /\ arrays (heap m') = ∅.
Proof.
  eexists. split; [vm_compute; reflexivity |].
  assert (Hb : Borrow (Open (NewSeekerManager 3) 7).2 0 3600%Z
               = (Failed (MultiError [9%Z]),
                  (Borrow (Open (NewSeekerManager 3) 7).2 0 3600%Z).2))
    by (vm_compute; reflexivity).
  destruct (Borrow_failed_open_leaks_nothing _ _ _ _ _ Hb ltac:(discriminate))
    as (_ & Ha & _).
  split; [vm_compute; reflexivity |]. vm_compute. reflexivity.
Defined.

Definition updateToOne : LeaseState := {| ls_Volume := 1 |}.

Definition blockLease : LeaseDescriptor :=
  {| ld_Namespace := 7; ld_Shard := 0; ld_BlockStart := 3600 |}.

Definition failedHeap : Heap :=
  Eval vm_compute in
    (newSeekersAndBloom 3 (heap (Open (NewSeekerManager 3) 7).2) 0 3600%Z 1).2.

Lemma UpdateOpenLease_failed_open_keeps_seekers_witness :
  UpdateOpenLeaseFn (Open (NewSeekerManager 3) 7).2 blockLease updateToOne
  = (LeaseFailed (MultiError [9%Z]), setHeap (Open (NewSeekerManager 3) 7).2 failedHeap)
  /\ closedSeekers failedHeap = [0%nat; 1%nat].
Proof.
  split; [| reflexivity].
  apply (UpdateOpenLease_failed_open_keeps_seekers
           (Open (NewSeekerManager 3) 7).2 blockLease updateToOne
           (MultiError [9%Z]) failedHeap);
    vm_compute; reflexivity.
Defined.

End FailureFacts.
